(** * SAT sweeping over And-Inverter Graphs: a shallow embedding of
      [src/proof/cec/cecSat.c]

    The development follows the C file function by function.  Machine
    integers are integers of [Z]; the 64-bit simulation words and the
    32-bit hash accumulator carry their wrap-around explicitly.  Arrays
    are lists addressed by an integer index.  Code that can stop on an
    assertion runs in a small error monad. *)

From Stdlib Require Import ZArith List Bool Lia.
From stdpp Require Import base list gmap.

Local Open Scope Z_scope.

(** ** Arrays addressed by a C [int] *)

(** Reading outside the array is undefined in C; the embedding returns
    the default there, and a write outside the array changes nothing.
    The well-formedness hypotheses of the theorems keep every access
    that matters inside the array. *)
Definition Vec_Entry {A} (d : A) (v : list A) (i : Z) : A :=
  if i <? 0 then d else default d (v !! Z.to_nat i).

Definition Vec_WriteEntry {A} (v : list A) (i : Z) (x : A) : list A :=
  if i <? 0 then v else <[Z.to_nat i := x]> v.

Definition Vec_Size {A} (v : list A) : Z := Z.of_nat (length v).

(** [Vec_PtrPushUnique]: push unless the entry is already there. *)
Definition Vec_PushUnique {A} (eqb : A -> A -> bool) (v : list A) (x : A) : list A :=
  if existsb (eqb x) v then v else v ++ [x].

(** ** Literals ([misc/util/abc_global.h]) *)

Definition Abc_Var2Lit (Var : Z) (c : bool) : Z := Var + Var + Z.b2z c.
Definition Abc_Lit2Var (Lit : Z) : Z := Z.shiftr Lit 1.
Definition Abc_LitIsCompl (Lit : Z) : bool := Z.odd Lit.
Definition Abc_LitNot (Lit : Z) : Z := Z.lxor Lit 1.
Definition Abc_LitNotCond (Lit : Z) (c : bool) : Z := Z.lxor Lit (Z.b2z c).

(** ** Machine words *)

Definition word_not (x : Z) : Z := Z.land (Z.lnot x) (Z.ones 64).
Definition word_and (x y : Z) : Z := Z.land x y.
Definition word_shl1 (x : Z) : Z := Z.land (Z.shiftl x 1) (Z.ones 64).

Definition uint_not (x : Z) : Z := Z.land (Z.lnot x) (Z.ones 32).
Definition uint_mul (x y : Z) : Z := Z.land (x * y) (Z.ones 32).

(** The simulation store [vSims] is one flat vector of 64-bit words; a
    [word *] into it is the index of the word it points to. *)
Definition Vec_WrdEntry (v : list Z) (i : Z) : Z := Vec_Entry 0 v i.

(** The same memory seen through an [unsigned *]: entry [i] is one
    half of word [i / 2], the low half first (little-endian layout). *)
Definition Info_Entry (mem : list Z) (pSim : Z) (i : Z) : Z :=
  Z.land (Z.shiftr (Vec_WrdEntry mem (pSim + i / 2)) (32 * (i mod 2))) (Z.ones 32).

(** [Abc_InfoHasBit((unsigned * )pSim, i)] and [Abc_InfoXorBit]: bit
    [i & 31] of entry [i >> 5], which is bit [i mod 64] of word [i / 64]. *)
Definition Abc_InfoHasBit (mem : list Z) (pSim : Z) (i : Z) : bool :=
  Z.testbit (Vec_WrdEntry mem (pSim + i / 64)) (i mod 64).

Definition Abc_InfoXorBit (mem : list Z) (pSim : Z) (i : Z) : list Z :=
  Vec_WriteEntry mem (pSim + i / 64)
    (Z.lxor (Vec_WrdEntry mem (pSim + i / 64)) (Z.shiftl 1 (i mod 64))).

(** ** Signature hashing: [Cec2_ManSimHashKey] *)

Definition s_Primes : list Z :=
  [ 1291; 1699; 1999; 2357; 2953; 3313; 3907; 4177;
    4831; 5147; 5647; 6343; 6899; 7103; 7873; 8147 ].

(** [for ( i = i0; i < i0 + n; i++ ) uHash ^= f(pSimU[i]) * s_Primes[i & 0xf];] *)
Fixpoint hash_loop (f : Z -> Z) (mem : list Z) (pSim : Z) (n : nat) (i : Z) (uHash : Z) : Z :=
  match n with
  | O => uHash
  | S n' =>
      hash_loop f mem pSim n' (i + 1)
        (Z.lxor uHash (uint_mul (f (Info_Entry mem pSim i))
                                (Vec_Entry 0 s_Primes (Z.land i 15))))
  end.

Definition Cec2_ManSimHashKey (mem : list Z) (pSim : Z) (nSims nTableSize : Z) : Z :=
  let nSimsU := 2 * nSims in
  let uHash :=
    if Z.testbit (Info_Entry mem pSim 0) 0
    then hash_loop uint_not mem pSim (Z.to_nat nSimsU) 0 0
    else hash_loop (fun x => x) mem pSim (Z.to_nat nSimsU) 0 0 in
  uHash mod nTableSize.

(** ** Outcomes of code that can stop on an assertion *)

(** [AssertFail] is a failed C [assert]; [OutOfFuel] is an artefact of
    the embedding (a loop or recursion bound was reached) and is shown
    not to occur on well-formed graphs. *)
Inductive res (A : Type) : Type :=
  | Ok (a : A)
  | AssertFail
  | OutOfFuel.
Arguments Ok {A} a.
Arguments AssertFail {A}.
Arguments OutOfFuel {A}.

#[global] Instance res_ret : MRet res := fun A a => Ok a.
#[global] Instance res_bind : MBind res := fun A B k c =>
  match c with
  | Ok a => k a
  | AssertFail => AssertFail
  | OutOfFuel => OutOfFuel
  end.

(** ** The AIG manager *)

Inductive Gia_Kind := GiaConst0 | GiaCi | GiaAnd | GiaCo.

(** Modelled from the spec: the node record [Gia_Obj_t] of
    [aig/gia/gia.h], which is not under src/.  A node has a kind, two
    fanin literals [(fanin_index << 1) | complement_bit], its position
    among the CIs or COs, the three flags and the [Value] field. *)
Record Gia_Obj_t := mkObj {
  oKind  : Gia_Kind;
  oLit0  : Z;
  oLit1  : Z;
  oCioId : Z;
  fMark0 : bool;
  fMark1 : bool;
  fPhase : bool;
  Value  : Z }.

(** [~0] in the unsigned [Value] field: the node is unassigned. *)
Definition VALUE_NONE : Z := Z.ones 32.
Definition GIA_VOID : Z := 268435455.

Definition Gia_ObjDefault : Gia_Obj_t :=
  mkObj GiaConst0 0 0 0 false false false 0.

Record Gia_Rpr_t := mkRpr { iRepr : Z; fProved : bool; fFailed : bool }.

(** Modelled from the spec: the counter-example record
    [{iPo, ciBits[0..nCi)}] of [Abc_Cex_t]. *)
Record Abc_Cex_t := mkCex { iPo : Z; ciBits : list bool }.

Definition Abc_CexAlloc (nRealPis : Z) : Abc_Cex_t :=
  mkCex 0 (replicate (Z.to_nat nRealPis) false).

(** A possibly complemented [Gia_Obj_t *]: the node and the low bit of
    the pointer. *)
Definition Gia_Ptr : Type := Z * bool.
Definition Gia_Regular (q : Gia_Ptr) : Z := fst q.
Definition Gia_IsComplement (q : Gia_Ptr) : bool := snd q.
Definition Gia_PtrEqb (a b : Gia_Ptr) : bool :=
  (fst a =? fst b) && Bool.eqb (snd a) (snd b).

Record Gia_Man_t := mkGia {
  pObjs     : list Gia_Obj_t;
  vCis      : list Z;
  vCos      : list Z;
  pReprs    : option (list Gia_Rpr_t);
  pNexts    : list Z;
  vSims     : list Z;
  vSimsPi   : list Z;
  nSimWords : Z;
  iPatsPi   : Z;
  vCopies   : list Z;
  travIds   : gset Z;
  pCexSeq   : option Abc_Cex_t;
  nRandom   : nat }.

Definition set_pObjs (p : Gia_Man_t) (x : list Gia_Obj_t) : Gia_Man_t :=
  mkGia x (vCis p) (vCos p) (pReprs p) (pNexts p) (vSims p) (vSimsPi p)
        (nSimWords p) (iPatsPi p) (vCopies p) (travIds p) (pCexSeq p) (nRandom p).
Definition set_pReprs (p : Gia_Man_t) (x : option (list Gia_Rpr_t)) : Gia_Man_t :=
  mkGia (pObjs p) (vCis p) (vCos p) x (pNexts p) (vSims p) (vSimsPi p)
        (nSimWords p) (iPatsPi p) (vCopies p) (travIds p) (pCexSeq p) (nRandom p).
Definition set_pNexts (p : Gia_Man_t) (x : list Z) : Gia_Man_t :=
  mkGia (pObjs p) (vCis p) (vCos p) (pReprs p) x (vSims p) (vSimsPi p)
        (nSimWords p) (iPatsPi p) (vCopies p) (travIds p) (pCexSeq p) (nRandom p).
Definition set_vSims (p : Gia_Man_t) (x : list Z) : Gia_Man_t :=
  mkGia (pObjs p) (vCis p) (vCos p) (pReprs p) (pNexts p) x (vSimsPi p)
        (nSimWords p) (iPatsPi p) (vCopies p) (travIds p) (pCexSeq p) (nRandom p).
Definition set_vSimsPi (p : Gia_Man_t) (x : list Z) : Gia_Man_t :=
  mkGia (pObjs p) (vCis p) (vCos p) (pReprs p) (pNexts p) (vSims p) x
        (nSimWords p) (iPatsPi p) (vCopies p) (travIds p) (pCexSeq p) (nRandom p).
Definition set_nSimWords (p : Gia_Man_t) (x : Z) : Gia_Man_t :=
  mkGia (pObjs p) (vCis p) (vCos p) (pReprs p) (pNexts p) (vSims p) (vSimsPi p)
        x (iPatsPi p) (vCopies p) (travIds p) (pCexSeq p) (nRandom p).
Definition set_iPatsPi (p : Gia_Man_t) (x : Z) : Gia_Man_t :=
  mkGia (pObjs p) (vCis p) (vCos p) (pReprs p) (pNexts p) (vSims p) (vSimsPi p)
        (nSimWords p) x (vCopies p) (travIds p) (pCexSeq p) (nRandom p).
Definition set_vCopies (p : Gia_Man_t) (x : list Z) : Gia_Man_t :=
  mkGia (pObjs p) (vCis p) (vCos p) (pReprs p) (pNexts p) (vSims p) (vSimsPi p)
        (nSimWords p) (iPatsPi p) x (travIds p) (pCexSeq p) (nRandom p).
Definition set_travIds (p : Gia_Man_t) (x : gset Z) : Gia_Man_t :=
  mkGia (pObjs p) (vCis p) (vCos p) (pReprs p) (pNexts p) (vSims p) (vSimsPi p)
        (nSimWords p) (iPatsPi p) (vCopies p) x (pCexSeq p) (nRandom p).
Definition set_pCexSeq (p : Gia_Man_t) (x : option Abc_Cex_t) : Gia_Man_t :=
  mkGia (pObjs p) (vCis p) (vCos p) (pReprs p) (pNexts p) (vSims p) (vSimsPi p)
        (nSimWords p) (iPatsPi p) (vCopies p) (travIds p) x (nRandom p).
Definition set_nRandom (p : Gia_Man_t) (x : nat) : Gia_Man_t :=
  mkGia (pObjs p) (vCis p) (vCos p) (pReprs p) (pNexts p) (vSims p) (vSimsPi p)
        (nSimWords p) (iPatsPi p) (vCopies p) (travIds p) (pCexSeq p) x.

Definition obj_set_Value (o : Gia_Obj_t) (v : Z) : Gia_Obj_t :=
  mkObj (oKind o) (oLit0 o) (oLit1 o) (oCioId o) (fMark0 o) (fMark1 o) (fPhase o) v.
Definition obj_set_fMark0 (o : Gia_Obj_t) (b : bool) : Gia_Obj_t :=
  mkObj (oKind o) (oLit0 o) (oLit1 o) (oCioId o) b (fMark1 o) (fPhase o) (Value o).
Definition obj_set_fMark1 (o : Gia_Obj_t) (b : bool) : Gia_Obj_t :=
  mkObj (oKind o) (oLit0 o) (oLit1 o) (oCioId o) (fMark0 o) b (fPhase o) (Value o).
Definition obj_set_fPhase (o : Gia_Obj_t) (b : bool) : Gia_Obj_t :=
  mkObj (oKind o) (oLit0 o) (oLit1 o) (oCioId o) (fMark0 o) (fMark1 o) b (Value o).

(** *** Accessors of [gia.h] *)

Definition Gia_ManObjNum (p : Gia_Man_t) : Z := Vec_Size (pObjs p).
Definition Gia_ManCiNum (p : Gia_Man_t) : Z := Vec_Size (vCis p).
Definition Gia_ManObj (p : Gia_Man_t) (i : Z) : Gia_Obj_t :=
  Vec_Entry Gia_ObjDefault (pObjs p) i.
Definition Gia_ManSetObj (p : Gia_Man_t) (i : Z) (o : Gia_Obj_t) : Gia_Man_t :=
  set_pObjs p (Vec_WriteEntry (pObjs p) i o).
Definition Gia_ManCiIdToId (p : Gia_Man_t) (k : Z) : Z := Vec_Entry 0 (vCis p) k.

Definition Gia_ObjIsConst0 (o : Gia_Obj_t) : bool :=
  match oKind o with GiaConst0 => true | _ => false end.
Definition Gia_ObjIsCi (o : Gia_Obj_t) : bool :=
  match oKind o with GiaCi => true | _ => false end.
Definition Gia_ObjIsAnd (o : Gia_Obj_t) : bool :=
  match oKind o with GiaAnd => true | _ => false end.
Definition Gia_ObjIsCo (o : Gia_Obj_t) : bool :=
  match oKind o with GiaCo => true | _ => false end.

Definition Gia_ObjFaninId0 (o : Gia_Obj_t) : Z := Abc_Lit2Var (oLit0 o).
Definition Gia_ObjFaninId1 (o : Gia_Obj_t) : Z := Abc_Lit2Var (oLit1 o).
Definition Gia_ObjFaninC0 (o : Gia_Obj_t) : bool := Abc_LitIsCompl (oLit0 o).
Definition Gia_ObjFaninC1 (o : Gia_Obj_t) : bool := Abc_LitIsCompl (oLit1 o).
Definition Gia_ObjChild0 (o : Gia_Obj_t) : Gia_Ptr := (Gia_ObjFaninId0 o, Gia_ObjFaninC0 o).
Definition Gia_ObjChild1 (o : Gia_Obj_t) : Gia_Ptr := (Gia_ObjFaninId1 o, Gia_ObjFaninC1 o).
Definition Gia_ObjCioId (o : Gia_Obj_t) : Z := oCioId o.
(** [Gia_ObjValue] returns the unsigned [Value] field as a C [int]. *)
Definition Gia_ObjValue (o : Gia_Obj_t) : Z :=
  if Value o <? 2 ^ 31 then Value o else Value o - 2 ^ 32.

Definition Gia_ObjFanin0Copy (p : Gia_Man_t) (o : Gia_Obj_t) : Z :=
  Abc_LitNotCond (Value (Gia_ManObj p (Gia_ObjFaninId0 o))) (Gia_ObjFaninC0 o).
Definition Gia_ObjFanin1Copy (p : Gia_Man_t) (o : Gia_Obj_t) : Z :=
  Abc_LitNotCond (Value (Gia_ManObj p (Gia_ObjFaninId1 o))) (Gia_ObjFaninC1 o).

Definition Gia_ObjCopyArray (p : Gia_Man_t) (iObj : Z) : Z := Vec_Entry 0 (vCopies p) iObj.
Definition Gia_ObjSetCopyArray (p : Gia_Man_t) (iObj v : Z) : Gia_Man_t :=
  set_vCopies p (Vec_WriteEntry (vCopies p) iObj v).

(** Traversal marks.  Modelled from the spec: [pTravIds]/[nTravIds] of
    [gia.h], which is not under src/, as the set of nodes marked in the
    current traversal; a new traversal starts with no node marked. *)
Definition Gia_ManIncrementTravId (p : Gia_Man_t) : Gia_Man_t := set_travIds p ∅.
Definition Gia_ObjIsTravIdCurrentId (p : Gia_Man_t) (iObj : Z) : bool :=
  bool_decide (iObj ∈ travIds p).
Definition Gia_ObjSetTravIdCurrentId (p : Gia_Man_t) (iObj : Z) : Gia_Man_t :=
  set_travIds p ({[ iObj ]} ∪ travIds p).

(** Representatives and class links. *)
Definition Gia_RprDefault : Gia_Rpr_t := mkRpr 0 false false.
Definition Gia_ReprArray (p : Gia_Man_t) : list Gia_Rpr_t := default [] (pReprs p).
Definition Gia_ObjRepr (p : Gia_Man_t) (Id : Z) : Z :=
  iRepr (Vec_Entry Gia_RprDefault (Gia_ReprArray p) Id).
Definition Gia_ObjProved (p : Gia_Man_t) (Id : Z) : bool :=
  fProved (Vec_Entry Gia_RprDefault (Gia_ReprArray p) Id).
Definition Gia_ObjFailed (p : Gia_Man_t) (Id : Z) : bool :=
  fFailed (Vec_Entry Gia_RprDefault (Gia_ReprArray p) Id).
Definition Gia_RprUpdate (p : Gia_Man_t) (Id : Z) (f : Gia_Rpr_t -> Gia_Rpr_t) : Gia_Man_t :=
  set_pReprs p
    (Some (Vec_WriteEntry (Gia_ReprArray p) Id
             (f (Vec_Entry Gia_RprDefault (Gia_ReprArray p) Id)))).
Definition Gia_ObjSetProved (p : Gia_Man_t) (Id : Z) : Gia_Man_t :=
  Gia_RprUpdate p Id (fun r => mkRpr (iRepr r) true (fFailed r)).
Definition Gia_ObjSetFailed (p : Gia_Man_t) (Id : Z) : Gia_Man_t :=
  Gia_RprUpdate p Id (fun r => mkRpr (iRepr r) (fProved r) true).
Definition Gia_ObjNext (p : Gia_Man_t) (Id : Z) : Z := Vec_Entry 0 (pNexts p) Id.
Definition Gia_ObjSetNext (p : Gia_Man_t) (Id Num : Z) : Gia_Man_t :=
  set_pNexts p (Vec_WriteEntry (pNexts p) Id Num).
Definition Gia_ObjIsHead (p : Gia_Man_t) (Id : Z) : bool :=
  (Gia_ObjRepr p Id =? GIA_VOID) && (0 <? Gia_ObjNext p Id).
(** [Gia_ObjReprObj]: the representative, or [NULL]. *)
Definition Gia_ObjReprObj (p : Gia_Man_t) (Id : Z) : option Z :=
  if Gia_ObjRepr p Id =? GIA_VOID then None else Some (Gia_ObjRepr p Id).

(** ** The solver behind [satoko.h] *)

Inductive satoko_status := SATOKO_UNDEC | SATOKO_SAT | SATOKO_UNSAT.

Definition satoko_status_eqb (a b : satoko_status) : bool :=
  match a, b with
  | SATOKO_UNDEC, SATOKO_UNDEC | SATOKO_SAT, SATOKO_SAT
  | SATOKO_UNSAT, SATOKO_UNSAT => true
  | _, _ => false
  end.

(** The solver is a black box.  Its state is the number of variables,
    the clauses added so far, the stack of assumptions and the model of
    the last call to [satoko_solve]; [sat_queries] is the history of
    the assumption stacks it was asked to solve under, kept for the
    statements only. *)
Record satoko_t := mkSat {
  sat_nvars   : Z;
  sat_clauses : list (list Z);
  sat_assumps : list Z;
  sat_model   : Z -> bool;
  sat_queries : list (list Z) }.

Definition satoko_create : satoko_t := mkSat 0 [] [] (fun _ => false) [].

Definition solver_varnum (s : satoko_t) : Z := sat_nvars s.

Definition satoko_add_variable (s : satoko_t) : satoko_t * Z :=
  (mkSat (sat_nvars s + 1) (sat_clauses s) (sat_assumps s) (sat_model s) (sat_queries s),
   sat_nvars s).

Definition satoko_assump_push (s : satoko_t) (lit : Z) : satoko_t :=
  mkSat (sat_nvars s) (sat_clauses s) (sat_assumps s ++ [lit]) (sat_model s) (sat_queries s).

Definition satoko_assump_pop (s : satoko_t) : satoko_t :=
  mkSat (sat_nvars s) (sat_clauses s) (removelast (sat_assumps s)) (sat_model s) (sat_queries s).

(** No bookmark is ever set in this file, so a rollback returns the
    solver to its empty state. *)
Definition satoko_rollback (s : satoko_t) : satoko_t :=
  mkSat 0 [] [] (sat_model s) (sat_queries s).

(** The truth value a literal asks of its variable: the clause
    comments of the CNF builder write [Abc_Var2Lit(v, 1)] as the
    negated variable. *)
Definition lit_value (Lit : Z) : Z * bool := (Abc_Lit2Var Lit, negb (Abc_LitIsCompl Lit)).

Record Cec2_Par_t := mkPar {
  par_nSimWords    : Z;
  par_nSimRounds   : Z;
  par_nConfLimit   : Z;
  par_fIsMiter     : bool;
  par_fVeryVerbose : bool;
  par_fVerbose     : bool }.

Definition Cec2_SetDefaultParams : Cec2_Par_t := mkPar 8 4 1000 false false true.

Record Cec2_Man_t := mkMan {
  pPars        : Cec2_Par_t;
  pAig         : Gia_Man_t;
  pNew         : Gia_Man_t;
  pSat         : satoko_t;
  vFrontier    : list Z;
  vFanins      : list Gia_Ptr;
  vNodesNew    : list Z;
  vObjSatPairs : list Z;
  vCexTriples  : list Z }.

Definition set_pAig (m : Cec2_Man_t) (x : Gia_Man_t) : Cec2_Man_t :=
  mkMan (pPars m) x (pNew m) (pSat m) (vFrontier m) (vFanins m)
        (vNodesNew m) (vObjSatPairs m) (vCexTriples m).
Definition set_pNew (m : Cec2_Man_t) (x : Gia_Man_t) : Cec2_Man_t :=
  mkMan (pPars m) (pAig m) x (pSat m) (vFrontier m) (vFanins m)
        (vNodesNew m) (vObjSatPairs m) (vCexTriples m).
Definition set_pSat (m : Cec2_Man_t) (x : satoko_t) : Cec2_Man_t :=
  mkMan (pPars m) (pAig m) (pNew m) x (vFrontier m) (vFanins m)
        (vNodesNew m) (vObjSatPairs m) (vCexTriples m).
Definition set_vFrontier (m : Cec2_Man_t) (x : list Z) : Cec2_Man_t :=
  mkMan (pPars m) (pAig m) (pNew m) (pSat m) x (vFanins m)
        (vNodesNew m) (vObjSatPairs m) (vCexTriples m).
Definition set_vFanins (m : Cec2_Man_t) (x : list Gia_Ptr) : Cec2_Man_t :=
  mkMan (pPars m) (pAig m) (pNew m) (pSat m) (vFrontier m) x
        (vNodesNew m) (vObjSatPairs m) (vCexTriples m).
Definition set_vNodesNew (m : Cec2_Man_t) (x : list Z) : Cec2_Man_t :=
  mkMan (pPars m) (pAig m) (pNew m) (pSat m) (vFrontier m) (vFanins m)
        x (vObjSatPairs m) (vCexTriples m).
Definition set_vObjSatPairs (m : Cec2_Man_t) (x : list Z) : Cec2_Man_t :=
  mkMan (pPars m) (pAig m) (pNew m) (pSat m) (vFrontier m) (vFanins m)
        (vNodesNew m) x (vCexTriples m).
Definition set_vCexTriples (m : Cec2_Man_t) (x : list Z) : Cec2_Man_t :=
  mkMan (pPars m) (pAig m) (pNew m) (pSat m) (vFrontier m) (vFanins m)
        (vNodesNew m) (vObjSatPairs m) x.

(** ** First set bit of a simulation vector *)

(** Modelled from the spec: [Abc_TtFindFirstBit2] of
    [misc/util/utilTruth.h], which is not under src/: the lowest column
    at which the vector holds a one, or -1 when there is none. *)
Fixpoint first_bit_from (n : nat) (b : Z) (x : Z) : Z :=
  match n with
  | O => b
  | S n' => if Z.testbit x b then b else first_bit_from n' (b + 1) x
  end.
Definition Abc_Tt6FirstBit (x : Z) : Z := first_bit_from 64 0 x.

Fixpoint find_first_bit_loop (mem : list Z) (pIn : Z) (n : nat) (w : Z) : Z :=
  match n with
  | O => -1
  | S n' =>
      if negb (Vec_WrdEntry mem (pIn + w) =? 0)
      then 64 * w + Abc_Tt6FirstBit (Vec_WrdEntry mem (pIn + w))
      else find_first_bit_loop mem pIn n' (w + 1)
  end.
Definition Abc_TtFindFirstBit2 (mem : list Z) (pIn : Z) (nWords : Z) : Z :=
  find_first_bit_loop mem pIn (Z.to_nat nWords) 0.

(** Modelled from the spec: [Gia_ObjSetPhase]/[Gia_ManSetPhase] of
    [aig/gia/giaUtil.c], which is not under src/: the phase of a node
    is its value under the all-zero CI assignment, computed in
    topological (index) order. *)
Definition Gia_ObjSetPhase (p : Gia_Man_t) (i : Z) : Gia_Man_t :=
  let o := Gia_ManObj p i in
  let ph0 := xorb (fPhase (Gia_ManObj p (Gia_ObjFaninId0 o))) (Gia_ObjFaninC0 o) in
  let ph1 := xorb (fPhase (Gia_ManObj p (Gia_ObjFaninId1 o))) (Gia_ObjFaninC1 o) in
  match oKind o with
  | GiaAnd => Gia_ManSetObj p i (obj_set_fPhase o (ph0 && ph1))
  | GiaCo => Gia_ManSetObj p i (obj_set_fPhase o ph0)
  | _ => Gia_ManSetObj p i (obj_set_fPhase o false)
  end.

(** [for ( i = i0; i < i0 + n; i++ ) p = body(p, i);] *)
Fixpoint for_range {S : Type} (n : nat) (i : Z) (body : S -> Z -> S) (s : S) : S :=
  match n with
  | O => s
  | S n' => for_range n' (i + 1) body (body s i)
  end.

Definition Gia_ManSetPhase (p : Gia_Man_t) : Gia_Man_t :=
  for_range (length (pObjs p)) 0 Gia_ObjSetPhase p.

(** [Gia_ManStart], [Gia_ManAppendCi], [Gia_ManFillValue] and
    [Gia_ManCleanMark01] of [gia.h]. *)
Definition Gia_ManStart : Gia_Man_t :=
  mkGia [Gia_ObjDefault] [] [] None [] [] [] 0 0 [] ∅ None O.

Definition Gia_ManAppendCi (p : Gia_Man_t) : Gia_Man_t * Z :=
  let id := Gia_ManObjNum p in
  let o := mkObj GiaCi 0 0 (Gia_ManCiNum p) false false false 0 in
  (mkGia (pObjs p ++ [o]) (vCis p ++ [id]) (vCos p) (pReprs p) (pNexts p)
         (vSims p) (vSimsPi p) (nSimWords p) (iPatsPi p) (vCopies p)
         (travIds p) (pCexSeq p) (nRandom p),
   Abc_Var2Lit id false).

Definition Gia_ManFillValue (p : Gia_Man_t) : Gia_Man_t :=
  set_pObjs p (map (fun o => obj_set_Value o VALUE_NONE) (pObjs p)).

Definition Gia_ManCleanMark01 (p : Gia_Man_t) : Gia_Man_t :=
  set_pObjs p (map (fun o => obj_set_fMark1 (obj_set_fMark0 o false) false) (pObjs p)).

(** * The engine *)

Section Engine.

(** What the file takes from outside: whether assertions are compiled
    out, the solver's answers, and the functions of [gia.h] and
    [abc_global.h] it calls. *)
Variable NDEBUG : bool.
Variable satoko_answer : list (list Z) -> list Z -> satoko_status.
Variable satoko_polarity : list (list Z) -> list Z -> Z -> bool.
Variable satoko_accepts : list (list Z) -> list Z -> bool.
Variable Gia_ObjRecognizeMux : Gia_Man_t -> Z -> Z * Gia_Ptr * Gia_Ptr.
Variable Gia_ObjIsMuxType : Gia_Man_t -> Z -> bool.
Variable Gia_ManHashAnd : Gia_Man_t -> Z -> Z -> Gia_Man_t * Z.
Variable Abc_PrimeCudd : Z -> Z.
Variable Gia_ManRandomW : nat -> Z.

Definition assert_ (c : bool) : res unit :=
  if NDEBUG || c then Ok () else AssertFail.

(** [satoko_add_clause]: the clause joins the database; the return
    value tells whether the solver accepted it. *)
Definition satoko_add_clause (s : satoko_t) (pLits : list Z) : satoko_t * bool :=
  (mkSat (sat_nvars s) (sat_clauses s ++ [pLits]) (sat_assumps s) (sat_model s) (sat_queries s),
   satoko_accepts (sat_clauses s) pLits).

(** [RetValue = satoko_add_clause( ... ); assert( RetValue );] *)
Definition add_clause_checked (s : satoko_t) (pLits : list Z) : res satoko_t :=
  let '(s', RetValue) := satoko_add_clause s pLits in
  _ ← assert_ RetValue;
  mret s'.

(** [satoko_solve] under the current assumptions. *)
Definition satoko_solve (s : satoko_t) : satoko_t * satoko_status :=
  (mkSat (sat_nvars s) (sat_clauses s) (sat_assumps s)
         (satoko_polarity (sat_clauses s) (sat_assumps s))
         (sat_queries s ++ [sat_assumps s]),
   satoko_answer (sat_clauses s) (sat_assumps s)).

(** [var_polarity(pSat, v) == LIT_TRUE] *)
Definition var_polarity_true (s : satoko_t) (v : Z) : bool := sat_model s v.

(** ** SAT variables of the rebuilt AIG *)

Definition Cec2_ObjSatId (p : Gia_Man_t) (pObj : Z) : Z := Gia_ObjCopyArray p pObj.

Definition Cec2_ObjSetSatId (p : Gia_Man_t) (pObj : Z) (Num : Z) : res (Gia_Man_t * Z) :=
  _ ← assert_ (Cec2_ObjSatId p pObj =? -1);
  mret (Gia_ObjSetCopyArray p pObj Num, Num).

Definition Cec2_ObjCleanSatId (p : Gia_Man_t) (pObj : Z) : res Gia_Man_t :=
  _ ← assert_ (negb (Cec2_ObjSatId p pObj =? -1));
  mret (Gia_ObjSetCopyArray p pObj (-1)).

(** ** Clauses of a MUX and of an AND super-gate *)

(** [if ( fPolarFlip ) if ( pObj->fPhase ) Lit = Abc_LitNot( Lit );] *)
Definition polar_flip (fPolarFlip : bool) (ph : bool) (Lit : Z) : Z :=
  if fPolarFlip then (if ph then Abc_LitNot Lit else Lit) else Lit.

Definition Cec2_AddClausesMux (p : Gia_Man_t) (pNode : Z) (s : satoko_t) : res satoko_t :=
  let fPolarFlip := false in
  _ ← assert_ (fMark0 (Gia_ManObj p pNode));
  let '(pNodeI, pNodeT, pNodeE) := Gia_ObjRecognizeMux p pNode in
  let VarF := Cec2_ObjSatId p pNode in
  let VarI := Cec2_ObjSatId p pNodeI in
  let VarT := Cec2_ObjSatId p (Gia_Regular pNodeT) in
  let VarE := Cec2_ObjSatId p (Gia_Regular pNodeE) in
  let fCompT := Gia_IsComplement pNodeT in
  let fCompE := Gia_IsComplement pNodeE in
  let phI := fPhase (Gia_ManObj p pNodeI) in
  let phT := fPhase (Gia_ManObj p (Gia_Regular pNodeT)) in
  let phE := fPhase (Gia_ManObj p (Gia_Regular pNodeE)) in
  let phF := fPhase (Gia_ManObj p pNode) in
  s ← add_clause_checked s
        [ polar_flip fPolarFlip phI (Abc_Var2Lit VarI true);
          polar_flip fPolarFlip phT (Abc_Var2Lit VarT (xorb true fCompT));
          polar_flip fPolarFlip phF (Abc_Var2Lit VarF false) ];
  s ← add_clause_checked s
        [ polar_flip fPolarFlip phI (Abc_Var2Lit VarI true);
          polar_flip fPolarFlip phT (Abc_Var2Lit VarT (xorb false fCompT));
          polar_flip fPolarFlip phF (Abc_Var2Lit VarF true) ];
  s ← add_clause_checked s
        [ polar_flip fPolarFlip phI (Abc_Var2Lit VarI false);
          polar_flip fPolarFlip phE (Abc_Var2Lit VarE (xorb true fCompE));
          polar_flip fPolarFlip phF (Abc_Var2Lit VarF false) ];
  s ← add_clause_checked s
        [ polar_flip fPolarFlip phI (Abc_Var2Lit VarI false);
          polar_flip fPolarFlip phE (Abc_Var2Lit VarE (xorb false fCompE));
          polar_flip fPolarFlip phF (Abc_Var2Lit VarF true) ];
  if VarT =? VarE then mret s
  else
    s ← add_clause_checked s
          [ polar_flip fPolarFlip phT (Abc_Var2Lit VarT (xorb false fCompT));
            polar_flip fPolarFlip phE (Abc_Var2Lit VarE (xorb false fCompE));
            polar_flip fPolarFlip phF (Abc_Var2Lit VarF true) ];
    add_clause_checked s
          [ polar_flip fPolarFlip phT (Abc_Var2Lit VarT (xorb true fCompT));
            polar_flip fPolarFlip phE (Abc_Var2Lit VarE (xorb true fCompE));
            polar_flip fPolarFlip phF (Abc_Var2Lit VarF false) ].

(** The first loop of [Cec2_AddClausesSuper]: one two-literal clause
    per entry of [vSuper]. *)
Fixpoint super_binary_clauses (fPolarFlip : bool) (p : Gia_Man_t) (pNode : Z)
    (vSuper : list Gia_Ptr) (s : satoko_t) : res satoko_t :=
  match vSuper with
  | [] => mret s
  | pFanin :: rest =>
      s ← add_clause_checked s
            [ polar_flip fPolarFlip (fPhase (Gia_ManObj p (Gia_Regular pFanin)))
                (Abc_Var2Lit (Cec2_ObjSatId p (Gia_Regular pFanin)) (Gia_IsComplement pFanin));
              polar_flip fPolarFlip (fPhase (Gia_ManObj p pNode))
                (Abc_Var2Lit (Cec2_ObjSatId p pNode) true) ];
      super_binary_clauses fPolarFlip p pNode rest s
  end.

Definition Cec2_AddClausesSuper (p : Gia_Man_t) (pNode : Z) (vSuper : list Gia_Ptr)
    (s : satoko_t) : res satoko_t :=
  let fPolarFlip := false in
  _ ← assert_ (Gia_ObjIsAnd (Gia_ManObj p pNode));
  s ← super_binary_clauses fPolarFlip p pNode vSuper s;
  add_clause_checked s
    (map (fun pFanin =>
            polar_flip fPolarFlip (fPhase (Gia_ManObj p (Gia_Regular pFanin)))
              (Abc_Var2Lit (Cec2_ObjSatId p (Gia_Regular pFanin))
                           (negb (Gia_IsComplement pFanin))))
         vSuper
     ++ [ polar_flip fPolarFlip (fPhase (Gia_ManObj p pNode))
            (Abc_Var2Lit (Cec2_ObjSatId p pNode) false) ]).

(** ** Super-gate collection and the CNF frontier *)

Fixpoint Cec2_CollectSuper_rec (fuel : nat) (p : Gia_Man_t) (pObj : Gia_Ptr)
    (vSuper : list Gia_Ptr) (fFirst fUseMuxes : bool) : res (list Gia_Ptr) :=
  match fuel with
  | O => OutOfFuel
  | S fuel' =>
      let o := Gia_ManObj p (Gia_Regular pObj) in
      if Gia_IsComplement pObj || Gia_ObjIsCi o
         || (negb fFirst && (1 <? Gia_ObjValue o))
         || (fUseMuxes && fMark0 o)
      then mret (Vec_PushUnique Gia_PtrEqb vSuper pObj)
      else
        vSuper ← Cec2_CollectSuper_rec fuel' p (Gia_ObjChild0 o) vSuper false fUseMuxes;
        Cec2_CollectSuper_rec fuel' p (Gia_ObjChild1 o) vSuper false fUseMuxes
  end.

Definition Cec2_CollectSuper (p : Gia_Man_t) (pObj : Z) (fUseMuxes : bool) : res (list Gia_Ptr) :=
  _ ← assert_ (negb (Gia_ObjIsCi (Gia_ManObj p pObj)));
  Cec2_CollectSuper_rec (S (Z.to_nat pObj)) p (pObj, false) [] true fUseMuxes.

Definition Cec2_ObjAddToFrontier (p : Gia_Man_t) (pObj : Z) (vFront : list Z) (s : satoko_t)
    : res (Gia_Man_t * list Z * satoko_t) :=
  _ ← assert_ (negb (Gia_ObjIsConst0 (Gia_ManObj p pObj)));
  if 0 <=? Cec2_ObjSatId p pObj then mret (p, vFront, s)
  else
    _ ← assert_ (Cec2_ObjSatId p pObj =? -1);
    let '(s, v) := satoko_add_variable s in
    '(p, _) ← Cec2_ObjSetSatId p pObj v;
    mret (p, if Gia_ObjIsAnd (Gia_ManObj p pObj) then vFront ++ [pObj] else vFront, s).

(** [Vec_PtrForEachEntry( vFanins, pFanin, k ) Cec2_ObjAddToFrontier( ..., Gia_Regular(pFanin), ... );] *)
Fixpoint add_fanins_to_frontier (vFan : list Gia_Ptr) (m : Cec2_Man_t) : res Cec2_Man_t :=
  match vFan with
  | [] => mret m
  | pFanin :: rest =>
      '(pN, vF, s) ← Cec2_ObjAddToFrontier (pNew m) (Gia_Regular pFanin) (vFrontier m) (pSat m);
      add_fanins_to_frontier rest (set_pSat (set_vFrontier (set_pNew m pN) vF) s)
  end.

(** The nodes pushed for a MUX: the four grandchildren, as regular
    pointers, each once. *)
Definition mux_fanins (p : Gia_Man_t) (pNode : Z) : list Gia_Ptr :=
  let o := Gia_ManObj p pNode in
  let f0 := Gia_ManObj p (Gia_ObjFaninId0 o) in
  let f1 := Gia_ManObj p (Gia_ObjFaninId1 o) in
  let v := Vec_PushUnique Gia_PtrEqb [] (Gia_ObjFaninId0 f0, false) in
  let v := Vec_PushUnique Gia_PtrEqb v (Gia_ObjFaninId0 f1, false) in
  let v := Vec_PushUnique Gia_PtrEqb v (Gia_ObjFaninId1 f0, false) in
  Vec_PushUnique Gia_PtrEqb v (Gia_ObjFaninId1 f1, false).

(** The body of the loop over the frontier, for the node [pNode]. *)
Definition frontier_step (fUseMuxes : bool) (m : Cec2_Man_t) (pNode : Z) : res Cec2_Man_t :=
  _ ← assert_ (0 <=? Cec2_ObjSatId (pNew m) pNode);
  m ← (if fUseMuxes && fMark0 (Gia_ManObj (pNew m) pNode)
       then
         let m := set_vFanins m (mux_fanins (pNew m) pNode) in
         m ← add_fanins_to_frontier (vFanins m) m;
         s ← Cec2_AddClausesMux (pNew m) pNode (pSat m);
         mret (set_pSat m s)
       else
         vSuper ← Cec2_CollectSuper (pNew m) pNode fUseMuxes;
         let m := set_vFanins m vSuper in
         m ← add_fanins_to_frontier (vFanins m) m;
         s ← Cec2_AddClausesSuper (pNew m) pNode (vFanins m) (pSat m);
         mret (set_pSat m s));
  _ ← assert_ (1 <? Vec_Size (vFanins m));
  mret m.

(** [Vec_PtrForEachEntry( p->vFrontier, pNode, i )]: the vector grows
    while it is walked. *)
Fixpoint frontier_loop (fuel : nat) (fUseMuxes : bool) (m : Cec2_Man_t) (i : Z) : res Cec2_Man_t :=
  if i <? Vec_Size (vFrontier m) then
    match fuel with
    | O => OutOfFuel
    | S fuel' =>
        m ← frontier_step fUseMuxes m (Vec_Entry 0 (vFrontier m) i);
        frontier_loop fuel' fUseMuxes m (i + 1)
    end
  else mret m.

Definition Cec2_ObjGetCnfVar (m : Cec2_Man_t) (iObj : Z) : res (Cec2_Man_t * Z) :=
  let fUseMuxes := true in
  if 0 <=? Cec2_ObjSatId (pNew m) iObj then mret (m, Cec2_ObjSatId (pNew m) iObj)
  else
    _ ← assert_ (0 <? iObj);
    if Gia_ObjIsCi (Gia_ManObj (pNew m) iObj) then
      let '(s, v) := satoko_add_variable (pSat m) in
      '(pN, Num) ← Cec2_ObjSetSatId (pNew m) iObj v;
      mret (set_pSat (set_pNew m pN) s, Num)
    else
      _ ← assert_ (Gia_ObjIsAnd (Gia_ManObj (pNew m) iObj));
      let m := set_vFrontier m [] in
      '(pN, vF, s) ← Cec2_ObjAddToFrontier (pNew m) iObj (vFrontier m) (pSat m);
      let m := set_pSat (set_vFrontier (set_pNew m pN) vF) s in
      m ← frontier_loop (length (pObjs (pNew m))) fUseMuxes m 0;
      mret (m, Cec2_ObjSatId (pNew m) iObj).

(** ** Simulation *)

(** [Cec2_ObjSim]: the address of the first word of the node's vector. *)
Definition Cec2_ObjSim (p : Gia_Man_t) (iObj : Z) : Z := nSimWords p * iObj.

Definition sim_read (p : Gia_Man_t) (pSim : Z) (w : Z) : Z :=
  Vec_WrdEntry (vSims p) (pSim + w).
Definition sim_write (p : Gia_Man_t) (pSim : Z) (w : Z) (x : Z) : Gia_Man_t :=
  set_vSims p (Vec_WriteEntry (vSims p) (pSim + w) x).

Definition Cec2_ObjSimSetInputBit (p : Gia_Man_t) (iObj : Z) (Bit : bool) : Gia_Man_t :=
  let pSim := Cec2_ObjSim p iObj in
  if negb (Bool.eqb (Abc_InfoHasBit (vSims p) pSim (iPatsPi p)) Bit)
  then set_vSims p (Abc_InfoXorBit (vSims p) pSim (iPatsPi p))
  else p.

Definition Cec2_ObjSimCo (p : Gia_Man_t) (iObj : Z) : Gia_Man_t :=
  let pObj := Gia_ManObj p iObj in
  let pSimCo := Cec2_ObjSim p iObj in
  let pSimDri := Cec2_ObjSim p (Gia_ObjFaninId0 pObj) in
  if Gia_ObjFaninC0 pObj
  then for_range (Z.to_nat (nSimWords p)) 0
         (fun p w => sim_write p pSimCo w (word_not (sim_read p pSimDri w))) p
  else for_range (Z.to_nat (nSimWords p)) 0
         (fun p w => sim_write p pSimCo w (sim_read p pSimDri w)) p.

Definition Cec2_ObjSimAnd (p : Gia_Man_t) (iObj : Z) : Gia_Man_t :=
  let pObj := Gia_ManObj p iObj in
  let pSim := Cec2_ObjSim p iObj in
  let pSim0 := Cec2_ObjSim p (Gia_ObjFaninId0 pObj) in
  let pSim1 := Cec2_ObjSim p (Gia_ObjFaninId1 pObj) in
  if Gia_ObjFaninC0 pObj && Gia_ObjFaninC1 pObj
  then for_range (Z.to_nat (nSimWords p)) 0
         (fun p w => sim_write p pSim w
            (word_and (word_not (sim_read p pSim0 w)) (word_not (sim_read p pSim1 w)))) p
  else if Gia_ObjFaninC0 pObj && negb (Gia_ObjFaninC1 pObj)
  then for_range (Z.to_nat (nSimWords p)) 0
         (fun p w => sim_write p pSim w
            (word_and (word_not (sim_read p pSim0 w)) (sim_read p pSim1 w))) p
  else if negb (Gia_ObjFaninC0 pObj) && Gia_ObjFaninC1 pObj
  then for_range (Z.to_nat (nSimWords p)) 0
         (fun p w => sim_write p pSim w
            (word_and (sim_read p pSim0 w) (word_not (sim_read p pSim1 w)))) p
  else for_range (Z.to_nat (nSimWords p)) 0
         (fun p w => sim_write p pSim w
            (word_and (sim_read p pSim0 w) (sim_read p pSim1 w))) p.

(** [for ( w = w0; w < w0 + n; w++ ) if ( !test(w) ) return 0;  return 1;] *)
Fixpoint all_words (n : nat) (w : Z) (test : Z -> bool) : bool :=
  match n with
  | O => true
  | S n' => if test w then all_words n' (w + 1) test else false
  end.

Definition Cec2_ObjSimEqual (p : Gia_Man_t) (iObj0 iObj1 : Z) : bool :=
  let pSim0 := Cec2_ObjSim p iObj0 in
  let pSim1 := Cec2_ObjSim p iObj1 in
  if Z.land (sim_read p pSim0 0) 1 =? Z.land (sim_read p pSim1 0) 1
  then all_words (Z.to_nat (nSimWords p)) 0
         (fun w => sim_read p pSim0 w =? sim_read p pSim1 w)
  else all_words (Z.to_nat (nSimWords p)) 0
         (fun w => sim_read p pSim0 w =? word_not (sim_read p pSim1 w)).

(** The random source is a sequence of words; [nRandom] counts the
    words drawn so far. *)
Definition Cec2_ObjSimCi (p : Gia_Man_t) (iObj : Z) : Gia_Man_t :=
  let pSim := Cec2_ObjSim p iObj in
  let p := for_range (Z.to_nat (nSimWords p)) 0
             (fun p w => set_nRandom (sim_write p pSim w (Gia_ManRandomW (nRandom p)))
                                     (S (nRandom p))) p in
  sim_write p pSim 0 (word_shl1 (sim_read p pSim 0)).

Definition Cec2_ManSimulateCis (p : Gia_Man_t) : Gia_Man_t :=
  let p := fold_left Cec2_ObjSimCi (vCis p) p in
  set_iPatsPi p 1.

(** [Gia_ManForEachCiId( p, Id, i ) if ( Abc_InfoHasBit( sim(Id), iPat ) ) Abc_InfoSetBit( pCex->pData, i );] *)
Definition Cec2_ManDeriveCex (p : Gia_Man_t) (iOut iPat : Z) : Abc_Cex_t :=
  let pCex := mkCex iOut (ciBits (Abc_CexAlloc (Gia_ManCiNum p))) in
  if iPat =? -1 then pCex
  else mkCex iOut
         (map (fun Id => Abc_InfoHasBit (vSims p) (Cec2_ObjSim p Id) iPat) (vCis p)).

(** The loop of [Cec2_ManSimulateCos] over the COs from position [i]. *)
Fixpoint simulate_cos_loop (vCo : list Z) (i : Z) (p : Gia_Man_t) : Gia_Man_t * Z :=
  match vCo with
  | [] => (p, 1)
  | Id :: rest =>
      let p := Cec2_ObjSimCo p Id in
      if Cec2_ObjSimEqual p Id 0 then simulate_cos_loop rest (i + 1) p
      else
        (set_pCexSeq p
           (Some (Cec2_ManDeriveCex p i
                    (Abc_TtFindFirstBit2 (vSims p) (Cec2_ObjSim p Id) (nSimWords p)))),
         0)
  end.

Definition Cec2_ManSimulateCos (p : Gia_Man_t) : Gia_Man_t * Z :=
  simulate_cos_loop (vCos p) 0 p.

Definition Cec2_ManSimAlloc (p : Gia_Man_t) (nWords : Z) : Gia_Man_t :=
  let p := set_vSims p (replicate (Z.to_nat (Gia_ManObjNum p * nWords)) 0) in
  let p := set_vSimsPi p [] in
  set_nSimWords p nWords.

(** ** Classes *)

Definition Gia_ObjSetRepr (p : Gia_Man_t) (Id Num : Z) : res Gia_Man_t :=
  _ ← assert_ ((Num =? GIA_VOID) || (Num <? Id));
  mret (Gia_RprUpdate p Id (fun r => mkRpr Num (fProved r) (fFailed r))).

(** The first loop of [Cec2_ManSimClassRefineOne]: walk the class while
    the members agree with the head; returns [(iPrev, iRepr2)]. *)
Fixpoint refine_scan (fuel : nat) (p : Gia_Man_t) (iRepr iPrev iRepr2 : Z) : res (Z * Z) :=
  if 0 <? iRepr2 then
    match fuel with
    | O => OutOfFuel
    | S fuel' =>
        if Cec2_ObjSimEqual p iRepr iRepr2
        then refine_scan fuel' p iRepr iRepr2 (Gia_ObjNext p iRepr2)
        else mret (iPrev, iRepr2)
    end
  else mret (iPrev, iRepr2).

(** The second loop: relink the remaining members; returns the manager
    and [(iPrev, iPrev2)]. *)
Fixpoint refine_relink (fuel : nat) (p : Gia_Man_t) (iRepr iRepr2 iPrev iPrev2 iObj : Z)
    : res (Gia_Man_t * Z * Z) :=
  if 0 <? iObj then
    match fuel with
    | O => OutOfFuel
    | S fuel' =>
        if Cec2_ObjSimEqual p iRepr iObj
        then
          let p := Gia_ObjSetNext p iPrev iObj in
          refine_relink fuel' p iRepr iRepr2 iObj iPrev2 (Gia_ObjNext p iObj)
        else
          p ← Gia_ObjSetRepr p iObj iRepr2;
          let p := Gia_ObjSetNext p iPrev2 iObj in
          refine_relink fuel' p iRepr iRepr2 iPrev iObj (Gia_ObjNext p iObj)
    end
  else mret (p, iPrev, iPrev2).

Definition Cec2_ManSimClassRefineOne (p : Gia_Man_t) (iRepr : Z) : res Gia_Man_t :=
  _ ← assert_ (Gia_ObjIsHead p iRepr);
  '(iPrev, iRepr2) ← refine_scan (length (pNexts p)) p iRepr iRepr (Gia_ObjNext p iRepr);
  if iRepr2 <=? 0 then mret p
  else
    p ← Gia_ObjSetRepr p iRepr2 GIA_VOID;
    '(p, iPrev, iPrev2) ←
      refine_relink (length (pNexts p)) p iRepr iRepr2 iPrev iRepr2 (Gia_ObjNext p iRepr2);
    let p := Gia_ObjSetNext p iPrev (-1) in
    mret (Gia_ObjSetNext p iPrev2 (-1)).

(** [for ( i = i0; i < i0 + n; i++ ) body], with a body that can stop. *)
Fixpoint for_range_m {S : Type} (n : nat) (i : Z) (body : S -> Z -> res S) (s : S) : res S :=
  match n with
  | O => mret s
  | S n' => s ← body s i; for_range_m n' (i + 1) body s
  end.

(** [Gia_ManForEachClass0( p, i ) Cec2_ManSimClassRefineOne( p, i );] *)
Definition refine_all_classes (p : Gia_Man_t) : res Gia_Man_t :=
  for_range_m (length (pObjs p)) 0
    (fun p i => if Gia_ObjIsHead p i then Cec2_ManSimClassRefineOne p i else mret p) p.

(** [Gia_ManForEachAnd( p, pObj, i ) Cec2_ObjSimAnd( p, i );] *)
Definition simulate_ands (p : Gia_Man_t) : Gia_Man_t :=
  for_range (length (pObjs p)) 0
    (fun p i => if Gia_ObjIsAnd (Gia_ManObj p i) then Cec2_ObjSimAnd p i else p) p.

(** The check of [vTriples] only prints; it is left out. *)
Definition Cec2_ManSimulate (p : Gia_Man_t) : res Gia_Man_t :=
  let p := simulate_ands p in
  match pReprs p with
  | None => mret p
  | Some _ => refine_all_classes p
  end.

(** The hashing loop of [Cec2_ManCreateClasses]; the state is the
    manager and [pTable]. *)
Definition create_classes_hash (nWords nTableSize : Z) (st : Gia_Man_t * list Z) (i : Z)
    : res (Gia_Man_t * list Z) :=
  let '(p, pTable) := st in
  let p := Gia_RprUpdate p i (fun r => mkRpr GIA_VOID (fProved r) (fFailed r)) in
  if Gia_ObjIsCo (Gia_ManObj p i) then mret (p, pTable)
  else
    let Key := Cec2_ManSimHashKey (vSims p) (Cec2_ObjSim p i) nWords nTableSize in
    _ ← assert_ ((0 <=? Key) && (Key <? nTableSize));
    if Vec_Entry 0 pTable Key =? -1
    then mret (p, Vec_WriteEntry pTable Key i)
    else p ← Gia_ObjSetRepr p i (Vec_Entry 0 pTable Key); mret (p, pTable).

(** [for ( i = i0; i > i0 - n; i-- ) body] *)
Fixpoint for_range_down {S : Type} (n : nat) (i : Z) (body : S -> Z -> S) (s : S) : S :=
  match n with
  | O => s
  | S n' => for_range_down n' (i - 1) body (body s i)
  end.

Definition create_classes_link (p : Gia_Man_t) (i : Z) : Gia_Man_t :=
  let iRepr := Gia_ObjRepr p i in
  if iRepr =? GIA_VOID then p
  else
    let p := Gia_ObjSetNext p i (Gia_ObjNext p iRepr) in
    Gia_ObjSetNext p iRepr i.

Definition Cec2_ManCreateClasses (p : Gia_Man_t) : res Gia_Man_t :=
  let nWords := nSimWords p in
  let p := set_pReprs p (Some (replicate (length (pObjs p)) Gia_RprDefault)) in
  let p := set_pNexts p (replicate (length (pObjs p)) (-1)) in
  let nTableSize := Abc_PrimeCudd (Gia_ManObjNum p) in
  let pTable := replicate (Z.to_nat nTableSize) (-1) in
  '(p, _) ← for_range_m (length (pObjs p)) 0 (create_classes_hash nWords nTableSize) (p, pTable);
  let p := for_range_down (length (pObjs p)) (Gia_ManObjNum p - 1) create_classes_link p in
  refine_all_classes p.

(** ** The sweeping manager *)

Definition Cec2_ManCreate (pAig0 : Gia_Man_t) (pPars0 : Cec2_Par_t) : Cec2_Man_t :=
  let pN := Gia_ManStart in
  let pA := Gia_ManFillValue pAig0 in
  let pA := Gia_ManSetObj pA 0 (obj_set_Value (Gia_ManObj pA 0) 0) in
  let '(pA, pN) :=
    fold_left (fun '(pA, pN) Id =>
                 let '(pN, lit) := Gia_ManAppendCi pN in
                 (Gia_ManSetObj pA Id (obj_set_Value (Gia_ManObj pA Id) lit), pN))
              (vCis pA) (pA, pN) in
  let pN := set_vCopies pN (replicate (length (pObjs pN)) (-1)) in
  mkMan pPars0 pA pN satoko_create [] [] [] [] [].

(** [Cec2_ManDestroy] frees the manager; what is left is the user's
    AIG, without its simulation store and with both marks cleared. *)
Definition Cec2_ManDestroy (m : Cec2_Man_t) : Gia_Man_t :=
  Gia_ManCleanMark01 (set_vSims (pAig m) []).

(** ** One SAT call *)

Fixpoint Cec2_ManCollect_rec (fuel : nat) (m : Cec2_Man_t) (iObj : Z) : res Cec2_Man_t :=
  match fuel with
  | O => OutOfFuel
  | S fuel' =>
      if Gia_ObjIsTravIdCurrentId (pNew m) iObj then mret m
      else
        let m := set_pNew m (Gia_ObjSetTravIdCurrentId (pNew m) iObj) in
        let pObj := Gia_ManObj (pNew m) iObj in
        let m := if 0 <=? Cec2_ObjSatId (pNew m) iObj
                 then set_vNodesNew m (vNodesNew m ++ [iObj]) else m in
        if iObj =? 0 then mret m
        else if Gia_ObjIsAnd pObj then
          m ← Cec2_ManCollect_rec fuel' m (Gia_ObjFaninId0 pObj);
          Cec2_ManCollect_rec fuel' m (Gia_ObjFaninId1 pObj)
        else
          _ ← assert_ (0 <=? Cec2_ObjSatId (pNew m) iObj);
          mret (set_vObjSatPairs m
                  (vObjSatPairs m ++ [ Gia_ManCiIdToId (pAig m) (Gia_ObjCioId pObj);
                                       Cec2_ObjSatId (pNew m) iObj ]))
  end.

(** [Gia_ManForEachObjVec( p->vNodesNew, p->pNew, pObj, i ) Cec2_ObjCleanSatId( p->pNew, pObj );] *)
Fixpoint clean_sat_ids (vNodes : list Z) (p : Gia_Man_t) : res Gia_Man_t :=
  match vNodes with
  | [] => mret p
  | iObj :: rest => p ← Cec2_ObjCleanSatId p iObj; clean_sat_ids rest p
  end.

(** Two assumptions pushed, one call, two assumptions popped. *)
Definition solve_under (s : satoko_t) (Lit0 Lit1 : Z) : satoko_t * satoko_status :=
  let s := satoko_assump_push s Lit0 in
  let s := satoko_assump_push s Lit1 in
  let '(s, status) := satoko_solve s in
  let s := satoko_assump_pop s in
  let s := satoko_assump_pop s in
  (s, status).

Definition Cec2_ManSolveTwo (m : Cec2_Man_t) (iObj0 iObj1 : Z) (fPhase0 : bool)
    : res (Cec2_Man_t * satoko_status) :=
  let '(iObj0, iObj1) := if iObj1 <? iObj0 then (iObj1, iObj0) else (iObj0, iObj1) in
  _ ← assert_ (iObj0 <? iObj1);
  _ ← assert_ (solver_varnum (pSat m) =? 0);
  m ← (if iObj0 =? 0 then
         let '(s, v) := satoko_add_variable (pSat m) in
         '(pN, _) ← Cec2_ObjSetSatId (pNew m) 0 v;
         mret (set_pSat (set_pNew m pN) s)
       else mret m);
  '(m, iVar0) ← Cec2_ObjGetCnfVar m iObj0;
  '(m, iVar1) ← Cec2_ObjGetCnfVar m iObj1;
  let m := set_vNodesNew m [] in
  let m := set_vObjSatPairs m [] in
  let m := set_pNew m (Gia_ManIncrementTravId (pNew m)) in
  m ← Cec2_ManCollect_rec (S (Z.to_nat iObj0)) m iObj0;
  m ← Cec2_ManCollect_rec (S (Z.to_nat iObj1)) m iObj1;
  let '(s, status) := solve_under (pSat m) (Abc_Var2Lit iVar0 true) (Abc_Var2Lit iVar1 fPhase0) in
  let '(s, status) :=
    if satoko_status_eqb status SATOKO_UNSAT && (0 <? iObj0)
    then solve_under s (Abc_Var2Lit iVar0 false) (Abc_Var2Lit iVar1 (negb fPhase0))
    else (s, status) in
  let m := set_pSat m s in
  pN ← clean_sat_ids (vNodesNew m) (pNew m);
  mret (set_pNew m pN, status).

(** [Vec_IntForEachEntryDouble( p->vObjSatPairs, IdAig, IdSat, i )] *)
Fixpoint set_input_bits (s : satoko_t) (vPairs : list Z) (p : Gia_Man_t) : Gia_Man_t :=
  match vPairs with
  | IdAig :: IdSat :: rest =>
      set_input_bits s rest (Cec2_ObjSimSetInputBit p IdAig (var_polarity_true s IdSat))
  | _ => p
  end.

Definition next_pattern (p : Gia_Man_t) : Z :=
  if iPatsPi p =? 64 * nSimWords p - 1 then 1 else iPatsPi p + 1.

(** The caller has checked that the representative is not [NULL]. *)
Definition Cec2_ManSweepNode (m : Cec2_Man_t) (iObj : Z) : res (Cec2_Man_t * Z) :=
  let pObj := Gia_ManObj (pAig m) iObj in
  let iReprId := Gia_ObjRepr (pAig m) iObj in
  let pRepr := Gia_ManObj (pAig m) iReprId in
  let fCompl := xorb (xorb (xorb (Abc_LitIsCompl (Value pObj)) (Abc_LitIsCompl (Value pRepr)))
                           (fPhase pObj)) (fPhase pRepr) in
  '(m, status) ← Cec2_ManSolveTwo m (Abc_Lit2Var (Value pRepr)) (Abc_Lit2Var (Value pObj)) fCompl;
  '(m, RetValue) ←
    match status with
    | SATOKO_SAT =>
        let m := set_pAig m (set_iPatsPi (pAig m) (next_pattern (pAig m))) in
        _ ← assert_ ((0 <? iPatsPi (pAig m)) && (iPatsPi (pAig m) <? 64 * nSimWords (pAig m)));
        mret (set_pAig m (set_input_bits (pSat m) (vObjSatPairs m) (pAig m)), 0)
    | SATOKO_UNSAT =>
        let pA := Gia_ManSetObj (pAig m) iObj
                    (obj_set_Value (Gia_ManObj (pAig m) iObj)
                                   (Abc_LitNotCond (Value pRepr) fCompl)) in
        mret (set_pAig m (Gia_ObjSetProved pA iObj), 1)
    | SATOKO_UNDEC =>
        let m := set_pAig m (Gia_ObjSetFailed (pAig m) iObj) in
        _ ← assert_ false;
        mret (m, 1)
    end;
  mret (set_pSat m (satoko_rollback (pSat m)), RetValue).

(** ** The sweeping loop *)

(** [Gia_ManForEachCo( p, pObj, i ) if ( pObj->fPhase ) ...]: the
    position of the first CO with a nonzero phase, from position [i]. *)
Fixpoint first_co_with_phase (p : Gia_Man_t) (vCo : list Z) (i : Z) : option Z :=
  match vCo with
  | [] => None
  | Id :: rest =>
      if fPhase (Gia_ManObj p Id) then Some i else first_co_with_phase p rest (i + 1)
  end.

(** One simulation round: [Cec2_ManSimulateCis], [Cec2_ManSimulate],
    and the check of the outputs of a miter.  The boolean tells whether
    a counter-example was detected. *)
Definition simulation_round (pPars0 : Cec2_Par_t) (p : Gia_Man_t) : res (Gia_Man_t * bool) :=
  let p := Cec2_ManSimulateCis p in
  p ← Cec2_ManSimulate p;
  if par_fIsMiter pPars0 then
    let '(p, ok) := Cec2_ManSimulateCos p in
    mret (p, ok =? 0)
  else mret (p, false).

(** [for ( i = 0; i < pPars->nSimRounds; i++ )], with its early return. *)
Fixpoint additional_rounds (n : nat) (pPars0 : Cec2_Par_t) (p : Gia_Man_t)
    : res (Gia_Man_t * bool) :=
  match n with
  | O => mret (p, false)
  | S n' =>
      '(p, cex) ← simulation_round pPars0 p;
      if (cex : bool) then mret (p, true) else additional_rounds n' pPars0 p
  end.

(** The body of [Gia_ManForEachAnd( p, pObj, i )] in the sweeping loop;
    the state is the manager and [fDisproved]. *)
Definition sweep_step (Iter : Z) (st : Cec2_Man_t * bool) (i : Z) : res (Cec2_Man_t * bool) :=
  let '(m, fDisproved) := st in
  let p := pAig m in
  if negb (Gia_ObjIsAnd (Gia_ManObj p i)) then mret st
  else
    let pObj := Gia_ManObj p i in
    let mk := fMark1 (Gia_ManObj p (Gia_ObjFaninId0 pObj))
              || fMark1 (Gia_ManObj p (Gia_ObjFaninId1 pObj)) in
    let p := Gia_ManSetObj p i (obj_set_fMark1 pObj mk) in
    let m := set_pAig m p in
    let pObj := Gia_ManObj p i in
    if fMark1 pObj then mret (m, fDisproved)
    else if negb (Value pObj =? VALUE_NONE) then mret (m, fDisproved)
    else if (Value (Gia_ManObj p (Gia_ObjFaninId0 pObj)) =? VALUE_NONE)
            || (Value (Gia_ManObj p (Gia_ObjFaninId1 pObj)) =? VALUE_NONE)
    then mret (m, fDisproved)
    else
      _ ← assert_ (negb (Gia_ObjProved p i) && negb (Gia_ObjFailed p i));
      let '(pN, lit) := Gia_ManHashAnd (pNew m) (Gia_ObjFanin0Copy p pObj) (Gia_ObjFanin1Copy p pObj) in
      let p := Gia_ManSetObj p i (obj_set_Value pObj lit) in
      let pN :=
        if Vec_Size (vCopies pN) =? Abc_Lit2Var lit then
          let iNew := Abc_Lit2Var lit in
          let pN := Gia_ManSetObj pN iNew
                      (obj_set_fMark0 (Gia_ManObj pN iNew) (Gia_ObjIsMuxType pN iNew)) in
          let pN := Gia_ObjSetPhase pN iNew in
          set_vCopies pN (vCopies pN ++ [-1])
        else pN in
      _ ← assert_ (Vec_Size (vCopies pN) =? Gia_ManObjNum pN);
      let m := set_pNew (set_pAig m p) pN in
      let pObj := Gia_ManObj p i in
      match Gia_ObjReprObj p i with
      | None => mret (m, fDisproved)
      | Some iReprId =>
          let pRepr := Gia_ManObj p iReprId in
          if fMark1 pRepr then mret (m, fDisproved)
          else if Abc_Lit2Var (Value pObj) =? Abc_Lit2Var (Value pRepr) then
            _ ← assert_ (Z.lxor (Value pObj) (Value pRepr)
                          =? Z.b2z (xorb (fPhase pObj) (fPhase pRepr)));
            mret (set_pAig m (Gia_ObjSetProved p i), fDisproved)
          else
            '(m, RetValue) ← Cec2_ManSweepNode m i;
            if negb (RetValue =? 0) then mret (m, fDisproved)
            else
              let p := pAig m in
              let p := Gia_ManSetObj p i (obj_set_Value (Gia_ManObj p i) VALUE_NONE) in
              if 5 <? Iter then mret (set_pAig m p, true)
              else
                let p := if Gia_ObjIsAnd (Gia_ManObj p iReprId)
                         then Gia_ManSetObj p iReprId (obj_set_fMark1 (Gia_ManObj p iReprId) true)
                         else p in
                let p := Gia_ManSetObj p i (obj_set_fMark1 (Gia_ManObj p i) true) in
                mret (set_pAig m p, true)
      end.

(** [for ( Iter = 0; fDisproved; Iter++ )]: one pass over the ANDs per
    iteration, until a pass disproves nothing or a miter fails. *)
Fixpoint sweep_loop (fuel : nat) (pPars0 : Cec2_Par_t) (Iter : Z) (m : Cec2_Man_t)
    : res Cec2_Man_t :=
  match fuel with
  | O => OutOfFuel
  | S fuel' =>
      let m := set_pAig m (Cec2_ManSimulateCis (pAig m)) in
      let m := set_vCexTriples m [] in
      '(m, fDisproved) ← for_range_m (length (pObjs (pAig m))) 0 (sweep_step Iter) (m, false);
      if (fDisproved : bool) then
        p ← Cec2_ManSimulate (pAig m);
        let m := set_pAig m p in
        if par_fIsMiter pPars0 then
          let '(p, ok) := Cec2_ManSimulateCos (pAig m) in
          let m := set_pAig m p in
          if ok =? 0 then mret m else sweep_loop fuel' pPars0 (Iter + 1) m
        else sweep_loop fuel' pPars0 (Iter + 1) m
      else mret m
  end.

(** [fuel] bounds the number of iterations of the sweeping loop, which
    the C code leaves unbounded. *)
Definition Cec2_ManPerformSweeping (fuel : nat) (p : Gia_Man_t) (pPars0 : Cec2_Par_t)
    : res (Gia_Man_t * Z) :=
  let p := Gia_ManSetPhase p in
  match (if par_fIsMiter pPars0 then first_co_with_phase p (vCos p) 0 else None) with
  | Some i => mret (set_pCexSeq p (Some (Cec2_ManDeriveCex p i (-1))), 0)
  | None =>
      let p := Cec2_ManSimAlloc p (par_nSimWords pPars0) in
      '(p, cex) ← simulation_round pPars0 p;
      if (cex : bool) then mret (p, 0)
      else
        p ← Cec2_ManCreateClasses p;
        '(p, cex) ← additional_rounds (Z.to_nat (par_nSimRounds pPars0)) pPars0 p;
        if (cex : bool) then mret (p, 0)
        else
          let m := Cec2_ManCreate p pPars0 in
          m ← sweep_loop fuel pPars0 0 m;
          let p := Cec2_ManDestroy m in
          mret (p, match pCexSeq p with Some _ => 0 | None => 1 end)
  end.

(** ** Checking a counter-example on the rebuilt AIG *)

(** [Cec2_ManVerify_rec]: the value of the node under the model of the
    solver, kept in [fMark1] for the nodes already visited. *)
Fixpoint Cec2_ManVerify_rec (fuel : nat) (p : Gia_Man_t) (iObj : Z) (s : satoko_t)
    : res (Gia_Man_t * bool) :=
  match fuel with
  | O => OutOfFuel
  | S fuel' =>
      if iObj =? 0 then mret (p, false)
      else if Gia_ObjIsTravIdCurrentId p iObj then mret (p, fMark1 (Gia_ManObj p iObj))
      else
        let p := Gia_ObjSetTravIdCurrentId p iObj in
        if Gia_ObjIsCi (Gia_ManObj p iObj) then
          let v := var_polarity_true s (Cec2_ObjSatId p iObj) in
          mret (Gia_ManSetObj p iObj (obj_set_fMark1 (Gia_ManObj p iObj) v), v)
        else
          _ ← assert_ (Gia_ObjIsAnd (Gia_ManObj p iObj));
          '(p, r0) ← Cec2_ManVerify_rec fuel' p (Gia_ObjFaninId0 (Gia_ManObj p iObj)) s;
          let Value0 := xorb r0 (Gia_ObjFaninC0 (Gia_ManObj p iObj)) in
          '(p, r1) ← Cec2_ManVerify_rec fuel' p (Gia_ObjFaninId1 (Gia_ManObj p iObj)) s;
          let Value1 := xorb r1 (Gia_ObjFaninC1 (Gia_ManObj p iObj)) in
          mret (Gia_ManSetObj p iObj (obj_set_fMark1 (Gia_ManObj p iObj) (Value0 && Value1)),
                Value0 && Value1)
  end.

(** [Cec2_ManVerify]: the boolean tells whether the failure message is
    printed. *)
Definition Cec2_ManVerify (p : Gia_Man_t) (iObj0 iObj1 : Z) (fPhase0 : bool) (s : satoko_t)
    : res (Gia_Man_t * bool) :=
  let p := Gia_ManIncrementTravId p in
  '(p, Value0) ← Cec2_ManVerify_rec (S (Z.to_nat iObj0)) p iObj0 s;
  '(p, Value1) ← Cec2_ManVerify_rec (S (Z.to_nat iObj1)) p iObj1 s;
  mret (p, Bool.eqb (xorb Value0 Value1) fPhase0).

(** * Small graphs used to run the definitions *)

(** Solvers with a fixed answer, accepting every clause. *)
Definition answer_unsat (_ : list (list Z)) (_ : list Z) : satoko_status := SATOKO_UNSAT.
Definition answer_sat (_ : list (list Z)) (_ : list Z) : satoko_status := SATOKO_SAT.
Definition answer_undec (_ : list (list Z)) (_ : list Z) : satoko_status := SATOKO_UNDEC.
Definition polarity_odd (_ : list (list Z)) (_ : list Z) (v : Z) : bool := Z.odd v.
Definition accept_all (_ : list (list Z)) (_ : list Z) : bool := true.

(** Nodes 4 and 5 are [s & x] and [!s & y]; node 6 is [!4 & !5]. *)
Definition recognize_node6 (_ : Gia_Man_t) (_ : Z) : Z * Gia_Ptr * Gia_Ptr :=
  (1, (2, true), (3, true)).

Definition ex_const : Gia_Obj_t := mkObj GiaConst0 0 0 0 false false false 0.
Definition ex_ci (k v : Z) : Gia_Obj_t := mkObj GiaCi 0 0 k false false false v.
Definition ex_and (l0 l1 v : Z) : Gia_Obj_t := mkObj GiaAnd l0 l1 0 false false false v.

(** The rebuilt AIG: the constant, two CIs [a] (1) and [b] (2), and the
    ANDs [a & b] (3) and [a & !b] (4); no node has a variable. *)
Definition ex_new : Gia_Man_t :=
  mkGia [ex_const; ex_ci 0 0; ex_ci 1 0; ex_and 2 4 0; ex_and 2 5 0]
        [1; 2] [] None [] [] [] 0 0 [-1; -1; -1; -1; -1] ∅ None O.

(** The same graph with variables 0..3 on the nodes 1..4. *)
Definition ex_new_vars : Gia_Man_t := set_vCopies ex_new [-1; 0; 1; 2; 3].

(** The user's AIG with the same shape; every node holds its literal
    in the rebuilt AIG, node 4 has node 3 as representative, one
    simulation word per node. *)
Definition ex_aig : Gia_Man_t :=
  mkGia [ex_const; ex_ci 0 2; ex_ci 1 4; ex_and 2 4 6; ex_and 2 5 8]
        [1; 2] []
        (Some [mkRpr GIA_VOID false false; mkRpr GIA_VOID false false;
               mkRpr GIA_VOID false false; mkRpr GIA_VOID false false;
               mkRpr 3 false false])
        [-1; -1; -1; 4; -1]
        [0; 10; 6; 2; 8] [] 1 1 [] ∅ None O.

Definition ex_man : Cec2_Man_t :=
  mkMan Cec2_SetDefaultParams ex_aig ex_new satoko_create [] [] [] [] [].

(** A rebuilt AIG with a MUX: CIs [s], [x], [y] (1, 2, 3), the ANDs
    [s & x] (4) and [!s & y] (5), and the marked node [!4 & !5] (6). *)
Definition ex_mux : Gia_Man_t :=
  mkGia [ex_const; ex_ci 0 0; ex_ci 1 0; ex_ci 2 0; ex_and 2 4 0; ex_and 3 6 0;
         mkObj GiaAnd 9 11 0 true false false 0]
        [1; 2; 3] [] None [] [] [] 0 0 [-1; 0; 1; 2; -1; -1; 3] ∅ None O.

(** A miter whose only output is [!a]: its phase is 1. *)
Definition ex_miter : Gia_Man_t :=
  mkGia [ex_const; ex_ci 0 0; mkObj GiaCo 3 0 0 false false false 0]
        [1] [2] None [] [] [] 0 0 [] ∅ None O.

(** A class with head 1 and members 2, 3, 4 over one-word vectors:
    node 2 equals node 1, node 4 is its complement, node 3 is
    neither. *)
Definition ex_class : Gia_Man_t :=
  mkGia [ex_const; ex_ci 0 0; ex_ci 1 0; ex_ci 2 0; ex_ci 3 0]
        [1; 2; 3; 4] []
        (Some [mkRpr GIA_VOID false false; mkRpr GIA_VOID false false;
               mkRpr 1 false false; mkRpr 1 false false; mkRpr 1 false false])
        [-1; 2; 3; 4; -1]
        [0; 5; 5; 6; word_not 5] [] 1 1 [] ∅ None O.

(** A rebuilt AIG in which the nodes 3 and 4 are equal: they are
    [a & b] and [a & (a & b)]. *)
Definition ex_equal : Gia_Man_t :=
  mkGia [ex_const; ex_ci 0 0; ex_ci 1 0; ex_and 2 4 0; ex_and 2 6 0]
        [1; 2] [] None [] [] [] 0 0 [-1; -1; -1; -1; -1] ∅ None O.

Definition ex_equal_man : Cec2_Man_t :=
  mkMan Cec2_SetDefaultParams ex_aig ex_equal satoko_create [] [] [] [] [].

(** The MUX of [ex_mux] before any variable is handed out. *)
Definition ex_mux_fresh : Gia_Man_t := set_vCopies ex_mux [-1; -1; -1; -1; -1; -1; -1].

Definition ex_mux_man : Cec2_Man_t :=
  mkMan Cec2_SetDefaultParams ex_aig ex_mux_fresh satoko_create [] [] [] [] [].

(** A user's AIG as it is handed to the sweep, nothing allocated yet:
    the nodes 3 and 4 are [a & b] and [a & (a & b)]. *)
Definition ex_user : Gia_Man_t :=
  mkGia [ex_const; ex_ci 0 0; ex_ci 1 0; ex_and 2 4 0; ex_and 2 6 0]
        [1; 2] [] None [] [] [] 0 0 [] ∅ None O.

(** A stand-in for [Gia_ManHashAnd] that appends the AND node without
    looking it up. *)
Definition ex_hash_and (p : Gia_Man_t) (l0 l1 : Z) : Gia_Man_t * Z :=
  (set_pObjs p (pObjs p ++ [mkObj GiaAnd l0 l1 0 false false false 0]),
   Abc_Var2Lit (Gia_ManObjNum p) false).

(** * Vocabulary of the statements *)

(** The user's AIG, the nodes of the rebuilt AIG, the size of its
    [satVar] map, the assumption stack and the history of queries. *)
Record cnf_stable (m m' : Cec2_Man_t) : Prop := mk_cnf_stable {
  st_aig     : pAig m' = pAig m;
  st_pars    : pPars m' = pPars m;
  st_objs    : pObjs (pNew m') = pObjs (pNew m);
  st_len     : length (vCopies (pNew m')) = length (vCopies (pNew m));
  st_assumps : sat_assumps (pSat m') = sat_assumps (pSat m);
  st_queries : sat_queries (pSat m') = sat_queries (pSat m) }.

(** Adding clauses changes neither the variables, nor the assumptions,
    nor the history. *)
Definition sat_same (s s' : satoko_t) : Prop :=
  sat_nvars s' = sat_nvars s /\ sat_assumps s' = sat_assumps s
  /\ sat_queries s' = sat_queries s.

(** The solver after the one or two queries of [Cec2_ManSolveTwo], and
    the status returned. *)
Definition two_queries (s : satoko_t) (iObj0 iVar0 iVar1 : Z) (fPhase0 : bool)
    : satoko_t * satoko_status :=
  let '(s, status) := solve_under s (Abc_Var2Lit iVar0 true) (Abc_Var2Lit iVar1 fPhase0) in
  if satoko_status_eqb status SATOKO_UNSAT && (0 <? iObj0)
  then solve_under s (Abc_Var2Lit iVar0 false) (Abc_Var2Lit iVar1 (negb fPhase0))
  else (s, status).

(** The manager on entry to the CNF construction: the constant node
    gets a variable when it is one of the two nodes. *)
Definition with_const_var (m : Cec2_Man_t) (iObj0 : Z) : Cec2_Man_t :=
  if iObj0 =? 0
  then set_pSat (set_pNew m (Gia_ObjSetCopyArray (pNew m) 0 (sat_nvars (pSat m))))
                (fst (satoko_add_variable (pSat m)))
  else m.

Definition before_collect (m : Cec2_Man_t) : Cec2_Man_t :=
  set_pNew (set_vObjSatPairs (set_vNodesNew m []) []) (Gia_ManIncrementTravId (pNew m)).

(** The complement flag computed by [Cec2_ManSweepNode]. *)
Definition sweep_fCompl (m : Cec2_Man_t) (iObj : Z) : bool :=
  let pObj := Gia_ManObj (pAig m) iObj in
  let pRepr := Gia_ManObj (pAig m) (Gia_ObjRepr (pAig m) iObj) in
  xorb (xorb (xorb (Abc_LitIsCompl (Value pObj)) (Abc_LitIsCompl (Value pRepr)))
             (fPhase pObj)) (fPhase pRepr).

(** The call of [Cec2_ManSolveTwo] made by [Cec2_ManSweepNode]. *)
Definition sweep_query (m : Cec2_Man_t) (iObj : Z) : res (Cec2_Man_t * satoko_status) :=
  Cec2_ManSolveTwo m
    (Abc_Lit2Var (Value (Gia_ManObj (pAig m) (Gia_ObjRepr (pAig m) iObj))))
    (Abc_Lit2Var (Value (Gia_ManObj (pAig m) iObj)))
    (sweep_fCompl m iObj).

(** The user's AIG after a node was proved. *)
Definition merged_aig (m : Cec2_Man_t) (iObj : Z) : Gia_Man_t :=
  Gia_ObjSetProved
    (Gia_ManSetObj (pAig m) iObj
       (obj_set_Value (Gia_ManObj (pAig m) iObj)
          (Abc_LitNotCond (Value (Gia_ManObj (pAig m) (Gia_ObjRepr (pAig m) iObj)))
                          (sweep_fCompl m iObj))))
    iObj.

(** The user's AIG after a node was disproved: the counter advances and
    the model is written into the new column. *)
Definition disproved_aig (m m1 : Cec2_Man_t) : Gia_Man_t :=
  set_input_bits (pSat m1) (vObjSatPairs m1)
    (set_iPatsPi (pAig m) (next_pattern (pAig m))).

(** The members met by [Gia_ClassForEachObj1] when it starts at node
    [i]: the walk follows the links while they are positive. *)
Fixpoint chain_at (nx : Z -> Z) (i : Z) (ms : list Z) : Prop :=
  match ms with
  | [] => i <= 0
  | x :: t => i = x /\ 0 < x /\ chain_at nx (nx x) t
  end.

(** [ms] are the members of the class headed by [h], in link order. *)
Definition class_members (p : Gia_Man_t) (h : Z) (ms : list Z) : Prop :=
  chain_at (Gia_ObjNext p) (Gia_ObjNext p h) ms.

(** The links from [h] through [ms], whatever follows the last node. *)
Fixpoint seg (nx : Z -> Z) (h : Z) (ms : list Z) : Prop :=
  match ms with
  | [] => True
  | x :: t => nx h = x /\ seg nx x t
  end.

(** Two managers that differ in the class links only. *)
Definition links_only (p p' : Gia_Man_t) : Prop :=
  vSims p' = vSims p /\ nSimWords p' = nSimWords p /\ pObjs p' = pObjs p
  /\ length (pNexts p') = length (pNexts p)
  /\ length (Gia_ReprArray p') = length (Gia_ReprArray p).

(** Node indices in strictly increasing (topological) order. *)
Fixpoint increasing (l : list Z) : Prop :=
  match l with
  | [] => True
  | x :: t => Forall (fun y => x < y) t /\ increasing t
  end.

(** The node is inside the arrays of links and representatives. *)
Definition in_range (p0 : Gia_Man_t) (x : Z) : Prop :=
  0 <= x < Vec_Size (pNexts p0) /\ 0 <= x < Vec_Size (Gia_ReprArray p0).

(** [x] is in the cone of [root]: it is reached from [root] through
    fanins of AND nodes. *)
Inductive reach (p : Gia_Man_t) (root : Z) : Z -> Prop :=
  | reach_root : reach p root root
  | reach_fanin0 (x : Z) :
      reach p root x -> Gia_ObjIsAnd (Gia_ManObj p x) = true ->
      reach p root (Gia_ObjFaninId0 (Gia_ManObj p x))
  | reach_fanin1 (x : Z) :
      reach p root x -> Gia_ObjIsAnd (Gia_ManObj p x) = true ->
      reach p root (Gia_ObjFaninId1 (Gia_ManObj p x)).

(** The rebuilt AIG is well formed: its [satVar] map has one entry per
    node, every node but the constant is a CI or an AND, the fanins of
    an AND are earlier nodes other than the constant, and a node marked
    as a MUX is an AND of two ANDs. *)
Definition wf_new (p : Gia_Man_t) : Prop :=
  length (vCopies p) = length (pObjs p)
  /\ forall i, 0 <= i < Gia_ManObjNum p ->
       let o := Gia_ManObj p i in
       (0 < i -> Gia_ObjIsCi o = true \/ Gia_ObjIsAnd o = true)
       /\ (Gia_ObjIsAnd o = true ->
           0 < Gia_ObjFaninId0 o < i /\ 0 < Gia_ObjFaninId1 o < i)
       /\ (fMark0 o = true ->
           Gia_ObjIsAnd o = true
           /\ Gia_ObjIsAnd (Gia_ManObj p (Gia_ObjFaninId0 o)) = true
           /\ Gia_ObjIsAnd (Gia_ManObj p (Gia_ObjFaninId1 o)) = true).

(** Every entry of the map is as in [p0], or holds a variable of a
    node of [R]. *)
Definition copies_inv (p0 : Gia_Man_t) (R : Z -> Prop) (p : Gia_Man_t) : Prop :=
  pObjs p = pObjs p0
  /\ length (vCopies p) = length (vCopies p0)
  /\ forall x, 0 <= x < Gia_ManObjNum p0 ->
       Cec2_ObjSatId p x = Cec2_ObjSatId p0 x \/ (0 <= Cec2_ObjSatId p x /\ R x).

(** The nodes of the frontier are distinct AND nodes of [R], each with
    a variable. *)
Definition frontier_inv (p0 : Gia_Man_t) (R : Z -> Prop) (p : Gia_Man_t) (vF : list Z) : Prop :=
  Forall (fun x => R x /\ Gia_ObjIsAnd (Gia_ManObj p0 x) = true /\ 0 <= Cec2_ObjSatId p x) vF
  /\ NoDup vF.

(** The invariant of the CNF construction on the manager. *)
Definition cnf_inv (p0 : Gia_Man_t) (R : Z -> Prop) (m : Cec2_Man_t) : Prop :=
  copies_inv p0 R (pNew m) /\ frontier_inv p0 R (pNew m) (vFrontier m)
  /\ 0 <= sat_nvars (pSat m).

(** A visited node is accounted for: it is in [vNodesNew] when it has a
    variable, and the fanins of an AND are visited too. *)
Definition collected (m : Cec2_Man_t) (x : Z) : Prop :=
  (0 <= Cec2_ObjSatId (pNew m) x -> In x (vNodesNew m))
  /\ (Gia_ObjIsAnd (Gia_ManObj (pNew m) x) = true -> x <> 0 ->
      Gia_ObjFaninId0 (Gia_ManObj (pNew m) x) ∈ travIds (pNew m)
      /\ Gia_ObjFaninId1 (Gia_ManObj (pNew m) x) ∈ travIds (pNew m)).

(** ** Assignments and valuations *)

(** The literal [Lit] holds under the assignment [sigma] of the
    solver's variables; a clause holds when one of its literals does, a
    list of clauses when all of them do. *)
Definition lit_true (sigma : Z -> bool) (Lit : Z) : bool :=
  Bool.eqb (sigma (fst (lit_value Lit))) (snd (lit_value Lit)).
Definition clause_true (sigma : Z -> bool) (c : list Z) : bool :=
  existsb (lit_true sigma) c.
Definition cnf_true (sigma : Z -> bool) (cs : list (list Z)) : bool :=
  forallb (clause_true sigma) cs.

(** The value of a possibly complemented pointer under a valuation of
    the nodes. *)
Definition ptr_value (val : Z -> bool) (q : Gia_Ptr) : bool :=
  xorb (val (Gia_Regular q)) (Gia_IsComplement q).

(** The valuation of the nodes induced by an assignment of their
    variables. *)
Definition node_value (p : Gia_Man_t) (sigma : Z -> bool) (x : Z) : bool :=
  sigma (Cec2_ObjSatId p x).

(** The valuation gives every AND node the conjunction of its fanins. *)
Definition and_consistent (p : Gia_Man_t) (val : Z -> bool) : Prop :=
  forall i, Gia_ObjIsAnd (Gia_ManObj p i) = true ->
    val i = ptr_value val (Gia_ObjChild0 (Gia_ManObj p i))
            && ptr_value val (Gia_ObjChild1 (Gia_ManObj p i)).

(** The valuation is the one the model of the solver induces on the
    AIG: false on the constant, the polarity of its variable on a CI,
    the conjunction of the fanins on an AND. *)
Definition model_valuation (p : Gia_Man_t) (s : satoko_t) (val : Z -> bool) : Prop :=
  val 0 = false
  /\ (forall i, Gia_ObjIsCi (Gia_ManObj p i) = true ->
        val i = var_polarity_true s (Cec2_ObjSatId p i))
  /\ and_consistent p val.

(** Two managers with the same nodes, up to the flag [fMark1], and the
    same [satVar] map. *)
Definition same_graph (p p' : Gia_Man_t) : Prop :=
  length (pObjs p') = length (pObjs p)
  /\ vCopies p' = vCopies p
  /\ forall i, obj_set_fMark1 (Gia_ManObj p' i) false = obj_set_fMark1 (Gia_ManObj p i) false.

(** The fanins of every AND node are earlier nodes (topological
    order), and a CO is driven by an earlier node. *)
Definition fanins_below (p : Gia_Man_t) : Prop :=
  forall i, (Gia_ObjIsAnd (Gia_ManObj p i) = true ->
             0 <= Gia_ObjFaninId0 (Gia_ManObj p i) < i
             /\ 0 <= Gia_ObjFaninId1 (Gia_ManObj p i) < i)
         /\ (Gia_ObjIsCo (Gia_ManObj p i) = true ->
             0 <= Gia_ObjFaninId0 (Gia_ManObj p i) < i).

(** The simulation store holds [nSimWords] words for every node. *)
Definition sims_allocated (p : Gia_Man_t) : Prop :=
  0 < nSimWords p /\ nSimWords p * Gia_ManObjNum p <= Vec_Size (vSims p).

(** Pattern [b] of the simulation store, as a valuation of the nodes. *)
Definition pattern (p : Gia_Man_t) (b : Z) (i : Z) : bool :=
  Abc_InfoHasBit (vSims p) (Cec2_ObjSim p i) b.

(** Every word of the simulation store is a 64-bit word. *)
Definition words_64 (p : Gia_Man_t) : Prop :=
  Forall (fun x => 0 <= x < 2 ^ 64) (vSims p).

(** The variables handed out so far are below the number of variables
    of the solver, and no two nodes share one. *)
Definition vars_inv (p : Gia_Man_t) (s : satoko_t) : Prop :=
  forall x, 0 <= x < Vec_Size (vCopies p) -> 0 <= Cec2_ObjSatId p x ->
    Cec2_ObjSatId p x < sat_nvars s
    /\ forall y, 0 <= y < Vec_Size (vCopies p) ->
         Cec2_ObjSatId p y = Cec2_ObjSatId p x -> y = x.

(** The vector [vObjSatPairs] holding the pairs (CI of the user's AIG,
    variable). *)
Definition pairs_flat (pairs : list (Z * Z)) : list Z :=
  concat (map (fun ab => [fst ab; snd ab]) pairs).

(** The class of a node: its representative, or the node itself when
    it has none. *)
Definition class_of (p : Gia_Man_t) (x : Z) : Z :=
  if Gia_ObjRepr p x =? GIA_VOID then x else Gia_ObjRepr p x.

(** The equivalence classes are well formed: the arrays cover the
    nodes, a representative has no representative, and the links from a
    node without representative run, in increasing order, through
    exactly the nodes it represents. *)
Definition classes_wf (p : Gia_Man_t) : Prop :=
  Vec_Size (pNexts p) = Gia_ManObjNum p
  /\ Vec_Size (Gia_ReprArray p) = Gia_ManObjNum p
  /\ Gia_ManObjNum p <= GIA_VOID
  /\ (forall x, 0 <= x < Gia_ManObjNum p -> Gia_ObjRepr p x <> GIA_VOID ->
        0 <= Gia_ObjRepr p x < Gia_ManObjNum p
        /\ Gia_ObjRepr p (Gia_ObjRepr p x) = GIA_VOID)
  /\ (forall h, 0 <= h < Gia_ManObjNum p -> Gia_ObjRepr p h = GIA_VOID ->
        exists ms, class_members p h ms /\ increasing (h :: ms)
          /\ forall x, In x ms <-> 0 <= x < Gia_ManObjNum p /\ Gia_ObjRepr p x = h).

(** The assignment gives the variable of every node that has one the
    value of the node. *)
Definition agrees (p : Gia_Man_t) (sigma val : Z -> bool) : Prop :=
  forall x, 0 <= x < Gia_ManObjNum p -> 0 <= Cec2_ObjSatId p x ->
    sigma (Cec2_ObjSatId p x) = val x.

(** What the CNF construction expects of [Gia_ObjRecognizeMux] on the
    nodes marked as MUXes, whatever the [satVar] map: the control and
    the two data nodes are among the grandchildren pushed for the node,
    and under every valuation that gives each AND node the conjunction
    of its fanins the node is the data chosen by the control. *)
Definition recognizes_muxes (p0 : Gia_Man_t) : Prop :=
  forall p x, pObjs p = pObjs p0 -> fMark0 (Gia_ManObj p x) = true ->
    let '(pNodeI, pNodeT, pNodeE) := Gia_ObjRecognizeMux p x in
    In (pNodeI, false) (mux_fanins p x)
    /\ In (Gia_Regular pNodeT, false) (mux_fanins p x)
    /\ In (Gia_Regular pNodeE, false) (mux_fanins p x)
    /\ forall val, and_consistent p val ->
         val x = if val pNodeI then ptr_value val pNodeT else ptr_value val pNodeE.

(** The solver answers UNSAT only when no assignment satisfies the
    clauses together with the assumptions. *)
Definition solver_sound : Prop :=
  forall (cs : list (list Z)) (asm : list Z) (sigma : Z -> bool),
    satoko_answer cs asm = SATOKO_UNSAT ->
    cnf_true sigma cs = true -> forallb (lit_true sigma) asm = false.

(** The clauses [cs] force the node [x]: an assignment that satisfies
    them and agrees with a valuation of the AIG on the earlier nodes
    that have a variable, agrees with it on [x] too. *)
Definition forced (p0 p : Gia_Man_t) (cs : list (list Z)) (x : Z) : Prop :=
  forall (sigma val : Z -> bool),
    cnf_true sigma cs = true -> and_consistent p0 val ->
    (forall r, 0 <= r < x -> 0 <= Cec2_ObjSatId p r -> sigma (Cec2_ObjSatId p r) = val r) ->
    sigma (Cec2_ObjSatId p x) = val x.

(** With a SAT answer comes a model: the polarities satisfy the clauses
    and the assumptions. *)
Definition solver_models : Prop :=
  forall (cs : list (list Z)) (asm : list Z),
    satoko_answer cs asm = SATOKO_SAT ->
    cnf_true (satoko_polarity cs asm) cs = true
    /\ forallb (lit_true (satoko_polarity cs asm)) asm = true.

(** The value of a node for given values of the CIs: the constant is
    false, an AND node is the conjunction of its fanins. *)
Fixpoint aig_eval (fuel : nat) (p : Gia_Man_t) (ci : Z -> bool) (x : Z) : bool :=
  match fuel with
  | O => false
  | S fuel' =>
      let o := Gia_ManObj p x in
      if Gia_ObjIsAnd o
      then ptr_value (aig_eval fuel' p ci) (Gia_ObjChild0 o)
           && ptr_value (aig_eval fuel' p ci) (Gia_ObjChild1 o)
      else if Gia_ObjIsCi o then ci x else false
  end.

(** ** A small solver to run the queries *)

(** A complete solver for the variables 0..3: it tries the sixteen
    assignments, and answers UNDEC when another variable occurs. *)
Definition assign4 (bits : list bool) (v : Z) : bool := nth (Z.to_nat v) bits false.

Definition all_assign4 : list (list bool) :=
  flat_map (fun b0 => flat_map (fun b1 => flat_map (fun b2 =>
    map (fun b3 => [b0; b1; b2; b3]) [false; true]) [false; true]) [false; true])
    [false; true].

Definition lits_small (c : list Z) : bool :=
  forallb (fun l => (0 <=? fst (lit_value l)) && (fst (lit_value l) <? 4)) c.

Definition answer_small (cs : list (list Z)) (asm : list Z) : satoko_status :=
  if forallb lits_small cs && lits_small asm then
    if existsb (fun bits => cnf_true (assign4 bits) cs
                            && forallb (lit_true (assign4 bits)) asm) all_assign4
    then SATOKO_SAT else SATOKO_UNSAT
  else SATOKO_UNDEC.

Definition polarity_small (cs : list (list Z)) (asm : list Z) : Z -> bool :=
  match List.find (fun bits => cnf_true (assign4 bits) cs
                               && forallb (lit_true (assign4 bits)) asm) all_assign4 with
  | Some bits => assign4 bits
  | None => fun _ => false
  end.

(** Two managers with the same number of simulation words and the same
    pattern counter. *)
Definition same_counter (p p' : Gia_Man_t) : Prop :=
  nSimWords p' = nSimWords p /\ iPatsPi p' = iPatsPi p.

(** * Properties *)

(** ** Bits of words *)

Lemma uint_not_bit (x n : Z) :
  0 <= n -> Z.testbit (uint_not x) n = (n <? 32) && negb (Z.testbit x n).
Proof.
  intros Hn. unfold uint_not.
  rewrite Z.land_spec, Z.lnot_spec by lia.
  destruct (Z.ltb_spec n 32).
  - rewrite Z.ones_spec_low by lia. now rewrite andb_true_r.
  - rewrite Z.ones_spec_high by lia. now rewrite andb_false_r.
Qed.

Lemma word_not_bit (x n : Z) :
  0 <= n -> Z.testbit (word_not x) n = (n <? 64) && negb (Z.testbit x n).
Proof.
  intros Hn. unfold word_not.
  rewrite Z.land_spec, Z.lnot_spec by lia.
  destruct (Z.ltb_spec n 64).
  - rewrite Z.ones_spec_low by lia. now rewrite andb_true_r.
  - rewrite Z.ones_spec_high by lia. now rewrite andb_false_r.
Qed.

Lemma land_1_testbit (x : Z) : Z.land x 1 = Z.b2z (Z.testbit x 0).
Proof.
  change 1 with (Z.ones 1). rewrite Z.land_ones by lia.
  rewrite Z.bit0_mod. reflexivity.
Qed.

Lemma word_not_lsb (x : Z) : Z.land (word_not x) 1 <> Z.land x 1.
Proof.
  rewrite !land_1_testbit, word_not_bit by lia.
  destruct (Z.testbit x 0); simpl; lia.
Qed.

(** The two halves of a complemented word are the complemented halves. *)
Lemma half_of_word_not (x s n : Z) :
  0 <= n -> (s = 0 \/ s = 32) ->
  Z.testbit (Z.land (Z.shiftr (word_not x) s) (Z.ones 32)) n
  = Z.testbit (uint_not (Z.land (Z.shiftr x s) (Z.ones 32))) n.
Proof.
  intros Hn Hs.
  assert (0 <= n + s) by lia.
  rewrite uint_not_bit, !Z.land_spec, !Z.shiftr_spec, word_not_bit by assumption.
  destruct (Z.ltb_spec n 32).
  - rewrite Z.ones_spec_low by lia.
    assert ((n + s <? 64) = true) as -> by (apply Z.ltb_lt; lia).
    simpl. now rewrite !andb_true_r.
  - rewrite Z.ones_spec_high by lia. now rewrite andb_false_r.
Qed.

Lemma uint_not_involutive_on_half (y : Z) :
  uint_not (uint_not (Z.land y (Z.ones 32))) = Z.land y (Z.ones 32).
Proof.
  apply Z.bits_inj'. intros n Hn.
  rewrite !uint_not_bit, Z.land_spec by lia.
  destruct (Z.ltb_spec n 32).
  - rewrite Z.ones_spec_low by lia. simpl. now rewrite negb_involutive.
  - rewrite Z.ones_spec_high by lia. simpl. now rewrite andb_false_r.
Qed.

(** ** The signature hash *)

Section HashKey.

Variables (mem1 mem2 : list Z) (pSim1 pSim2 nSims : Z).
Hypothesis complementary :
  forall w, 0 <= w < nSims ->
    Vec_WrdEntry mem2 (pSim2 + w) = word_not (Vec_WrdEntry mem1 (pSim1 + w)).

Lemma Info_Entry_compl (i : Z) :
  0 <= i < 2 * nSims ->
  Info_Entry mem2 pSim2 i = uint_not (Info_Entry mem1 pSim1 i).
Proof.
  intros Hi. unfold Info_Entry.
  rewrite complementary by (split; [apply Z.div_pos; lia | apply Z.div_lt_upper_bound; lia]).
  apply Z.bits_inj'. intros n Hn.
  apply half_of_word_not; [lia|].
  pose proof (Z.mod_pos_bound i 2 ltac:(lia)). lia.
Qed.

Lemma Info_Entry_compl_back (i : Z) :
  0 <= i < 2 * nSims ->
  uint_not (Info_Entry mem2 pSim2 i) = Info_Entry mem1 pSim1 i.
Proof.
  intros Hi. rewrite Info_Entry_compl by assumption.
  unfold Info_Entry. apply uint_not_involutive_on_half.
Qed.

Lemma hash_loop_compl_l (n : nat) (i uHash : Z) :
  0 <= i -> i + Z.of_nat n <= 2 * nSims ->
  hash_loop uint_not mem2 pSim2 n i uHash = hash_loop (fun x => x) mem1 pSim1 n i uHash.
Proof.
  revert i uHash. induction n as [|n IH]; intros i uHash Hi Hn; simpl; [reflexivity|].
  rewrite Info_Entry_compl_back by lia. apply IH; lia.
Qed.

Lemma hash_loop_compl_r (n : nat) (i uHash : Z) :
  0 <= i -> i + Z.of_nat n <= 2 * nSims ->
  hash_loop (fun x => x) mem2 pSim2 n i uHash = hash_loop uint_not mem1 pSim1 n i uHash.
Proof.
  revert i uHash. induction n as [|n IH]; intros i uHash Hi Hn; simpl; [reflexivity|].
  rewrite Info_Entry_compl by lia. apply IH; lia.
Qed.

Lemma hash_key_of_complement (nTableSize : Z) :
  Cec2_ManSimHashKey mem2 pSim2 nSims nTableSize
  = Cec2_ManSimHashKey mem1 pSim1 nSims nTableSize.
Proof.
  unfold Cec2_ManSimHashKey. f_equal.
  destruct (Z.le_gt_cases nSims 0) as [Hle|Hgt].
  - replace (Z.to_nat (2 * nSims)) with O by lia. simpl.
    repeat match goal with |- context [if ?b then _ else _] => destruct b end; reflexivity.
  - rewrite (Info_Entry_compl 0) by lia.
    rewrite uint_not_bit by lia.
    change (0 <? 32) with true. cbn [andb].
    destruct (Z.testbit (Info_Entry mem1 pSim1 0) 0); cbn [negb].
    + apply hash_loop_compl_r; lia.
    + apply hash_loop_compl_l; lia.
Qed.

End HashKey.

(** C10. The hash key of a simulation vector of [nSims] words equals
    the hash key of its bitwise complement, for every table size; in
    particular two nodes of one manager whose vectors are complementary
    get the same key in [Cec2_ManCreateClasses]. *)
Theorem C10_hash_key_complement_invariant :
  (forall (mem1 mem2 : list Z) (pSim1 pSim2 nSims nTableSize : Z),
      (forall w, 0 <= w < nSims ->
         Vec_WrdEntry mem2 (pSim2 + w) = word_not (Vec_WrdEntry mem1 (pSim1 + w))) ->
      Cec2_ManSimHashKey mem2 pSim2 nSims nTableSize
      = Cec2_ManSimHashKey mem1 pSim1 nSims nTableSize)
  /\
  (forall (p : Gia_Man_t) (i j nTableSize : Z),
      (forall w, 0 <= w < nSimWords p ->
         sim_read p (Cec2_ObjSim p j) w = word_not (sim_read p (Cec2_ObjSim p i) w)) ->
      Cec2_ManSimHashKey (vSims p) (Cec2_ObjSim p j) (nSimWords p) nTableSize
      = Cec2_ManSimHashKey (vSims p) (Cec2_ObjSim p i) (nSimWords p) nTableSize).
Proof.
  split.
  - intros. now apply hash_key_of_complement.
  - intros p i j T H. now apply hash_key_of_complement.
Qed.

Lemma C10_hash_key_witness :
  Cec2_ManSimHashKey [word_not 5] 0 1 7 = Cec2_ManSimHashKey [5] 0 1 7.
Proof.
  apply (proj1 C10_hash_key_complement_invariant).
  intros w Hw. assert (w = 0) as -> by lia. reflexivity.
Defined.

(** ** The candidate-equivalence test *)

Lemma all_words_spec (test : Z -> bool) (n : nat) (w0 : Z) :
  all_words n w0 test = true <->
  (forall w, w0 <= w < w0 + Z.of_nat n -> test w = true).
Proof.
  revert w0. induction n as [|n IH]; intros w0; simpl all_words.
  - split; [intros _ w Hw; lia | reflexivity].
  - destruct (test w0) eqn:E.
    + rewrite IH. split; intros H w Hw.
      * destruct (Z.eq_dec w w0) as [->|]; [assumption | apply H; lia].
      * apply H; lia.
    + split; [discriminate|]. intros H. rewrite <- E. apply H. lia.
Qed.

(** C3. [Cec2_ObjSimEqual] holds exactly when the two simulation
    vectors are equal or bitwise complementary; which of the two is
    checked is selected by whether the least significant bits of the
    first words agree. *)
Theorem C3_sim_equal_iff_equal_or_complement (p : Gia_Man_t) (i j : Z) :
  let W := nSimWords p in
  let s0 := sim_read p (Cec2_ObjSim p i) in
  let s1 := sim_read p (Cec2_ObjSim p j) in
  (Cec2_ObjSimEqual p i j = true <->
     (forall w, 0 <= w < W -> s0 w = s1 w) \/
     (forall w, 0 <= w < W -> s0 w = word_not (s1 w)))
  /\
  (Cec2_ObjSimEqual p i j =
     if Z.land (s0 0) 1 =? Z.land (s1 0) 1
     then all_words (Z.to_nat W) 0 (fun w => s0 w =? s1 w)
     else all_words (Z.to_nat W) 0 (fun w => s0 w =? word_not (s1 w)))
  /\
  (Z.land (s0 0) 1 = Z.land (s1 0) 1 ->
     (Cec2_ObjSimEqual p i j = true <-> forall w, 0 <= w < W -> s0 w = s1 w))
  /\
  (Z.land (s0 0) 1 <> Z.land (s1 0) 1 ->
     (Cec2_ObjSimEqual p i j = true <-> forall w, 0 <= w < W -> s0 w = word_not (s1 w))).
Proof.
  intros W s0 s1.
  assert (Hrange : forall w, 0 <= w < 0 + Z.of_nat (Z.to_nat W) <-> 0 <= w < W) by (intros; lia).
  assert (Heq : Z.land (s0 0) 1 = Z.land (s1 0) 1 ->
     (Cec2_ObjSimEqual p i j = true <-> forall w, 0 <= w < W -> s0 w = s1 w)).
  { intros H. unfold Cec2_ObjSimEqual. fold s0 s1 W.
    rewrite (proj2 (Z.eqb_eq _ _) H), all_words_spec.
    split; intros A w Hw.
    - apply Z.eqb_eq, A, Hrange, Hw.
    - apply Z.eqb_eq, A, Hrange, Hw. }
  assert (Hne : Z.land (s0 0) 1 <> Z.land (s1 0) 1 ->
     (Cec2_ObjSimEqual p i j = true <-> forall w, 0 <= w < W -> s0 w = word_not (s1 w))).
  { intros H. unfold Cec2_ObjSimEqual. fold s0 s1 W.
    rewrite (proj2 (Z.eqb_neq _ _) H), all_words_spec.
    split; intros A w Hw.
    - apply Z.eqb_eq, A, Hrange, Hw.
    - apply Z.eqb_eq, A, Hrange, Hw. }
  split; [|split; [reflexivity | split; assumption]].
  destruct (Z.eq_dec (Z.land (s0 0) 1) (Z.land (s1 0) 1)) as [E|E].
  - rewrite (Heq E). split; [now left|].
    intros [A|A]; [assumption|].
    destruct (Z.le_gt_cases W 0) as [Hw|Hw]; [intros w ?; lia|].
    exfalso. rewrite (A 0) in E by lia. now apply word_not_lsb in E.
  - rewrite (Hne E). split; [now right|].
    intros [A|A]; [|assumption].
    destruct (Z.le_gt_cases W 0) as [Hw|Hw]; [intros w ?; lia|].
    exfalso. apply E. now rewrite (A 0) by lia.
Qed.

(** ** Reasoning about code that can stop *)

Lemma bind_Ok_inv {A B : Type} (c : res A) (k : A -> res B) (r : B) :
  c ≫= k = Ok r -> exists a, c = Ok a /\ k a = Ok r.
Proof. destruct c as [a| |]; simpl; intros H; [eauto | discriminate | discriminate]. Qed.

Lemma assert_Ok_inv (c : bool) (u : unit) :
  assert_ c = Ok u -> NDEBUG = true \/ c = true.
Proof.
  unfold assert_. destruct NDEBUG; [now left|]. destruct c; [now right | discriminate].
Qed.

Lemma assert_true : assert_ true = Ok ().
Proof. unfold assert_. now rewrite orb_true_r. Qed.

Tactic Notation "inv_bind" hyp(H) "as" ident(a) ident(Ha) :=
  apply bind_Ok_inv in H as (a & Ha & H).

Ltac inv_Ok H := injection H as H; try subst.

(** ** The clauses of the CNF builder *)

Lemma add_clause_checked_Ok (s s' : satoko_t) (c : list Z) :
  add_clause_checked s c = Ok s' ->
  sat_clauses s' = sat_clauses s ++ [c] /\ sat_nvars s' = sat_nvars s
  /\ sat_assumps s' = sat_assumps s /\ sat_queries s' = sat_queries s.
Proof.
  unfold add_clause_checked, satoko_add_clause. intros H.
  inv_bind H as u Hu. inv_Ok H. simpl. auto.
Qed.

Lemma add_clause_checked_accepts (s : satoko_t) (c : list Z) :
  satoko_accepts (sat_clauses s) c = true ->
  exists s', add_clause_checked s c = Ok s'.
Proof.
  unfold add_clause_checked, satoko_add_clause, assert_. intros ->.
  rewrite orb_true_r. simpl. eauto.
Qed.

Lemma super_binary_clauses_Ok (fl : bool) (p : Gia_Man_t) (pNode : Z)
    (vSuper : list Gia_Ptr) (s s' : satoko_t) :
  super_binary_clauses fl p pNode vSuper s = Ok s' ->
  exists cs, sat_clauses s' = sat_clauses s ++ cs
    /\ length cs = length vSuper /\ Forall (fun c => length c = 2%nat) cs.
Proof.
  revert s. induction vSuper as [|q rest IH]; intros s H; simpl in H.
  - inv_Ok H. exists []. now rewrite app_nil_r.
  - inv_bind H as s1 Hs1. apply add_clause_checked_Ok in Hs1 as (Hc & _).
    apply IH in H as (cs & Hcs & Hlen & Hall).
    eexists (_ :: cs). rewrite Hcs, Hc, <- app_assoc. simpl.
    split; [reflexivity|]. split; [now rewrite Hlen|]. constructor; [reflexivity | assumption].
Qed.

(** C5. A MUX node gets six three-literal clauses, or four
    when the then- and else-fanins have the same variable; an AND
    super-gate of [k] leaves gets [k] two-literal clauses and one clause
    of [k + 1] literals, that is [k + 1] clauses. *)
Theorem C5_clause_counts :
  (forall (p : Gia_Man_t) (pNode : Z) (s s' : satoko_t),
      Cec2_AddClausesMux p pNode s = Ok s' ->
      let '(_, pNodeT, pNodeE) := Gia_ObjRecognizeMux p pNode in
      exists cs, sat_clauses s' = sat_clauses s ++ cs
        /\ Forall (fun c => length c = 3%nat) cs
        /\ length cs =
             if Cec2_ObjSatId p (Gia_Regular pNodeT) =? Cec2_ObjSatId p (Gia_Regular pNodeE)
             then 4%nat else 6%nat)
  /\
  (forall (p : Gia_Man_t) (pNode : Z) (vSuper : list Gia_Ptr) (s s' : satoko_t),
      Cec2_AddClausesSuper p pNode vSuper s = Ok s' ->
      exists cs c, sat_clauses s' = sat_clauses s ++ cs ++ [c]
        /\ length cs = length vSuper
        /\ Forall (fun c => length c = 2%nat) cs
        /\ length c = S (length vSuper)
        /\ length (cs ++ [c]) = S (length vSuper)).
Proof.
  split.
  - intros p pNode s s' H. unfold Cec2_AddClausesMux in H.
    inv_bind H as u Hu. destruct (Gia_ObjRecognizeMux p pNode) as [[pNodeI pNodeT] pNodeE].
    inv_bind H as s1 Hc. apply add_clause_checked_Ok in Hc as (Hc & _).
    inv_bind H as s2 Hc0. apply add_clause_checked_Ok in Hc0 as (Hc0 & _).
    inv_bind H as s3 Hc1. apply add_clause_checked_Ok in Hc1 as (Hc1 & _).
    inv_bind H as s4 Hc2. apply add_clause_checked_Ok in Hc2 as (Hc2 & _).
    destruct (_ =? _).
    + inv_Ok H. eexists [_; _; _; _].
      rewrite Hc2, Hc1, Hc0, Hc, <- !app_assoc. simpl.
      split; [reflexivity|]. split; [|reflexivity]. repeat constructor.
    + inv_bind H as s5 Hc3. apply add_clause_checked_Ok in Hc3 as (Hc3 & _).
      apply add_clause_checked_Ok in H as (Hc4 & _).
      eexists [_; _; _; _; _; _].
      rewrite Hc4, Hc3, Hc2, Hc1, Hc0, Hc, <- !app_assoc. simpl.
      split; [reflexivity|]. split; [|reflexivity]. repeat constructor.
  - intros p pNode vSuper s s' H. unfold Cec2_AddClausesSuper in H.
    inv_bind H as u Hu. inv_bind H as s1 Hs1.
    apply super_binary_clauses_Ok in Hs1 as (cs & Hcs & Hlen & Hall).
    apply add_clause_checked_Ok in H as (Hc & _).
    exists cs. eexists. rewrite Hc, Hcs, <- app_assoc.
    split; [reflexivity|]. split; [assumption|]. split; [assumption|].
    rewrite !length_app, length_map, Hlen. simpl. split; lia.
Qed.

(** ** What the construction of the CNF leaves unchanged *)

Lemma cnf_stable_refl (m : Cec2_Man_t) : cnf_stable m m.
Proof. now constructor. Qed.

Lemma cnf_stable_trans (m1 m2 m3 : Cec2_Man_t) :
  cnf_stable m1 m2 -> cnf_stable m2 m3 -> cnf_stable m1 m3.
Proof.
  intros [] []. constructor; etransitivity; eassumption.
Qed.

Lemma length_Vec_WriteEntry {A} (v : list A) (i : Z) (x : A) :
  length (Vec_WriteEntry v i x) = length v.
Proof. unfold Vec_WriteEntry. destruct (i <? 0); [reflexivity | apply length_insert]. Qed.

Lemma Cec2_ObjSetSatId_Ok (p p' : Gia_Man_t) (pObj Num r : Z) :
  Cec2_ObjSetSatId p pObj Num = Ok (p', r) ->
  p' = Gia_ObjSetCopyArray p pObj Num /\ r = Num.
Proof.
  unfold Cec2_ObjSetSatId. intros H. inv_bind H as u Hu. inv_Ok H. auto.
Qed.

Lemma Cec2_ObjAddToFrontier_Ok (p p' : Gia_Man_t) (pObj : Z) (vF vF' : list Z) (s s' : satoko_t) :
  Cec2_ObjAddToFrontier p pObj vF s = Ok (p', vF', s') ->
  (p' = p /\ vF' = vF /\ s' = s /\ 0 <= Cec2_ObjSatId p pObj)
  \/ (Cec2_ObjSatId p pObj < 0
      /\ p' = Gia_ObjSetCopyArray p pObj (sat_nvars s)
      /\ vF' = (if Gia_ObjIsAnd (Gia_ManObj p pObj) then vF ++ [pObj] else vF)
      /\ s' = fst (satoko_add_variable s)).
Proof.
  unfold Cec2_ObjAddToFrontier. intros H. inv_bind H as u Hu.
  destruct (Z.leb_spec 0 (Cec2_ObjSatId p pObj)).
  - inv_Ok H. left. auto.
  - inv_bind H as u' Hu'. simpl in H. inv_bind H as pr Hpr. destruct pr as [p1 r1].
    apply Cec2_ObjSetSatId_Ok in Hpr as [-> ->]. inv_Ok H. right. auto.
Qed.

Lemma add_fanins_to_frontier_stable (vFan : list Gia_Ptr) (m m' : Cec2_Man_t) :
  add_fanins_to_frontier vFan m = Ok m' ->
  cnf_stable m m' /\ vFanins m' = vFanins m.
Proof.
  revert m. induction vFan as [|q rest IH]; intros m H; simpl in H.
  - inv_Ok H. split; [apply cnf_stable_refl | reflexivity].
  - inv_bind H as t Ht. destruct t as [[pN vF] s].
    apply IH in H as [Hst Hfan]. simpl in Hfan. split; [|assumption].
    eapply cnf_stable_trans; [|exact Hst].
    apply Cec2_ObjAddToFrontier_Ok in Ht as [(-> & -> & -> & _)|(_ & -> & -> & ->)];
      constructor; simpl; try reflexivity.
    apply length_Vec_WriteEntry.
Qed.

Lemma sat_same_refl (s : satoko_t) : sat_same s s.
Proof. now repeat split. Qed.

Lemma sat_same_trans (s1 s2 s3 : satoko_t) :
  sat_same s1 s2 -> sat_same s2 s3 -> sat_same s1 s3.
Proof. intros (? & ? & ?) (? & ? & ?). repeat split; congruence. Qed.

Lemma add_clause_checked_same (s s' : satoko_t) (c : list Z) :
  add_clause_checked s c = Ok s' -> sat_same s s'.
Proof. intros H. apply add_clause_checked_Ok in H as (_ & ? & ? & ?). now repeat split. Qed.

Ltac step_clause H :=
  let s := fresh "s" in
  let Hs := fresh "Hs" in
  inv_bind H as s Hs; apply add_clause_checked_same in Hs;
  eapply sat_same_trans; [exact Hs|]; clear Hs.

Lemma Cec2_AddClausesMux_stable (p : Gia_Man_t) (pNode : Z) (s s' : satoko_t) :
  Cec2_AddClausesMux p pNode s = Ok s' -> sat_same s s'.
Proof.
  unfold Cec2_AddClausesMux. intros H. inv_bind H as u Hu.
  destruct (Gia_ObjRecognizeMux p pNode) as [[pNodeI pNodeT] pNodeE].
  do 4 step_clause H.
  destruct (_ =? _).
  - inv_Ok H. apply sat_same_refl.
  - step_clause H. now apply add_clause_checked_same in H.
Qed.

Lemma super_binary_clauses_stable (fl : bool) (p : Gia_Man_t) (pNode : Z)
    (vSuper : list Gia_Ptr) (s s' : satoko_t) :
  super_binary_clauses fl p pNode vSuper s = Ok s' -> sat_same s s'.
Proof.
  revert s. induction vSuper as [|q rest IH]; intros s H; simpl in H.
  - inv_Ok H. apply sat_same_refl.
  - step_clause H. now apply IH.
Qed.

Lemma Cec2_AddClausesSuper_stable (p : Gia_Man_t) (pNode : Z) (vSuper : list Gia_Ptr)
    (s s' : satoko_t) :
  Cec2_AddClausesSuper p pNode vSuper s = Ok s' -> sat_same s s'.
Proof.
  unfold Cec2_AddClausesSuper. intros H. inv_bind H as u Hu. inv_bind H as s1 H1.
  apply super_binary_clauses_stable in H1. apply add_clause_checked_same in H.
  eapply sat_same_trans; eassumption.
Qed.

Lemma frontier_step_stable (fUseMuxes : bool) (m m' : Cec2_Man_t) (pNode : Z) :
  frontier_step fUseMuxes m pNode = Ok m' -> cnf_stable m m'.
Proof.
  unfold frontier_step. intros H. inv_bind H as u Hu. inv_bind H as m1 H1.
  inv_bind H as u' Hu'. inv_Ok H.
  destruct (fUseMuxes && fMark0 (Gia_ManObj (pNew m) pNode)).
  - inv_bind H1 as m2 H2. apply add_fanins_to_frontier_stable in H2 as [[] _].
    inv_bind H1 as s H3. apply Cec2_AddClausesMux_stable in H3 as (_ & ? & ?).
    inv_Ok H1. constructor; simpl in *; congruence.
  - inv_bind H1 as vSuper Hsup. inv_bind H1 as m2 H2.
    apply add_fanins_to_frontier_stable in H2 as [[] _].
    inv_bind H1 as s H3. apply Cec2_AddClausesSuper_stable in H3 as (_ & ? & ?).
    inv_Ok H1. constructor; simpl in *; congruence.
Qed.

Lemma frontier_loop_stable (fuel : nat) (fUseMuxes : bool) (m m' : Cec2_Man_t) (i : Z) :
  frontier_loop fuel fUseMuxes m i = Ok m' -> cnf_stable m m'.
Proof.
  revert m i. induction fuel as [|fuel IH]; intros m i H; simpl in H.
  - destruct (i <? _); [discriminate | inv_Ok H; apply cnf_stable_refl].
  - destruct (i <? _); [|inv_Ok H; apply cnf_stable_refl].
    inv_bind H as m1 H1. apply frontier_step_stable in H1. apply IH in H.
    eapply cnf_stable_trans; eassumption.
Qed.

Lemma Cec2_ObjGetCnfVar_stable (m m' : Cec2_Man_t) (iObj v : Z) :
  Cec2_ObjGetCnfVar m iObj = Ok (m', v) -> cnf_stable m m'.
Proof.
  unfold Cec2_ObjGetCnfVar. intros H.
  destruct (0 <=? _).
  - inv_Ok H. apply cnf_stable_refl.
  - inv_bind H as u Hu. destruct (Gia_ObjIsCi _).
    + simpl in H. inv_bind H as pr Hpr. destruct pr as [pN Num].
      apply Cec2_ObjSetSatId_Ok in Hpr as [-> ->]. inv_Ok H.
      constructor; simpl; try reflexivity. apply length_Vec_WriteEntry.
    + inv_bind H as u' Hu'. inv_bind H as t Ht. destruct t as [[pN vF] s].
      inv_bind H as m1 H1. inv_Ok H.
      apply frontier_loop_stable in H1. eapply cnf_stable_trans; [|exact H1].
      apply Cec2_ObjAddToFrontier_Ok in Ht as [(-> & -> & -> & _)|(_ & -> & -> & ->)];
        constructor; simpl; try reflexivity.
      apply length_Vec_WriteEntry.
Qed.

Lemma Cec2_ManCollect_rec_stable (fuel : nat) (m m' : Cec2_Man_t) (iObj : Z) :
  Cec2_ManCollect_rec fuel m iObj = Ok m' ->
  cnf_stable m m' /\ pSat m' = pSat m /\ vCopies (pNew m') = vCopies (pNew m).
Proof.
  revert m m' iObj. induction fuel as [|fuel IH]; intros m m' iObj H; simpl in H;
    [discriminate|].
  destruct (Gia_ObjIsTravIdCurrentId _ _).
  { inv_Ok H. split; [apply cnf_stable_refl | auto]. }
  set (m0 := if 0 <=? _ then _ else _) in H.
  assert (H0 : cnf_stable m m0 /\ pSat m0 = pSat m /\ vCopies (pNew m0) = vCopies (pNew m)).
  { subst m0. destruct (0 <=? _); (split; [constructor|]); simpl; auto. }
  destruct H0 as (S0 & P0 & C0).
  destruct (iObj =? 0).
  { inv_Ok H. auto. }
  destruct (Gia_ObjIsAnd _).
  - inv_bind H as m1 H1. apply IH in H1 as (S1 & P1 & C1). apply IH in H as (S2 & P2 & C2).
    split; [eauto using cnf_stable_trans | split; congruence].
  - inv_bind H as u Hu. inv_Ok H. split; [|simpl; auto].
    eapply cnf_stable_trans; [exact S0|]. now constructor.
Qed.

(** ** One SAT call, step by step *)

Lemma removelast_snoc {A} (l : list A) (x : A) : removelast (l ++ [x]) = l.
Proof. apply removelast_last. Qed.

Lemma solve_under_spec (s : satoko_t) (Lit0 Lit1 : Z) :
  let q := sat_assumps s ++ [Lit0; Lit1] in
  solve_under s Lit0 Lit1 =
    (mkSat (sat_nvars s) (sat_clauses s) (sat_assumps s)
           (satoko_polarity (sat_clauses s) q) (sat_queries s ++ [q]),
     satoko_answer (sat_clauses s) q).
Proof.
  unfold solve_under, satoko_solve, satoko_assump_pop, satoko_assump_push. simpl.
  rewrite <- !app_assoc. simpl.
  replace (sat_assumps s ++ [Lit0; Lit1]) with ((sat_assumps s ++ [Lit0]) ++ [Lit1])
    by (now rewrite <- app_assoc).
  now rewrite !removelast_snoc.
Qed.

Lemma Cec2_ManSolveTwo_inv (m m' : Cec2_Man_t) (a b : Z) (ph : bool) (st : satoko_status) :
  Cec2_ManSolveTwo m a b ph = Ok (m', st) ->
  let lo := Z.min a b in
  let hi := Z.max a b in
  exists m1 m2 m3 m4 iVar0 iVar1 pN,
    Cec2_ObjGetCnfVar (with_const_var m lo) lo = Ok (m1, iVar0)
    /\ Cec2_ObjGetCnfVar m1 hi = Ok (m2, iVar1)
    /\ Cec2_ManCollect_rec (S (Z.to_nat lo)) (before_collect m2) lo = Ok m3
    /\ Cec2_ManCollect_rec (S (Z.to_nat hi)) m3 hi = Ok m4
    /\ clean_sat_ids (vNodesNew m4) (pNew m4) = Ok pN
    /\ m' = set_pNew (set_pSat m4 (fst (two_queries (pSat m4) lo iVar0 iVar1 ph))) pN
    /\ st = snd (two_queries (pSat m4) lo iVar0 iVar1 ph).
Proof.
  intros H lo hi. unfold Cec2_ManSolveTwo in H.
  assert (Hsw : (if b <? a then (b, a) else (a, b)) = (lo, hi)).
  { subst lo hi. destruct (Z.ltb_spec b a); f_equal; lia. }
  rewrite Hsw in H. clear Hsw.
  inv_bind H as u1 Hu1. inv_bind H as u2 Hu2. inv_bind H as m0 H0.
  assert (m0 = with_const_var m lo) as ->.
  { unfold with_const_var. destruct (lo =? 0).
    - simpl in H0. inv_bind H0 as pr Hpr. destruct pr as [pN0 r0].
      apply Cec2_ObjSetSatId_Ok in Hpr as [-> ->]. now inv_Ok H0.
    - now inv_Ok H0. }
  inv_bind H as r1 H1. destruct r1 as [m1 iVar0].
  inv_bind H as r2 H2. destruct r2 as [m2 iVar1].
  inv_bind H as m3 H3. inv_bind H as m4 H4.
  assert (E : exists (s : satoko_t) (status : satoko_status),
               two_queries (pSat m4) lo iVar0 iVar1 ph = (s, status)
             /\ clean_sat_ids (vNodesNew (set_pSat m4 s)) (pNew (set_pSat m4 s))
                  ≫= (fun pN => mret (set_pNew (set_pSat m4 s) pN, status)) = Ok (m', st)).
  { unfold two_queries. destruct (solve_under _ _ _) as [s1 st1].
    destruct (satoko_status_eqb st1 SATOKO_UNSAT && (0 <? lo)).
    - destruct (solve_under s1 _ _) as [s2 st2]. eauto.
    - eauto. }
  clear H. destruct E as (s & status & E & H).
  inv_bind H as pN HpN. inv_Ok H.
  exists m1, m2, m3, m4, iVar0, iVar1, pN. rewrite E. repeat split; assumption.
Qed.

Lemma two_queries_spec (s : satoko_t) (iObj0 iVar0 iVar1 : Z) (ph : bool) :
  let q1 := sat_assumps s ++ [Abc_Var2Lit iVar0 true; Abc_Var2Lit iVar1 ph] in
  let q2 := sat_assumps s ++ [Abc_Var2Lit iVar0 false; Abc_Var2Lit iVar1 (negb ph)] in
  let second := satoko_status_eqb (satoko_answer (sat_clauses s) q1) SATOKO_UNSAT
                && (0 <? iObj0) in
  let s' := fst (two_queries s iObj0 iVar0 iVar1 ph) in
  sat_queries s' = sat_queries s ++ q1 :: (if second then [q2] else [])
  /\ snd (two_queries s iObj0 iVar0 iVar1 ph)
     = (if second then satoko_answer (sat_clauses s) q2 else satoko_answer (sat_clauses s) q1)
  /\ sat_model s' = satoko_polarity (sat_clauses s) (if second then q2 else q1)
  /\ sat_nvars s' = sat_nvars s /\ sat_clauses s' = sat_clauses s
  /\ sat_assumps s' = sat_assumps s.
Proof.
  intros q1 q2 second s'. subst s'. unfold two_queries.
  rewrite solve_under_spec. fold q1. fold second.
  destruct second.
  - rewrite solve_under_spec. simpl. fold q2. rewrite <- app_assoc. auto 10.
  - simpl. auto 10.
Qed.

Lemma clean_sat_ids_objs (l : list Z) (q q' : Gia_Man_t) :
  clean_sat_ids l q = Ok q' ->
  pObjs q' = pObjs q /\ length (vCopies q') = length (vCopies q).
Proof.
  revert q. induction l as [|x l IH]; intros q E; simpl in E.
  - inv_Ok E. auto.
  - inv_bind E as q1 Hq1. unfold Cec2_ObjCleanSatId in Hq1. inv_bind Hq1 as u Hu. inv_Ok Hq1.
    apply IH in E as [-> ->]. simpl. auto using length_Vec_WriteEntry.
Qed.

Lemma Cec2_ManSolveTwo_stable (m m' : Cec2_Man_t) (a b : Z) (ph : bool) (st : satoko_status) :
  Cec2_ManSolveTwo m a b ph = Ok (m', st) ->
  pAig m' = pAig m /\ pPars m' = pPars m /\ pObjs (pNew m') = pObjs (pNew m).
Proof.
  intros H. apply Cec2_ManSolveTwo_inv in H
    as (m1 & m2 & m3 & m4 & iVar0 & iVar1 & pN & H1 & H2 & H3 & H4 & H5 & -> & _).
  apply Cec2_ObjGetCnfVar_stable in H1, H2.
  apply Cec2_ManCollect_rec_stable in H3 as (H3 & _), H4 as (H4 & _).
  assert (S0 : cnf_stable m (with_const_var m (Z.min a b))).
  { unfold with_const_var. destruct (_ =? 0); constructor; simpl; auto using length_Vec_WriteEntry. }
  assert (S2 : cnf_stable m2 (before_collect m2)) by (now constructor).
  assert (S : cnf_stable m m4) by eauto 10 using cnf_stable_trans.
  destruct S. simpl. repeat split; try assumption.
  apply clean_sat_ids_objs in H5 as [-> _]. assumption.
Qed.

(** ** Arrays *)

Lemma Vec_WriteEntry_out {A} (v : list A) (i : Z) (x : A) :
  ~ (0 <= i < Vec_Size v) -> Vec_WriteEntry v i x = v.
Proof.
  unfold Vec_WriteEntry, Vec_Size. intros H.
  destruct (Z.ltb_spec i 0); [reflexivity|]. apply list_insert_ge. lia.
Qed.

Lemma Vec_Entry_write_same {A} (d : A) (v : list A) (i : Z) (x : A) :
  0 <= i < Vec_Size v -> Vec_Entry d (Vec_WriteEntry v i x) i = x.
Proof.
  unfold Vec_Entry, Vec_WriteEntry, Vec_Size. intros H.
  destruct (Z.ltb_spec i 0); [lia|].
  rewrite list_lookup_insert_eq by lia. reflexivity.
Qed.

Lemma Vec_Entry_write_other {A} (d : A) (v : list A) (i j : Z) (x : A) :
  i <> j -> Vec_Entry d (Vec_WriteEntry v i x) j = Vec_Entry d v j.
Proof.
  unfold Vec_Entry, Vec_WriteEntry. intros H.
  destruct (Z.ltb_spec i 0); [reflexivity|].
  destruct (Z.ltb_spec j 0); [reflexivity|].
  rewrite list_lookup_insert_ne by lia. reflexivity.
Qed.

Lemma Vec_Entry_write {A} (d : A) (v : list A) (i j : Z) (x : A) :
  Vec_Entry d (Vec_WriteEntry v i x) j
  = if (i =? j) && (0 <=? i) && (i <? Vec_Size v) then x else Vec_Entry d v j.
Proof.
  destruct (Z.eqb_spec i j) as [->|Hne]; simpl.
  - destruct (Z.leb_spec 0 j), (Z.ltb_spec j (Vec_Size v)); simpl;
      try (rewrite Vec_WriteEntry_out by lia; reflexivity).
    apply Vec_Entry_write_same. lia.
  - now apply Vec_Entry_write_other.
Qed.

(** ** The pattern counter and column 0 *)

Lemma Cec2_ObjSimSetInputBit_frame (p : Gia_Man_t) (Id : Z) (Bit : bool) :
  let p' := Cec2_ObjSimSetInputBit p Id Bit in
  iPatsPi p' = iPatsPi p /\ nSimWords p' = nSimWords p /\ pObjs p' = pObjs p
  /\ pReprs p' = pReprs p /\ pNexts p' = pNexts p /\ pCexSeq p' = pCexSeq p.
Proof.
  unfold Cec2_ObjSimSetInputBit. destruct (negb _); simpl; auto 10.
Qed.

Lemma Cec2_ObjSimSetInputBit_column0 (p : Gia_Man_t) (Id : Z) (Bit : bool) (n : Z) :
  0 < nSimWords p -> 1 <= iPatsPi p < 64 * nSimWords p ->
  let p' := Cec2_ObjSimSetInputBit p Id Bit in
  Abc_InfoHasBit (vSims p') (Cec2_ObjSim p' n) 0
  = Abc_InfoHasBit (vSims p) (Cec2_ObjSim p n) 0.
Proof.
  intros HW Hpat. unfold Cec2_ObjSimSetInputBit, Cec2_ObjSim.
  destruct (negb _); [|reflexivity]. simpl.
  unfold Abc_InfoHasBit, Abc_InfoXorBit, Vec_WrdEntry.
  change (0 / 64) with 0. change (0 mod 64) with 0. rewrite Z.add_0_r.
  set (W := nSimWords p) in *. set (c := iPatsPi p) in *.
  assert (Hq : 0 <= c / 64 < W).
  { split; [apply Z.div_pos; lia | apply Z.div_lt_upper_bound; lia]. }
  rewrite Vec_Entry_write.
  destruct (Z.eqb_spec (W * Id + c / 64) (W * n)) as [E|E]; simpl; [|reflexivity].
  destruct (_ && _); [|reflexivity].
  assert (Id = n) by nia. subst n.
  assert (Hq0 : c / 64 = 0) by lia.
  assert (Hc : c mod 64 = c).
  { pose proof (Z.div_mod c 64 ltac:(lia)). lia. }
  rewrite <- !Z.bit0_odd.
  rewrite Hq0, Hc, Z.add_0_r, Z.lxor_spec, Z.shiftl_spec by lia.
  rewrite (Z.testbit_neg_r 1 (0 - c)) by lia. apply xorb_false_r.
Qed.

Lemma list_pairs_ind {A} (P : list A -> Prop) :
  P [] -> (forall x, P [x]) -> (forall x y l, P l -> P (x :: y :: l)) ->
  forall l, P l.
Proof.
  intros H0 H1 H2. fix IH 1. intros [|x [|y l]]; [assumption | apply H1 | apply H2, IH].
Qed.

Lemma set_input_bits_frame (s : satoko_t) (vPairs : list Z) (p : Gia_Man_t) :
  let p' := set_input_bits s vPairs p in
  iPatsPi p' = iPatsPi p /\ nSimWords p' = nSimWords p /\ pObjs p' = pObjs p
  /\ pReprs p' = pReprs p /\ pNexts p' = pNexts p /\ pCexSeq p' = pCexSeq p.
Proof.
  revert p. induction vPairs as [|x|IdAig IdSat rest IH] using list_pairs_ind;
    intros p; simpl; auto 10.
  destruct (IH (Cec2_ObjSimSetInputBit p IdAig (var_polarity_true s IdSat)))
    as (-> & -> & -> & -> & -> & ->).
  apply Cec2_ObjSimSetInputBit_frame.
Qed.

Lemma set_input_bits_column0 (s : satoko_t) (vPairs : list Z) (p : Gia_Man_t) (n : Z) :
  0 < nSimWords p -> 1 <= iPatsPi p < 64 * nSimWords p ->
  let p' := set_input_bits s vPairs p in
  Abc_InfoHasBit (vSims p') (Cec2_ObjSim p' n) 0
  = Abc_InfoHasBit (vSims p) (Cec2_ObjSim p n) 0.
Proof.
  revert p. induction vPairs as [|x|IdAig IdSat rest IH] using list_pairs_ind;
    intros p HW Hpat; simpl; try reflexivity.
  pose proof (Cec2_ObjSimSetInputBit_frame p IdAig (var_polarity_true s IdSat))
    as (Hi & Hw & _).
  rewrite IH by (rewrite ?Hi, ?Hw; assumption).
  now apply Cec2_ObjSimSetInputBit_column0.
Qed.

(** ** One node of the sweep *)

Lemma Cec2_ManSweepNode_sat (m m1 : Cec2_Man_t) (iObj : Z) :
  sweep_query m iObj = Ok (m1, SATOKO_SAT) ->
  Cec2_ManSweepNode m iObj =
    (_ ← assert_ ((0 <? next_pattern (pAig m))
                  && (next_pattern (pAig m) <? 64 * nSimWords (pAig m)));
     mret (set_pSat (set_pAig m1 (disproved_aig m m1)) (satoko_rollback (pSat m1)), 0)).
Proof.
  intros H. unfold Cec2_ManSweepNode. unfold sweep_query, sweep_fCompl in H.
  rewrite H. apply Cec2_ManSolveTwo_stable in H as (HA & _). simpl.
  unfold disproved_aig. rewrite HA. simpl.
  destruct (assert_ _); reflexivity.
Qed.

Lemma Cec2_ManSweepNode_unsat (m m1 : Cec2_Man_t) (iObj : Z) :
  sweep_query m iObj = Ok (m1, SATOKO_UNSAT) ->
  Cec2_ManSweepNode m iObj =
    Ok (set_pSat (set_pAig m1 (merged_aig m iObj)) (satoko_rollback (pSat m1)), 1).
Proof.
  intros H. unfold Cec2_ManSweepNode. unfold sweep_query, sweep_fCompl in H.
  rewrite H. apply Cec2_ManSolveTwo_stable in H as (HA & _). simpl.
  unfold merged_aig, sweep_fCompl. rewrite HA. reflexivity.
Qed.

Lemma Cec2_ManSweepNode_undec (m m1 : Cec2_Man_t) (iObj : Z) :
  sweep_query m iObj = Ok (m1, SATOKO_UNDEC) ->
  Cec2_ManSweepNode m iObj =
    if NDEBUG
    then Ok (set_pSat (set_pAig m1 (Gia_ObjSetFailed (pAig m) iObj))
                      (satoko_rollback (pSat m1)), 1)
    else AssertFail.
Proof.
  intros H. unfold Cec2_ManSweepNode. unfold sweep_query, sweep_fCompl in H.
  rewrite H. apply Cec2_ManSolveTwo_stable in H as (HA & _). simpl.
  rewrite HA. unfold assert_. destruct NDEBUG; reflexivity.
Qed.

Lemma Cec2_ManSweepNode_inv (m m' : Cec2_Man_t) (iObj r : Z) :
  Cec2_ManSweepNode m iObj = Ok (m', r) ->
  exists m1 st, sweep_query m iObj = Ok (m1, st)
    /\ pAig m1 = pAig m
    /\ match st with
       | SATOKO_SAT =>
           r = 0 /\ pAig m' = disproved_aig m m1
           /\ (NDEBUG = true \/ 0 < next_pattern (pAig m) < 64 * nSimWords (pAig m))
       | SATOKO_UNSAT => r = 1 /\ pAig m' = merged_aig m iObj
       | SATOKO_UNDEC => r = 1 /\ pAig m' = Gia_ObjSetFailed (pAig m) iObj /\ NDEBUG = true
       end.
Proof.
  intros H. destruct (sweep_query m iObj) as [[m1 st]| |] eqn:E.
  - exists m1, st. split; [reflexivity|].
    pose proof E as HA. apply Cec2_ManSolveTwo_stable in HA as (HA & _).
    split; [assumption|]. destruct st.
    + rewrite (Cec2_ManSweepNode_undec _ _ _ E) in H. destruct NDEBUG; [|discriminate].
      inv_Ok H. auto.
    + rewrite (Cec2_ManSweepNode_sat _ _ _ E) in H. inv_bind H as u Hu. inv_Ok H.
      apply assert_Ok_inv in Hu as [Hu|Hu]; [auto|].
      apply andb_true_iff in Hu as [?%Z.ltb_lt ?%Z.ltb_lt]. auto.
    + rewrite (Cec2_ManSweepNode_unsat _ _ _ E) in H. inv_Ok H. auto.
  - unfold Cec2_ManSweepNode in H. unfold sweep_query, sweep_fCompl in E.
    rewrite E in H. discriminate.
  - unfold Cec2_ManSweepNode in H. unfold sweep_query, sweep_fCompl in E.
    rewrite E in H. discriminate.
Qed.

Lemma lit_value_Var2Lit (v : Z) (c : bool) : lit_value (Abc_Var2Lit v c) = (v, negb c).
Proof.
  unfold lit_value, Abc_Var2Lit, Abc_Lit2Var, Abc_LitIsCompl.
  rewrite Z.shiftr_div_pow2 by lia. change (2 ^ 1) with 2.
  f_equal.
  - replace (v + v + Z.b2z c) with (Z.b2z c + v * 2) by lia.
    rewrite Z.div_add by lia. destruct c; reflexivity.
  - replace (v + v + Z.b2z c) with (Z.b2z c + 2 * v) by lia.
    rewrite Z.odd_add_mul_2. destruct c; reflexivity.
Qed.

Lemma satoko_status_eqb_eq (a b : satoko_status) :
  satoko_status_eqb a b = true <-> a = b.
Proof. destruct a, b; simpl; split; congruence. Qed.

Lemma Gia_ObjProved_SetProved (p : Gia_Man_t) (i : Z) :
  0 <= i < Vec_Size (Gia_ReprArray p) -> Gia_ObjProved (Gia_ObjSetProved p i) i = true.
Proof.
  intros H. unfold Gia_ObjProved, Gia_ObjSetProved, Gia_RprUpdate, Gia_ReprArray. simpl.
  now rewrite Vec_Entry_write_same.
Qed.

Lemma Gia_ObjFailed_SetFailed (p : Gia_Man_t) (i : Z) :
  0 <= i < Vec_Size (Gia_ReprArray p) -> Gia_ObjFailed (Gia_ObjSetFailed p i) i = true.
Proof.
  intros H. unfold Gia_ObjFailed, Gia_ObjSetFailed, Gia_RprUpdate, Gia_ReprArray. simpl.
  now rewrite Vec_Entry_write_same.
Qed.

Lemma Gia_ObjProved_SetFailed (p : Gia_Man_t) (i j : Z) :
  Gia_ObjProved (Gia_ObjSetFailed p i) j = Gia_ObjProved p j.
Proof.
  unfold Gia_ObjProved, Gia_ObjSetFailed, Gia_RprUpdate, Gia_ReprArray. simpl.
  rewrite Vec_Entry_write. destruct (_ && _) eqn:E; [|reflexivity].
  apply andb_true_iff in E as [E _]. apply andb_true_iff in E as [->%Z.eqb_eq _].
  reflexivity.
Qed.

Lemma Gia_ManObj_SetObj_same (p : Gia_Man_t) (i : Z) (o : Gia_Obj_t) :
  0 <= i < Gia_ManObjNum p -> Gia_ManObj (Gia_ManSetObj p i o) i = o.
Proof.
  intros H. unfold Gia_ManObj, Gia_ManSetObj. simpl. now rewrite Vec_Entry_write_same.
Qed.

Lemma Gia_ManObj_SetProved (p : Gia_Man_t) (i j : Z) :
  Gia_ManObj (Gia_ObjSetProved p i) j = Gia_ManObj p j.
Proof. reflexivity. Qed.

(** C2. When the SAT call of a node returns UNDEC,
    [Cec2_ManSweepNode] marks the node failed and then meets
    [assert( 0 )]: with assertions compiled in, the sweep stops there.
    Only with assertions compiled out does the call return 1 (so that
    the sweeping loop goes on to the next node), with the node marked
    failed, not proved, and its value and the simulation store as they
    were. *)
Theorem C2_undec_marks_failed_then_asserts (m m1 : Cec2_Man_t) (iObj : Z) :
  sweep_query m iObj = Ok (m1, SATOKO_UNDEC) ->
  (NDEBUG = false -> Cec2_ManSweepNode m iObj = AssertFail)
  /\
  (NDEBUG = true ->
   exists m', Cec2_ManSweepNode m iObj = Ok (m', 1)
     /\ pAig m' = Gia_ObjSetFailed (pAig m) iObj
     /\ (0 <= iObj < Vec_Size (Gia_ReprArray (pAig m)) ->
         Gia_ObjFailed (pAig m') iObj = true)
     /\ Gia_ObjProved (pAig m') iObj = Gia_ObjProved (pAig m) iObj
     /\ pObjs (pAig m') = pObjs (pAig m)
     /\ vSims (pAig m') = vSims (pAig m)
     /\ iPatsPi (pAig m') = iPatsPi (pAig m)).
Proof.
  intros H. rewrite (Cec2_ManSweepNode_undec _ _ _ H). split; intros ->; [reflexivity|].
  eexists. split; [reflexivity|]. simpl. split; [reflexivity|].
  split; [apply Gia_ObjFailed_SetFailed|].
  split; [apply Gia_ObjProved_SetFailed|]. auto.
Qed.

(** ** The all-zero shortcut of a miter *)

Lemma for_range_preserves {S : Type} (P : S -> Prop) (body : S -> Z -> S) :
  (forall s i, P s -> P (body s i)) ->
  forall (n : nat) (i : Z) (s : S), P s -> P (for_range n i body s).
Proof.
  intros Hb n. induction n as [|n IH]; intros i s Hs; simpl; [assumption|].
  apply IH, Hb, Hs.
Qed.

Lemma Gia_ManSetPhase_frame (p : Gia_Man_t) :
  let p' := Gia_ManSetPhase p in
  vCis p' = vCis p /\ vCos p' = vCos p /\ vSims p' = vSims p
  /\ nSimWords p' = nSimWords p /\ iPatsPi p' = iPatsPi p
  /\ pCexSeq p' = pCexSeq p /\ nRandom p' = nRandom p.
Proof.
  unfold Gia_ManSetPhase.
  apply (for_range_preserves
           (fun q => vCis q = vCis p /\ vCos q = vCos p /\ vSims q = vSims p
                     /\ nSimWords q = nSimWords p /\ iPatsPi q = iPatsPi p
                     /\ pCexSeq q = pCexSeq p /\ nRandom q = nRandom p));
    [|auto 10].
  intros s i H. unfold Gia_ObjSetPhase. destruct (oKind _); exact H.
Qed.

Lemma first_co_with_phase_spec (p : Gia_Man_t) (vCo : list Z) (i0 : Z) :
  match first_co_with_phase p vCo i0 with
  | Some i =>
      i0 <= i < i0 + Vec_Size vCo
      /\ fPhase (Gia_ManObj p (Vec_Entry 0 vCo (i - i0))) = true
      /\ forall j, i0 <= j < i -> fPhase (Gia_ManObj p (Vec_Entry 0 vCo (j - i0))) = false
  | None =>
      forall j, i0 <= j < i0 + Vec_Size vCo ->
        fPhase (Gia_ManObj p (Vec_Entry 0 vCo (j - i0))) = false
  end.
Proof.
  revert i0. induction vCo as [|Id rest IH]; intros i0; simpl.
  - unfold Vec_Size. simpl. intros j Hj. lia.
  - assert (Hsz : Vec_Size (Id :: rest) = 1 + Vec_Size rest)
      by (unfold Vec_Size; simpl length; lia).
    assert (Hshift : forall j, i0 + 1 <= j ->
              Vec_Entry 0 (Id :: rest) (j - i0) = Vec_Entry 0 rest (j - (i0 + 1))).
    { intros j Hj. unfold Vec_Entry.
      destruct (Z.ltb_spec (j - i0) 0), (Z.ltb_spec (j - (i0 + 1)) 0); try lia.
      replace (Z.to_nat (j - i0)) with (S (Z.to_nat (j - (i0 + 1)))) by lia. reflexivity. }
    assert (Hpos : 0 <= Vec_Size rest) by (unfold Vec_Size; lia).
    destruct (fPhase (Gia_ManObj p Id)) eqn:E.
    + rewrite Hsz, Z.sub_diag. split; [lia|]. split; [exact E|]. intros j Hj. lia.
    + specialize (IH (i0 + 1)). destruct (first_co_with_phase p rest (i0 + 1)) as [i|].
      * destruct IH as (Hr & Hp & Hl). rewrite Hsz. split; [lia|].
        split; [now rewrite Hshift by lia|].
        intros j Hj. destruct (Z.eq_dec j i0) as [->|Hne].
        -- now rewrite Z.sub_diag.
        -- rewrite Hshift by lia. apply Hl. lia.
      * intros j Hj. rewrite Hsz in Hj. destruct (Z.eq_dec j i0) as [->|Hne].
        -- now rewrite Z.sub_diag.
        -- rewrite Hshift by lia. apply IH. lia.
Qed.

(** C6. In miter mode, when some CO has a nonzero phase,
    [Cec2_ManPerformSweeping] returns 0 at once: the manager is the one
    with the phases set, the simulation store and the random source
    untouched, and the counter-example names the first such CO and
    assigns zero to every CI. *)
Theorem C6_miter_nonzero_phase_returns_cex
    (fuel : nat) (p : Gia_Man_t) (pPars0 : Cec2_Par_t) (k : Z) :
  par_fIsMiter pPars0 = true ->
  0 <= k < Vec_Size (vCos p) ->
  fPhase (Gia_ManObj (Gia_ManSetPhase p) (Vec_Entry 0 (vCos p) k)) = true ->
  exists (i : Z) (p' : Gia_Man_t),
    Cec2_ManPerformSweeping fuel p pPars0 = Ok (p', 0)
    /\ 0 <= i <= k
    /\ fPhase (Gia_ManObj (Gia_ManSetPhase p) (Vec_Entry 0 (vCos p) i)) = true
    /\ (forall j, 0 <= j < i ->
          fPhase (Gia_ManObj (Gia_ManSetPhase p) (Vec_Entry 0 (vCos p) j)) = false)
    /\ pCexSeq p' = Some (mkCex i (replicate (Z.to_nat (Gia_ManCiNum p)) false))
    /\ p' = set_pCexSeq (Gia_ManSetPhase p) (pCexSeq p')
    /\ vSims p' = vSims p /\ nSimWords p' = nSimWords p /\ nRandom p' = nRandom p.
Proof.
  intros Hm Hk Hph.
  pose proof (Gia_ManSetPhase_frame p) as (HCi & HCo & HS & HW & _ & _ & HR).
  pose proof (first_co_with_phase_spec (Gia_ManSetPhase p) (vCos p) 0) as F.
  unfold Cec2_ManPerformSweeping. rewrite Hm, HCo.
  destruct (first_co_with_phase (Gia_ManSetPhase p) (vCos p) 0) as [i|].
  - destruct F as (Hr & Hp & Hl). rewrite Z.sub_0_r in Hp.
    exists i. eexists. split; [reflexivity|].
    assert (i <= k).
    { destruct (Z.le_gt_cases i k); [assumption|].
      specialize (Hl k ltac:(lia)). rewrite Z.sub_0_r in Hl. congruence. }
    split; [lia|]. split; [exact Hp|].
    split; [intros j Hj; specialize (Hl j Hj); now rewrite Z.sub_0_r in Hl|].
    unfold Cec2_ManDeriveCex, Abc_CexAlloc, Gia_ManCiNum. simpl.
    rewrite HCi. auto 10.
  - specialize (F k ltac:(lia)). rewrite Z.sub_0_r in F. congruence.
Qed.

(** ** Engine construction *)


(** ** Refinement of one class *)

Lemma links_only_refl (p : Gia_Man_t) : links_only p p.
Proof. unfold links_only. auto. Qed.

Lemma links_only_trans (p1 p2 p3 : Gia_Man_t) :
  links_only p1 p2 -> links_only p2 p3 -> links_only p1 p3.
Proof. unfold links_only. intros (?&?&?&?&?) (?&?&?&?&?). repeat split; congruence. Qed.

Lemma links_only_Equal (p p' : Gia_Man_t) (i j : Z) :
  links_only p p' -> Cec2_ObjSimEqual p' i j = Cec2_ObjSimEqual p i j.
Proof.
  intros (HS & HW & _). unfold Cec2_ObjSimEqual, sim_read, Cec2_ObjSim.
  now rewrite HS, HW.
Qed.

Lemma Gia_ObjSetNext_links (p : Gia_Man_t) (i v : Z) : links_only p (Gia_ObjSetNext p i v).
Proof.
  unfold links_only, Gia_ObjSetNext. simpl. repeat split. apply length_Vec_WriteEntry.
Qed.

Lemma Gia_ObjNext_SetNext_same (p : Gia_Man_t) (i v : Z) :
  0 <= i < Vec_Size (pNexts p) -> Gia_ObjNext (Gia_ObjSetNext p i v) i = v.
Proof. intros H. unfold Gia_ObjNext, Gia_ObjSetNext. simpl. now apply Vec_Entry_write_same. Qed.

Lemma Gia_ObjNext_SetNext_other (p : Gia_Man_t) (i j v : Z) :
  i <> j -> Gia_ObjNext (Gia_ObjSetNext p i v) j = Gia_ObjNext p j.
Proof. intros H. unfold Gia_ObjNext, Gia_ObjSetNext. simpl. now apply Vec_Entry_write_other. Qed.

Lemma Gia_ObjRepr_SetNext (p : Gia_Man_t) (i j v : Z) :
  Gia_ObjRepr (Gia_ObjSetNext p i v) j = Gia_ObjRepr p j.
Proof. reflexivity. Qed.

Lemma Gia_ObjSetRepr_Ok (p : Gia_Man_t) (Id Num : Z) :
  Num = GIA_VOID \/ Num < Id ->
  exists p', Gia_ObjSetRepr p Id Num = Ok p'
    /\ links_only p p'
    /\ pNexts p' = pNexts p
    /\ (0 <= Id < Vec_Size (Gia_ReprArray p) -> Gia_ObjRepr p' Id = Num)
    /\ (forall j, j <> Id -> Gia_ObjRepr p' j = Gia_ObjRepr p j).
Proof.
  intros H. unfold Gia_ObjSetRepr, assert_.
  assert ((Num =? GIA_VOID) || (Num <? Id) = true) as ->.
  { apply orb_true_iff. destruct H; [left; now apply Z.eqb_eq | right; now apply Z.ltb_lt]. }
  rewrite orb_true_r. simpl. eexists. split; [reflexivity|].
  unfold links_only, Gia_ObjRepr, Gia_RprUpdate, Gia_ReprArray. simpl.
  split; [repeat split; apply length_Vec_WriteEntry|]. split; [reflexivity|]. split.
  - intros Hr. now rewrite Vec_Entry_write_same.
  - intros j Hj. now rewrite Vec_Entry_write_other by congruence.
Qed.

Lemma chain_at_ext (nx nx' : Z -> Z) (i : Z) (ms : list Z) :
  (forall x, In x ms -> nx' x = nx x) -> chain_at nx i ms -> chain_at nx' i ms.
Proof.
  revert i. induction ms as [|x t IH]; intros i Hext H; simpl in *; [assumption|].
  destruct H as (-> & Hpos & H). repeat split; [assumption|].
  rewrite Hext by auto. apply IH; auto.
Qed.

Lemma seg_ext (nx nx' : Z -> Z) (h : Z) (ms : list Z) :
  (forall x, In x (removelast (h :: ms)) -> nx' x = nx x) -> seg nx h ms -> seg nx' h ms.
Proof.
  revert h. induction ms as [|x t IH]; intros h Hext H; simpl in *; [exact I|].
  destruct H as (Hx & H). split.
  - rewrite Hext; [assumption | now left].
  - apply IH; [|assumption]. intros y Hy. apply Hext. right. exact Hy.
Qed.

Lemma seg_app (nx : Z -> Z) (h : Z) (l1 l2 : list Z) :
  seg nx h l1 -> seg nx (List.last (h :: l1) 0) l2 -> seg nx h (l1 ++ l2).
Proof.
  revert h. induction l1 as [|x t IH]; intros h H1 H2; simpl in *; [assumption|].
  destruct H1 as (Hx & H1). split; [assumption|]. apply IH; [assumption|].
  destruct t; assumption.
Qed.

Lemma seg_chain (nx : Z -> Z) (h : Z) (ms : list Z) :
  seg nx h ms -> Forall (fun x => 0 < x) ms -> nx (List.last (h :: ms) 0) <= 0 ->
  chain_at nx (nx h) ms.
Proof.
  revert h. induction ms as [|x t IH]; intros h Hs Hp Hl; simpl in *; [assumption|].
  destruct Hs as (Hx & Hs). inversion Hp as [|? ? Hx0 Ht]; subst.
  repeat split; [assumption|]. apply IH; [assumption | assumption |].
  destruct t; assumption.
Qed.

Lemma chain_seg (nx : Z -> Z) (h : Z) (ms : list Z) :
  chain_at nx (nx h) ms ->
  seg nx h ms /\ Forall (fun x => 0 < x) ms /\ nx (List.last (h :: ms) 0) <= 0.
Proof.
  revert h. induction ms as [|x t IH]; intros h H; simpl in *; [auto|].
  destruct H as (Hx & Hp & H). apply IH in H as (Hs & Hf & Hl).
  repeat split; auto; destruct t; assumption.
Qed.

Lemma increasing_app (l1 l2 : list Z) :
  increasing (l1 ++ l2) <->
  increasing l1 /\ increasing l2 /\ (forall a b, In a l1 -> In b l2 -> a < b).
Proof.
  induction l1 as [|x t IH]; simpl.
  - split; [intros H; repeat split; [assumption | intros a b []] | intros (_ & H & _); assumption].
  - rewrite IH, Forall_app. rewrite !Forall_forall. split.
    + intros ((H1 & H2) & H3 & H4 & H5). repeat split; try assumption.
      intros a b [<-|Ha] Hb; [apply H2; now apply list_elem_of_In | now apply H5].
    + intros ((H1 & H2) & H3 & H4). repeat split; try assumption.
      * intros y Hy. apply H4; [now left | now apply list_elem_of_In].
      * intros a b Ha Hb. apply H4; [now right | assumption].
Qed.

Lemma increasing_last_not_before (h : Z) (l : list Z) (j : Z) :
  increasing (h :: l) -> In j (removelast (h :: l)) -> j < List.last (h :: l) 0.
Proof.
  revert h. induction l as [|x t IH]; intros h Hinc Hj; [destruct Hj|].
  change (removelast (h :: x :: t)) with (h :: removelast (x :: t)) in Hj.
  change (List.last (h :: x :: t) 0) with (List.last (x :: t) 0).
  destruct Hinc as (Hall & Hinc). destruct Hj as [<-|Hj].
  - rewrite Forall_forall in Hall. apply Hall, list_elem_of_In.
    clear. revert x. induction t as [|y t IH]; intros x; [now left|].
    right. apply IH.
  - now apply IH.
Qed.

Lemma last_In (h : Z) (l : list Z) : In (List.last (h :: l) 0) (h :: l).
Proof.
  revert h. induction l as [|x t IH]; intros h; [now left|]. right. apply IH.
Qed.

Lemma In_removelast (h : Z) (l : list Z) (j : Z) :
  In j (removelast (h :: l)) -> In j (h :: l).
Proof.
  revert h. induction l as [|x t IH]; intros h Hj; [destruct Hj|].
  change (removelast (h :: x :: t)) with (h :: removelast (x :: t)) in Hj.
  destruct Hj as [<-|Hj]; [now left | right; now apply IH].
Qed.

Lemma seg_app_inv (nx : Z -> Z) (h : Z) (l1 l2 : list Z) :
  seg nx h (l1 ++ l2) -> seg nx h l1 /\ seg nx (List.last (h :: l1) 0) l2.
Proof.
  revert h. induction l1 as [|x t IH]; intros h H; simpl in *; [auto|].
  destruct H as (Hx & H). apply IH in H as (H1 & H2).
  repeat split; try assumption; destruct t; assumption.
Qed.

Lemma chain_at_app_inv (nx : Z -> Z) (i : Z) (l1 : list Z) (x : Z) (l2 : list Z) :
  chain_at nx i (l1 ++ x :: l2) -> 0 < x /\ chain_at nx (nx x) l2.
Proof.
  revert i. induction l1 as [|y t IH]; intros i H; simpl in *.
  - destruct H as (_ & Hp & H). auto.
  - destruct H as (_ & _ & H). now apply IH in H.
Qed.

Lemma refine_scan_spec (p : Gia_Man_t) (r : Z) (ms : list Z) :
  forall (iPrev : Z) (fuel : nat),
    chain_at (Gia_ObjNext p) (Gia_ObjNext p iPrev) ms ->
    (length ms <= fuel)%nat ->
    exists pre post iRepr2,
      ms = pre ++ post
      /\ Forall (fun x => Cec2_ObjSimEqual p r x = true) pre
      /\ refine_scan fuel p r iPrev (Gia_ObjNext p iPrev)
         = Ok (List.last (iPrev :: pre) 0, iRepr2)
      /\ match post with
         | [] => iRepr2 <= 0
         | x :: _ => iRepr2 = x /\ 0 < x /\ Cec2_ObjSimEqual p r x = false
         end.
Proof.
  induction ms as [|x t IH]; intros iPrev fuel Hch Hfuel; simpl in Hch.
  - exists [], [], (Gia_ObjNext p iPrev). repeat split; [constructor| |assumption].
    assert ((0 <? Gia_ObjNext p iPrev) = false) as E by (apply Z.ltb_ge; assumption).
    destruct fuel; simpl; rewrite E; reflexivity.
  - destruct Hch as (Hx & Hpos & Hch). destruct fuel as [|fuel]; [simpl in Hfuel; lia|].
    simpl. rewrite Hx. assert ((0 <? x) = true) as -> by (apply Z.ltb_lt; assumption).
    destruct (Cec2_ObjSimEqual p r x) eqn:E.
    + destruct (IH x fuel Hch ltac:(simpl in Hfuel; lia))
        as (pre & post & iRepr2 & -> & Hall & Hscan & Hpost).
      exists (x :: pre), post, iRepr2.
      split; [reflexivity|]. split; [constructor; assumption|].
      split; [exact Hscan | exact Hpost].
    + exists [], (x :: t), x. repeat split; auto.
Qed.

Lemma In_filter_l (f : Z -> bool) (x : Z) (l : list Z) : In x (List.filter f l) -> In x l.
Proof. intros H. now apply filter_In in H. Qed.

Section Relink.

Variables (p0 : Gia_Man_t) (r r2 : Z).

Lemma refine_relink_spec :
  forall (todo : list Z) (p1 : Gia_Man_t) (iPrev iPrev2 iObj : Z) (fuel : nat),
    links_only p0 p1 ->
    chain_at (Gia_ObjNext p1) iObj todo ->
    (length todo <= fuel)%nat ->
    increasing todo ->
    Forall (fun x => iPrev < x /\ iPrev2 < x /\ r2 < x) todo ->
    iPrev <> iPrev2 ->
    in_range p0 iPrev -> in_range p0 iPrev2 -> Forall (in_range p0) todo ->
    exists p2 iPrevF iPrev2F,
      refine_relink fuel p1 r r2 iPrev iPrev2 iObj = Ok (p2, iPrevF, iPrev2F)
      /\ links_only p0 p2
      /\ iPrevF = List.last (iPrev :: List.filter (Cec2_ObjSimEqual p0 r) todo) 0
      /\ iPrev2F = List.last (iPrev2 :: List.filter (fun x => negb (Cec2_ObjSimEqual p0 r x)) todo) 0
      /\ seg (Gia_ObjNext p2) iPrev (List.filter (Cec2_ObjSimEqual p0 r) todo)
      /\ seg (Gia_ObjNext p2) iPrev2 (List.filter (fun x => negb (Cec2_ObjSimEqual p0 r x)) todo)
      /\ (forall j, j <> iPrev -> j <> iPrev2 -> ~ In j todo ->
            Gia_ObjNext p2 j = Gia_ObjNext p1 j)
      /\ (forall x, In x (List.filter (fun x => negb (Cec2_ObjSimEqual p0 r x)) todo) ->
            Gia_ObjRepr p2 x = r2)
      /\ (forall j, ~ In j (List.filter (fun x => negb (Cec2_ObjSimEqual p0 r x)) todo) ->
            Gia_ObjRepr p2 j = Gia_ObjRepr p1 j).
Proof.
  induction todo as [|x t IH];
    intros p1 iPrev iPrev2 iObj fuel HL Hch Hfuel Hinc Hlt Hne Hr1 Hr2 Hrt; simpl in Hch;
    unfold in_range in Hr1, Hr2.
  - exists p1, iPrev, iPrev2.
    assert ((0 <? iObj) = false) as E by (apply Z.ltb_ge; assumption).
    split; [destruct fuel; simpl; rewrite E; reflexivity|].
    simpl. split; [exact HL|]. repeat split; auto. intros y [].
  - destruct Hch as (-> & Hpos & Hch). destruct fuel as [|fuel]; [simpl in Hfuel; lia|].
    destruct Hinc as (Hxt & Hinc).
    inversion Hlt as [|? ? (Hx1 & Hx2 & Hx3) Hlt']; subst.
    inversion Hrt as [|? ? Hrx Hrt']; subst.
    assert (Hnin : ~ In x t).
    { intros Hin. rewrite Forall_forall in Hxt.
      specialize (Hxt x ltac:(now apply list_elem_of_In)). lia. }
    assert (Hp1 : ~ In iPrev t /\ ~ In iPrev2 t).
    { rewrite Forall_forall in Hlt'. split; intros Hin;
        specialize (Hlt' _ ltac:(apply list_elem_of_In; exact Hin)); lia. }
    destruct Hp1 as (Hp1 & Hp2).
    assert (Hlen1 : Vec_Size (pNexts p1) = Vec_Size (pNexts p0)
                    /\ Vec_Size (Gia_ReprArray p1) = Vec_Size (Gia_ReprArray p0)).
    { destruct HL as (_ & _ & _ & H1 & H2). unfold Vec_Size. now rewrite H1, H2. }
    destruct Hlen1 as (Hlen1 & Hlen1').
    simpl refine_relink. assert ((0 <? x) = true) as -> by (apply Z.ltb_lt; assumption).
    rewrite (links_only_Equal p0 p1 r x HL). simpl List.filter.
    destruct (Cec2_ObjSimEqual p0 r x) eqn:E; simpl negb; cbv iota.
    + set (p1' := Gia_ObjSetNext p1 iPrev x).
      assert (HL' : links_only p0 p1')
        by (eapply links_only_trans; [exact HL | apply Gia_ObjSetNext_links]).
      assert (Hnx : forall j, j <> iPrev -> Gia_ObjNext p1' j = Gia_ObjNext p1 j)
        by (intros j Hj; apply Gia_ObjNext_SetNext_other; congruence).
      destruct (IH p1' x iPrev2 (Gia_ObjNext p1' x) fuel) as
        (p2 & iPrevF & iPrev2F & Hrun & HL2 & HF1 & HF2 & Hs1 & Hs2 & Hfr & Hrp & Hrq);
        try assumption.
      * rewrite Hnx by lia. eapply chain_at_ext; [|exact Hch].
        intros y Hy. apply Hnx. intros ->. contradiction.
      * simpl in Hfuel. lia.
      * rewrite Forall_forall in Hxt, Hlt' |- *. intros y Hy.
        specialize (Hxt y Hy). specialize (Hlt' y Hy). lia.
      * lia.
      * exists p2, iPrevF, iPrev2F. split; [exact Hrun|]. split; [exact HL2|].
        split; [exact HF1|]. split; [exact HF2|]. split; [|split; [exact Hs2|]].
        -- split; [|exact Hs1].
           rewrite Hfr by (try lia; assumption).
           apply Gia_ObjNext_SetNext_same. destruct Hr1. lia.
        -- split; [|split; assumption].
           intros j Hj1 Hj2 Hj3. rewrite Hfr.
           ++ apply Hnx. assumption.
           ++ intros ->. apply Hj3. now left.
           ++ assumption.
           ++ intros Hin. apply Hj3. now right.
    + destruct (Gia_ObjSetRepr_Ok p1 x r2 ltac:(right; lia))
        as (p1a & HSet & HLa & Hnxa & Hra & Hrb).
      rewrite HSet. simpl.
      set (p1' := Gia_ObjSetNext p1a iPrev2 x).
      assert (HL' : links_only p0 p1').
      { eapply links_only_trans; [exact HL|]. eapply links_only_trans; [exact HLa|].
        apply Gia_ObjSetNext_links. }
      assert (Hnx : forall j, j <> iPrev2 -> Gia_ObjNext p1' j = Gia_ObjNext p1 j).
      { intros j Hj. unfold p1'. rewrite Gia_ObjNext_SetNext_other by congruence.
        unfold Gia_ObjNext. now rewrite Hnxa. }
      destruct (IH p1' iPrev x (Gia_ObjNext p1' x) fuel) as
        (p2 & iPrevF & iPrev2F & Hrun & HL2 & HF1 & HF2 & Hs1 & Hs2 & Hfr & Hrp & Hrq);
        try assumption.
      * rewrite Hnx by lia. eapply chain_at_ext; [|exact Hch].
        intros y Hy. apply Hnx. intros ->. contradiction.
      * simpl in Hfuel. lia.
      * rewrite Forall_forall in Hxt, Hlt' |- *. intros y Hy.
        specialize (Hxt y Hy). specialize (Hlt' y Hy). lia.
      * lia.
      * exists p2, iPrevF, iPrev2F. split; [exact Hrun|]. split; [exact HL2|].
        split; [exact HF1|]. split; [exact HF2|]. split; [exact Hs1|].
        assert (HxM : ~ In x (List.filter (fun x0 => negb (Cec2_ObjSimEqual p0 r x0)) t))
          by (intros Hin; apply In_filter_l in Hin; contradiction).
        split; [|split; [|split]].
        -- split; [|exact Hs2].
           rewrite Hfr by (try lia; assumption).
           unfold p1'. apply Gia_ObjNext_SetNext_same.
           unfold Vec_Size in *. rewrite Hnxa. destruct Hr2. lia.
        -- intros j Hj1 Hj2 Hj3. rewrite Hfr.
           ++ apply Hnx. assumption.
           ++ assumption.
           ++ intros ->. apply Hj3. now left.
           ++ intros Hin. apply Hj3. now right.
        -- intros y [<-|Hy]; [|now apply Hrp].
           rewrite Hrq by assumption. unfold p1'. rewrite Gia_ObjRepr_SetNext.
           apply Hra. destruct Hrx. lia.
        -- intros j Hj. rewrite Hrq by (intros Hin; apply Hj; now right).
           unfold p1'. rewrite Gia_ObjRepr_SetNext. apply Hrb.
           intros ->. apply Hj. now left.
Qed.

End Relink.

Lemma filter_all_true (f : Z -> bool) (l : list Z) :
  Forall (fun x => f x = true) l ->
  List.filter f l = l /\ List.filter (fun x => negb (f x)) l = [].
Proof.
  induction 1 as [|x t Hx _ [IH1 IH2]]; simpl; [auto|].
  rewrite Hx. simpl. now rewrite IH1, IH2.
Qed.

Lemma increasing_length_bound (l : list Z) (N : Z) :
  Forall (fun x => 0 <= x < N) l -> increasing l -> (length l <= Z.to_nat N)%nat.
Proof.
  assert (Hgen : forall (l : list Z) (b : Z),
             0 <= b <= N -> Forall (fun x => b <= x < N) l -> increasing l ->
             Z.of_nat (length l) <= N - b).
  { clear l. induction l as [|x t IH]; intros b Hb0 Hb Hi; simpl length; [lia|].
    inversion Hb as [|? ? Hx Ht]; subst. destruct Hi as (Hxt & Hi).
    rewrite Forall_forall in Ht, Hxt.
    assert (H : Forall (fun y => x + 1 <= y < N) t).
    { rewrite Forall_forall. intros y Hy. specialize (Ht y Hy). specialize (Hxt y Hy). lia. }
    specialize (IH (x + 1) ltac:(lia) H Hi). lia. }
  intros Hl Hi. destruct l as [|x t]; [simpl; lia|].
  assert (0 <= N) by (inversion Hl; subst; lia).
  specialize (Hgen (x :: t) 0 ltac:(lia) Hl Hi). lia.
Qed.

Lemma increasing_filter (f : Z -> bool) (l : list Z) :
  increasing l -> increasing (List.filter f l).
Proof.
  induction l as [|x t IH]; simpl; [auto|]. intros (Hx & Hi).
  destruct (f x); simpl; [|auto]. split; [|auto].
  rewrite Forall_forall in Hx |- *. intros y Hy.
  apply Hx. apply list_elem_of_In. apply list_elem_of_In in Hy. now apply In_filter_l in Hy.
Qed.

Lemma last_app_cons (h : Z) (l1 l2 : list Z) :
  List.last ((h :: l1) ++ l2) 0 = List.last (List.last (h :: l1) 0 :: l2) 0.
Proof.
  revert h. induction l1 as [|x t IH]; intros h; [reflexivity|].
  change (List.last ((h :: x :: t) ++ l2) 0) with (List.last ((x :: t) ++ l2) 0).
  change (List.last (h :: x :: t) 0) with (List.last (x :: t) 0). apply IH.
Qed.

(** C4. One call of [Cec2_ManSimClassRefineOne] on a class with head
    [r] and members [ms] (in increasing index order) leaves in the class
    of [r] exactly the members equal to [r] under [Cec2_ObjSimEqual],
    moves all the others to a class headed by the first of them, keeps
    the order of the members in both chains, and touches no other
    node. *)
Theorem C4_refine_one_splits_class (p : Gia_Man_t) (r : Z) (ms : list Z) :
  class_members p r ms ->
  increasing (r :: ms) ->
  Forall (fun x => 0 <= x < Vec_Size (pNexts p) /\ 0 <= x < Vec_Size (Gia_ReprArray p))
         (r :: ms) ->
  Gia_ObjRepr p r = GIA_VOID ->
  ms <> [] ->
  let keep := List.filter (Cec2_ObjSimEqual p r) ms in
  let move := List.filter (fun x => negb (Cec2_ObjSimEqual p r x)) ms in
  exists p',
    Cec2_ManSimClassRefineOne p r = Ok p'
    /\ class_members p' r keep
    /\ (forall x, In x (r :: keep) -> Gia_ObjRepr p' x = Gia_ObjRepr p x)
    /\ match move with
       | [] => p' = p
       | h2 :: rest =>
           class_members p' h2 rest
           /\ Gia_ObjRepr p' h2 = GIA_VOID
           /\ (forall x, In x rest -> Gia_ObjRepr p' x = h2)
       end
    /\ (forall j, ~ In j (r :: ms) ->
          Gia_ObjNext p' j = Gia_ObjNext p j /\ Gia_ObjRepr p' j = Gia_ObjRepr p j)
    /\ links_only p p'.
Proof.
  intros Hcls Hinc Hrange Hvoid Hne keep move.
  unfold Cec2_ManSimClassRefineOne.
  assert (Hhead : Gia_ObjIsHead p r = true).
  { unfold Gia_ObjIsHead. rewrite Hvoid, Z.eqb_refl. simpl.
    destruct ms as [|x t]; [congruence|]. destruct Hcls as (-> & Hpos & _).
    now apply Z.ltb_lt. }
  rewrite Hhead, assert_true. simpl.
  destruct (refine_scan_spec p r ms r (length (pNexts p)) Hcls) as
    (pre & post & iRepr2 & Hms & Hpre & Hscan & Hpost).
  { inversion Hrange as [|? ? _ Hrms]; subst. destruct Hinc as (Hrlt & Hinc).
    replace (length (pNexts p)) with (Z.to_nat (Vec_Size (pNexts p)))
      by (unfold Vec_Size; lia).
    apply (increasing_length_bound ms (Vec_Size (pNexts p))); [|assumption].
    rewrite Forall_forall in Hrms |- *. intros y Hy. specialize (Hrms y Hy). lia. }
  rewrite Hscan. simpl.
  destruct post as [|h2 todo].
  - (* every member agrees with the head *)
    assert ((iRepr2 <=? 0) = true) as -> by (apply Z.leb_le; assumption).
    rewrite app_nil_r in Hms. subst pre.
    destruct (filter_all_true _ _ Hpre) as (Hk & Hm).
    subst keep move. rewrite Hk, Hm. exists p.
    split; [reflexivity|]. split; [assumption|]. split; [reflexivity|].
    split; [reflexivity|]. split; [auto | apply links_only_refl].
  - destruct Hpost as (-> & Hpos2 & Hneq).
    assert ((h2 <=? 0) = false) as -> by (apply Z.leb_gt; assumption).
    (* the shape of the class *)
    destruct (filter_all_true _ _ Hpre) as (Hk & Hm).
    assert (Hkeep : keep = pre ++ List.filter (Cec2_ObjSimEqual p r) todo).
    { subst keep. rewrite Hms, List.filter_app, Hk. simpl. now rewrite Hneq. }
    assert (Hmove : move = h2 :: List.filter (fun x => negb (Cec2_ObjSimEqual p r x)) todo).
    { subst move. rewrite Hms, List.filter_app, Hm. simpl. now rewrite Hneq. }
    set (K := List.filter (Cec2_ObjSimEqual p r) todo) in *.
    set (M := List.filter (fun x => negb (Cec2_ObjSimEqual p r x)) todo) in *.
    set (iPrev := List.last (r :: pre) 0) in *.
    (* order and range of the nodes *)
    change (r :: ms) with ([r] ++ ms) in Hinc. rewrite Hms in Hinc.
    replace ([r] ++ pre ++ h2 :: todo) with ((r :: pre) ++ h2 :: todo) in Hinc by reflexivity.
    apply increasing_app in Hinc as (Hinc1 & Hinc2 & Hcross).
    destruct Hinc2 as (Hh2 & Hinc3).
    rewrite Hms in Hrange.
    replace (r :: pre ++ h2 :: todo) with ((r :: pre) ++ h2 :: todo) in Hrange by reflexivity.
    apply Forall_app in Hrange as (Hrange1 & Hrange2).
    inversion Hrange2 as [|? ? Hrh2 Hrtodo]; subst.
    assert (HiPrev : In iPrev (r :: pre)) by apply last_In.
    assert (HriPrev : 0 <= iPrev < Vec_Size (pNexts p) /\ 0 <= iPrev < Vec_Size (Gia_ReprArray p)).
    { rewrite Forall_forall in Hrange1. apply Hrange1, list_elem_of_In, HiPrev. }
    assert (HiPrev_lt : iPrev < h2) by (apply Hcross; [exact HiPrev | now left]).
    (* the new head *)
    destruct (Gia_ObjSetRepr_Ok p h2 GIA_VOID ltac:(now left))
      as (pa & HSet & HLa & Hnxa & Hra & Hrb).
    rewrite HSet. simpl.
    assert (Hnext_a : forall j, Gia_ObjNext pa j = Gia_ObjNext p j)
      by (intros j; unfold Gia_ObjNext; now rewrite Hnxa).
    assert (Hlen_a : length (pNexts pa) = length (pNexts p)) by (now rewrite Hnxa).
    rewrite Hlen_a, Hnext_a.
    unfold class_members in Hcls.
    pose proof (chain_at_app_inv _ _ _ _ _ Hcls) as (_ & Hch_todo).
    destruct (refine_relink_spec p r h2 todo pa iPrev h2 (Gia_ObjNext p h2) (length (pNexts p)))
      as (p2 & iPrevF & iPrev2F & Hrun & HL2 & HF1 & HF2 & Hs1 & Hs2 & Hfr & Hrp & Hrq);
      try assumption.
    + eapply chain_at_ext; [|exact Hch_todo]. intros y _. apply Hnext_a.
    + replace (length (pNexts p)) with (Z.to_nat (Vec_Size (pNexts p)))
        by (unfold Vec_Size; lia).
      apply (increasing_length_bound todo (Vec_Size (pNexts p))); [|assumption].
      rewrite Forall_forall in Hrtodo |- *. intros y Hy. specialize (Hrtodo y Hy). lia.
    + rewrite Forall_forall in Hh2 |- *. intros y Hy. specialize (Hh2 y Hy).
      assert (iPrev < y) by (apply Hcross; [exact HiPrev | right; now apply list_elem_of_In]).
      lia.
    + lia.
    + change (match pre with [] => r | _ :: _ => List.last pre 0 end) with iPrev.
      rewrite Hrun. simpl. eexists. split; [reflexivity|].
      fold K in HF1, Hs1. fold M in HF2, Hs2, Hrp, Hrq.
      set (p3 := Gia_ObjSetNext p2 iPrevF (-1)).
      set (p4 := Gia_ObjSetNext p3 iPrev2F (-1)).
      (* where the kept and the moved members sit *)
      assert (HK : forall x, In x K -> In x todo /\ Cec2_ObjSimEqual p r x = true)
        by (intros x Hx; now apply filter_In in Hx).
      assert (HM : forall x, In x M -> In x todo /\ Cec2_ObjSimEqual p r x = false).
      { intros x Hx. apply filter_In in Hx as (? & Hx). split; [assumption|].
        now apply negb_true_iff in Hx. }
      assert (Hh2' : forall b, In b todo -> h2 < b).
      { intros b Hb. rewrite Forall_forall in Hh2. now apply Hh2, list_elem_of_In. }
      assert (Hlow : forall a, In a (r :: pre) -> a < h2 /\ ~ In a todo).
      { intros a Ha. split; [apply Hcross; [assumption | now left]|].
        intros Hin. specialize (Hcross a a Ha ltac:(now right)). lia. }
      assert (HincK : increasing (iPrev :: K)).
      { split; [|now apply increasing_filter].
        rewrite Forall_forall. intros y Hy. apply list_elem_of_In in Hy.
        apply Hcross; [exact HiPrev | right; now apply HK]. }
      assert (HincM : increasing (h2 :: M)).
      { split; [|now apply increasing_filter].
        rewrite Forall_forall. intros y Hy. apply list_elem_of_In in Hy.
        now apply Hh2', HM. }
      assert (HinF1 : In iPrevF (iPrev :: K)) by (rewrite HF1; apply last_In).
      assert (HinF2 : In iPrev2F (h2 :: M)) by (rewrite HF2; apply last_In).
      assert (Hdisj : forall a b, In a (iPrev :: K) -> In b (h2 :: M) -> a <> b).
      { intros a b [<-|Ha] [<-|Hb]; try lia.
        - apply HM in Hb as (Hb & _). apply Hh2' in Hb. lia.
        - apply HK in Ha as (Ha & _). apply Hh2' in Ha. lia.
        - apply HK in Ha as (_ & Ha). apply HM in Hb as (_ & Hb). congruence. }
      assert (HneF : iPrevF <> iPrev2F) by (now apply Hdisj).
      assert (Hlen2 : Vec_Size (pNexts p2) = Vec_Size (pNexts p)).
      { destruct HL2 as (_ & _ & _ & H1 & _). unfold Vec_Size. now rewrite H1. }
      assert (Hin_range : forall x, In x (iPrev :: K) \/ In x (h2 :: M) ->
                 0 <= x < Vec_Size (pNexts p)).
      { rewrite Forall_forall in Hrtodo.
        intros x [[<-|Hx]|[<-|Hx]]; try lia.
        - apply HK in Hx as (Hx & _). apply list_elem_of_In, Hrtodo in Hx. lia.
        - apply HM in Hx as (Hx & _). apply list_elem_of_In, Hrtodo in Hx. lia. }
      (* the links after the two final writes *)
      assert (Hnx4 : forall j, j <> iPrevF -> j <> iPrev2F -> Gia_ObjNext p4 j = Gia_ObjNext p2 j).
      { intros j H1 H2. unfold p4, p3.
        now rewrite !Gia_ObjNext_SetNext_other by congruence. }
      assert (Hend1 : Gia_ObjNext p4 iPrevF = -1).
      { unfold p4. rewrite Gia_ObjNext_SetNext_other by congruence.
        unfold p3. apply Gia_ObjNext_SetNext_same. rewrite Hlen2. apply Hin_range. now left. }
      assert (Hend2 : Gia_ObjNext p4 iPrev2F = -1).
      { unfold p4. apply Gia_ObjNext_SetNext_same.
        unfold p3, Gia_ObjSetNext, Vec_Size. simpl. rewrite length_Vec_WriteEntry.
        fold (Vec_Size (pNexts p2)). rewrite Hlen2. apply Hin_range. now right. }
      assert (Hrp4 : forall j, Gia_ObjRepr p4 j = Gia_ObjRepr p2 j) by reflexivity.
      (* the original chain *)
      apply chain_seg in Hcls as (Hseg & Hposall & _).
      apply seg_app_inv in Hseg as (Hseg_pre & _).
      apply Forall_app in Hposall as (Hpos_pre & Hpos_rest).
      apply Forall_cons in Hpos_rest as (_ & Hpos_todo).
      assert (HposK : Forall (fun x => 0 < x) K).
      { rewrite Forall_forall in Hpos_todo |- *. intros y Hy.
        apply Hpos_todo. apply list_elem_of_In. apply list_elem_of_In in Hy. now apply HK. }
      assert (HposM : Forall (fun x => 0 < x) M).
      { rewrite Forall_forall in Hpos_todo |- *. intros y Hy.
        apply Hpos_todo. apply list_elem_of_In. apply list_elem_of_In in Hy. now apply HM. }
      split; [|split; [|split; [|split]]].
      * (* the class of r *)
        rewrite Hkeep. unfold class_members. apply seg_chain.
        -- apply seg_app.
           ++ eapply seg_ext; [|exact Hseg_pre]. intros j Hj.
              pose proof (increasing_last_not_before _ _ _ Hinc1 Hj) as Hjl. fold iPrev in Hjl.
              apply In_removelast in Hj. destruct (Hlow j Hj) as (Hj1 & Hj2).
              rewrite Hnx4.
              ** rewrite Hfr by (try lia; assumption). apply Hnext_a.
              ** intros ->. destruct HinF1 as [E|E]; [lia|]. apply HK in E as (E & _).
                 contradiction.
              ** intros ->. destruct HinF2 as [E|E]; [lia|]. apply HM in E as (E & _).
                 contradiction.
           ++ fold iPrev. eapply seg_ext; [|exact Hs1]. intros j Hj.
              pose proof (increasing_last_not_before _ _ _ HincK Hj) as Hjl.
              rewrite <- HF1 in Hjl. apply In_removelast in Hj.
              apply Hnx4; [lia|]. now apply Hdisj.
        -- apply Forall_app. split; assumption.
        -- change (r :: pre ++ K) with ((r :: pre) ++ K).
           rewrite last_app_cons. fold iPrev. rewrite <- HF1, Hend1. lia.
      * (* representatives of the kept members *)
        intros x Hx. rewrite Hrp4.
        assert (HxM : ~ In x M /\ x <> h2).
        { assert (Hx' : In x (r :: pre) \/ In x K).
          { rewrite Hkeep in Hx. destruct Hx as [<-|Hx]; [left; now left|].
            apply in_app_iff in Hx as [Hx|Hx]; [left; now right | now right]. }
          clear Hx. destruct Hx' as [Hx|Hx].
          - destruct (Hlow x Hx) as (H1 & H2). split; [|lia].
            intros Hin. apply HM in Hin as (Hin & _). contradiction.
          - split; [|apply HK in Hx as (Hx & _); apply Hh2' in Hx; lia].
            intros Hin. apply HK in Hx as (_ & Hx). apply HM in Hin as (_ & Hin). congruence. }
        destruct HxM as (H1 & H2). rewrite Hrq by assumption. now apply Hrb.
      * (* the new class *)
        rewrite Hmove. split; [|split].
        -- unfold class_members. apply seg_chain; [|assumption|].
           ++ eapply seg_ext; [|exact Hs2]. intros j Hj.
              pose proof (increasing_last_not_before _ _ _ HincM Hj) as Hjl.
              rewrite <- HF2 in Hjl. apply In_removelast in Hj.
              apply Hnx4; [|lia]. intros ->. now apply (Hdisj iPrevF iPrevF).
           ++ rewrite <- HF2, Hend2. lia.
        -- rewrite Hrp4, Hrq.
           ++ apply Hra. lia.
           ++ intros Hin. apply HM in Hin as (Hin & _). apply Hh2' in Hin. lia.
        -- intros x Hx. rewrite Hrp4. now apply Hrp.
      * (* every other node *)
        intros j Hj.
        assert (Hall : In j (r :: pre) \/ j = h2 \/ In j todo ->
                       r = j \/ In j (pre ++ h2 :: todo)).
        { intros [[E|E]|[E|E]]; [now left | right; apply in_app_iff ..].
          - now left.
          - right. left. congruence.
          - right. now right. }
        assert (Hj1 : ~ In j (r :: pre)) by (intros Hin; apply Hj, Hall; now left).
        assert (Hj2 : j <> h2 /\ ~ In j todo)
          by (split; intros Hin; apply Hj, Hall; right; [now left | now right]).
        destruct Hj2 as (Hj2 & Hj3).
        assert (Hj4 : j <> iPrev) by (intros ->; contradiction).
        split.
        -- rewrite Hnx4.
           ++ rewrite Hfr by assumption. apply Hnext_a.
           ++ intros ->. destruct HinF1 as [E|E]; [congruence|].
              apply HK in E as (E & _). contradiction.
           ++ intros ->. destruct HinF2 as [E|E]; [congruence|].
              apply HM in E as (E & _). contradiction.
        -- rewrite Hrp4, Hrq.
           ++ now apply Hrb.
           ++ intros Hin. apply HM in Hin as (Hin & _). contradiction.
      * eapply links_only_trans; [exact HL2|].
        eapply links_only_trans; apply Gia_ObjSetNext_links.
Qed.

(** ** The SAT variables of the rebuilt AIG *)

Lemma Vec_Entry_default_out {A} (d : A) (v : list A) (i : Z) :
  ~ (0 <= i < Vec_Size v) -> Vec_Entry d v i = d.
Proof.
  unfold Vec_Entry, Vec_Size. intros H. destruct (Z.ltb_spec i 0); [reflexivity|].
  rewrite lookup_ge_None_2 by lia. reflexivity.
Qed.

Lemma Gia_ObjIsAnd_in_range (p : Gia_Man_t) (i : Z) :
  Gia_ObjIsAnd (Gia_ManObj p i) = true -> 0 <= i < Gia_ManObjNum p.
Proof.
  intros H. destruct (Z.le_gt_cases 0 i), (Z.lt_ge_cases i (Gia_ManObjNum p)); try lia;
    unfold Gia_ManObj, Gia_ManObjNum in *;
    rewrite Vec_Entry_default_out in H by lia; discriminate.
Qed.

Section CnfInvariant.

(** [objs0] and [c0] are the nodes and the [satVar] map of the rebuilt
    AIG on entry; [R] is a set of nodes closed under the fanins of its
    AND nodes. *)
Variables (p0 : Gia_Man_t) (R : Z -> Prop).
Hypothesis wf0 : wf_new p0.
Hypothesis R_closed :
  forall x, R x -> Gia_ObjIsAnd (Gia_ManObj p0 x) = true ->
    R (Gia_ObjFaninId0 (Gia_ManObj p0 x)) /\ R (Gia_ObjFaninId1 (Gia_ManObj p0 x)).

Lemma Gia_ManObj_same_objs (p : Gia_Man_t) (x : Z) :
  pObjs p = pObjs p0 -> Gia_ManObj p x = Gia_ManObj p0 x.
Proof. unfold Gia_ManObj. now intros ->. Qed.

Lemma copies_inv_set (p : Gia_Man_t) (x v : Z) :
  copies_inv p0 R p -> R x -> 0 <= v -> copies_inv p0 R (Gia_ObjSetCopyArray p x v).
Proof.
  intros (Ho & Hl & Hc) HR Hv. unfold copies_inv, Gia_ObjSetCopyArray. simpl.
  split; [assumption|]. split; [now rewrite length_Vec_WriteEntry|].
  intros y Hy. unfold Cec2_ObjSatId, Gia_ObjCopyArray. simpl.
  rewrite Vec_Entry_write. destruct (_ && _) eqn:E.
  - apply andb_true_iff in E as (E & _). apply andb_true_iff in E as (E%Z.eqb_eq & _).
    subst y. right. auto.
  - apply Hc, Hy.
Qed.

Lemma Cec2_ObjSatId_set (p : Gia_Man_t) (x y v : Z) :
  Cec2_ObjSatId (Gia_ObjSetCopyArray p x v) y
  = if (x =? y) && (0 <=? x) && (x <? Vec_Size (vCopies p)) then v else Cec2_ObjSatId p y.
Proof.
  unfold Cec2_ObjSatId, Gia_ObjCopyArray, Gia_ObjSetCopyArray. simpl. apply Vec_Entry_write.
Qed.

Lemma copies_inv_size (p : Gia_Man_t) :
  copies_inv p0 R p -> Vec_Size (vCopies p) = Gia_ManObjNum p0.
Proof.
  intros (_ & Hl & _). destruct wf0 as (Hlen & _). unfold Vec_Size, Gia_ManObjNum.
  now rewrite Hl, Hlen.
Qed.

Lemma Cec2_ObjAddToFrontier_inv (p p' : Gia_Man_t) (x : Z) (vF vF' : list Z) (s s' : satoko_t) :
  Cec2_ObjAddToFrontier p x vF s = Ok (p', vF', s') ->
  copies_inv p0 R p -> frontier_inv p0 R p vF -> 0 <= sat_nvars s -> R x ->
  copies_inv p0 R p' /\ frontier_inv p0 R p' vF' /\ 0 <= sat_nvars s'.
Proof.
  intros H Hc Hf Hn HR.
  apply Cec2_ObjAddToFrontier_Ok in H as [(-> & -> & -> & _)|(Hneg & -> & -> & ->)]; [auto|].
  split; [now apply copies_inv_set|]. split; [|simpl; lia].
  destruct Hf as (Hall & Hnd).
  pose proof (copies_inv_size p Hc) as Hsize.
  assert (Hold : Forall (fun y => R y /\ Gia_ObjIsAnd (Gia_ManObj p0 y) = true
                           /\ 0 <= Cec2_ObjSatId (Gia_ObjSetCopyArray p x (sat_nvars s)) y) vF).
  { rewrite Forall_forall in Hall |- *. intros y Hy. destruct (Hall y Hy) as (H1 & H2 & H3).
    split; [assumption|]. split; [assumption|]. rewrite Cec2_ObjSatId_set.
    destruct (_ && _); [assumption | assumption]. }
  destruct (Gia_ObjIsAnd (Gia_ManObj p x)) eqn:E; [|split; assumption].
  destruct Hc as (Ho & _). rewrite (Gia_ManObj_same_objs p x Ho) in E.
  pose proof (Gia_ObjIsAnd_in_range _ _ E) as Hx.
  split.
  - apply Forall_app. split; [assumption|]. constructor; [|constructor].
    split; [assumption|]. split; [assumption|]. rewrite Cec2_ObjSatId_set, Z.eqb_refl. simpl.
    destruct (Z.leb_spec 0 x), (Z.ltb_spec x (Vec_Size (vCopies p))); simpl; lia.
  - apply NoDup_app. split; [assumption|]. split; [|apply NoDup_singleton].
    intros y Hy Hy'. apply list_elem_of_singleton in Hy'. subst y.
    rewrite Forall_forall in Hall. destruct (Hall x Hy) as (_ & _ & H3). lia.
Qed.

Lemma add_fanins_to_frontier_inv (vFan : list Gia_Ptr) (m m' : Cec2_Man_t) :
  add_fanins_to_frontier vFan m = Ok m' ->
  cnf_inv p0 R m -> Forall (fun q => R (Gia_Regular q)) vFan ->
  cnf_inv p0 R m'.
Proof.
  revert m. induction vFan as [|q rest IH]; intros m H Hinv Hall; simpl in H.
  - now inv_Ok H.
  - inv_bind H as t Ht. destruct t as [[pN vF] s].
    apply Forall_cons in Hall as (Hq & Hall). destruct Hinv as (Hc & Hf & Hn).
    apply (Cec2_ObjAddToFrontier_inv _ _ _ _ _ _ _ Ht Hc Hf Hn) in Hq as (Hc' & Hf' & Hn').
    eapply IH; [exact H | | exact Hall].
    split; [exact Hc' | split; [exact Hf' | exact Hn']].
Qed.

Lemma Vec_PushUnique_Forall {A} (P : A -> Prop) (eqb : A -> A -> bool) (v : list A) (x : A) :
  Forall P v -> P x -> Forall P (Vec_PushUnique eqb v x).
Proof.
  intros Hv Hx. unfold Vec_PushUnique. destruct (existsb _ _); [assumption|].
  apply Forall_app. split; [assumption | now constructor].
Qed.

Lemma Vec_Entry_Forall {A} (P : A -> Prop) (d : A) (v : list A) (i : Z) :
  Forall P v -> 0 <= i < Vec_Size v -> P (Vec_Entry d v i).
Proof.
  intros Hv Hi. unfold Vec_Entry, Vec_Size in *. destruct (Z.ltb_spec i 0); [lia|].
  destruct (v !! Z.to_nat i) eqn:E.
  - simpl. rewrite Forall_forall in Hv. apply Hv. eapply list_elem_of_lookup_2. exact E.
  - apply lookup_ge_None in E. lia.
Qed.

Lemma wf0_and (x : Z) :
  Gia_ObjIsAnd (Gia_ManObj p0 x) = true ->
  0 < Gia_ObjFaninId0 (Gia_ManObj p0 x) < x /\ 0 < Gia_ObjFaninId1 (Gia_ManObj p0 x) < x
  /\ 0 <= x < Gia_ManObjNum p0.
Proof.
  intros H. pose proof (Gia_ObjIsAnd_in_range _ _ H) as Hr.
  destruct wf0 as (_ & Hwf). destruct (Hwf x Hr) as (_ & Ha & _).
  destruct (Ha H). auto.
Qed.

Lemma Cec2_CollectSuper_rec_leaves (p : Gia_Man_t) (fUseMuxes : bool) :
  pObjs p = pObjs p0 ->
  forall (fuel : nat) (q : Gia_Ptr) (vSuper v' : list Gia_Ptr) (fFirst : bool),
    Cec2_CollectSuper_rec fuel p q vSuper fFirst fUseMuxes = Ok v' ->
    R (Gia_Regular q) -> 0 < Gia_Regular q < Gia_ManObjNum p0 ->
    Forall (fun l => R (Gia_Regular l)) vSuper ->
    Forall (fun l => R (Gia_Regular l)) v'.
Proof.
  intros Ho. induction fuel as [|fuel IH]; intros q vSuper v' fFirst H HR Hq Hv;
    simpl in H; [discriminate|].
  rewrite (Gia_ManObj_same_objs p _ Ho) in H.
  destruct (_ || _) eqn:Estop.
  - inv_Ok H. now apply Vec_PushUnique_Forall.
  - apply orb_false_iff in Estop as (Estop & _). apply orb_false_iff in Estop as (Estop & _).
    apply orb_false_iff in Estop as (_ & Eci).
    assert (Hand : Gia_ObjIsAnd (Gia_ManObj p0 (Gia_Regular q)) = true).
    { destruct wf0 as (_ & Hwf). destruct (Hwf (Gia_Regular q) ltac:(lia)) as (Hk & _).
      destruct (Hk ltac:(lia)); congruence. }
    destruct (wf0_and _ Hand) as (Hf0 & Hf1 & _).
    destruct (R_closed _ HR Hand) as (HR0 & HR1).
    inv_bind H as v1 H1.
    apply IH in H1; [|exact HR0 | simpl; lia | exact Hv].
    apply IH in H; [exact H | exact HR1 | simpl; lia | exact H1].
Qed.

Lemma sat_same_nvars (s s' : satoko_t) : sat_same s s' -> sat_nvars s' = sat_nvars s.
Proof. now intros (? & _). Qed.

Lemma frontier_step_inv (fUseMuxes : bool) (m m' : Cec2_Man_t) (pNode : Z) :
  frontier_step fUseMuxes m pNode = Ok m' ->
  cnf_inv p0 R m -> R pNode -> Gia_ObjIsAnd (Gia_ManObj p0 pNode) = true ->
  cnf_inv p0 R m'.
Proof.
  unfold frontier_step. intros H Hinv HR Hand. inv_bind H as u Hu. inv_bind H as m1 H1.
  inv_bind H as u' Hu'. inv_Ok H.
  pose proof Hinv as ((Ho & _) & _).
  destruct (wf0_and _ Hand) as (Hf0 & Hf1 & Hrange).
  destruct (R_closed _ HR Hand) as (HR0 & HR1).
  rewrite (Gia_ManObj_same_objs _ _ Ho) in H1.
  destruct (fUseMuxes && fMark0 (Gia_ManObj p0 pNode)) eqn:Emux.
  - apply andb_true_iff in Emux as (_ & Emark).
    destruct wf0 as (_ & Hwf). destruct (Hwf pNode Hrange) as (_ & _ & Hm).
    destruct (Hm Emark) as (_ & Ha0 & Ha1).
    destruct (R_closed _ HR0 Ha0) as (HR00 & HR01).
    destruct (R_closed _ HR1 Ha1) as (HR10 & HR11).
    inv_bind H1 as m2 H2.
    apply add_fanins_to_frontier_inv in H2; [|exact Hinv|].
    + inv_bind H1 as s Hs. inv_Ok H1. apply Cec2_AddClausesMux_stable, sat_same_nvars in Hs.
      destruct H2 as (Hc & Hf & Hn). split; [exact Hc|]. split; [exact Hf|]. simpl. lia.
    + simpl. unfold mux_fanins. rewrite !(Gia_ManObj_same_objs _ _ Ho).
      repeat apply Vec_PushUnique_Forall; try constructor; assumption.
  - inv_bind H1 as vSuper Hsup. inv_bind H1 as m2 H2.
    apply add_fanins_to_frontier_inv in H2; [|exact Hinv|].
    + inv_bind H1 as s Hs. inv_Ok H1. apply Cec2_AddClausesSuper_stable, sat_same_nvars in Hs.
      destruct H2 as (Hc & Hf & Hn). split; [exact Hc|]. split; [exact Hf|]. simpl. lia.
    + simpl. unfold Cec2_CollectSuper in Hsup. inv_bind Hsup as u2 Hu2.
      eapply Cec2_CollectSuper_rec_leaves; [exact Ho | exact Hsup | exact HR | simpl; lia
                                           | constructor].
Qed.

Lemma frontier_loop_inv (fuel : nat) (fUseMuxes : bool) (m m' : Cec2_Man_t) (i : Z) :
  frontier_loop fuel fUseMuxes m i = Ok m' -> 0 <= i -> cnf_inv p0 R m -> cnf_inv p0 R m'.
Proof.
  revert m i. induction fuel as [|fuel IH]; intros m i H Hi Hinv; simpl in H.
  - destruct (i <? _); [discriminate | now inv_Ok H].
  - destruct (Z.ltb_spec i (Vec_Size (vFrontier m))); [|now inv_Ok H].
    inv_bind H as m1 H1.
    destruct Hinv as (Hc & Hf & Hn).
    pose proof (Vec_Entry_Forall _ 0 _ i (proj1 Hf) ltac:(lia)) as (HR & Hand & _).
    apply frontier_step_inv in H1;
      [|split; [exact Hc | split; [exact Hf | exact Hn]]|exact HR|exact Hand].
    eapply IH; [exact H | lia | exact H1].
Qed.

Lemma Cec2_ObjGetCnfVar_inv (m m' : Cec2_Man_t) (iObj v : Z) :
  Cec2_ObjGetCnfVar m iObj = Ok (m', v) ->
  copies_inv p0 R (pNew m) -> 0 <= sat_nvars (pSat m) -> R iObj ->
  copies_inv p0 R (pNew m') /\ 0 <= sat_nvars (pSat m').
Proof.
  unfold Cec2_ObjGetCnfVar. intros H Hc Hn HR.
  destruct (0 <=? _).
  - inv_Ok H. auto.
  - inv_bind H as u Hu. destruct (Gia_ObjIsCi _).
    + simpl in H. inv_bind H as pr Hpr. destruct pr as [pN Num].
      apply Cec2_ObjSetSatId_Ok in Hpr as [-> ->]. inv_Ok H. simpl.
      split; [now apply copies_inv_set | lia].
    + inv_bind H as u' Hu'. inv_bind H as t Ht. destruct t as [[pN vF] s].
      inv_bind H as m1 H1. inv_Ok H. simpl in Ht.
      apply Cec2_ObjAddToFrontier_inv in Ht as (Hc' & Hf' & Hn');
        [|exact Hc|split; constructor|exact Hn|exact HR].
      apply frontier_loop_inv in H1 as (? & _ & ?); [auto|lia|].
      split; [exact Hc' | split; [exact Hf' | exact Hn']].
Qed.

(** *** The bounds of the embedding are never reached *)

Lemma NoDup_bounded_length (l : list Z) (N : Z) :
  0 <= N -> NoDup l -> Forall (fun x => 0 <= x < N) l -> Z.of_nat (length l) <= N.
Proof.
  intros HN Hnd Hall.
  assert (Hlen : (length (Z.to_nat <$> l) <= length (seq 0 (Z.to_nat N)))%nat).
  { apply submseteq_length, NoDup_submseteq.
    - apply NoDup_fmap_2_strong; [|assumption].
      rewrite Forall_forall in Hall. intros x y Hx Hy E.
      pose proof (Hall x Hx). pose proof (Hall y Hy). lia.
    - intros n Hn. apply list_elem_of_fmap in Hn as (x & -> & Hx).
      rewrite Forall_forall in Hall. specialize (Hall x Hx). apply elem_of_seq. lia. }
  rewrite length_fmap, length_seq in Hlen. lia.
Qed.

Lemma frontier_inv_size (p : Gia_Man_t) (vF : list Z) :
  frontier_inv p0 R p vF -> Vec_Size vF <= Gia_ManObjNum p0.
Proof.
  intros (Hall & Hnd).
  apply NoDup_bounded_length; [unfold Gia_ManObjNum, Vec_Size; lia | assumption |].
  rewrite Forall_forall in Hall |- *. intros x Hx. destruct (Hall x Hx) as (_ & Hand & _).
  now apply Gia_ObjIsAnd_in_range.
Qed.

Lemma Cec2_CollectSuper_rec_total (p : Gia_Man_t) (fUseMuxes : bool) :
  pObjs p = pObjs p0 ->
  forall (fuel : nat) (q : Gia_Ptr) (vSuper : list Gia_Ptr) (fFirst : bool),
    0 < Gia_Regular q < Gia_ManObjNum p0 ->
    (Z.to_nat (Gia_Regular q) < fuel)%nat ->
    exists v', Cec2_CollectSuper_rec fuel p q vSuper fFirst fUseMuxes = Ok v'.
Proof.
  intros Ho. induction fuel as [|fuel IH]; intros q vSuper fFirst Hq Hfuel; [lia|].
  simpl. rewrite (Gia_ManObj_same_objs p _ Ho).
  destruct (_ || _) eqn:Estop; [eexists; reflexivity|].
  apply orb_false_iff in Estop as (Estop & _). apply orb_false_iff in Estop as (Estop & _).
  apply orb_false_iff in Estop as (_ & Eci).
  assert (Hand : Gia_ObjIsAnd (Gia_ManObj p0 (Gia_Regular q)) = true).
  { destruct wf0 as (_ & Hwf). destruct (Hwf (Gia_Regular q) ltac:(lia)) as (Hk & _).
    destruct (Hk ltac:(lia)); congruence. }
  destruct (wf0_and _ Hand) as (Hf0 & Hf1 & _).
  destruct (IH (Gia_ObjChild0 (Gia_ManObj p0 (Gia_Regular q))) vSuper false) as (v1 & ->);
    [simpl; lia | simpl; lia|].
  simpl. apply IH; simpl; lia.
Qed.

Lemma bind_no_fuel {A B : Type} (c : res A) (k : A -> res B) :
  c <> OutOfFuel -> (forall a, c = Ok a -> k a <> OutOfFuel) -> c ≫= k <> OutOfFuel.
Proof. destruct c; simpl; intros H1 H2; [now apply H2 | discriminate | congruence]. Qed.

Lemma assert_no_fuel (c : bool) : assert_ c <> OutOfFuel.
Proof. unfold assert_. destruct (NDEBUG || c); discriminate. Qed.

Lemma add_clause_checked_no_fuel (s : satoko_t) (c : list Z) :
  add_clause_checked s c <> OutOfFuel.
Proof.
  unfold add_clause_checked, satoko_add_clause.
  apply bind_no_fuel; [apply assert_no_fuel | discriminate].
Qed.

Lemma Cec2_AddClausesMux_no_fuel (p : Gia_Man_t) (pNode : Z) (s : satoko_t) :
  Cec2_AddClausesMux p pNode s <> OutOfFuel.
Proof.
  unfold Cec2_AddClausesMux. apply bind_no_fuel; [apply assert_no_fuel|]. intros _ _.
  destruct (Gia_ObjRecognizeMux p pNode) as [[pNodeI pNodeT] pNodeE].
  do 4 (apply bind_no_fuel; [apply add_clause_checked_no_fuel|]; intros ? _).
  destruct (_ =? _); [discriminate|].
  apply bind_no_fuel; [apply add_clause_checked_no_fuel|]. intros ? _.
  apply add_clause_checked_no_fuel.
Qed.

Lemma super_binary_clauses_no_fuel (fl : bool) (p : Gia_Man_t) (pNode : Z)
    (vSuper : list Gia_Ptr) (s : satoko_t) :
  super_binary_clauses fl p pNode vSuper s <> OutOfFuel.
Proof.
  revert s. induction vSuper as [|q rest IH]; intros s; simpl; [discriminate|].
  apply bind_no_fuel; [apply add_clause_checked_no_fuel|]. intros ? _. apply IH.
Qed.

Lemma Cec2_AddClausesSuper_no_fuel (p : Gia_Man_t) (pNode : Z) (vSuper : list Gia_Ptr)
    (s : satoko_t) :
  Cec2_AddClausesSuper p pNode vSuper s <> OutOfFuel.
Proof.
  unfold Cec2_AddClausesSuper. apply bind_no_fuel; [apply assert_no_fuel|]. intros _ _.
  apply bind_no_fuel; [apply super_binary_clauses_no_fuel|]. intros ? _.
  apply add_clause_checked_no_fuel.
Qed.

Lemma Cec2_ObjSetSatId_no_fuel (p : Gia_Man_t) (pObj Num : Z) :
  Cec2_ObjSetSatId p pObj Num <> OutOfFuel.
Proof.
  unfold Cec2_ObjSetSatId. apply bind_no_fuel; [apply assert_no_fuel | discriminate].
Qed.

Lemma Cec2_ObjAddToFrontier_no_fuel (p : Gia_Man_t) (x : Z) (vF : list Z) (s : satoko_t) :
  Cec2_ObjAddToFrontier p x vF s <> OutOfFuel.
Proof.
  unfold Cec2_ObjAddToFrontier. apply bind_no_fuel; [apply assert_no_fuel|]. intros _ _.
  destruct (0 <=? _); [discriminate|].
  apply bind_no_fuel; [apply assert_no_fuel|]. intros _ _. simpl.
  apply bind_no_fuel; [apply Cec2_ObjSetSatId_no_fuel|]. intros [? ?] _. discriminate.
Qed.

Lemma add_fanins_to_frontier_no_fuel (vFan : list Gia_Ptr) (m : Cec2_Man_t) :
  add_fanins_to_frontier vFan m <> OutOfFuel.
Proof.
  revert m. induction vFan as [|q rest IH]; intros m; simpl; [discriminate|].
  apply bind_no_fuel; [apply Cec2_ObjAddToFrontier_no_fuel|]. intros [[? ?] ?] _. apply IH.
Qed.

Lemma frontier_step_no_fuel (fUseMuxes : bool) (m : Cec2_Man_t) (pNode : Z) :
  cnf_inv p0 R m -> Gia_ObjIsAnd (Gia_ManObj p0 pNode) = true ->
  frontier_step fUseMuxes m pNode <> OutOfFuel.
Proof.
  intros ((Ho & _) & _) Hand. unfold frontier_step.
  destruct (wf0_and _ Hand) as (Hf0 & _ & Hrange).
  apply bind_no_fuel; [apply assert_no_fuel|]. intros _ _.
  apply bind_no_fuel; [|intros ? _; apply bind_no_fuel; [apply assert_no_fuel | discriminate]].
  destruct (fUseMuxes && _).
  - apply bind_no_fuel; [apply add_fanins_to_frontier_no_fuel|]. intros ? _.
    apply bind_no_fuel; [apply Cec2_AddClausesMux_no_fuel | discriminate].
  - apply bind_no_fuel.
    + unfold Cec2_CollectSuper. apply bind_no_fuel; [apply assert_no_fuel|]. intros _ _.
      destruct (Cec2_CollectSuper_rec_total (pNew m) fUseMuxes Ho (S (Z.to_nat pNode))
                  (pNode, false) [] true) as (v' & ->); [simpl; lia | simpl; lia | discriminate].
    + intros ? _. apply bind_no_fuel; [apply add_fanins_to_frontier_no_fuel|]. intros ? _.
      apply bind_no_fuel; [apply Cec2_AddClausesSuper_no_fuel | discriminate].
Qed.

Lemma frontier_loop_no_fuel (fuel : nat) (fUseMuxes : bool) :
  forall (m : Cec2_Man_t) (i : Z),
    cnf_inv p0 R m -> 0 <= i -> Gia_ManObjNum p0 <= i + Z.of_nat fuel ->
    frontier_loop fuel fUseMuxes m i <> OutOfFuel.
Proof.
  induction fuel as [|fuel IH]; intros m i Hinv Hi Hfuel; simpl.
  - pose proof (frontier_inv_size _ _ (proj1 (proj2 Hinv))).
    destruct (Z.ltb_spec i (Vec_Size (vFrontier m))); [lia | discriminate].
  - destruct (Z.ltb_spec i (Vec_Size (vFrontier m))); [|discriminate].
    destruct Hinv as (Hc & Hf & Hn).
    pose proof (Vec_Entry_Forall _ 0 _ i (proj1 Hf) ltac:(lia)) as (HR & Hand & _).
    apply bind_no_fuel.
    + apply frontier_step_no_fuel; [split; [exact Hc | split; [exact Hf | exact Hn]] | exact Hand].
    + intros m1 H1. apply IH; [|lia|lia].
      eapply frontier_step_inv; [exact H1 | | exact HR | exact Hand].
      split; [exact Hc | split; [exact Hf | exact Hn]].
Qed.

Lemma Cec2_ObjGetCnfVar_no_fuel (m : Cec2_Man_t) (iObj : Z) :
  copies_inv p0 R (pNew m) -> 0 <= sat_nvars (pSat m) -> R iObj ->
  Cec2_ObjGetCnfVar m iObj <> OutOfFuel.
Proof.
  intros Hc Hn HR. unfold Cec2_ObjGetCnfVar.
  destruct (0 <=? _); [discriminate|].
  apply bind_no_fuel; [apply assert_no_fuel|]. intros _ _.
  destruct (Gia_ObjIsCi _).
  - simpl. apply bind_no_fuel; [apply Cec2_ObjSetSatId_no_fuel|]. intros [? ?] _. discriminate.
  - apply bind_no_fuel; [apply assert_no_fuel|]. intros _ _.
    apply bind_no_fuel; [apply Cec2_ObjAddToFrontier_no_fuel|]. intros [[pN vF] s] Ht.
    simpl in Ht.
    apply Cec2_ObjAddToFrontier_inv in Ht as (Hc' & Hf' & Hn');
      [|exact Hc|split; constructor|exact Hn|exact HR].
    apply bind_no_fuel; [|discriminate].
    apply frontier_loop_no_fuel; [split; [exact Hc' | split; [exact Hf' | exact Hn']] | lia |].
    simpl. destruct Hc' as (Ho' & _). unfold Gia_ManObjNum, Vec_Size. rewrite Ho'. lia.
Qed.

End CnfInvariant.

(** *** The traversal that collects the nodes to clean *)

Lemma collected_mono (m1 m2 : Cec2_Man_t) (x : Z) :
  pObjs (pNew m2) = pObjs (pNew m1) -> vCopies (pNew m2) = vCopies (pNew m1) ->
  travIds (pNew m1) ⊆ travIds (pNew m2) ->
  (forall y, In y (vNodesNew m1) -> In y (vNodesNew m2)) ->
  collected m1 x -> collected m2 x.
Proof.
  intros Ho Hc Ht Hv (H1 & H2). unfold collected, Cec2_ObjSatId, Gia_ObjCopyArray, Gia_ManObj.
  rewrite Ho, Hc. split.
  - intros H. apply Hv, H1, H.
  - intros Ha Hx. destruct (H2 Ha Hx) as (A & B). split; [apply Ht, A | apply Ht, B].
Qed.

Lemma Cec2_ManCollect_rec_visits (fuel : nat) :
  forall (m m' : Cec2_Man_t) (iObj : Z),
    Cec2_ManCollect_rec fuel m iObj = Ok m' ->
    travIds (pNew m) ⊆ travIds (pNew m')
    /\ iObj ∈ travIds (pNew m')
    /\ (forall y, In y (vNodesNew m) -> In y (vNodesNew m'))
    /\ (forall x, x ∈ travIds (pNew m') -> x ∈ travIds (pNew m) \/ collected m' x).
Proof.
  induction fuel as [|fuel IH]; intros m m' iObj H; [discriminate|].
  pose proof (Cec2_ManCollect_rec_stable _ _ _ _ H) as ([] & _ & Hcop).
  simpl in H. unfold Gia_ObjIsTravIdCurrentId in H.
  destruct (decide (iObj ∈ travIds (pNew m))) as [Hin|Hnin].
  { rewrite bool_decide_eq_true_2 in H by assumption. inv_Ok H. auto. }
  rewrite bool_decide_eq_false_2 in H by assumption.
  set (m0 := if 0 <=? _ then _ else _) in H.
  assert (H0 : pObjs (pNew m0) = pObjs (pNew m) /\ vCopies (pNew m0) = vCopies (pNew m)
               /\ travIds (pNew m0) = {[ iObj ]} ∪ travIds (pNew m)
               /\ (forall y, In y (vNodesNew m) -> In y (vNodesNew m0))
               /\ (0 <= Cec2_ObjSatId (pNew m) iObj -> In iObj (vNodesNew m0))).
  { subst m0.
    change (Cec2_ObjSatId (pNew (set_pNew m (Gia_ObjSetTravIdCurrentId (pNew m) iObj))) iObj)
      with (Cec2_ObjSatId (pNew m) iObj).
    change (Cec2_ObjSatId (Gia_ObjSetTravIdCurrentId (pNew m) iObj) iObj)
      with (Cec2_ObjSatId (pNew m) iObj).
    destruct (Z.leb_spec 0 (Cec2_ObjSatId (pNew m) iObj)) as [Hle|Hlt]; simpl.
    - split; [reflexivity|]. split; [reflexivity|]. split; [reflexivity|]. split.
      + intros y Hy. apply in_app_iff. now left.
      + intros _. apply in_app_iff. right. now left.
    - split; [reflexivity|]. split; [reflexivity|]. split; [reflexivity|]. split.
      + auto.
      + intros. lia. }
  destruct H0 as (Ho0 & Hc0 & Ht0 & Hv0 & Hpush).
  assert (Hsat : forall mm, vCopies (pNew mm) = vCopies (pNew m) ->
                   Cec2_ObjSatId (pNew mm) iObj = Cec2_ObjSatId (pNew m) iObj).
  { intros mm E. unfold Cec2_ObjSatId, Gia_ObjCopyArray. now rewrite E. }
  assert (Hsub0 : travIds (pNew m) ⊆ travIds (pNew m0))
    by (rewrite Ht0; apply union_subseteq_r).
  assert (Hself0 : iObj ∈ travIds (pNew m0))
    by (rewrite Ht0; apply elem_of_union_l, elem_of_singleton; reflexivity).
  assert (Hnew0 : forall x, x ∈ travIds (pNew m0) -> x = iObj \/ x ∈ travIds (pNew m)).
  { intros x Hx. rewrite Ht0 in Hx. apply elem_of_union in Hx as [Hx|Hx]; [left|now right].
    now apply elem_of_singleton in Hx. }
  destruct (Z.eqb_spec iObj 0) as [Hz|Hnz].
  { injection H as <-. split; [assumption|]. split; [assumption|]. split; [assumption|].
    intros x Hx. destruct (Hnew0 x Hx) as [->|Hx']; [|now left].
    right. split.
    - intros Hs. apply Hpush. now rewrite <- (Hsat m0 Hc0).
    - intros _ Hne. congruence. }
  assert (Hobj0 : Gia_ManObj (pNew m0) iObj = Gia_ManObj (pNew m) iObj)
    by (unfold Gia_ManObj; now rewrite Ho0).
  change (pNew (set_pNew m (Gia_ObjSetTravIdCurrentId (pNew m) iObj)))
    with (Gia_ObjSetTravIdCurrentId (pNew m) iObj) in H.
  change (Gia_ManObj (Gia_ObjSetTravIdCurrentId (pNew m) iObj) iObj)
    with (Gia_ManObj (pNew m) iObj) in H.
  destruct (Gia_ObjIsAnd (Gia_ManObj (pNew m) iObj)) eqn:Eand.
  - inv_bind H as m1 H1.
    pose proof (Cec2_ManCollect_rec_stable _ _ _ _ H1) as ([] & _ & Hcop1).
    pose proof (Cec2_ManCollect_rec_stable _ _ _ _ H) as ([] & _ & Hcop2).
    apply IH in H1 as (Ht1 & Hf0 & Hv1 & Hg1). apply IH in H as (Ht2 & Hf1 & Hv2 & Hg2).
    split; [intros x Hx; apply Ht2, Ht1, Hsub0, Hx|].
    split; [apply Ht2, Ht1, Hself0|]. split; [auto|].
    intros x Hx. destruct (Hg2 x Hx) as [Hx1|Hgood]; [|now right].
    destruct (Hg1 x Hx1) as [Hx0|Hgood].
    + destruct (Hnew0 x Hx0) as [->|Hx']; [|now left].
      right. split.
      * intros Hs. apply Hv2, Hv1, Hpush.
        unfold Cec2_ObjSatId, Gia_ObjCopyArray in *. rewrite <- Hcop. exact Hs.
      * intros _ _. unfold Gia_ManObj. rewrite st_objs2, st_objs1, Ho0.
        fold (Gia_ManObj (pNew m) iObj). split; [apply Ht2, Hf0 | assumption].
    + right. eapply collected_mono; [| | | |exact Hgood]; auto.
  - inv_bind H as u Hu. injection H as <-. simpl.
    split; [assumption|]. split; [assumption|].
    split; [intros y Hy; now apply Hv0|].
    intros x Hx. destruct (Hnew0 x Hx) as [->|Hx']; [|now left].
    right. split; simpl.
    + intros Hs. apply Hpush. now rewrite <- (Hsat m0 Hc0).
    + unfold Gia_ManObj. rewrite Ho0. fold (Gia_ManObj (pNew m) iObj). congruence.
Qed.

Lemma reach_visited (m : Cec2_Man_t) (root x : Z) :
  wf_new (pNew m) ->
  (forall y, y ∈ travIds (pNew m) -> collected m y) ->
  root ∈ travIds (pNew m) ->
  reach (pNew m) root x -> x ∈ travIds (pNew m).
Proof.
  intros Hwf Hall Hroot. induction 1 as [|x Hr IH Hand|x Hr IH Hand]; [assumption| |].
  - destruct (Hall x IH) as (_ & Hf). apply Hf; [assumption|].
    pose proof (Gia_ObjIsAnd_in_range _ _ Hand) as Hrange.
    destruct Hwf as (_ & Hwf). destruct (Hwf x Hrange) as (_ & Ha & _).
    destruct (Ha Hand). lia.
  - destruct (Hall x IH) as (_ & Hf). apply Hf; [assumption|].
    pose proof (Gia_ObjIsAnd_in_range _ _ Hand) as Hrange.
    destruct Hwf as (_ & Hwf). destruct (Hwf x Hrange) as (_ & Ha & _).
    destruct (Ha Hand). lia.
Qed.

Lemma clean_sat_ids_spec (V : list Z) :
  forall (p p' : Gia_Man_t),
    clean_sat_ids V p = Ok p' ->
    forall x, 0 <= x < Vec_Size (vCopies p) ->
      (In x V -> Cec2_ObjSatId p' x = -1)
      /\ (~ In x V -> Cec2_ObjSatId p' x = Cec2_ObjSatId p x).
Proof.
  induction V as [|x1 rest IH]; intros p p' H x Hx; simpl in H.
  - inv_Ok H. split; [intros [] | reflexivity].
  - inv_bind H as p1 H1. unfold Cec2_ObjCleanSatId in H1. inv_bind H1 as u Hu. inv_Ok H1.
    assert (Hx1 : 0 <= x < Vec_Size (vCopies (Gia_ObjSetCopyArray p x1 (-1)))).
    { unfold Gia_ObjSetCopyArray, Vec_Size. simpl. rewrite length_Vec_WriteEntry. exact Hx. }
    destruct (IH _ _ H x Hx1) as (Hin & Hout).
    assert (Hset : forall y, Cec2_ObjSatId (Gia_ObjSetCopyArray p x1 (-1)) y
                     = if (x1 =? y) && (0 <=? x1) && (x1 <? Vec_Size (vCopies p))
                       then -1 else Cec2_ObjSatId p y).
    { intros y. unfold Cec2_ObjSatId, Gia_ObjCopyArray, Gia_ObjSetCopyArray. simpl.
      apply Vec_Entry_write. }
    destruct (In_dec Z.eq_dec x rest) as [Hr|Hr].
    + split; [intros _; now apply Hin|]. intros Hn. exfalso. apply Hn. now right.
    + rewrite (Hout Hr), Hset. split.
      * intros [->|Hr']; [|contradiction].
        rewrite Z.eqb_refl. simpl.
        destruct (Z.leb_spec 0 x), (Z.ltb_spec x (Vec_Size (vCopies p))); try lia. reflexivity.
      * intros Hn. destruct (Z.eqb_spec x1 x) as [->|_]; [|reflexivity].
        exfalso. apply Hn. now left.
Qed.

Lemma reach_same_objs (p p' : Gia_Man_t) (root x : Z) :
  pObjs p' = pObjs p -> reach p root x -> reach p' root x.
Proof.
  intros Ho. induction 1 as [|x Hr IH Hand|x Hr IH Hand]; [constructor| |].
  - replace (Gia_ManObj p x) with (Gia_ManObj p' x) by (unfold Gia_ManObj; now rewrite Ho).
    apply reach_fanin0; [assumption|]. unfold Gia_ManObj in *. now rewrite Ho.
  - replace (Gia_ManObj p x) with (Gia_ManObj p' x) by (unfold Gia_ManObj; now rewrite Ho).
    apply reach_fanin1; [assumption|]. unfold Gia_ManObj in *. now rewrite Ho.
Qed.

Lemma wf_new_same_objs (p p' : Gia_Man_t) :
  pObjs p' = pObjs p -> length (vCopies p') = length (vCopies p) -> wf_new p -> wf_new p'.
Proof.
  intros Ho Hl (H1 & H2). unfold wf_new, Gia_ManObjNum, Gia_ManObj in *.
  rewrite Ho, Hl. split; assumption.
Qed.

Lemma Cec2_ManCollect_rec_no_fuel (fuel : nat) :
  forall (m : Cec2_Man_t) (iObj : Z),
    wf_new (pNew m) -> (Z.to_nat iObj < fuel)%nat ->
    Cec2_ManCollect_rec fuel m iObj <> OutOfFuel.
Proof.
  induction fuel as [|fuel IH]; intros m iObj Hwf Hfuel; [lia|].
  simpl. destruct (Gia_ObjIsTravIdCurrentId _ _); [discriminate|].
  set (m0 := if 0 <=? _ then _ else _).
  assert (H0 : pObjs (pNew m0) = pObjs (pNew m) /\ vCopies (pNew m0) = vCopies (pNew m)).
  { subst m0. destruct (0 <=? _); split; reflexivity. }
  destruct H0 as (Ho0 & Hc0).
  destruct (iObj =? 0); [discriminate|].
  change (pNew (set_pNew m (Gia_ObjSetTravIdCurrentId (pNew m) iObj)))
    with (Gia_ObjSetTravIdCurrentId (pNew m) iObj).
  change (Gia_ManObj (Gia_ObjSetTravIdCurrentId (pNew m) iObj) iObj)
    with (Gia_ManObj (pNew m) iObj).
  destruct (Gia_ObjIsAnd (Gia_ManObj (pNew m) iObj)) eqn:Eand.
  - pose proof (Gia_ObjIsAnd_in_range _ _ Eand) as Hr.
    destruct Hwf as (Hlen & Hwf). destruct (Hwf iObj Hr) as (_ & Hfan & _).
    destruct (Hfan Eand) as (Hf0 & Hf1).
    assert (Hwf0 : wf_new (pNew m0)).
    { apply (wf_new_same_objs (pNew m)); [assumption | now rewrite Hc0 | now split]. }
    apply bind_no_fuel; [apply IH; [exact Hwf0 | lia]|].
    intros m1 H1. apply IH; [|lia].
    pose proof (Cec2_ManCollect_rec_stable _ _ _ _ H1) as ([] & _ & _).
    apply (wf_new_same_objs (pNew m0)); assumption.
  - apply bind_no_fuel; [apply assert_no_fuel | discriminate].
Qed.

Lemma clean_sat_ids_no_fuel (V : list Z) (p : Gia_Man_t) :
  clean_sat_ids V p <> OutOfFuel.
Proof.
  revert p. induction V as [|x V IH]; intros p; simpl; [discriminate|].
  apply bind_no_fuel; [|intros ? _; apply IH].
  unfold Cec2_ObjCleanSatId. apply bind_no_fuel; [apply assert_no_fuel | discriminate].
Qed.

(** The bounds given to the recursions of [Cec2_ManSolveTwo] are large
    enough on a well-formed AIG: the call returns, or stops at an
    assertion. *)
Lemma Cec2_ManSolveTwo_no_fuel (m : Cec2_Man_t) (a b : Z) (ph : bool) :
  wf_new (pNew m) -> 0 <= sat_nvars (pSat m) ->
  Cec2_ManSolveTwo m a b ph <> OutOfFuel.
Proof.
  intros Hwf Hn. unfold Cec2_ManSolveTwo.
  destruct (if b <? a then (b, a) else (a, b)) as [lo hi].
  set (p0 := pNew m) in *.
  set (R := fun _ : Z => True).
  assert (R_closed : forall x, R x -> Gia_ObjIsAnd (Gia_ManObj p0 x) = true ->
            R (Gia_ObjFaninId0 (Gia_ManObj p0 x)) /\ R (Gia_ObjFaninId1 (Gia_ManObj p0 x)))
    by (intros; split; exact I).
  assert (Hinit : copies_inv p0 R p0) by (repeat split; auto).
  apply bind_no_fuel; [apply assert_no_fuel|]. intros _ _.
  apply bind_no_fuel; [apply assert_no_fuel|]. intros _ _.
  apply bind_no_fuel.
  { destruct (lo =? 0); [|discriminate]. simpl.
    apply bind_no_fuel; [apply Cec2_ObjSetSatId_no_fuel|]. intros [? ?] _. discriminate. }
  intros m0 H0.
  assert (Hc0 : copies_inv p0 R (pNew m0) /\ 0 <= sat_nvars (pSat m0)).
  { destruct (lo =? 0); [|inv_Ok H0; auto].
    simpl in H0. inv_bind H0 as pr Hpr. destruct pr as [pN r].
    apply Cec2_ObjSetSatId_Ok in Hpr as [-> ->]. inv_Ok H0. simpl.
    split; [|lia]. apply copies_inv_set; [assumption | exact I | assumption]. }
  destruct Hc0 as (Hc0 & Hn0).
  apply bind_no_fuel;
    [apply (Cec2_ObjGetCnfVar_no_fuel p0 R Hwf R_closed); [assumption | assumption | exact I]|].
  intros [m1 iVar0] H1.
  destruct (Cec2_ObjGetCnfVar_inv p0 R Hwf R_closed _ _ _ _ H1 Hc0 Hn0 I) as (Hc1 & Hn1).
  apply bind_no_fuel;
    [apply (Cec2_ObjGetCnfVar_no_fuel p0 R Hwf R_closed); [assumption | assumption | exact I]|].
  intros [m2 iVar1] H2.
  destruct (Cec2_ObjGetCnfVar_inv p0 R Hwf R_closed _ _ _ _ H2 Hc1 Hn1 I) as (Hc2 & Hn2).
  destruct Hc2 as (Ho2 & Hl2 & _).
  apply bind_no_fuel.
  { apply Cec2_ManCollect_rec_no_fuel; [|lia].
    apply (wf_new_same_objs p0); [exact Ho2 | exact Hl2 | exact Hwf]. }
  intros m3 H3.
  pose proof (Cec2_ManCollect_rec_stable _ _ _ _ H3) as ([] & _ & _).
  simpl in st_objs0, st_len0.
  assert (Hwf3 : wf_new (pNew m3)).
  { apply (wf_new_same_objs p0); [congruence | congruence | exact Hwf]. }
  apply bind_no_fuel; [apply Cec2_ManCollect_rec_no_fuel; [exact Hwf3 | lia]|].
  intros m4 _.
  destruct (solve_under _ _ _) as [s status].
  destruct (satoko_status_eqb status SATOKO_UNSAT && (0 <? lo));
    [destruct (solve_under _ _ _) as [s' status']|];
    (apply bind_no_fuel; [apply clean_sat_ids_no_fuel | discriminate]).
Qed.

(** C1. [Cec2_ManSolveTwo] orders the two nodes by index
    and takes their variables [iVar0], [iVar1].  The first query
    assumes the literals [Abc_Var2Lit(iVar0,1)] and
    [Abc_Var2Lit(iVar1,fPhase)], that is [iVar0] false and [iVar1] equal
    to the negated phase; only when that query is UNSAT and the lower
    node is not the constant, the second query assumes [iVar0] true and
    [iVar1] equal to the phase.  The status returned is UNSAT exactly
    when every query made is UNSAT, and [Cec2_ManSweepNode] merges the
    node and marks it proved exactly in that case.  On a well-formed
    rebuilt AIG the call returns or stops at an assertion. *)
Theorem C1_two_polarities :
  (forall (m : Cec2_Man_t) (a b : Z) (ph : bool),
      wf_new (pNew m) -> 0 <= sat_nvars (pSat m) ->
      Cec2_ManSolveTwo m a b ph <> OutOfFuel)
  /\
  (forall (m m' : Cec2_Man_t) (a b : Z) (ph : bool) (st : satoko_status),
      Cec2_ManSolveTwo m a b ph = Ok (m', st) ->
      let lo := Z.min a b in
      let hi := Z.max a b in
      exists m1 m2 iVar0 iVar1 cl,
        Cec2_ObjGetCnfVar (with_const_var m lo) lo = Ok (m1, iVar0)
        /\ Cec2_ObjGetCnfVar m1 hi = Ok (m2, iVar1)
        /\ cl = sat_clauses (pSat m2)
        /\ let q1 := sat_assumps (pSat m) ++ [Abc_Var2Lit iVar0 true; Abc_Var2Lit iVar1 ph] in
           let q2 := sat_assumps (pSat m)
                     ++ [Abc_Var2Lit iVar0 false; Abc_Var2Lit iVar1 (negb ph)] in
           let second := satoko_status_eqb (satoko_answer cl q1) SATOKO_UNSAT && (0 <? lo) in
           map lit_value [Abc_Var2Lit iVar0 true; Abc_Var2Lit iVar1 ph]
             = [(iVar0, false); (iVar1, negb ph)]
           /\ map lit_value [Abc_Var2Lit iVar0 false; Abc_Var2Lit iVar1 (negb ph)]
             = [(iVar0, true); (iVar1, ph)]
           /\ sat_queries (pSat m')
              = sat_queries (pSat m) ++ q1 :: (if second then [q2] else [])
           /\ st = (if second then satoko_answer cl q2 else satoko_answer cl q1)
           /\ (st = SATOKO_UNSAT <->
               satoko_answer cl q1 = SATOKO_UNSAT
               /\ (lo <= 0 \/ satoko_answer cl q2 = SATOKO_UNSAT)))
  /\
  (forall (m m' : Cec2_Man_t) (iObj r : Z),
      Cec2_ManSweepNode m iObj = Ok (m', r) ->
      0 <= iObj < Gia_ManObjNum (pAig m) ->
      0 <= iObj < Vec_Size (Gia_ReprArray (pAig m)) ->
      exists m1 st,
        sweep_query m iObj = Ok (m1, st)
        /\ (st = SATOKO_UNSAT ->
            Gia_ObjProved (pAig m') iObj = true
            /\ Value (Gia_ManObj (pAig m') iObj)
               = Abc_LitNotCond (Value (Gia_ManObj (pAig m) (Gia_ObjRepr (pAig m) iObj)))
                                (sweep_fCompl m iObj))
        /\ (st <> SATOKO_UNSAT ->
            Gia_ObjProved (pAig m') iObj = Gia_ObjProved (pAig m) iObj
            /\ Value (Gia_ManObj (pAig m') iObj) = Value (Gia_ManObj (pAig m) iObj))).
Proof.
  split; [intros m a b ph Hwf Hn; now apply Cec2_ManSolveTwo_no_fuel|].
  split.
  - intros m m' a b ph st H lo hi.
    apply Cec2_ManSolveTwo_inv in H
      as (m1 & m2 & m3 & m4 & iVar0 & iVar1 & pN & H1 & H2 & H3 & H4 & H5 & -> & ->).
    exists m1, m2, iVar0, iVar1, (sat_clauses (pSat m2)).
    split; [exact H1|]. split; [exact H2|]. split; [reflexivity|].
    assert (S0 : cnf_stable m (with_const_var m (Z.min a b))).
    { unfold with_const_var. destruct (_ =? 0); constructor; simpl;
        auto using length_Vec_WriteEntry. }
    pose proof (Cec2_ObjGetCnfVar_stable _ _ _ _ H1) as S1.
    pose proof (Cec2_ObjGetCnfVar_stable _ _ _ _ H2) as S2.
    apply Cec2_ManCollect_rec_stable in H3 as (_ & P3 & _), H4 as (_ & P4 & _).
    assert (P : pSat m4 = pSat m2) by (rewrite P4, P3; reflexivity).
    assert (HA : sat_assumps (pSat m2) = sat_assumps (pSat m)).
    { destruct S0, S1, S2. congruence. }
    assert (HQ : sat_queries (pSat m2) = sat_queries (pSat m)).
    { destruct S0, S1, S2. congruence. }
    pose proof (two_queries_spec (pSat m4) (Z.min a b) iVar0 iVar1 ph) as T.
    simpl in T. rewrite P, HA, HQ in T. destruct T as (Tq & Ts & _).
    intros q1 q2 second. fold lo q1 q2 in Tq, Ts. fold second in Tq, Ts.
    split; [simpl; now rewrite !lit_value_Var2Lit|].
    split; [simpl; now rewrite !lit_value_Var2Lit, negb_involutive|].
    simpl. rewrite P. split; [exact Tq|]. split; [exact Ts|].
    fold lo. rewrite Ts. subst second.
    destruct (satoko_status_eqb _ SATOKO_UNSAT) eqn:E1; simpl.
    + apply satoko_status_eqb_eq in E1. destruct (Z.ltb_spec 0 lo).
      * split; [intros; split; [assumption | now right] | intros [_ [?|?]]; [lia|assumption]].
      * split; [intros; split; [assumption | now left] | intros; assumption].
    + split; [|intros [? _]; assumption].
      intros E. apply satoko_status_eqb_eq in E. congruence.
  - intros m m' iObj r H Hobj Hrep.
    apply Cec2_ManSweepNode_inv in H as (m1 & st & Hq & HA & Hst).
    exists m1, st. split; [assumption|]. split.
    + intros ->. destruct Hst as (_ & ->). unfold merged_aig. split.
      * apply Gia_ObjProved_SetProved. exact Hrep.
      * rewrite Gia_ManObj_SetProved, Gia_ManObj_SetObj_same by exact Hobj. reflexivity.
    + intros Hne. destruct st; [| |congruence].
      * destruct Hst as (_ & -> & _). split; [apply Gia_ObjProved_SetFailed | reflexivity].
      * destruct Hst as (_ & -> & _). unfold disproved_aig.
        pose proof (set_input_bits_frame (pSat m1) (vObjSatPairs m1)
                      (set_iPatsPi (pAig m) (next_pattern (pAig m)))) as (_ & _ & Ho & Hr & _).
        unfold Gia_ObjProved, Gia_ReprArray, Gia_ManObj. rewrite Ho, Hr. split; reflexivity.
Qed.

(** C7. On a well-formed rebuilt AIG a call of [Cec2_ManSolveTwo]
    returns or stops at an assertion, and when it returns, every entry
    of the [satVar] map that the construction of the CNF changed is
    back to -1, and every other entry is as it was; so a map that is
    all -1 before the call is all -1 after it. *)
Theorem C7_sat_ids_cleaned (m : Cec2_Man_t) (a b : Z) (ph : bool) :
  wf_new (pNew m) ->
  0 <= sat_nvars (pSat m) ->
  Cec2_ManSolveTwo m a b ph <> OutOfFuel
  /\ forall (m' : Cec2_Man_t) (st : satoko_status),
       Cec2_ManSolveTwo m a b ph = Ok (m', st) ->
       Gia_ManObjNum (pNew m') = Gia_ManObjNum (pNew m)
       /\ (exists m1 m2 iVar0 iVar1,
             Cec2_ObjGetCnfVar (with_const_var m (Z.min a b)) (Z.min a b) = Ok (m1, iVar0)
             /\ Cec2_ObjGetCnfVar m1 (Z.max a b) = Ok (m2, iVar1)
             /\ forall x, 0 <= x < Gia_ManObjNum (pNew m) ->
                  Cec2_ObjSatId (pNew m2) x <> Cec2_ObjSatId (pNew m) x ->
                  Cec2_ObjSatId (pNew m') x = -1)
       /\ (forall x, 0 <= x < Gia_ManObjNum (pNew m) ->
             Cec2_ObjSatId (pNew m') x = -1
             \/ Cec2_ObjSatId (pNew m') x = Cec2_ObjSatId (pNew m) x)
       /\ ((forall x, 0 <= x < Gia_ManObjNum (pNew m) -> Cec2_ObjSatId (pNew m) x = -1) ->
           forall x, 0 <= x < Gia_ManObjNum (pNew m') -> Cec2_ObjSatId (pNew m') x = -1).
Proof.
  intros Hwf Hn. split; [now apply Cec2_ManSolveTwo_no_fuel|]. intros m' st H.
  pose proof (Cec2_ManSolveTwo_stable _ _ _ _ _ _ H) as (_ & _ & Hobjs).
  apply Cec2_ManSolveTwo_inv in H
    as (m1 & m2 & m3 & m4 & iVar0 & iVar1 & pN & H1 & H2 & H3 & H4 & H5 & -> & _).
  set (lo := Z.min a b) in *. set (hi := Z.max a b) in *.
  set (p0 := pNew m) in *.
  set (R := fun x => reach p0 lo x \/ reach p0 hi x).
  assert (R_closed : forall x, R x -> Gia_ObjIsAnd (Gia_ManObj p0 x) = true ->
            R (Gia_ObjFaninId0 (Gia_ManObj p0 x)) /\ R (Gia_ObjFaninId1 (Gia_ManObj p0 x))).
  { intros x [Hx|Hx] Hand; split; [left|left|right|right];
      first [now apply reach_fanin0 | now apply reach_fanin1]. }
  assert (Rlo : R lo) by (left; constructor).
  assert (Rhi : R hi) by (right; constructor).
  (* the map after the construction of the CNF *)
  assert (Hc0 : copies_inv p0 R (pNew (with_const_var m lo))
                /\ 0 <= sat_nvars (pSat (with_const_var m lo))).
  { assert (Hinit : copies_inv p0 R p0) by (repeat split; auto).
    unfold with_const_var. destruct (Z.eqb_spec lo 0) as [E|E]; simpl; [|auto].
    split; [|lia]. apply copies_inv_set; [assumption | now rewrite <- E | assumption]. }
  destruct Hc0 as (Hc0 & Hn0).
  destruct (Cec2_ObjGetCnfVar_inv p0 R Hwf R_closed _ _ _ _ H1 Hc0 Hn0 Rlo) as (Hc1 & Hn1).
  destruct (Cec2_ObjGetCnfVar_inv p0 R Hwf R_closed _ _ _ _ H2 Hc1 Hn1 Rhi) as (Hc2 & Hn2).
  destruct Hc2 as (Ho2 & Hl2 & Hc2).
  (* the traversal *)
  pose proof (Cec2_ManCollect_rec_stable _ _ _ _ H3) as ([] & _ & Hcop3).
  pose proof (Cec2_ManCollect_rec_stable _ _ _ _ H4) as ([] & _ & Hcop4).
  simpl in st_objs0, st_len0, Hcop3.
  apply Cec2_ManCollect_rec_visits in H3 as (_ & Hlo3 & Hv3 & Hg3).
  apply Cec2_ManCollect_rec_visits in H4 as (Ht4 & Hhi4 & Hv4 & Hg4).
  assert (Hobj4 : pObjs (pNew m4) = pObjs p0) by congruence.
  assert (Hcop : vCopies (pNew m4) = vCopies (pNew m2)) by congruence.
  assert (Hall : forall y, y ∈ travIds (pNew m4) -> collected m4 y).
  { intros y Hy. destruct (Hg4 y Hy) as [Hy3|Hgood]; [|assumption].
    destruct (Hg3 y Hy3) as [Hy0|Hgood].
    - simpl in Hy0. now apply not_elem_of_empty in Hy0.
    - eapply collected_mono; [| | | |exact Hgood]; auto. }
  assert (Hwf4 : wf_new (pNew m4)).
  { apply (wf_new_same_objs p0); [assumption | congruence | assumption]. }
  assert (Hcov : forall x, R x -> 0 <= Cec2_ObjSatId (pNew m2) x -> In x (vNodesNew m4)).
  { intros x HR Hs.
    assert (Hx : x ∈ travIds (pNew m4)).
    { destruct HR as [HR|HR].
      - apply (reach_visited m4 lo); [assumption | assumption | now apply Ht4 |].
        now apply (reach_same_objs p0).
      - apply (reach_visited m4 hi); [assumption | assumption | assumption |].
        now apply (reach_same_objs p0). }
    destruct (Hall x Hx) as (Hpush & _). apply Hpush.
    unfold Cec2_ObjSatId, Gia_ObjCopyArray in *. now rewrite Hcop. }
  (* the cleaning *)
  pose proof (clean_sat_ids_spec _ _ _ H5) as Hclean.
  assert (Hsize : Vec_Size (vCopies (pNew m4)) = Gia_ManObjNum p0).
  { destruct Hwf as (Hlen & _). unfold Vec_Size, Gia_ManObjNum.
    rewrite Hcop, Hl2. unfold Vec_Size. f_equal. exact Hlen. }
  assert (Hfinal : forall x, 0 <= x < Gia_ManObjNum p0 ->
            (Cec2_ObjSatId (pNew m2) x <> Cec2_ObjSatId p0 x -> Cec2_ObjSatId pN x = -1)
            /\ (Cec2_ObjSatId pN x = -1 \/ Cec2_ObjSatId pN x = Cec2_ObjSatId p0 x)).
  { intros x Hx. destruct (Hclean x ltac:(lia)) as (Hin & Hout).
    assert (E42 : Cec2_ObjSatId (pNew m4) x = Cec2_ObjSatId (pNew m2) x)
      by (unfold Cec2_ObjSatId, Gia_ObjCopyArray; now rewrite Hcop).
    destruct (In_dec Z.eq_dec x (vNodesNew m4)) as [Hv|Hv].
    - rewrite (Hin Hv). auto.
    - rewrite (Hout Hv), E42. destruct (Hc2 x Hx) as [E|(Hs & HR)].
      + split; [congruence | now right].
      + exfalso. apply Hv. now apply Hcov. }
  simpl. split; [unfold Gia_ManObjNum; simpl in Hobjs; now rewrite Hobjs|].
  split; [|split].
  - exists m1, m2, iVar0, iVar1. split; [exact H1|]. split; [exact H2|].
    intros x Hx. apply Hfinal, Hx.
  - intros x Hx. apply Hfinal, Hx.
  - intros Hpre x Hx.
    assert (Hx0 : 0 <= x < Gia_ManObjNum p0).
    { unfold Gia_ManObjNum in *. simpl in Hobjs. now rewrite <- Hobjs. }
    destruct (Hfinal x Hx0) as (_ & [E|E]); [assumption|]. rewrite E. now apply Hpre.
Qed.

(** * Further properties of the code *)

Lemma bind_Ok {A B : Type} (a : A) (k : A -> res B) : Ok a ≫= k = k a.
Proof. reflexivity. Qed.

(** ** What the clauses say *)

Lemma lit_true_Var2Lit (sigma : Z -> bool) (v : Z) (c : bool) :
  lit_true sigma (Abc_Var2Lit v c) = xorb (sigma v) c.
Proof.
  unfold lit_true. rewrite lit_value_Var2Lit. simpl.
  destruct (sigma v), c; reflexivity.
Qed.

Lemma cnf_true_app (sigma : Z -> bool) (cs1 cs2 : list (list Z)) :
  cnf_true sigma (cs1 ++ cs2) = cnf_true sigma cs1 && cnf_true sigma cs2.
Proof. apply forallb_app. Qed.

Lemma super_binary_clauses_content (p : Gia_Man_t) (pNode : Z) (vSuper : list Gia_Ptr) :
  forall s s', super_binary_clauses false p pNode vSuper s = Ok s' ->
    sat_clauses s' = sat_clauses s
      ++ map (fun q => [Abc_Var2Lit (Cec2_ObjSatId p (Gia_Regular q)) (Gia_IsComplement q);
                        Abc_Var2Lit (Cec2_ObjSatId p pNode) true]) vSuper.
Proof.
  induction vSuper as [|q rest IH]; intros s s' H; simpl in H.
  - inv_Ok H. now rewrite app_nil_r.
  - inv_bind H as s1 Hs1. apply add_clause_checked_Ok in Hs1 as (Hc & _).
    apply IH in H. rewrite H, Hc, <- app_assoc. reflexivity.
Qed.

Lemma binary_clauses_true (p : Gia_Man_t) (sigma : Z -> bool) (pNode : Z)
    (vSuper : list Gia_Ptr) :
  cnf_true sigma
    (map (fun q => [Abc_Var2Lit (Cec2_ObjSatId p (Gia_Regular q)) (Gia_IsComplement q);
                    Abc_Var2Lit (Cec2_ObjSatId p pNode) true]) vSuper)
  = negb (node_value p sigma pNode) || forallb (ptr_value (node_value p sigma)) vSuper.
Proof.
  induction vSuper as [|q rest IH].
  - simpl. now rewrite orb_true_r.
  - change (cnf_true sigma (map ?f (q :: rest)))
      with (clause_true sigma (f q) && cnf_true sigma (map f rest)).
    rewrite IH. unfold clause_true. cbn [existsb forallb].
    rewrite !lit_true_Var2Lit.
    set (A := forallb (ptr_value (node_value p sigma)) rest).
    unfold ptr_value, node_value.
    destruct (sigma (Cec2_ObjSatId p pNode)), (sigma (Cec2_ObjSatId p (Gia_Regular q))),
      (Gia_IsComplement q), A; reflexivity.
Qed.

Lemma big_clause_true (p : Gia_Man_t) (sigma : Z -> bool) (pNode : Z)
    (vSuper : list Gia_Ptr) :
  clause_true sigma
    (map (fun q => Abc_Var2Lit (Cec2_ObjSatId p (Gia_Regular q))
                               (negb (Gia_IsComplement q))) vSuper
     ++ [Abc_Var2Lit (Cec2_ObjSatId p pNode) false])
  = node_value p sigma pNode || negb (forallb (ptr_value (node_value p sigma)) vSuper).
Proof.
  unfold clause_true. rewrite existsb_app. cbn [existsb]. rewrite lit_true_Var2Lit.
  induction vSuper as [|q rest IH].
  - simpl. unfold node_value. destruct (sigma _); reflexivity.
  - cbn [map existsb forallb]. rewrite lit_true_Var2Lit.
    set (A := forallb (ptr_value (node_value p sigma)) rest) in *.
    set (B := existsb (lit_true sigma) _) in *.
    unfold ptr_value, node_value in *.
    destruct (sigma (Cec2_ObjSatId p (Gia_Regular q))), (Gia_IsComplement q);
      cbn [xorb negb orb andb]; try exact IH;
      destruct (sigma (Cec2_ObjSatId p pNode)); reflexivity.
Qed.

(** X1. The clauses that [Cec2_AddClausesSuper] adds for a node and its
    super-gate hold under an assignment exactly when the variable of
    the node is the conjunction of the literals of the leaves. *)
Theorem X1_super_clauses_encode_and
    (p : Gia_Man_t) (pNode : Z) (vSuper : list Gia_Ptr) (s s' : satoko_t) :
  Cec2_AddClausesSuper p pNode vSuper s = Ok s' ->
  exists cs,
    sat_clauses s' = sat_clauses s ++ cs
    /\ forall sigma : Z -> bool,
         cnf_true sigma cs
         = Bool.eqb (node_value p sigma pNode)
                    (forallb (ptr_value (node_value p sigma)) vSuper).
Proof.
  intros H. unfold Cec2_AddClausesSuper in H.
  inv_bind H as u Hu. inv_bind H as s1 Hs1.
  apply super_binary_clauses_content in Hs1.
  apply add_clause_checked_Ok in H as (Hc & _).
  eexists. split.
  - rewrite Hc, Hs1, <- app_assoc. reflexivity.
  - intros sigma. rewrite cnf_true_app, binary_clauses_true.
    change (cnf_true sigma [?c]) with (clause_true sigma c && true).
    unfold polar_flip. rewrite big_clause_true.
    destruct (node_value p sigma pNode), (forallb _ vSuper); reflexivity.
Qed.

(** X2. The clauses that [Cec2_AddClausesMux] adds for a node
    recognized as a MUX hold under an assignment exactly when the
    variable of the node is the then-literal if the variable of the
    control is true, and the else-literal otherwise. *)
Theorem X2_mux_clauses_encode_ite (p : Gia_Man_t) (pNode : Z) (s s' : satoko_t) :
  Cec2_AddClausesMux p pNode s = Ok s' ->
  let '(pNodeI, pNodeT, pNodeE) := Gia_ObjRecognizeMux p pNode in
  exists cs,
    sat_clauses s' = sat_clauses s ++ cs
    /\ forall sigma : Z -> bool,
         cnf_true sigma cs
         = Bool.eqb (node_value p sigma pNode)
                    (if node_value p sigma pNodeI
                     then ptr_value (node_value p sigma) pNodeT
                     else ptr_value (node_value p sigma) pNodeE).
Proof.
  intros H. unfold Cec2_AddClausesMux in H.
  inv_bind H as u Hu. destruct (Gia_ObjRecognizeMux p pNode) as [[pNodeI pNodeT] pNodeE].
  inv_bind H as s1 Hc. apply add_clause_checked_Ok in Hc as (Hc & _).
  inv_bind H as s2 Hc0. apply add_clause_checked_Ok in Hc0 as (Hc0 & _).
  inv_bind H as s3 Hc1. apply add_clause_checked_Ok in Hc1 as (Hc1 & _).
  inv_bind H as s4 Hc2. apply add_clause_checked_Ok in Hc2 as (Hc2 & _).
  destruct (Z.eqb_spec (Cec2_ObjSatId p (Gia_Regular pNodeT))
                       (Cec2_ObjSatId p (Gia_Regular pNodeE))) as [E|E].
  - inv_Ok H. eexists [_; _; _; _].
    rewrite Hc2, Hc1, Hc0, Hc, <- !app_assoc. split; [reflexivity|].
    intros sigma. unfold cnf_true, clause_true, polar_flip, ptr_value, node_value.
    cbn [forallb existsb]. rewrite !lit_true_Var2Lit. rewrite E.
    destruct (sigma (Cec2_ObjSatId p pNode)), (sigma (Cec2_ObjSatId p pNodeI)),
      (sigma (Cec2_ObjSatId p (Gia_Regular pNodeE))),
      (Gia_IsComplement pNodeT), (Gia_IsComplement pNodeE); reflexivity.
  - inv_bind H as s5 Hc3. apply add_clause_checked_Ok in Hc3 as (Hc3 & _).
    apply add_clause_checked_Ok in H as (Hc4 & _).
    eexists [_; _; _; _; _; _].
    rewrite Hc4, Hc3, Hc2, Hc1, Hc0, Hc, <- !app_assoc. split; [reflexivity|].
    intros sigma. unfold cnf_true, clause_true, polar_flip, ptr_value, node_value.
    cbn [forallb existsb]. rewrite !lit_true_Var2Lit.
    destruct (sigma (Cec2_ObjSatId p pNode)), (sigma (Cec2_ObjSatId p pNodeI)),
      (sigma (Cec2_ObjSatId p (Gia_Regular pNodeT))),
      (sigma (Cec2_ObjSatId p (Gia_Regular pNodeE))),
      (Gia_IsComplement pNodeT), (Gia_IsComplement pNodeE); reflexivity.
Qed.

(** ** The leaves of a super-gate *)

Lemma Gia_PtrEqb_eq (a b : Gia_Ptr) : Gia_PtrEqb a b = true <-> a = b.
Proof.
  unfold Gia_PtrEqb. destruct a as [a1 a2], b as [b1 b2]. simpl.
  rewrite andb_true_iff, Z.eqb_eq, Bool.eqb_true_iff. split.
  - intros [-> ->]. reflexivity.
  - intros E. injection E as -> ->. auto.
Qed.

Lemma existsb_PtrEqb (q : Gia_Ptr) (v : list Gia_Ptr) :
  existsb (Gia_PtrEqb q) v = true <-> q ∈ v.
Proof.
  rewrite existsb_exists. split.
  - intros (x & Hx & E). apply Gia_PtrEqb_eq in E as ->. now apply list_elem_of_In.
  - intros H. exists q. split; [now apply list_elem_of_In | now apply Gia_PtrEqb_eq].
Qed.

Lemma Vec_PushUnique_value (val : Z -> bool) (v : list Gia_Ptr) (q : Gia_Ptr) :
  forallb (ptr_value val) (Vec_PushUnique Gia_PtrEqb v q)
  = forallb (ptr_value val) v && ptr_value val q.
Proof.
  unfold Vec_PushUnique. destruct (existsb (Gia_PtrEqb q) v) eqn:E.
  - apply existsb_PtrEqb, list_elem_of_In in E.
    destruct (forallb (ptr_value val) v) eqn:F; [|reflexivity].
    rewrite forallb_forall in F. now rewrite (F q E).
  - rewrite forallb_app. simpl. now rewrite andb_true_r.
Qed.

Lemma Vec_PushUnique_NoDup (v : list Gia_Ptr) (q : Gia_Ptr) :
  NoDup v -> NoDup (Vec_PushUnique Gia_PtrEqb v q).
Proof.
  intros H. unfold Vec_PushUnique. destruct (existsb (Gia_PtrEqb q) v) eqn:E; [assumption|].
  apply NoDup_app. split; [assumption|]. split; [|apply NoDup_singleton].
  intros x Hx Hq. apply list_elem_of_singleton in Hq as ->.
  apply existsb_PtrEqb in Hx. congruence.
Qed.

Lemma Cec2_CollectSuper_rec_sound (p : Gia_Man_t) (fUseMuxes : bool) (val : Z -> bool) :
  wf_new p -> and_consistent p val ->
  forall (fuel : nat) (q : Gia_Ptr) (vSuper v' : list Gia_Ptr) (fFirst : bool),
    Cec2_CollectSuper_rec fuel p q vSuper fFirst fUseMuxes = Ok v' ->
    0 < Gia_Regular q < Gia_ManObjNum p ->
    forallb (ptr_value val) v' = forallb (ptr_value val) vSuper && ptr_value val q.
Proof.
  intros Hwf Hval. induction fuel as [|fuel IH]; intros q vSuper v' fFirst H Hq;
    [discriminate|].
  simpl in H. destruct (_ || _) eqn:Estop.
  - inv_Ok H. apply Vec_PushUnique_value.
  - apply orb_false_iff in Estop as (Estop & _). apply orb_false_iff in Estop as (Estop & _).
    apply orb_false_iff in Estop as (Ecompl & Eci).
    assert (Hand : Gia_ObjIsAnd (Gia_ManObj p (Gia_Regular q)) = true).
    { destruct Hwf as (_ & Hwf). destruct (Hwf (Gia_Regular q) ltac:(lia)) as (Hk & _).
      destruct (Hk ltac:(lia)); congruence. }
    destruct Hwf as (Hlen & Hwf').
    destruct (Hwf' (Gia_Regular q) ltac:(lia)) as (_ & Hfan & _).
    destruct (Hfan Hand) as (Hf0 & Hf1).
    inv_bind H as v1 H1.
    apply IH in H1; [|simpl; lia]. apply IH in H; [|simpl; lia].
    rewrite H, H1, <- andb_assoc. f_equal.
    unfold ptr_value at 3. rewrite Ecompl, xorb_false_r. symmetry. now apply Hval.
Qed.

Lemma Cec2_CollectSuper_rec_NoDup (p : Gia_Man_t) (fUseMuxes : bool) :
  forall (fuel : nat) (q : Gia_Ptr) (vSuper v' : list Gia_Ptr) (fFirst : bool),
    Cec2_CollectSuper_rec fuel p q vSuper fFirst fUseMuxes = Ok v' ->
    NoDup vSuper -> NoDup v'.
Proof.
  induction fuel as [|fuel IH]; intros q vSuper v' fFirst H Hnd; [discriminate|].
  simpl in H. destruct (_ || _).
  - inv_Ok H. now apply Vec_PushUnique_NoDup.
  - inv_bind H as v1 H1. apply IH in H1; [|assumption]. now apply IH in H.
Qed.

(** X3. On a well-formed AIG [Cec2_CollectSuper] returns for an AND
    node a list of distinct leaves, and under every valuation that
    gives each AND node the conjunction of its fanins, the conjunction
    of the leaves is the value of the node. *)
Theorem X3_super_gate_leaves (p : Gia_Man_t) (pObj : Z) (fUseMuxes : bool) :
  wf_new p ->
  Gia_ObjIsAnd (Gia_ManObj p pObj) = true ->
  exists vSuper,
    Cec2_CollectSuper p pObj fUseMuxes = Ok vSuper
    /\ NoDup vSuper
    /\ forall val : Z -> bool,
         and_consistent p val -> forallb (ptr_value val) vSuper = val pObj.
Proof.
  intros Hwf Hand. unfold Cec2_CollectSuper.
  assert (Hci : Gia_ObjIsCi (Gia_ManObj p pObj) = false).
  { unfold Gia_ObjIsAnd, Gia_ObjIsCi in *. destruct (oKind _); congruence. }
  rewrite Hci. cbn [negb]. rewrite assert_true. simpl.
  pose proof (Gia_ObjIsAnd_in_range _ _ Hand) as Hr.
  assert (Hpos : 0 < pObj).
  { destruct Hwf as (_ & Hwf). destruct (Hwf pObj Hr) as (_ & Hfan & _).
    destruct (Hfan Hand). lia. }
  destruct (Cec2_CollectSuper_rec_total p Hwf p fUseMuxes eq_refl (S (Z.to_nat pObj))
              (pObj, false) [] true) as (v & Hv); [simpl; lia | simpl; lia|].
  exists v. split; [exact Hv|]. split.
  - eapply Cec2_CollectSuper_rec_NoDup; [exact Hv | constructor].
  - intros val Hval.
    rewrite (Cec2_CollectSuper_rec_sound p fUseMuxes val Hwf Hval _ _ _ _ _ Hv)
      by (simpl; lia).
    simpl. unfold ptr_value. simpl. now rewrite xorb_false_r.
Qed.

(** ** The value of a node under the model of the solver *)

Lemma same_graph_refl (p : Gia_Man_t) : same_graph p p.
Proof. unfold same_graph. auto. Qed.

Lemma same_graph_fields (p p' : Gia_Man_t) (i : Z) :
  same_graph p p' ->
  oKind (Gia_ManObj p' i) = oKind (Gia_ManObj p i)
  /\ oLit0 (Gia_ManObj p' i) = oLit0 (Gia_ManObj p i)
  /\ oLit1 (Gia_ManObj p' i) = oLit1 (Gia_ManObj p i).
Proof.
  intros (_ & _ & H). specialize (H i).
  split; [exact (f_equal oKind H)|].
  split; [exact (f_equal oLit0 H) | exact (f_equal oLit1 H)].
Qed.

Lemma Gia_ManObj_SetObj (p : Gia_Man_t) (i x : Z) (o : Gia_Obj_t) :
  Gia_ManObj (Gia_ManSetObj p i o) x
  = if (i =? x) && (0 <=? i) && (i <? Gia_ManObjNum p) then o else Gia_ManObj p x.
Proof. unfold Gia_ManObj, Gia_ManSetObj, Gia_ManObjNum. simpl. apply Vec_Entry_write. Qed.

Lemma same_graph_set_mark (p0 p : Gia_Man_t) (i : Z) (v : bool) :
  same_graph p0 p ->
  same_graph p0 (Gia_ManSetObj p i (obj_set_fMark1 (Gia_ManObj p i) v)).
Proof.
  intros (Hl & Hc & Ho). split; [|split].
  - unfold Gia_ManSetObj. simpl. now rewrite length_Vec_WriteEntry.
  - exact Hc.
  - intros x. rewrite Gia_ManObj_SetObj. destruct (_ && _) eqn:E; [|apply Ho].
    apply andb_true_iff in E as [E _]. apply andb_true_iff in E as [->%Z.eqb_eq _].
    rewrite <- Ho. reflexivity.
Qed.

Lemma Cec2_ManVerify_rec_spec (p0 : Gia_Man_t) (s : satoko_t) (val : Z -> bool) :
  wf_new p0 -> model_valuation p0 s val ->
  forall (fuel : nat) (p : Gia_Man_t) (i : Z),
    (Z.to_nat i < fuel)%nat -> 0 <= i < Gia_ManObjNum p0 ->
    same_graph p0 p ->
    (forall x, x ∈ travIds p -> x <= i -> fMark1 (Gia_ManObj p x) = val x) ->
    exists p',
      Cec2_ManVerify_rec fuel p i s = Ok (p', val i)
      /\ same_graph p0 p'
      /\ (forall x, x ∈ travIds p' -> x <= i -> fMark1 (Gia_ManObj p' x) = val x)
      /\ (forall x, i < x ->
            Gia_ManObj p' x = Gia_ManObj p x /\ (x ∈ travIds p' <-> x ∈ travIds p)).
Proof.
  clear Gia_ObjRecognizeMux Gia_ObjIsMuxType Gia_ManHashAnd Abc_PrimeCudd Gia_ManRandomW.
  intros Hwf (Hv0 & Hvci & Hvand).
  induction fuel as [|fuel IH]; intros p i Hfuel Hi Hsame Hinv; [lia|].
  simpl. destruct (Z.eqb_spec i 0) as [->|Hnz].
  { exists p. rewrite Hv0. split; [reflexivity|]. split; [assumption|]. split; [assumption|].
    intros x _. split; [reflexivity | tauto]. }
  unfold Gia_ObjIsTravIdCurrentId.
  destruct (decide (i ∈ travIds p)) as [Hin|Hnin].
  { rewrite bool_decide_eq_true_2 by assumption. exists p.
    rewrite (Hinv i Hin ltac:(lia)). split; [reflexivity|]. split; [assumption|].
    split; [assumption|]. intros x _. split; [reflexivity | tauto]. }
  rewrite bool_decide_eq_false_2 by assumption.
  set (p1 := Gia_ObjSetTravIdCurrentId p i).
  assert (Hobj1 : forall x, Gia_ManObj p1 x = Gia_ManObj p x) by reflexivity.
  assert (Hsame1 : same_graph p0 p1) by exact Hsame.
  assert (Htrav1 : forall x, x ∈ travIds p1 <-> x = i \/ x ∈ travIds p).
  { intros x. subst p1. unfold Gia_ObjSetTravIdCurrentId. simpl.
    rewrite elem_of_union, elem_of_singleton. tauto. }
  destruct (same_graph_fields p0 p1 i Hsame1) as (Hk1 & Hl01 & Hl11).
  destruct Hwf as (Hlen & Hwf'). destruct (Hwf' i Hi) as (Hkind & Hfan & _).
  assert (Hnum1 : Gia_ManObjNum p1 = Gia_ManObjNum p0).
  { unfold Gia_ManObjNum, Vec_Size. destruct Hsame1 as (-> & _). reflexivity. }
  destruct (Gia_ObjIsCi (Gia_ManObj p1 i)) eqn:Eci.
  - (* a CI takes the polarity of its variable *)
    assert (Eci0 : Gia_ObjIsCi (Gia_ManObj p0 i) = true).
    { unfold Gia_ObjIsCi in Eci |- *. now rewrite <- Hk1. }
    assert (Hval : var_polarity_true s (Cec2_ObjSatId p1 i) = val i).
    { rewrite (Hvci i Eci0). unfold Cec2_ObjSatId, Gia_ObjCopyArray.
      destruct Hsame1 as (_ & -> & _). reflexivity. }
    rewrite Hval. eexists. split; [reflexivity|].
    split; [now apply same_graph_set_mark|]. split.
    + intros x Hx Hxi. rewrite Gia_ManObj_SetObj.
      destruct ((i =? x) && (0 <=? i) && (i <? Gia_ManObjNum p1)) eqn:E.
      * apply andb_true_iff in E as [E _]. apply andb_true_iff in E as [->%Z.eqb_eq _].
        reflexivity.
      * apply Htrav1 in Hx as [->|Hx].
        -- rewrite Z.eqb_refl, Hnum1 in E. simpl in E.
           apply andb_false_iff in E as [E|E]; [apply Z.leb_gt in E | apply Z.ltb_ge in E]; lia.
        -- rewrite Hobj1. now apply Hinv.
    + intros x Hx. rewrite Gia_ManObj_SetObj.
      destruct (Z.eqb_spec i x) as [->|Hne]; [lia|]. simpl. rewrite Hobj1.
      split; [reflexivity|]. change (x ∈ travIds p1 <-> x ∈ travIds p).
      rewrite Htrav1. split; [intros [->|]; [lia | assumption] | auto].
  - (* an AND is the conjunction of its fanins *)
    assert (Hand0 : Gia_ObjIsAnd (Gia_ManObj p0 i) = true).
    { destruct (Hkind ltac:(lia)) as [E|E]; [|exact E].
      unfold Gia_ObjIsCi in E, Eci. rewrite Hk1 in Eci. congruence. }
    assert (Hand1 : Gia_ObjIsAnd (Gia_ManObj p1 i) = true).
    { unfold Gia_ObjIsAnd in Hand0 |- *. now rewrite Hk1. }
    rewrite Hand1, assert_true. simpl.
    destruct (Hfan Hand0) as (Hf0 & Hf1).
    set (f0 := Gia_ObjFaninId0 (Gia_ManObj p0 i)) in Hf0, Hf1 |- *.
    set (f1 := Gia_ObjFaninId1 (Gia_ManObj p0 i)) in Hf0, Hf1 |- *.
    assert (E0 : Gia_ObjFaninId0 (Gia_ManObj p1 i) = f0)
      by (unfold Gia_ObjFaninId0, f0; now rewrite Hl01).
    rewrite E0.
    destruct (IH p1 f0 ltac:(lia) ltac:(lia) Hsame1) as (p2 & Hr2 & Hsame2 & Hinv2 & Hfr2).
    { intros x Hx Hxf. rewrite Hobj1. apply Htrav1 in Hx as [->|Hx]; [lia|].
      apply Hinv; [assumption | lia]. }
    rewrite Hr2. simpl.
    destruct (same_graph_fields p0 p2 i Hsame2) as (Hk2 & Hl02 & Hl12).
    assert (E1 : Gia_ObjFaninId1 (Gia_ManObj p2 i) = f1)
      by (unfold Gia_ObjFaninId1, f1; now rewrite Hl12).
    rewrite E1.
    destruct (IH p2 f1 ltac:(lia) ltac:(lia) Hsame2) as (p3 & Hr3 & Hsame3 & Hinv3 & Hfr3).
    { intros x Hx Hxf. destruct (Z.le_gt_cases x f0) as [Hle|Hgt]; [now apply Hinv2|].
      destruct (Hfr2 x Hgt) as (-> & Ht). apply Ht in Hx. rewrite Hobj1.
      apply Htrav1 in Hx as [->|Hx]; [lia|]. apply Hinv; [assumption | lia]. }
    rewrite Hr3. simpl.
    destruct (same_graph_fields p0 p3 i Hsame3) as (Hk3 & Hl03 & Hl13).
    assert (Hval : xorb (val f0) (Gia_ObjFaninC0 (Gia_ManObj p2 i))
                   && xorb (val f1) (Gia_ObjFaninC1 (Gia_ManObj p3 i)) = val i).
    { rewrite (Hvand i Hand0). unfold ptr_value, Gia_ObjChild0, Gia_ObjChild1,
        Gia_ObjFaninC0, Gia_ObjFaninC1. simpl. now rewrite Hl02, Hl13. }
    rewrite Hval. eexists. split; [reflexivity|].
    split; [now apply same_graph_set_mark|].
    assert (Hnum3 : Gia_ManObjNum p3 = Gia_ManObjNum p0).
    { unfold Gia_ManObjNum, Vec_Size. destruct Hsame3 as (-> & _). reflexivity. }
    assert (Hold : forall x, x ∈ travIds p3 -> x < i -> fMark1 (Gia_ManObj p3 x) = val x).
    { intros x Hx Hxi. destruct (Z.le_gt_cases x f1) as [Hle|Hgt]; [now apply Hinv3|].
      destruct (Hfr3 x Hgt) as (-> & Ht). apply Ht in Hx.
      destruct (Z.le_gt_cases x f0) as [Hle0|Hgt0]; [now apply Hinv2|].
      destruct (Hfr2 x Hgt0) as (-> & Ht0). apply Ht0 in Hx. rewrite Hobj1.
      apply Htrav1 in Hx as [->|Hx]; [lia|]. apply Hinv; [assumption | lia]. }
    split.
    + intros x Hx Hxi. rewrite Gia_ManObj_SetObj.
      destruct ((i =? x) && (0 <=? i) && (i <? Gia_ManObjNum p3)) eqn:E.
      * apply andb_true_iff in E as [E _]. apply andb_true_iff in E as [->%Z.eqb_eq _].
        reflexivity.
      * destruct (Z.eq_dec x i) as [->|Hne].
        -- rewrite Z.eqb_refl, Hnum3 in E. simpl in E.
           apply andb_false_iff in E as [E|E]; [apply Z.leb_gt in E | apply Z.ltb_ge in E]; lia.
        -- apply Hold; [assumption | lia].
    + intros x Hx. rewrite Gia_ManObj_SetObj.
      destruct (Z.eqb_spec i x) as [->|Hne]; [lia|]. simpl.
      destruct (Hfr3 x ltac:(lia)) as (-> & Ht3). destruct (Hfr2 x ltac:(lia)) as (-> & Ht2).
      rewrite Hobj1. split; [reflexivity|]. change (x ∈ travIds p3 <-> x ∈ travIds p).
      rewrite Ht3, Ht2, Htrav1.
      split; [intros [->|]; [lia | assumption] | auto].
Qed.

(** X4. On a well-formed AIG [Cec2_ManVerify] returns, changes nothing
    but the flags [fMark1] and the traversal marks, and reports a
    failure exactly when the values of the two nodes under the model of
    the solver differ by the phase given. *)
Theorem X4_verify_evaluates_model
    (p : Gia_Man_t) (iObj0 iObj1 : Z) (fPhase0 : bool) (s : satoko_t) (val : Z -> bool) :
  wf_new p ->
  model_valuation p s val ->
  0 <= iObj0 < Gia_ManObjNum p ->
  0 <= iObj1 < Gia_ManObjNum p ->
  exists p',
    Cec2_ManVerify p iObj0 iObj1 fPhase0 s
    = Ok (p', Bool.eqb (xorb (val iObj0) (val iObj1)) fPhase0)
    /\ same_graph p p'.
Proof.
  intros Hwf Hval H0 H1. unfold Cec2_ManVerify.
  destruct (Cec2_ManVerify_rec_spec p s val Hwf Hval (S (Z.to_nat iObj0))
              (Gia_ManIncrementTravId p) iObj0 ltac:(lia) H0 (same_graph_refl p))
    as (p1 & Hr1 & Hs1 & Hinv1 & Hfr1).
  { intros x Hx. simpl in Hx. now apply not_elem_of_empty in Hx. }
  rewrite Hr1, bind_Ok.
  destruct (Cec2_ManVerify_rec_spec p s val Hwf Hval (S (Z.to_nat iObj1)) p1 iObj1
              ltac:(lia) H1 Hs1) as (p2 & Hr2 & Hs2 & _).
  { intros x Hx Hxi. destruct (Z.le_gt_cases x iObj0) as [Hle|Hgt]; [now apply Hinv1|].
    destruct (Hfr1 x Hgt) as (_ & Ht). apply Ht in Hx. simpl in Hx.
    now apply not_elem_of_empty in Hx. }
  rewrite Hr2, bind_Ok. exists p2. split; [reflexivity | exact Hs2].
Qed.

(** ** Simulation of the nodes *)

(** A loop that writes the words [d + w0 .. d + w0 + n) from a
    function of the store that does not read the region written. *)
Lemma for_range_write_words (g : list Z -> Z -> Z) (d lo hi : Z) :
  (forall mem mem' w,
      (forall a, ~ (lo <= a < hi) -> Vec_WrdEntry mem' a = Vec_WrdEntry mem a) ->
      g mem' w = g mem w) ->
  forall (n : nat) (w0 : Z) (p : Gia_Man_t),
    0 <= lo -> lo <= d + w0 -> d + w0 + Z.of_nat n <= hi -> hi <= Vec_Size (vSims p) ->
    let p' := for_range n w0 (fun p w => sim_write p d w (g (vSims p) w)) p in
    (forall w, w0 <= w < w0 + Z.of_nat n -> Vec_WrdEntry (vSims p') (d + w) = g (vSims p) w)
    /\ (forall a, ~ (d + w0 <= a < d + w0 + Z.of_nat n) ->
          Vec_WrdEntry (vSims p') a = Vec_WrdEntry (vSims p) a)
    /\ length (vSims p') = length (vSims p)
    /\ p' = set_vSims p (vSims p').
Proof.
  intros Hg. induction n as [|n IH]; intros w0 p Hlo Hd Hhi Hsz p'.
  - subst p'. simpl. split; [intros; lia|]. split; [auto|]. split; [reflexivity|].
    destruct p; reflexivity.
  - set (p1 := sim_write p d w0 (g (vSims p) w0)).
    assert (Hlen1 : length (vSims p1) = length (vSims p))
      by (subst p1; unfold sim_write; simpl; apply length_Vec_WriteEntry).
    assert (Hsz1 : hi <= Vec_Size (vSims p1)) by (unfold Vec_Size in *; rewrite Hlen1; lia).
    destruct (IH (w0 + 1) p1 Hlo ltac:(lia) ltac:(lia) Hsz1) as (IH1 & IH2 & IH3 & IH4).
    fold p' in IH1, IH2, IH3, IH4.
    change (for_range (S n) w0 ?f p) with (for_range n (w0 + 1) f p1) in p'.
    assert (Hout : forall a, a <> d + w0 -> Vec_WrdEntry (vSims p1) a = Vec_WrdEntry (vSims p) a).
    { intros a Ha. subst p1. unfold sim_write, Vec_WrdEntry. simpl.
      apply Vec_Entry_write_other. lia. }
    assert (Hg1 : forall w, g (vSims p1) w = g (vSims p) w).
    { intros w. apply Hg. intros a Ha. apply Hout. lia. }
    split; [|split; [|split]].
    + intros w Hw. destruct (Z.eq_dec w w0) as [->|Hne].
      * rewrite IH2 by lia. subst p1. unfold sim_write, Vec_WrdEntry. simpl.
        apply Vec_Entry_write_same. lia.
      * rewrite IH1 by lia. apply Hg1.
    + intros a Ha. rewrite IH2 by lia. apply Hout. lia.
    + transitivity (length (vSims p1)); [exact IH3 | exact Hlen1].
    + transitivity (set_vSims p1 (vSims p')); [exact IH4 | reflexivity].
Qed.

Lemma sim_region_disjoint (W i j w : Z) :
  0 < W -> 0 <= i -> 0 <= j -> i <> j -> 0 <= w < W ->
  ~ (W * i <= W * j + w < W * i + W).
Proof. intros HW Hi Hj Hne Hw. nia. Qed.

Lemma sim_and_bit (x y : Z) (c0 c1 : bool) (k : Z) :
  0 <= k < 64 ->
  Z.testbit (word_and (if c0 then word_not x else x) (if c1 then word_not y else y)) k
  = xorb (Z.testbit x k) c0 && xorb (Z.testbit y k) c1.
Proof.
  intros Hk. unfold word_and. rewrite Z.land_spec.
  assert (E : (k <? 64) = true) by (apply Z.ltb_lt; lia).
  destruct c0, c1; rewrite ?word_not_bit, ?E by lia; simpl;
    rewrite ?xorb_true_r, ?xorb_false_r; reflexivity.
Qed.

Lemma pattern_word (W b : Z) :
  0 <= b < 64 * W -> 0 <= b / 64 < W /\ 0 <= b mod 64 < 64.
Proof.
  intros Hb. split; [|apply Z.mod_pos_bound; lia].
  split; [apply Z.div_pos; lia | apply Z.div_lt_upper_bound; lia].
Qed.

(** The loops of [Cec2_ObjSimAnd], [Cec2_ObjSimCo] and [Cec2_ObjSimRo]:
    word [w] of node [i] becomes a function [h] of the words [w] of two
    other nodes. *)
Lemma sim_loop_words (h : Z -> Z -> Z) (p : Gia_Man_t) (i f0 f1 : Z) :
  0 < nSimWords p -> 0 <= i -> nSimWords p * (i + 1) <= Vec_Size (vSims p) ->
  0 <= f0 -> f0 <> i -> 0 <= f1 -> f1 <> i ->
  let W := nSimWords p in
  let p' := for_range (Z.to_nat W) 0
              (fun p w => sim_write p (W * i) w
                 (h (sim_read p (W * f0) w) (sim_read p (W * f1) w))) p in
  (forall w, 0 <= w < W ->
     Vec_WrdEntry (vSims p') (W * i + w)
     = h (Vec_WrdEntry (vSims p) (W * f0 + w)) (Vec_WrdEntry (vSims p) (W * f1 + w)))
  /\ (forall a, ~ (W * i <= a < W * i + W) ->
        Vec_WrdEntry (vSims p') a = Vec_WrdEntry (vSims p) a)
  /\ length (vSims p') = length (vSims p)
  /\ p' = set_vSims p (vSims p').
Proof.
  intros HW Hi Hsz Hf0 Hn0 Hf1 Hn1 W p'.
  pose (g := fun (mem : list Z) (w : Z) =>
               h (Vec_WrdEntry mem (W * f0 + w)) (Vec_WrdEntry mem (W * f1 + w))).
  assert (Hg : forall mem mem' w,
             (forall a, ~ (W * i <= a < W * i + W) -> Vec_WrdEntry mem' a = Vec_WrdEntry mem a) ->
             0 <= w < W -> g mem' w = g mem w).
  { intros mem mem' w Hm Hw. unfold g.
    rewrite !Hm by (apply sim_region_disjoint; lia). reflexivity. }
  (* the loop only evaluates [g] inside the node's words *)
  pose (g' := fun (mem : list Z) (w : Z) => if (0 <=? w) && (w <? W) then g mem w else 0).
  assert (Hloop : forall (n : nat) (w0 : Z) (q : Gia_Man_t),
             0 <= w0 -> w0 + Z.of_nat n <= W ->
             for_range n w0 (fun p w => sim_write p (W * i) w (g (vSims p) w)) q
             = for_range n w0 (fun p w => sim_write p (W * i) w (g' (vSims p) w)) q).
  { induction n as [|n IH]; intros w0 q H0 Hn; [reflexivity|]. simpl.
    assert (E : g' (vSims q) w0 = g (vSims q) w0).
    { unfold g'. destruct (Z.leb_spec 0 w0), (Z.ltb_spec w0 W); try lia. reflexivity. }
    rewrite E. apply IH; lia. }
  assert (Hp' : p' = for_range (Z.to_nat W) 0
                       (fun p w => sim_write p (W * i) w (g' (vSims p) w)) p).
  { subst p'. rewrite <- Hloop by lia. reflexivity. }
  destruct (for_range_write_words g' (W * i) (W * i) (W * i + W)) with
    (n := Z.to_nat W) (w0 := 0) (p := p) as (R1 & R2 & R3 & R4);
    [ | nia | lia | lia | fold W; nia | ].
  { intros mem mem' w Hm. unfold g'.
    destruct (Z.leb_spec 0 w), (Z.ltb_spec w W); simpl; try reflexivity.
    apply Hg; [assumption | lia]. }
  rewrite <- Hp' in R1, R2, R3, R4.
  split; [|split; [|split]].
  - intros w Hw. rewrite R1 by lia. unfold g'.
    destruct (Z.leb_spec 0 w), (Z.ltb_spec w W); try lia. reflexivity.
  - intros a Ha. apply R2. lia.
  - exact R3.
  - exact R4.
Qed.

Lemma Cec2_ObjSimAnd_words (p : Gia_Man_t) (iObj : Z) :
  let o := Gia_ManObj p iObj in
  0 < nSimWords p -> 0 <= iObj -> nSimWords p * (iObj + 1) <= Vec_Size (vSims p) ->
  0 <= Gia_ObjFaninId0 o < iObj -> 0 <= Gia_ObjFaninId1 o < iObj ->
  let p' := Cec2_ObjSimAnd p iObj in
  (forall w, 0 <= w < nSimWords p ->
     sim_read p' (Cec2_ObjSim p iObj) w
     = word_and (if Gia_ObjFaninC0 o then word_not (sim_read p (Cec2_ObjSim p (Gia_ObjFaninId0 o)) w)
                 else sim_read p (Cec2_ObjSim p (Gia_ObjFaninId0 o)) w)
                (if Gia_ObjFaninC1 o then word_not (sim_read p (Cec2_ObjSim p (Gia_ObjFaninId1 o)) w)
                 else sim_read p (Cec2_ObjSim p (Gia_ObjFaninId1 o)) w))
  /\ (forall a, ~ (Cec2_ObjSim p iObj <= a < Cec2_ObjSim p iObj + nSimWords p) ->
        Vec_WrdEntry (vSims p') a = Vec_WrdEntry (vSims p) a)
  /\ length (vSims p') = length (vSims p)
  /\ p' = set_vSims p (vSims p').
Proof.
  intros o HW Hi Hsz Hf0 Hf1 p'. subst p'. unfold Cec2_ObjSimAnd, Cec2_ObjSim, sim_read.
  fold o.
  destruct (Gia_ObjFaninC0 o), (Gia_ObjFaninC1 o); cbn [andb negb].
  - apply (sim_loop_words (fun x y => word_and (word_not x) (word_not y))); lia.
  - apply (sim_loop_words (fun x y => word_and (word_not x) y)); lia.
  - apply (sim_loop_words (fun x y => word_and x (word_not y))); lia.
  - apply (sim_loop_words (fun x y => word_and x y)); lia.
Qed.

(** X5. [Cec2_ObjSimAnd] gives every pattern of an AND node the
    conjunction of the patterns of its fanins, each complemented as its
    edge says, and changes no word of another node and nothing but the
    simulation store. *)
Theorem X5_sim_and_is_conjunction (p : Gia_Man_t) (iObj : Z) :
  let o := Gia_ManObj p iObj in
  0 < nSimWords p -> 0 <= iObj -> nSimWords p * (iObj + 1) <= Vec_Size (vSims p) ->
  0 <= Gia_ObjFaninId0 o < iObj -> 0 <= Gia_ObjFaninId1 o < iObj ->
  let p' := Cec2_ObjSimAnd p iObj in
  (forall b, 0 <= b < 64 * nSimWords p ->
     Abc_InfoHasBit (vSims p') (Cec2_ObjSim p' iObj) b
     = xorb (Abc_InfoHasBit (vSims p) (Cec2_ObjSim p (Gia_ObjFaninId0 o)) b) (Gia_ObjFaninC0 o)
       && xorb (Abc_InfoHasBit (vSims p) (Cec2_ObjSim p (Gia_ObjFaninId1 o)) b)
               (Gia_ObjFaninC1 o))
  /\ (forall j w, 0 <= j -> j <> iObj -> 0 <= w < nSimWords p ->
        sim_read p' (Cec2_ObjSim p' j) w = sim_read p (Cec2_ObjSim p j) w)
  /\ p' = set_vSims p (vSims p').
Proof.
  intros o HW Hi Hsz Hf0 Hf1 p'.
  destruct (Cec2_ObjSimAnd_words p iObj HW Hi Hsz Hf0 Hf1) as (R1 & R2 & _ & R4).
  fold o in R1. fold p' in R1, R2, R4.
  assert (HWp : nSimWords p' = nSimWords p) by (rewrite R4; reflexivity).
  split; [|split; [|exact R4]].
  - intros b Hb. destruct (pattern_word _ _ Hb) as (Hw & Hk).
    unfold Abc_InfoHasBit. unfold Cec2_ObjSim at 1. rewrite HWp.
    change (Vec_WrdEntry (vSims p') (nSimWords p * iObj + b / 64))
      with (sim_read p' (Cec2_ObjSim p iObj) (b / 64)).
    rewrite R1 by assumption. rewrite sim_and_bit by assumption. reflexivity.
  - intros j w Hj Hne Hw. unfold sim_read, Cec2_ObjSim. rewrite HWp. apply R2.
    unfold Cec2_ObjSim. apply sim_region_disjoint; lia.
Qed.

Lemma for_range_inv {St : Type} (P : Z -> St -> Prop) (body : St -> Z -> St) :
  forall (n : nat) (i0 : Z) (s : St),
    (forall s i, i0 <= i < i0 + Z.of_nat n -> P i s -> P (i + 1) (body s i)) ->
    P i0 s -> P (i0 + Z.of_nat n) (for_range n i0 body s).
Proof.
  induction n as [|n IH]; intros i0 s Hstep H0.
  - simpl. now rewrite Z.add_0_r.
  - replace (i0 + Z.of_nat (S n)) with ((i0 + 1) + Z.of_nat n) by lia.
    change (for_range (S n) i0 body s) with (for_range n (i0 + 1) body (body s i0)).
    apply IH.
    + intros s' i Hi. apply Hstep. lia.
    + apply Hstep; [lia | assumption].
Qed.

Lemma simulate_ands_words (p : Gia_Man_t) :
  sims_allocated p -> fanins_below p ->
  let p' := simulate_ands p in
  (forall i, Gia_ObjIsAnd (Gia_ManObj p i) = true ->
     forall w, 0 <= w < nSimWords p ->
       let o := Gia_ManObj p i in
       sim_read p' (Cec2_ObjSim p i) w
       = word_and (if Gia_ObjFaninC0 o
                   then word_not (sim_read p' (Cec2_ObjSim p (Gia_ObjFaninId0 o)) w)
                   else sim_read p' (Cec2_ObjSim p (Gia_ObjFaninId0 o)) w)
                  (if Gia_ObjFaninC1 o
                   then word_not (sim_read p' (Cec2_ObjSim p (Gia_ObjFaninId1 o)) w)
                   else sim_read p' (Cec2_ObjSim p (Gia_ObjFaninId1 o)) w))
  /\ (forall j w, 0 <= j -> Gia_ObjIsAnd (Gia_ManObj p j) = false -> 0 <= w < nSimWords p ->
        sim_read p' (Cec2_ObjSim p j) w = sim_read p (Cec2_ObjSim p j) w)
  /\ p' = set_vSims p (vSims p').
Proof.
  intros (HW & Hsz) Hfan p'.
  pose (P := fun (k : Z) (q : Gia_Man_t) =>
    q = set_vSims p (vSims q) /\ length (vSims q) = length (vSims p)
    /\ (forall i, i < k -> Gia_ObjIsAnd (Gia_ManObj p i) = true ->
          forall w, 0 <= w < nSimWords p ->
            let o := Gia_ManObj p i in
            sim_read q (Cec2_ObjSim p i) w
            = word_and (if Gia_ObjFaninC0 o
                        then word_not (sim_read q (Cec2_ObjSim p (Gia_ObjFaninId0 o)) w)
                        else sim_read q (Cec2_ObjSim p (Gia_ObjFaninId0 o)) w)
                       (if Gia_ObjFaninC1 o
                        then word_not (sim_read q (Cec2_ObjSim p (Gia_ObjFaninId1 o)) w)
                        else sim_read q (Cec2_ObjSim p (Gia_ObjFaninId1 o)) w))
    /\ (forall j w, 0 <= j -> Gia_ObjIsAnd (Gia_ManObj p j) = false \/ k <= j ->
          0 <= w < nSimWords p ->
          sim_read q (Cec2_ObjSim p j) w = sim_read p (Cec2_ObjSim p j) w)).
  assert (HP : P (0 + Z.of_nat (length (pObjs p))) p').
  { subst p'. unfold simulate_ands. apply for_range_inv.
    - intros q k Hk (Hq & Hlen & Hdone & Hrest).
      assert (Hobj : forall x, Gia_ManObj q x = Gia_ManObj p x) by (rewrite Hq; reflexivity).
      assert (HWq : nSimWords q = nSimWords p) by (rewrite Hq; reflexivity).
      rewrite Hobj. destruct (Gia_ObjIsAnd (Gia_ManObj p k)) eqn:Eand.
      + destruct (proj1 (Hfan k) Eand) as (Hf0 & Hf1).
        destruct (Cec2_ObjSimAnd_words q k) as (R1 & R2 & R3 & R4);
          rewrite ?Hobj, ?HWq; try lia.
        { unfold Vec_Size in *. rewrite Hlen. unfold Gia_ManObjNum, Vec_Size in Hsz. nia. }
        rewrite Hobj, HWq in R1. rewrite HWq in R2.
        set (q' := Cec2_ObjSimAnd q k) in *.
        assert (Cs : forall x, Cec2_ObjSim q x = Cec2_ObjSim p x)
          by (intros x; unfold Cec2_ObjSim; now rewrite HWq).
        rewrite Cs in R1, R2.
        assert (Hother : forall j w, 0 <= j -> j <> k -> 0 <= w < nSimWords p ->
                  sim_read q' (Cec2_ObjSim p j) w = sim_read q (Cec2_ObjSim p j) w).
        { intros j w Hj Hne Hw. unfold sim_read. apply R2.
          unfold Cec2_ObjSim. apply sim_region_disjoint; lia. }
        split; [rewrite R4, Hq; reflexivity|]. split; [congruence|]. split.
        * intros i Hi Eai w Hw o.
          destruct (proj1 (Hfan i) Eai) as (Hi0 & Hi1). fold o in Hi0, Hi1.
          destruct (Z.eq_dec i k) as [->|Hne].
          -- rewrite R1 by assumption. rewrite !Cs. fold o.
             rewrite !Hother by lia. reflexivity.
          -- rewrite !Hother by lia. apply Hdone; [lia | assumption | assumption].
        * intros j w Hj Hcase Hw.
          assert (j <> k) by (destruct Hcase; [congruence | lia]).
          rewrite Hother by assumption. apply Hrest; [assumption | | assumption].
          destruct Hcase; [now left | right; lia].
      + split; [assumption|]. split; [assumption|]. split.
        * intros i Hi Eai. apply Hdone; [|assumption].
          destruct (Z.eq_dec i k) as [->|]; [congruence | lia].
        * intros j w Hj Hcase Hw. apply Hrest; [assumption | | assumption].
          destruct Hcase; [now left | right; lia].
    - split; [destruct p; reflexivity|]. split; [reflexivity|]. split.
      + intros i Hi Eai. apply Gia_ObjIsAnd_in_range in Eai. lia.
      + reflexivity. }
  destruct HP as (Hq & _ & Hdone & Hrest).
  split; [|split; [|exact Hq]].
  - intros i Eai. apply Hdone; [|assumption].
    apply Gia_ObjIsAnd_in_range in Eai. unfold Gia_ManObjNum, Vec_Size in Eai. lia.
  - intros j w Hj Ej Hw. apply Hrest; [assumption | now left | assumption].
Qed.

(** X6. After the pass of [Cec2_ManSimulate] over the AND nodes, every
    pattern of the simulation store gives each AND node the conjunction
    of its fanins, while the words of the other nodes (the constant,
    the CIs, the COs) are as they were. *)
Theorem X6_simulated_patterns_are_consistent (p : Gia_Man_t) :
  sims_allocated p -> fanins_below p ->
  let p' := simulate_ands p in
  (forall b, 0 <= b < 64 * nSimWords p -> and_consistent p (pattern p' b))
  /\ (forall j w, 0 <= j -> Gia_ObjIsAnd (Gia_ManObj p j) = false -> 0 <= w < nSimWords p ->
        sim_read p' (Cec2_ObjSim p' j) w = sim_read p (Cec2_ObjSim p j) w)
  /\ p' = set_vSims p (vSims p').
Proof.
  intros Hal Hfan p'.
  destruct (simulate_ands_words p Hal Hfan) as (R1 & R2 & R3). fold p' in R1, R2, R3.
  assert (Cs : forall x, Cec2_ObjSim p' x = Cec2_ObjSim p x)
    by (intros x; rewrite R3; reflexivity).
  split; [|split; [|exact R3]].
  - intros b Hb i Eai. destruct (pattern_word _ _ Hb) as (Hw & Hk).
    unfold pattern, ptr_value, Gia_ObjChild0, Gia_ObjChild1, Abc_InfoHasBit. simpl.
    rewrite !Cs.
    change (Vec_WrdEntry (vSims p') (Cec2_ObjSim p i + b / 64))
      with (sim_read p' (Cec2_ObjSim p i) (b / 64)).
    rewrite (R1 i Eai _ Hw). cbv zeta. rewrite sim_and_bit by assumption. reflexivity.
  - intros j w Hj Ej Hw. rewrite Cs. now apply R2.
Qed.

Lemma Cec2_ObjSimCo_words (p : Gia_Man_t) (iObj : Z) :
  let o := Gia_ManObj p iObj in
  0 < nSimWords p -> 0 <= iObj -> nSimWords p * (iObj + 1) <= Vec_Size (vSims p) ->
  0 <= Gia_ObjFaninId0 o < iObj ->
  let p' := Cec2_ObjSimCo p iObj in
  (forall w, 0 <= w < nSimWords p ->
     sim_read p' (Cec2_ObjSim p iObj) w
     = if Gia_ObjFaninC0 o
       then word_not (sim_read p (Cec2_ObjSim p (Gia_ObjFaninId0 o)) w)
       else sim_read p (Cec2_ObjSim p (Gia_ObjFaninId0 o)) w)
  /\ (forall a, ~ (Cec2_ObjSim p iObj <= a < Cec2_ObjSim p iObj + nSimWords p) ->
        Vec_WrdEntry (vSims p') a = Vec_WrdEntry (vSims p) a)
  /\ length (vSims p') = length (vSims p)
  /\ p' = set_vSims p (vSims p').
Proof.
  intros o HW Hi Hsz Hf0 p'.
  subst p'. unfold Cec2_ObjSimCo, Cec2_ObjSim, sim_read. fold o.
  destruct (Gia_ObjFaninC0 o).
  - apply (sim_loop_words (fun x _ => word_not x) p iObj (Gia_ObjFaninId0 o)
             (Gia_ObjFaninId0 o)); lia.
  - apply (sim_loop_words (fun x _ => x) p iObj (Gia_ObjFaninId0 o)
             (Gia_ObjFaninId0 o)); lia.
Qed.

(** X7. [Cec2_ObjSimCo] gives every pattern of a CO the pattern of its
    driver, complemented when the edge is, and changes no word of
    another node and nothing but the simulation store. *)
Theorem X7_sim_co_copies_driver (p : Gia_Man_t) (iObj : Z) :
  let o := Gia_ManObj p iObj in
  0 < nSimWords p -> 0 <= iObj -> nSimWords p * (iObj + 1) <= Vec_Size (vSims p) ->
  0 <= Gia_ObjFaninId0 o < iObj ->
  let p' := Cec2_ObjSimCo p iObj in
  (forall b, 0 <= b < 64 * nSimWords p ->
     pattern p' b iObj = xorb (pattern p b (Gia_ObjFaninId0 o)) (Gia_ObjFaninC0 o))
  /\ (forall j w, 0 <= j -> j <> iObj -> 0 <= w < nSimWords p ->
        sim_read p' (Cec2_ObjSim p' j) w = sim_read p (Cec2_ObjSim p j) w)
  /\ p' = set_vSims p (vSims p').
Proof.
  intros o HW Hi Hsz Hf0 p'.
  destruct (Cec2_ObjSimCo_words p iObj HW Hi Hsz Hf0) as (R1 & R2 & _ & R4).
  fold o in R1. fold p' in R1, R2, R4.
  assert (HWp : nSimWords p' = nSimWords p) by (rewrite R4; reflexivity).
  split; [|split; [|exact R4]].
  - intros b Hb. destruct (pattern_word _ _ Hb) as (Hw & Hk).
    unfold pattern, Abc_InfoHasBit. unfold Cec2_ObjSim at 1. rewrite HWp.
    change (Vec_WrdEntry (vSims p') (nSimWords p * iObj + b / 64))
      with (sim_read p' (Cec2_ObjSim p iObj) (b / 64)).
    rewrite R1 by assumption. unfold sim_read.
    destruct (Gia_ObjFaninC0 o).
    + rewrite word_not_bit by lia.
      assert (E : (b mod 64 <? 64) = true) by (apply Z.ltb_lt; lia).
      rewrite E, xorb_true_r. reflexivity.
    + now rewrite xorb_false_r.
  - intros j w Hj Hne Hw. unfold sim_read, Cec2_ObjSim. rewrite HWp. apply R2.
    unfold Cec2_ObjSim. apply sim_region_disjoint; lia.
Qed.

(** ** Random patterns on the CIs *)

Lemma Cec2_ObjSimCi_words (p : Gia_Man_t) (iObj : Z) :
  0 < nSimWords p -> 0 <= iObj -> nSimWords p * (iObj + 1) <= Vec_Size (vSims p) ->
  let W := nSimWords p in
  let p' := Cec2_ObjSimCi p iObj in
  p' = set_nRandom (set_vSims p (vSims p')) (nRandom p')
  /\ length (vSims p') = length (vSims p)
  /\ nRandom p' = (nRandom p + Z.to_nat W)%nat
  /\ (forall w, 0 <= w < W ->
        Vec_WrdEntry (vSims p') (W * iObj + w)
        = if w =? 0 then word_shl1 (Gia_ManRandomW (nRandom p))
          else Gia_ManRandomW (nRandom p + Z.to_nat w))
  /\ (forall a, ~ (W * iObj <= a < W * iObj + W) ->
        Vec_WrdEntry (vSims p') a = Vec_WrdEntry (vSims p) a).
Proof.
  intros HW Hi Hsz W p'.
  pose (P := fun (k : Z) (q : Gia_Man_t) =>
    q = set_nRandom (set_vSims p (vSims q)) (nRandom q)
    /\ length (vSims q) = length (vSims p)
    /\ nRandom q = (nRandom p + Z.to_nat k)%nat
    /\ (forall w, 0 <= w < k ->
          Vec_WrdEntry (vSims q) (W * iObj + w) = Gia_ManRandomW (nRandom p + Z.to_nat w))
    /\ (forall a, ~ (W * iObj <= a < W * iObj + k) ->
          Vec_WrdEntry (vSims q) a = Vec_WrdEntry (vSims p) a)).
  set (p1 := for_range (Z.to_nat W) 0
               (fun p0 w => set_nRandom (sim_write p0 (W * iObj) w (Gia_ManRandomW (nRandom p0)))
                                        (S (nRandom p0))) p).
  assert (HP : P (0 + Z.of_nat (Z.to_nat W)) p1).
  { subst p1. apply for_range_inv.
    - intros q k Hk (Hq & Hlen & Hn & Hin & Hout).
      assert (Hsame : Vec_WrdEntry (vSims (sim_write q (W * iObj) k (Gia_ManRandomW (nRandom q))))
                        (W * iObj + k) = Gia_ManRandomW (nRandom q)).
      { unfold sim_write, Vec_WrdEntry. simpl. apply Vec_Entry_write_same.
        unfold Vec_Size in *. rewrite Hlen. fold W in Hsz. nia. }
      assert (Hoth : forall a, a <> W * iObj + k ->
                Vec_WrdEntry (vSims (sim_write q (W * iObj) k (Gia_ManRandomW (nRandom q)))) a
                = Vec_WrdEntry (vSims q) a).
      { intros a Ha. unfold sim_write, Vec_WrdEntry. simpl.
        apply Vec_Entry_write_other. lia. }
      split; [rewrite Hq at 1; reflexivity|].
      split; [unfold sim_write; simpl; rewrite length_Vec_WriteEntry; exact Hlen|].
      split; [simpl; rewrite Hn; lia|].
      change (vSims (set_nRandom ?x ?n)) with (vSims x). split.
      + intros w Hw. destruct (Z.eq_dec w k) as [->|Hne].
        * rewrite Hsame, Hn. reflexivity.
        * rewrite Hoth by lia. apply Hin. lia.
      + intros a Ha. rewrite Hoth by lia. apply Hout. lia.
    - split; [destruct p; reflexivity|]. split; [reflexivity|].
      split; [simpl; lia|]. split; [intros; lia | auto]. }
  rewrite Z.add_0_l, Z2Nat.id in HP by lia.
  destruct HP as (Hq & Hlen & Hn & Hin & Hout).
  assert (Hp' : p' = sim_write p1 (W * iObj) 0 (word_shl1 (sim_read p1 (W * iObj) 0)))
    by reflexivity.
  assert (Hsame : Vec_WrdEntry (vSims p') (W * iObj + 0)
                  = word_shl1 (Gia_ManRandomW (nRandom p))).
  { rewrite Hp'. unfold sim_write, sim_read, Vec_WrdEntry. simpl.
    rewrite Vec_Entry_write_same.
    - fold (Vec_WrdEntry (vSims p1) (W * iObj + 0)). rewrite Hin by lia.
      rewrite Nat.add_0_r. reflexivity.
    - unfold Vec_Size in *. rewrite Hlen. fold W in Hsz. nia. }
  assert (Hoth : forall a, a <> W * iObj + 0 ->
            Vec_WrdEntry (vSims p') a = Vec_WrdEntry (vSims p1) a).
  { intros a Ha. rewrite Hp'. unfold sim_write, Vec_WrdEntry. simpl.
    apply Vec_Entry_write_other. lia. }
  split; [rewrite Hp', Hq at 1; reflexivity|].
  split; [rewrite Hp'; unfold sim_write; simpl; rewrite length_Vec_WriteEntry; exact Hlen|].
  split; [rewrite Hp'; exact Hn|]. split.
  - intros w Hw. destruct (Z.eqb_spec w 0) as [->|Hne]; [exact Hsame|].
    rewrite Hoth by lia. apply Hin. lia.
  - intros a Ha. rewrite Hoth by lia. apply Hout. lia.
Qed.

Lemma simulate_cis_fold (l : list Z) :
  forall q : Gia_Man_t,
    0 < nSimWords q ->
    Forall (fun Id => 0 <= Id /\ nSimWords q * (Id + 1) <= Vec_Size (vSims q)) l ->
    NoDup l ->
    let W := nSimWords q in
    let q' := fold_left Cec2_ObjSimCi l q in
    q' = set_nRandom (set_vSims q (vSims q')) (nRandom q')
    /\ length (vSims q') = length (vSims q)
    /\ nRandom q' = (nRandom q + length l * Z.to_nat W)%nat
    /\ (forall k Id, l !! k = Some Id ->
          forall w, 0 <= w < W ->
            Vec_WrdEntry (vSims q') (W * Id + w)
            = if w =? 0 then word_shl1 (Gia_ManRandomW (nRandom q + k * Z.to_nat W))
              else Gia_ManRandomW (nRandom q + k * Z.to_nat W + Z.to_nat w))
    /\ (forall a, Forall (fun Id => ~ (W * Id <= a < W * Id + W)) l ->
          Vec_WrdEntry (vSims q') a = Vec_WrdEntry (vSims q) a).
Proof.
  induction l as [|Id rest IH]; intros q HW Hall Hnd W q'.
  - subst q'. simpl. split; [destruct q; reflexivity|]. split; [reflexivity|].
    split; [lia|]. split; [intros k Id Hk; discriminate Hk | auto].
  - apply Forall_cons in Hall as ((HId & Hsz) & Hall).
    apply NoDup_cons in Hnd as (Hnin & Hnd).
    destruct (Cec2_ObjSimCi_words q Id HW HId Hsz) as (C1 & C2 & C3 & C4 & C5).
    set (q1 := Cec2_ObjSimCi q Id) in *. fold W in C3, C4, C5.
    assert (HW1 : nSimWords q1 = W) by (rewrite C1; reflexivity).
    destruct (IH q1) as (I1 & I2 & I3 & I4 & I5); [lia | | assumption |].
    { rewrite HW1. unfold Vec_Size. rewrite C2. exact Hall. }
    rewrite HW1 in I3, I4, I5. change (fold_left Cec2_ObjSimCi rest q1) with q' in *.
    split; [rewrite I1, C1 at 1; reflexivity|]. split; [congruence|].
    split; [rewrite I3, C3; simpl; lia|]. split.
    + intros [|k] Id' Hk w Hw; simpl in Hk.
      * injection Hk as <-. rewrite I5.
        -- rewrite C4 by assumption. cbn [Nat.mul]. rewrite Nat.add_0_r. reflexivity.
        -- rewrite Forall_forall. intros Id' Hin'.
           assert (Id' <> Id) by (intros ->; now apply Hnin).
           rewrite Forall_forall in Hall. destruct (Hall Id' Hin') as (H0 & _).
           intros Hr. apply (sim_region_disjoint W Id' Id w); try lia.
      * rewrite (I4 k Id' Hk w Hw), C3.
        replace (nRandom q + Z.to_nat W + k * Z.to_nat W)%nat
          with (nRandom q + S k * Z.to_nat W)%nat by lia.
        reflexivity.
    + intros a Ha. apply Forall_cons in Ha as (Ha1 & Ha2).
      rewrite I5 by assumption. now apply C5.
Qed.

(** X8. [Cec2_ManSimulateCis] gives every CI a vector of fresh words of
    the random source, the CI at position [k] taking the words
    [k * nSimWords ..], with word 0 shifted left by one: pattern 0 of
    every CI is 0.  No word of a node that is not a CI changes, and the
    pattern counter is 1. *)
Theorem X8_simulate_cis_fresh_patterns (p : Gia_Man_t) :
  0 < nSimWords p ->
  Forall (fun Id => 0 <= Id /\ nSimWords p * (Id + 1) <= Vec_Size (vSims p)) (vCis p) ->
  NoDup (vCis p) ->
  let W := nSimWords p in
  let p' := Cec2_ManSimulateCis p in
  (forall k Id, vCis p !! k = Some Id ->
     pattern p' 0 Id = false
     /\ forall w, 0 <= w < W ->
          sim_read p' (Cec2_ObjSim p' Id) w
          = if w =? 0 then word_shl1 (Gia_ManRandomW (nRandom p + k * Z.to_nat W))
            else Gia_ManRandomW (nRandom p + k * Z.to_nat W + Z.to_nat w))
  /\ (forall j w, 0 <= j -> j ∉ vCis p -> 0 <= w < W ->
        sim_read p' (Cec2_ObjSim p' j) w = sim_read p (Cec2_ObjSim p j) w)
  /\ nRandom p' = (nRandom p + length (vCis p) * Z.to_nat W)%nat
  /\ p' = set_iPatsPi (set_nRandom (set_vSims p (vSims p')) (nRandom p')) 1.
Proof.
  intros HW Hall Hnd W p'.
  destruct (simulate_cis_fold (vCis p) p HW Hall Hnd) as (F1 & F2 & F3 & F4 & F5).
  fold W in F3, F4, F5.
  set (q' := fold_left Cec2_ObjSimCi (vCis p) p) in *.
  assert (Hp' : p' = set_iPatsPi q' 1) by reflexivity.
  assert (HWp : nSimWords p' = W) by (rewrite Hp', F1; reflexivity).
  assert (Hv : vSims p' = vSims q') by (rewrite Hp'; reflexivity).
  split; [|split; [|split]].
  - intros k Id Hk.
    assert (Hwords : forall w, 0 <= w < W ->
              sim_read p' (Cec2_ObjSim p' Id) w
              = if w =? 0 then word_shl1 (Gia_ManRandomW (nRandom p + k * Z.to_nat W))
                else Gia_ManRandomW (nRandom p + k * Z.to_nat W + Z.to_nat w)).
    { intros w Hw. unfold sim_read, Cec2_ObjSim. rewrite HWp, Hv. now apply F4. }
    split; [|exact Hwords].
    unfold pattern, Abc_InfoHasBit. change (0 / 64) with 0. change (0 mod 64) with 0.
    change (Vec_WrdEntry (vSims p') (Cec2_ObjSim p' Id + 0))
      with (sim_read p' (Cec2_ObjSim p' Id) 0).
    rewrite Hwords by lia. change (0 =? 0) with true. cbv iota. unfold word_shl1.
    rewrite Z.land_spec, Z.shiftl_spec_low by lia. reflexivity.
  - intros j w Hj Hnin Hw. unfold sim_read, Cec2_ObjSim. rewrite HWp, Hv. apply F5.
    rewrite Forall_forall. intros Id HId.
    assert (Id <> j) by (intros ->; apply Hnin; now apply list_elem_of_In).
    rewrite Forall_forall in Hall. destruct (Hall Id HId) as (H0 & _).
    apply sim_region_disjoint; lia.
  - rewrite Hp'. exact F3.
  - rewrite Hp', F1 at 1. reflexivity.
Qed.

(** ** One bit of a CI *)

Lemma xor_bit_spec (x k n : Z) :
  0 <= k -> 0 <= n ->
  Z.testbit (Z.lxor x (Z.shiftl 1 k)) n = xorb (Z.testbit x n) (k =? n).
Proof.
  intros Hk Hn. rewrite Z.lxor_spec, Z.shiftl_1_l, Z.pow2_bits_eqb by lia. reflexivity.
Qed.

Lemma Cec2_ObjSimSetInputBit_spec (p : Gia_Man_t) (iObj : Z) (Bit : bool) :
  0 < nSimWords p -> 0 <= iObj -> nSimWords p * (iObj + 1) <= Vec_Size (vSims p) ->
  0 <= iPatsPi p < 64 * nSimWords p ->
  let p' := Cec2_ObjSimSetInputBit p iObj Bit in
  pattern p' (iPatsPi p) iObj = Bit
  /\ (forall j b, 0 <= j -> 0 <= b < 64 * nSimWords p -> j <> iObj \/ b <> iPatsPi p ->
        pattern p' b j = pattern p b j)
  /\ p' = set_vSims p (vSims p')
  /\ length (vSims p') = length (vSims p).
Proof.
  intros HW Hi Hsz Hpat p'. subst p'. unfold Cec2_ObjSimSetInputBit.
  destruct (pattern_word _ _ Hpat) as (Hw & Hk).
  set (W := nSimWords p) in *. set (pat := iPatsPi p) in *.
  destruct (Bool.eqb (Abc_InfoHasBit (vSims p) (Cec2_ObjSim p iObj) pat) Bit) eqn:E; cbn [negb].
  - apply Bool.eqb_prop in E. split; [exact E|]. split; [reflexivity|].
    split; [destruct p; reflexivity | reflexivity].
  - apply Bool.eqb_false_iff in E.
    assert (Hsame : Z.testbit
              (Vec_WrdEntry (Abc_InfoXorBit (vSims p) (Cec2_ObjSim p iObj) pat)
                 (Cec2_ObjSim p iObj + pat / 64)) (pat mod 64) = Bit).
    { unfold Abc_InfoXorBit, Vec_WrdEntry. rewrite Vec_Entry_write_same.
      - rewrite xor_bit_spec, Z.eqb_refl by lia.
        unfold Abc_InfoHasBit, Vec_WrdEntry in E.
        destruct (Z.testbit _ (pat mod 64)), Bit; simpl; congruence.
      - unfold Cec2_ObjSim. fold W. unfold Vec_Size in *. nia. }
    split; [exact Hsame|].
    split; [|split; [reflexivity | unfold Abc_InfoXorBit; simpl; apply length_Vec_WriteEntry]].
    intros j b Hj Hb Hcase. destruct (pattern_word _ _ Hb) as (Hw' & Hk').
    unfold pattern, Abc_InfoHasBit, Abc_InfoXorBit, Vec_WrdEntry, Cec2_ObjSim.
    cbn [vSims set_vSims nSimWords]. fold W.
    rewrite Vec_Entry_write.
    destruct (Z.eqb_spec (W * iObj + pat / 64) (W * j + b / 64)) as [Ea|Ea];
      [|reflexivity].
    assert (j = iObj).
    { destruct (Z.eq_dec j iObj) as [|Hne]; [assumption|]. exfalso.
      apply (sim_region_disjoint W iObj j (b / 64)); try lia. }
    subst j. assert (Hdiv : b / 64 = pat / 64) by lia.
    assert (Hmod : pat mod 64 <> b mod 64).
    { intros Em. destruct Hcase as [Hc|Hc]; [congruence|]. apply Hc.
      rewrite (Z.div_mod b 64), (Z.div_mod pat 64) by lia. congruence. }
    destruct (_ && _); [|reflexivity].
    rewrite xor_bit_spec by lia. rewrite <- Ea.
    destruct (Z.eqb_spec (pat mod 64) (b mod 64)); [contradiction|].
    now rewrite xorb_false_r.
Qed.


(** X9. [Cec2_ObjSimSetInputBit] makes the current pattern of the node
    equal to the bit given and changes no other pattern of any node,
    and nothing but the simulation store. *)
Theorem X9_set_input_bit (p : Gia_Man_t) (iObj : Z) (Bit : bool) :
  0 < nSimWords p -> 0 <= iObj -> nSimWords p * (iObj + 1) <= Vec_Size (vSims p) ->
  0 <= iPatsPi p < 64 * nSimWords p ->
  let p' := Cec2_ObjSimSetInputBit p iObj Bit in
  pattern p' (iPatsPi p) iObj = Bit
  /\ (forall j b, 0 <= j -> 0 <= b < 64 * nSimWords p -> j <> iObj \/ b <> iPatsPi p ->
        pattern p' b j = pattern p b j)
  /\ p' = set_vSims p (vSims p').
Proof.
  intros HW Hi Hsz Hpat p'.
  destruct (Cec2_ObjSimSetInputBit_spec p iObj Bit HW Hi Hsz Hpat) as (H1 & H2 & H3 & _).
  split; [exact H1|]. split; [exact H2 | exact H3].
Qed.

(** X18. The loop of [Cec2_ManSweepNode] over the pairs of
    [vObjSatPairs] gives the current pattern of every CI listed the
    polarity of its variable in the model of the solver, and changes no
    other pattern of the simulation store. *)
Theorem X18_model_becomes_pattern (s : satoko_t) (pairs : list (Z * Z)) (p : Gia_Man_t) :
  0 < nSimWords p -> 0 <= iPatsPi p < 64 * nSimWords p ->
  Forall (fun ab => 0 <= fst ab /\ nSimWords p * (fst ab + 1) <= Vec_Size (vSims p)) pairs ->
  NoDup (map fst pairs) ->
  let p' := set_input_bits s (pairs_flat pairs) p in
  (forall a v, (a, v) ∈ pairs -> pattern p' (iPatsPi p) a = var_polarity_true s v)
  /\ (forall j b, 0 <= j -> 0 <= b < 64 * nSimWords p ->
        j ∉ map fst pairs \/ b <> iPatsPi p -> pattern p' b j = pattern p b j)
  /\ p' = set_vSims p (vSims p').
Proof.
  revert p. induction pairs as [|[a v] rest IH]; intros p HW Hpat Hall Hnd p'.
  - subst p'. simpl. split; [intros a v H; now apply not_elem_of_nil in H|].
    split; [reflexivity | destruct p; reflexivity].
  - apply Forall_cons in Hall as ((Ha & Hsz) & Hall). simpl in Ha, Hsz.
    cbn [map] in Hnd. apply NoDup_cons in Hnd as (Hnin & Hnd).
    destruct (Cec2_ObjSimSetInputBit_spec p a (var_polarity_true s v) HW Ha Hsz Hpat)
      as (S1 & S2 & S3 & S4).
    set (p1 := Cec2_ObjSimSetInputBit p a (var_polarity_true s v)) in *.
    assert (HW1 : nSimWords p1 = nSimWords p) by (rewrite S3; reflexivity).
    assert (Hp1 : iPatsPi p1 = iPatsPi p) by (rewrite S3; reflexivity).
    destruct (IH p1) as (I1 & I2 & I3); [lia | rewrite HW1, Hp1; lia | | assumption |].
    { rewrite HW1. unfold Vec_Size. rewrite S4. exact Hall. }
    change (set_input_bits s (pairs_flat ((a, v) :: rest)) p)
      with (set_input_bits s (pairs_flat rest) p1) in p'.
    fold p' in I1, I2, I3. rewrite HW1, Hp1 in *.
    assert (Hin_range : forall a' v', (a', v') ∈ rest -> 0 <= a').
    { intros a' v' Hin. rewrite Forall_forall in Hall. now destruct (Hall _ Hin). }
    split; [|split].
    + intros a' v' Hin. apply elem_of_cons in Hin as [E|Hin].
      * injection E as -> ->. rewrite I2; [exact S1 | lia | lia |].
        left. exact Hnin.
      * now apply I1.
    + intros j b Hj Hb Hcase. rewrite I2; [|assumption|assumption|].
      * apply S2; [assumption | assumption|].
        destruct Hcase as [Hc|Hc]; [left | now right].
        intros ->. apply Hc. now left.
      * destruct Hcase as [Hc|Hc]; [left | now right].
        intros Hin. apply Hc. now right.
    + rewrite I3, S3 at 1. reflexivity.
Qed.

(** ** The candidate-equivalence test as a relation *)

Lemma word_not_involutive (x : Z) : 0 <= x < 2 ^ 64 -> word_not (word_not x) = x.
Proof.
  intros Hx. apply Z.bits_inj'. intros n Hn.
  rewrite !word_not_bit by assumption. destruct (Z.ltb_spec n 64); simpl.
  - now rewrite negb_involutive.
  - symmetry. apply (Z.bits_above_log2 x n); [lia|].
    destruct (Z.eq_dec x 0) as [->|]; [simpl; lia|].
    apply Z.log2_lt_pow2; [lia|]. apply Z.lt_le_trans with (2 ^ 64); [lia|].
    apply Z.pow_le_mono_r; lia.
Qed.

Lemma words_64_read (p : Gia_Man_t) (a w : Z) :
  words_64 p -> 0 <= sim_read p a w < 2 ^ 64.
Proof.
  intros H. unfold sim_read, Vec_WrdEntry.
  destruct (Z.lt_ge_cases (a + w) 0) as [Hneg|Hpos];
    [rewrite Vec_Entry_default_out by lia; lia|].
  destruct (Z.lt_ge_cases (a + w) (Vec_Size (vSims p))) as [Hin|Hout];
    [|rewrite Vec_Entry_default_out by lia; lia].
  apply (Vec_Entry_Forall (fun x => 0 <= x < 2 ^ 64)); [exact H | lia].
Qed.

Lemma lsb_cases (x y z : Z) :
  Z.land x 1 <> Z.land y 1 -> Z.land y 1 <> Z.land z 1 -> Z.land x 1 = Z.land z 1.
Proof.
  rewrite !land_1_testbit.
  destruct (Z.testbit x 0), (Z.testbit y 0), (Z.testbit z 0); simpl; lia.
Qed.

Lemma Cec2_ObjSimEqual_cases (p : Gia_Man_t) (i j : Z) :
  Cec2_ObjSimEqual p i j = true <->
  (Z.land (sim_read p (Cec2_ObjSim p i) 0) 1 = Z.land (sim_read p (Cec2_ObjSim p j) 0) 1
   /\ forall w, 0 <= w < nSimWords p ->
        sim_read p (Cec2_ObjSim p i) w = sim_read p (Cec2_ObjSim p j) w)
  \/ (Z.land (sim_read p (Cec2_ObjSim p i) 0) 1 <> Z.land (sim_read p (Cec2_ObjSim p j) 0) 1
      /\ forall w, 0 <= w < nSimWords p ->
           sim_read p (Cec2_ObjSim p i) w = word_not (sim_read p (Cec2_ObjSim p j) w)).
Proof.
  unfold Cec2_ObjSimEqual.
  assert (Hr : forall w, 0 <= w < 0 + Z.of_nat (Z.to_nat (nSimWords p)) <-> 0 <= w < nSimWords p)
    by (intros; lia).
  destruct (Z.eqb_spec (Z.land (sim_read p (Cec2_ObjSim p i) 0) 1)
                       (Z.land (sim_read p (Cec2_ObjSim p j) 0) 1)) as [E|E];
    rewrite all_words_spec; split.
  - intros H. left. split; [assumption|]. intros w Hw. apply Z.eqb_eq, H, Hr, Hw.
  - intros [(_ & H)|(H & _)]; [|contradiction]. intros w Hw. apply Z.eqb_eq, H, Hr, Hw.
  - intros H. right. split; [assumption|]. intros w Hw. apply Z.eqb_eq, H, Hr, Hw.
  - intros [(H & _)|(_ & H)]; [contradiction|]. intros w Hw. apply Z.eqb_eq, H, Hr, Hw.
Qed.

Lemma Cec2_ObjSimEqual_refl (p : Gia_Man_t) (i : Z) : Cec2_ObjSimEqual p i i = true.
Proof. apply Cec2_ObjSimEqual_cases. left. auto. Qed.

Lemma Cec2_ObjSimEqual_sym (p : Gia_Man_t) (i j : Z) :
  words_64 p -> Cec2_ObjSimEqual p i j = true -> Cec2_ObjSimEqual p j i = true.
Proof.
  intros H64 H. apply Cec2_ObjSimEqual_cases in H. apply Cec2_ObjSimEqual_cases.
  destruct H as [(E & H)|(E & H)]; [left | right].
  - split; [now symmetry|]. intros w Hw. symmetry. now apply H.
  - split; [intros E'; apply E; now symmetry|]. intros w Hw.
    rewrite (H w Hw), word_not_involutive; [reflexivity | now apply words_64_read].
Qed.

Lemma Cec2_ObjSimEqual_trans (p : Gia_Man_t) (i j k : Z) :
  words_64 p -> Cec2_ObjSimEqual p i j = true -> Cec2_ObjSimEqual p j k = true ->
  Cec2_ObjSimEqual p i k = true.
Proof.
  intros H64 H1 H2.
  apply Cec2_ObjSimEqual_cases in H1. apply Cec2_ObjSimEqual_cases in H2.
  apply Cec2_ObjSimEqual_cases.
  destruct H1 as [(E1 & H1)|(E1 & H1)], H2 as [(E2 & H2)|(E2 & H2)].
  - left. split; [congruence|]. intros w Hw. rewrite H1, H2 by assumption. reflexivity.
  - right. split; [congruence|]. intros w Hw. rewrite H1, H2 by assumption. reflexivity.
  - right. split; [congruence|]. intros w Hw. rewrite H1, H2 by assumption. reflexivity.
  - left. split; [now apply (lsb_cases _ _ _ E1 E2)|]. intros w Hw.
    rewrite H1, H2 by assumption. apply word_not_involutive. now apply words_64_read.
Qed.

(** X10. On a store of 64-bit words [Cec2_ObjSimEqual] is an
    equivalence relation on the nodes: it is reflexive, symmetric and
    transitive. *)
Theorem X10_sim_equal_is_equivalence (p : Gia_Man_t) :
  words_64 p ->
  (forall i, Cec2_ObjSimEqual p i i = true)
  /\ (forall i j, Cec2_ObjSimEqual p i j = Cec2_ObjSimEqual p j i)
  /\ (forall i j k, Cec2_ObjSimEqual p i j = true -> Cec2_ObjSimEqual p j k = true ->
        Cec2_ObjSimEqual p i k = true).
Proof.
  intros H64. split; [|split].
  - intros i. apply Cec2_ObjSimEqual_refl.
  - intros i j. destruct (Cec2_ObjSimEqual p i j) eqn:E1.
    + symmetry. now apply Cec2_ObjSimEqual_sym.
    + destruct (Cec2_ObjSimEqual p j i) eqn:E2; [|reflexivity].
      apply Cec2_ObjSimEqual_sym in E2; [congruence | assumption].
  - intros i j k. now apply Cec2_ObjSimEqual_trans.
Qed.

(** ** The outputs of a miter under simulation *)

Lemma Gia_ObjIsCo_in_range (p : Gia_Man_t) (i : Z) :
  Gia_ObjIsCo (Gia_ManObj p i) = true -> 0 <= i < Gia_ManObjNum p.
Proof.
  intros H. destruct (Z.le_gt_cases 0 i), (Z.lt_ge_cases i (Gia_ManObjNum p)); try lia;
    unfold Gia_ManObj, Gia_ManObjNum in *;
    rewrite Vec_Entry_default_out in H by lia; discriminate.
Qed.

Lemma all_words_ext (t t' : Z -> bool) (n : nat) (w0 : Z) :
  (forall w, w0 <= w < w0 + Z.of_nat n -> t' w = t w) ->
  all_words n w0 t' = all_words n w0 t.
Proof.
  intros H. apply Bool.eq_iff_eq_true. rewrite !all_words_spec.
  split; intros Ht w Hw; [rewrite <- H | rewrite H]; auto.
Qed.

(** The test reads the words of its two nodes only. *)
Lemma Cec2_ObjSimEqual_ext (p p' : Gia_Man_t) (i j : Z) :
  0 < nSimWords p -> nSimWords p' = nSimWords p ->
  (forall w, 0 <= w < nSimWords p ->
     sim_read p' (Cec2_ObjSim p i) w = sim_read p (Cec2_ObjSim p i) w) ->
  (forall w, 0 <= w < nSimWords p ->
     sim_read p' (Cec2_ObjSim p j) w = sim_read p (Cec2_ObjSim p j) w) ->
  Cec2_ObjSimEqual p' i j = Cec2_ObjSimEqual p i j.
Proof.
  intros HW HWp Hi Hj. unfold Cec2_ObjSimEqual.
  assert (Cs : forall x, Cec2_ObjSim p' x = Cec2_ObjSim p x)
    by (intros x; unfold Cec2_ObjSim; now rewrite HWp).
  rewrite !Cs, HWp, (Hi 0), (Hj 0) by lia.
  destruct (_ =? _); apply all_words_ext; intros w Hw; rewrite Hi, Hj by lia; reflexivity.
Qed.

Lemma Cec2_ManDeriveCex_length (p : Gia_Man_t) (iOut iPat : Z) :
  iPo (Cec2_ManDeriveCex p iOut iPat) = iOut
  /\ length (ciBits (Cec2_ManDeriveCex p iOut iPat)) = length (vCis p).
Proof.
  unfold Cec2_ManDeriveCex, Abc_CexAlloc, Gia_ManCiNum, Vec_Size.
  destruct (iPat =? -1); simpl.
  - split; [reflexivity|]. rewrite length_replicate. lia.
  - split; [reflexivity|]. apply length_map.
Qed.

Lemma simulate_cos_loop_spec (p : Gia_Man_t) :
  sims_allocated p -> fanins_below p ->
  forall (vCo : list Z) (i : Z) (q : Gia_Man_t),
    q = set_vSims p (vSims q) -> length (vSims q) = length (vSims p) ->
    Forall (fun Id => Gia_ObjIsCo (Gia_ManObj p Id) = true) vCo -> NoDup vCo ->
    exists q' r,
      simulate_cos_loop vCo i q = (q', r)
      /\ q' = set_pCexSeq (set_vSims p (vSims q')) (pCexSeq q')
      /\ length (vSims q') = length (vSims q)
      /\ (forall c w, 0 <= c -> c ∉ vCo -> 0 <= w < nSimWords p ->
            sim_read q' (Cec2_ObjSim p c) w = sim_read q (Cec2_ObjSim p c) w)
      /\ ((r = 1 /\ pCexSeq q' = pCexSeq p
           /\ forall Id, Id ∈ vCo -> Cec2_ObjSimEqual q' Id 0 = true)
          \/ (r = 0 /\ exists (k : nat) (Id : Z) (cex : Abc_Cex_t),
                vCo !! k = Some Id /\ pCexSeq q' = Some cex
                /\ iPo cex = i + Z.of_nat k
                /\ length (ciBits cex) = length (vCis p)
                /\ Cec2_ObjSimEqual q' Id 0 = false
                /\ forall (k' : nat) (Id' : Z), (k' < k)%nat -> vCo !! k' = Some Id' ->
                     Cec2_ObjSimEqual q' Id' 0 = true)).
Proof.
  intros (HW & Hsz) Hfan.
  induction vCo as [|Id rest IH]; intros i q Hq Hlen Hco Hnd.
  - exists q, 1. split; [reflexivity|].
    split; [rewrite Hq; reflexivity|]. split; [reflexivity|]. split; [auto|].
    left. split; [reflexivity|]. split; [rewrite Hq; reflexivity|].
    intros Id HId. now apply not_elem_of_nil in HId.
  - apply Forall_cons in Hco as (HId & Hco). apply NoDup_cons in Hnd as (Hnin & Hnd).
    assert (Hobj : forall x, Gia_ManObj q x = Gia_ManObj p x) by (rewrite Hq; reflexivity).
    assert (HWq : nSimWords q = nSimWords p) by (rewrite Hq; reflexivity).
    pose proof (Gia_ObjIsCo_in_range _ _ HId) as Hr.
    pose proof (proj2 (Hfan Id) HId) as Hdrv.
    assert (Hpos : forall c, Gia_ObjIsCo (Gia_ManObj p c) = true -> 0 < c).
    { intros c Hc. pose proof (proj2 (Hfan c) Hc). lia. }
    assert (H0rest : forall l, Forall (fun Id => Gia_ObjIsCo (Gia_ManObj p Id) = true) l ->
              0 ∉ l).
    { intros l Hl H0. rewrite Forall_forall in Hl.
      specialize (Hpos 0 (Hl 0 H0)). lia. }
    destruct (Cec2_ObjSimCo_words q Id) as (R1 & R2 & R3 & R4); rewrite ?Hobj, ?HWq; try lia.
    { unfold Gia_ManObjNum, Vec_Size in *. rewrite Hlen. nia. }
    set (q1 := Cec2_ObjSimCo q Id) in *. rewrite HWq in R2.
    assert (Cs : forall x, Cec2_ObjSim q x = Cec2_ObjSim p x)
      by (intros x; unfold Cec2_ObjSim; now rewrite HWq).
    rewrite Cs in R2.
    assert (Hq1 : q1 = set_vSims p (vSims q1)) by (rewrite R4, Hq at 1; reflexivity).
    assert (HW1 : nSimWords q1 = nSimWords p) by (rewrite Hq1; reflexivity).
    assert (Hoth : forall c w, 0 <= c -> c <> Id -> 0 <= w < nSimWords p ->
              sim_read q1 (Cec2_ObjSim p c) w = sim_read q (Cec2_ObjSim p c) w).
    { intros c w Hc Hne Hw. unfold sim_read. apply R2.
      unfold Cec2_ObjSim. apply sim_region_disjoint; lia. }
    change (simulate_cos_loop (Id :: rest) i q)
      with (if Cec2_ObjSimEqual q1 Id 0 then simulate_cos_loop rest (i + 1) q1
            else (set_pCexSeq q1
                    (Some (Cec2_ManDeriveCex q1 i
                             (Abc_TtFindFirstBit2 (vSims q1) (Cec2_ObjSim q1 Id)
                                (nSimWords q1)))), 0)).
    destruct (Cec2_ObjSimEqual q1 Id 0) eqn:Eeq.
    + destruct (IH (i + 1) q1 Hq1 ltac:(congruence) Hco Hnd)
        as (q' & r & Hrun & Hq' & Hlen' & Hfr & Hres).
      assert (HW' : nSimWords q' = nSimWords p) by (rewrite Hq'; reflexivity).
      assert (Hkeep : Cec2_ObjSimEqual q' Id 0 = true).
      { rewrite <- Eeq. rewrite <- (Cec2_ObjSimEqual_ext q1 q' Id 0); try lia.
        - reflexivity.
        - intros w Hw. unfold Cec2_ObjSim. rewrite HW1. apply Hfr; [lia | | lia].
          intros Hin. apply Hnin. now apply list_elem_of_In.
        - intros w Hw. unfold Cec2_ObjSim. rewrite HW1. apply Hfr; [lia | | lia].
          now apply H0rest. }
      exists q', r. split; [exact Hrun|]. split; [exact Hq'|]. split; [congruence|]. split.
      * intros c w Hc Hnc Hw. apply not_elem_of_cons in Hnc as (Hne & Hnc).
        rewrite Hfr by assumption. now apply Hoth.
      * destruct Hres as [(-> & Hcex & Hall)|(-> & k & Id' & cex & Hk & Hcex & Hpo & Hl & Hne & Hbefore)].
        -- left. split; [reflexivity|]. split; [assumption|].
           intros c Hc. apply elem_of_cons in Hc as [->|Hc]; [exact Hkeep | now apply Hall].
        -- right. split; [reflexivity|]. exists (S k), Id', cex.
           split; [exact Hk|]. split; [exact Hcex|]. split; [lia|]. split; [exact Hl|].
           split; [exact Hne|]. intros [|k'] c Hlt Hc; simpl in Hc.
           ++ injection Hc as <-. exact Hkeep.
           ++ apply (Hbefore k' c); [lia | exact Hc].
    + eexists. exists 0. split; [reflexivity|].
      split; [rewrite Hq1; reflexivity|]. split; [exact R3|]. split.
      * intros c w Hc Hnc Hw. apply not_elem_of_cons in Hnc as (Hne & Hnc).
        now apply Hoth.
      * right. split; [reflexivity|]. exists 0%nat, Id. eexists.
        split; [reflexivity|]. split; [reflexivity|].
        destruct (Cec2_ManDeriveCex_length q1 i
                    (Abc_TtFindFirstBit2 (vSims q1) (Cec2_ObjSim q1 Id) (nSimWords q1)))
          as (Hpo & Hl).
        split; [rewrite Hpo; lia|].
        split; [rewrite Hl, Hq1; reflexivity|].
        split; [exact Eeq|]. intros k' c Hlt. lia.
Qed.

(** X11. [Cec2_ManSimulateCos] simulates the outputs in order and stops
    at the first one that is not simulation-equal to the constant: it
    then returns 0 and stores a counter-example that names this output
    and has one bit per CI.  It returns 1 only when every output is
    simulation-equal to the constant, and then leaves the stored
    counter-example as it was. *)
Theorem X11_simulate_cos_first_failure (p : Gia_Man_t) :
  sims_allocated p -> fanins_below p ->
  Forall (fun Id => Gia_ObjIsCo (Gia_ManObj p Id) = true) (vCos p) -> NoDup (vCos p) ->
  exists p' r,
    Cec2_ManSimulateCos p = (p', r)
    /\ p' = set_pCexSeq (set_vSims p (vSims p')) (pCexSeq p')
    /\ ((r = 1 /\ pCexSeq p' = pCexSeq p
         /\ forall Id, Id ∈ vCos p -> Cec2_ObjSimEqual p' Id 0 = true)
        \/ (r = 0 /\ exists (k : nat) (Id : Z) (cex : Abc_Cex_t),
              vCos p !! k = Some Id /\ pCexSeq p' = Some cex
              /\ iPo cex = Z.of_nat k
              /\ length (ciBits cex) = length (vCis p)
              /\ Cec2_ObjSimEqual p' Id 0 = false
              /\ forall (k' : nat) (Id' : Z), (k' < k)%nat -> vCos p !! k' = Some Id' ->
                   Cec2_ObjSimEqual p' Id' 0 = true)).
Proof.
  intros Hal Hfan Hco Hnd. unfold Cec2_ManSimulateCos.
  destruct (simulate_cos_loop_spec p Hal Hfan (vCos p) 0 p) as
    (p' & r & Hrun & Hp' & _ & _ & Hres);
    [destruct p; reflexivity | reflexivity | assumption | assumption|].
  exists p', r. split; [exact Hrun|]. split; [exact Hp'|]. exact Hres.
Qed.

(** ** The result of the sweep and the counter-example *)

Lemma simulate_cos_loop_result (vCo : list Z) :
  forall (i : Z) (q : Gia_Man_t),
    snd (simulate_cos_loop vCo i q) = 1
    \/ (snd (simulate_cos_loop vCo i q) = 0
        /\ pCexSeq (fst (simulate_cos_loop vCo i q)) <> None).
Proof.
  induction vCo as [|Id rest IH]; intros i q; simpl.
  - now left.
  - destruct (Cec2_ObjSimEqual _ Id 0); [apply IH|].
    right. simpl. split; [reflexivity | discriminate].
Qed.

Lemma simulation_round_cex (pPars0 : Cec2_Par_t) (p p' : Gia_Man_t) :
  simulation_round pPars0 p = Ok (p', true) -> pCexSeq p' <> None.
Proof.
  unfold simulation_round. intros H. inv_bind H as p1 H1.
  destruct (par_fIsMiter pPars0); [|inv_Ok H; discriminate].
  unfold Cec2_ManSimulateCos in H.
  pose proof (simulate_cos_loop_result (vCos p1) 0 p1) as Hr.
  destruct (simulate_cos_loop (vCos p1) 0 p1) as [q r]. simpl in Hr.
  injection H as <- Hr'. destruct Hr as [->|(-> & Hc)]; [discriminate | exact Hc].
Qed.

Lemma additional_rounds_cex (n : nat) (pPars0 : Cec2_Par_t) :
  forall (p p' : Gia_Man_t),
    additional_rounds n pPars0 p = Ok (p', true) -> pCexSeq p' <> None.
Proof.
  induction n as [|n IH]; intros p p' H; simpl in H; [inv_Ok H; discriminate|].
  inv_bind H as t Ht. destruct t as [p1 cex]. destruct cex.
  - inv_Ok H. now apply simulation_round_cex in Ht.
  - now apply IH in H.
Qed.

(** X12. Whenever [Cec2_ManPerformSweeping] returns, it returns 0 with
    a counter-example stored in the manager, or 1 with none. *)
Theorem X12_sweeping_result_and_cex
    (fuel : nat) (p p' : Gia_Man_t) (pPars0 : Cec2_Par_t) (r : Z) :
  Cec2_ManPerformSweeping fuel p pPars0 = Ok (p', r) ->
  (r = 0 /\ pCexSeq p' <> None) \/ (r = 1 /\ pCexSeq p' = None).
Proof.
  unfold Cec2_ManPerformSweeping. intros H.
  destruct (if par_fIsMiter pPars0 then _ else None) as [i|].
  { inv_Ok H. left. split; [reflexivity | discriminate]. }
  inv_bind H as t Ht. destruct t as [p1 cex]. destruct cex.
  { inv_Ok H. left. split; [reflexivity | now apply simulation_round_cex in Ht]. }
  inv_bind H as p2 H2. inv_bind H as t3 H3. destruct t3 as [p3 cex3]. destruct cex3.
  { inv_Ok H. left. split; [reflexivity | now apply additional_rounds_cex in H3]. }
  inv_bind H as m Hm. injection H as <- <-.
  change (pCexSeq (Cec2_ManDestroy m)) with (pCexSeq (pAig m)).
  destruct (pCexSeq (pAig m)); [left | right]; split;
    first [reflexivity | discriminate].
Qed.

(** ** The two nodes of a SAT call *)

(** X13. [Cec2_ManSolveTwo] does not depend on the order in which its
    two nodes are given.  With assertions compiled in it stops when the
    two nodes coincide, and when the solver still has variables. *)
Theorem X13_solve_two_argument_order :
  (forall (m : Cec2_Man_t) (a b : Z) (ph : bool),
      Cec2_ManSolveTwo m a b ph = Cec2_ManSolveTwo m b a ph)
  /\ (NDEBUG = false ->
      forall (m : Cec2_Man_t) (a : Z) (ph : bool), Cec2_ManSolveTwo m a a ph = AssertFail)
  /\ (NDEBUG = false ->
      forall (m : Cec2_Man_t) (a b : Z) (ph : bool),
        sat_nvars (pSat m) <> 0 -> Cec2_ManSolveTwo m a b ph = AssertFail).
Proof.
  split; [|split].
  - intros m a b ph.
    destruct (Z.lt_trichotomy a b) as [H|[->|H]]; [|reflexivity|].
    + pose proof (proj2 (Z.ltb_lt a b) H) as E2.
      pose proof (proj2 (Z.ltb_ge b a) ltac:(lia)) as E1.
      unfold Cec2_ManSolveTwo. rewrite E1, E2. cbv beta iota. rewrite ?E1, ?E2. reflexivity.
    + pose proof (proj2 (Z.ltb_lt b a) H) as E2.
      pose proof (proj2 (Z.ltb_ge a b) ltac:(lia)) as E1.
      unfold Cec2_ManSolveTwo. rewrite E1, E2. cbv beta iota. rewrite ?E1, ?E2. reflexivity.
  - intros Hd m a ph. unfold Cec2_ManSolveTwo. rewrite Z.ltb_irrefl. cbv beta iota.
    rewrite Z.ltb_irrefl.
    assert (Ef : assert_ false = AssertFail) by (unfold assert_; now rewrite Hd).
    rewrite Ef. reflexivity.
  - intros Hd m a b ph Hn. unfold Cec2_ManSolveTwo.
    assert (E : assert_ (solver_varnum (pSat m) =? 0) = AssertFail).
    { unfold assert_, solver_varnum. rewrite Hd.
      destruct (Z.eqb_spec (sat_nvars (pSat m)) 0); [contradiction | reflexivity]. }
    assert (Ha : forall c, assert_ c = Ok () \/ assert_ c = AssertFail)
      by (intros c; unfold assert_; destruct (NDEBUG || c); auto).
    destruct (b <? a); cbv beta iota; rewrite E.
    + destruct (Ha (b <? a)) as [-> | ->]; reflexivity.
    + destruct (Ha (a <? b)) as [-> | ->]; reflexivity.
Qed.

(** ** Setting and cleaning a variable *)

(** X14. On a node without a variable, [Cec2_ObjSetSatId] followed by
    [Cec2_ObjCleanSatId] gives back the map as it was.  With assertions
    compiled in, setting a node that has a variable stops, and so does
    cleaning a node that has none. *)
Theorem X14_set_clean_sat_id :
  (forall (p : Gia_Man_t) (pObj Num : Z),
      0 <= pObj < Vec_Size (vCopies p) -> Cec2_ObjSatId p pObj = -1 -> Num <> -1 ->
      exists p1,
        Cec2_ObjSetSatId p pObj Num = Ok (p1, Num)
        /\ Cec2_ObjSatId p1 pObj = Num
        /\ Cec2_ObjCleanSatId p1 pObj = Ok p)
  /\ (NDEBUG = false ->
      forall (p : Gia_Man_t) (pObj Num : Z),
        Cec2_ObjSatId p pObj <> -1 -> Cec2_ObjSetSatId p pObj Num = AssertFail)
  /\ (NDEBUG = false ->
      forall (p : Gia_Man_t) (pObj : Z),
        Cec2_ObjSatId p pObj = -1 -> Cec2_ObjCleanSatId p pObj = AssertFail).
Proof.
  split; [|split].
  - intros p pObj Num Hr Hnone Hnum.
    exists (Gia_ObjSetCopyArray p pObj Num).
    assert (Hget : Cec2_ObjSatId (Gia_ObjSetCopyArray p pObj Num) pObj = Num).
    { unfold Cec2_ObjSatId, Gia_ObjCopyArray, Gia_ObjSetCopyArray. simpl.
      now apply Vec_Entry_write_same. }
    split; [|split; [exact Hget|]].
    + unfold Cec2_ObjSetSatId. rewrite Hnone. change (-1 =? -1) with true.
      rewrite assert_true. reflexivity.
    + unfold Cec2_ObjCleanSatId. rewrite Hget.
      destruct (Z.eqb_spec Num (-1)) as [|_]; [contradiction|]. cbn [negb].
      rewrite assert_true, bind_Ok. unfold mret, res_ret. f_equal.
      unfold Gia_ObjSetCopyArray. simpl.
      assert (E : Vec_WriteEntry (Vec_WriteEntry (vCopies p) pObj Num) pObj (-1) = vCopies p).
      { unfold Cec2_ObjSatId, Gia_ObjCopyArray, Vec_Entry in Hnone.
        unfold Vec_WriteEntry, Vec_Size in *.
        destruct (Z.ltb_spec pObj 0); [lia|].
        rewrite list_insert_insert_eq. apply list_insert_id.
        destruct (vCopies p !! Z.to_nat pObj) eqn:El; [simpl in Hnone; congruence|].
        apply lookup_ge_None in El. lia. }
      rewrite E. destruct p; reflexivity.
  - intros Hd p pObj Num Hv. unfold Cec2_ObjSetSatId, assert_. rewrite Hd.
    destruct (Z.eqb_spec (Cec2_ObjSatId p pObj) (-1)); [contradiction | reflexivity].
  - intros Hd p pObj Hv. unfold Cec2_ObjCleanSatId, assert_. rewrite Hd, Hv. reflexivity.
Qed.

(** ** The nodes collected for cleaning *)

Lemma Cec2_ManCollect_rec_nodes (fuel : nat) :
  forall (m m' : Cec2_Man_t) (iObj : Z),
    Cec2_ManCollect_rec fuel m iObj = Ok m' ->
    (forall x, x ∈ vNodesNew m -> x ∈ travIds (pNew m)) ->
    NoDup (vNodesNew m) ->
    (forall x, x ∈ vNodesNew m -> 0 <= Cec2_ObjSatId (pNew m) x) ->
    (forall x, x ∈ vNodesNew m' -> x ∈ travIds (pNew m'))
    /\ NoDup (vNodesNew m')
    /\ (forall x, x ∈ vNodesNew m' -> 0 <= Cec2_ObjSatId (pNew m') x)
    /\ travIds (pNew m) ⊆ travIds (pNew m').
Proof.
  induction fuel as [|fuel IH]; intros m m' iObj H Hvis Hnd Hsat; [discriminate|].
  simpl in H. unfold Gia_ObjIsTravIdCurrentId in H.
  destruct (decide (iObj ∈ travIds (pNew m))) as [Hin|Hnin].
  { rewrite bool_decide_eq_true_2 in H by assumption. inv_Ok H. auto. }
  rewrite bool_decide_eq_false_2 in H by assumption.
  set (m0 := if 0 <=? _ then _ else _) in H.
  assert (H0 : vCopies (pNew m0) = vCopies (pNew m)
               /\ travIds (pNew m0) = {[ iObj ]} ∪ travIds (pNew m)
               /\ (forall x, x ∈ vNodesNew m0 -> x ∈ travIds (pNew m0))
               /\ NoDup (vNodesNew m0)
               /\ (forall x, x ∈ vNodesNew m0 -> 0 <= Cec2_ObjSatId (pNew m0) x)).
  { subst m0.
    change (Cec2_ObjSatId (Gia_ObjSetTravIdCurrentId (pNew m) iObj) iObj)
      with (Cec2_ObjSatId (pNew m) iObj).
    destruct (Z.leb_spec 0 (Cec2_ObjSatId (pNew m) iObj)) as [Hle|Hlt]; simpl.
    - split; [reflexivity|]. split; [reflexivity|]. split; [|split].
      + intros x Hx. apply elem_of_app in Hx as [Hx|Hx].
        * apply elem_of_union_r. now apply Hvis.
        * apply list_elem_of_singleton in Hx as ->. apply elem_of_union_l.
          now apply elem_of_singleton.
      + apply NoDup_app. split; [assumption|]. split; [|apply NoDup_singleton].
        intros x Hx Hx'. apply list_elem_of_singleton in Hx' as ->.
        apply Hnin. now apply Hvis.
      + intros x Hx. apply elem_of_app in Hx as [Hx|Hx]; [now apply Hsat|].
        apply list_elem_of_singleton in Hx as ->. exact Hle.
    - split; [reflexivity|]. split; [reflexivity|]. split; [|split].
      + intros x Hx. apply elem_of_union_r. now apply Hvis.
      + assumption.
      + assumption. }
  destruct H0 as (Hc0 & Ht0 & Hvis0 & Hnd0 & Hsat0).
  assert (Hsub0 : travIds (pNew m) ⊆ travIds (pNew m0))
    by (rewrite Ht0; apply union_subseteq_r).
  destruct (iObj =? 0).
  { injection H as <-. auto. }
  destruct (Gia_ObjIsAnd _).
  - inv_bind H as m1 H1.
    apply IH in H1 as (Hvis1 & Hnd1 & Hsat1 & Hsub1); [|assumption..].
    apply IH in H as (Hvis2 & Hnd2 & Hsat2 & Hsub2); [|assumption..].
    split; [assumption|]. split; [assumption|]. split; [assumption|].
    intros x Hx. apply Hsub2, Hsub1, Hsub0, Hx.
  - inv_bind H as u Hu. injection H as <-. simpl. auto.
Qed.

Lemma clean_sat_ids_total (V : list Z) :
  forall p : Gia_Man_t,
    NoDup V -> (forall x, x ∈ V -> Cec2_ObjSatId p x <> -1) ->
    exists p', clean_sat_ids V p = Ok p'.
Proof.
  induction V as [|x V IH]; intros p Hnd Hsat; simpl; [eexists; reflexivity|].
  apply NoDup_cons in Hnd as (Hnin & Hnd).
  unfold Cec2_ObjCleanSatId.
  destruct (Z.eqb_spec (Cec2_ObjSatId p x) (-1)) as [E|_].
  { exfalso. apply (Hsat x); [now left | exact E]. }
  cbn [negb]. rewrite assert_true, !bind_Ok. apply IH; [assumption|].
  intros y Hy. unfold Cec2_ObjSatId, Gia_ObjCopyArray, Gia_ObjSetCopyArray. simpl.
  rewrite Vec_Entry_write_other by (intros ->; contradiction).
  apply Hsat. now right.
Qed.

(** X15. The two traversals of [Cec2_ManSolveTwo] record every node at
    most once, and only nodes that have a variable; so the cleaning
    loop that follows runs to its end, also with assertions compiled
    in. *)
Theorem X15_collected_nodes_are_distinct
    (m m3 m4 : Cec2_Man_t) (iObj0 iObj1 : Z) (fuel0 fuel1 : nat) :
  Cec2_ManCollect_rec fuel0 (before_collect m) iObj0 = Ok m3 ->
  Cec2_ManCollect_rec fuel1 m3 iObj1 = Ok m4 ->
  NoDup (vNodesNew m4)
  /\ (forall x, x ∈ vNodesNew m4 -> 0 <= Cec2_ObjSatId (pNew m4) x)
  /\ exists pN, clean_sat_ids (vNodesNew m4) (pNew m4) = Ok pN.
Proof.
  intros H3 H4.
  apply Cec2_ManCollect_rec_nodes in H3 as (Hvis3 & Hnd3 & Hsat3 & _).
  - apply Cec2_ManCollect_rec_nodes in H4 as (Hvis4 & Hnd4 & Hsat4 & _); [|assumption..].
    split; [assumption|]. split; [assumption|].
    apply clean_sat_ids_total; [assumption|].
    intros x Hx. specialize (Hsat4 x Hx). lia.
  - intros x Hx. simpl in Hx. now apply not_elem_of_nil in Hx.
  - simpl. constructor.
  - intros x Hx. simpl in Hx. now apply not_elem_of_nil in Hx.
Qed.

(** ** Fresh variables *)

Lemma vars_inv_set (p : Gia_Man_t) (s : satoko_t) (x : Z) :
  vars_inv p s -> 0 <= sat_nvars s ->
  vars_inv (Gia_ObjSetCopyArray p x (sat_nvars s)) (fst (satoko_add_variable s)).
Proof.
  intros Hinv Hn z Hz Hvz.
  assert (Hsize : Vec_Size (vCopies (Gia_ObjSetCopyArray p x (sat_nvars s)))
                  = Vec_Size (vCopies p)).
  { unfold Gia_ObjSetCopyArray, Vec_Size. simpl. now rewrite length_Vec_WriteEntry. }
  rewrite Hsize in *.
  assert (Hget : forall y, Cec2_ObjSatId (Gia_ObjSetCopyArray p x (sat_nvars s)) y
                 = if (x =? y) && (0 <=? x) && (x <? Vec_Size (vCopies p))
                   then sat_nvars s else Cec2_ObjSatId p y).
  { intros y. unfold Cec2_ObjSatId, Gia_ObjCopyArray, Gia_ObjSetCopyArray. simpl.
    apply Vec_Entry_write. }
  rewrite Hget in Hvz |- *. simpl.
  destruct ((x =? z) && (0 <=? x) && (x <? Vec_Size (vCopies p))) eqn:Ez.
  - split; [lia|]. intros y Hy. rewrite Hget.
    destruct ((x =? y) && (0 <=? x) && (x <? Vec_Size (vCopies p))) eqn:Ey.
    + intros _. apply andb_true_iff in Ez as [Ez _]. apply andb_true_iff in Ez as [Ez _].
      apply andb_true_iff in Ey as [Ey _]. apply andb_true_iff in Ey as [Ey _].
      apply Z.eqb_eq in Ez, Ey. congruence.
    + intros Ey'. destruct (Hinv y Hy ltac:(lia)) as (Hlt & _). lia.
  - destruct (Hinv z Hz Hvz) as (Hlt & Hinj). split; [lia|].
    intros y Hy. rewrite Hget.
    destruct ((x =? y) && (0 <=? x) && (x <? Vec_Size (vCopies p))); [lia|].
    now apply Hinj.
Qed.

Lemma vars_inv_same (p p' : Gia_Man_t) (s s' : satoko_t) :
  vars_inv p s -> vCopies p' = vCopies p -> sat_nvars s <= sat_nvars s' -> vars_inv p' s'.
Proof.
  intros Hinv Hc Hn x. unfold Cec2_ObjSatId, Gia_ObjCopyArray. rewrite Hc.
  intros Hx Hv. destruct (Hinv x Hx Hv) as (Hlt & Hinj).
  split; [unfold Cec2_ObjSatId, Gia_ObjCopyArray in Hlt; lia | exact Hinj].
Qed.

Lemma Cec2_ObjAddToFrontier_vars (p p' : Gia_Man_t) (x : Z) (vF vF' : list Z) (s s' : satoko_t) :
  Cec2_ObjAddToFrontier p x vF s = Ok (p', vF', s') ->
  vars_inv p s -> 0 <= sat_nvars s ->
  vars_inv p' s' /\ sat_nvars s <= sat_nvars s'
  /\ length (vCopies p') = length (vCopies p)
  /\ (forall y, 0 <= Cec2_ObjSatId p y -> Cec2_ObjSatId p' y = Cec2_ObjSatId p y).
Proof.
  intros H Hinv Hn.
  apply Cec2_ObjAddToFrontier_Ok in H as [(-> & -> & -> & _)|(Hneg & -> & -> & ->)].
  - split; [assumption|]. split; [lia|]. auto.
  - split; [now apply vars_inv_set|]. split; [simpl; lia|].
    split; [unfold Gia_ObjSetCopyArray; simpl; apply length_Vec_WriteEntry|].
    intros y Hy. unfold Cec2_ObjSatId, Gia_ObjCopyArray, Gia_ObjSetCopyArray. simpl.
    apply Vec_Entry_write_other. intros ->. lia.
Qed.

Lemma add_fanins_to_frontier_vars (vFan : list Gia_Ptr) :
  forall (m m' : Cec2_Man_t),
    add_fanins_to_frontier vFan m = Ok m' ->
    vars_inv (pNew m) (pSat m) -> 0 <= sat_nvars (pSat m) ->
    vars_inv (pNew m') (pSat m') /\ sat_nvars (pSat m) <= sat_nvars (pSat m')
    /\ length (vCopies (pNew m')) = length (vCopies (pNew m))
    /\ (forall y, 0 <= Cec2_ObjSatId (pNew m) y ->
          Cec2_ObjSatId (pNew m') y = Cec2_ObjSatId (pNew m) y).
Proof.
  induction vFan as [|q rest IH]; intros m m' H Hinv Hn; simpl in H.
  - inv_Ok H. split; [assumption|]. split; [lia|]. auto.
  - inv_bind H as t Ht. destruct t as [[pN vF] s].
    apply Cec2_ObjAddToFrontier_vars in Ht as (Hi1 & Hn1 & Hl1 & Hk1); [|assumption..].
    apply IH in H as (Hi2 & Hn2 & Hl2 & Hk2); [|exact Hi1 | simpl; lia].
    simpl in Hn2, Hl2, Hk2.
    split; [assumption|]. split; [lia|]. split; [congruence|].
    intros y Hy. rewrite Hk2 by (rewrite Hk1; assumption). now apply Hk1.
Qed.

Lemma frontier_step_vars (fUseMuxes : bool) (m m' : Cec2_Man_t) (pNode : Z) :
  frontier_step fUseMuxes m pNode = Ok m' ->
  vars_inv (pNew m) (pSat m) -> 0 <= sat_nvars (pSat m) ->
  vars_inv (pNew m') (pSat m') /\ sat_nvars (pSat m) <= sat_nvars (pSat m')
  /\ length (vCopies (pNew m')) = length (vCopies (pNew m))
  /\ (forall y, 0 <= Cec2_ObjSatId (pNew m) y ->
        Cec2_ObjSatId (pNew m') y = Cec2_ObjSatId (pNew m) y).
Proof.
  unfold frontier_step. intros H Hinv Hn. inv_bind H as u Hu. inv_bind H as m1 H1.
  inv_bind H as u' Hu'. inv_Ok H.
  destruct (fUseMuxes && _).
  - inv_bind H1 as m2 H2.
    apply add_fanins_to_frontier_vars in H2 as (Hi & Hn2 & Hl & Hk); [|assumption..].
    inv_bind H1 as s Hs. inv_Ok H1. apply Cec2_AddClausesMux_stable, sat_same_nvars in Hs.
    simpl in *. split; [eapply vars_inv_same; [exact Hi | reflexivity | lia]|].
    split; [lia|]. auto.
  - inv_bind H1 as vSuper Hsup. inv_bind H1 as m2 H2.
    apply add_fanins_to_frontier_vars in H2 as (Hi & Hn2 & Hl & Hk); [|assumption..].
    inv_bind H1 as s Hs. inv_Ok H1. apply Cec2_AddClausesSuper_stable, sat_same_nvars in Hs.
    simpl in *. split; [eapply vars_inv_same; [exact Hi | reflexivity | lia]|].
    split; [lia|]. auto.
Qed.

Lemma frontier_loop_vars (fuel : nat) (fUseMuxes : bool) :
  forall (m m' : Cec2_Man_t) (i : Z),
    frontier_loop fuel fUseMuxes m i = Ok m' ->
    vars_inv (pNew m) (pSat m) -> 0 <= sat_nvars (pSat m) ->
    vars_inv (pNew m') (pSat m') /\ sat_nvars (pSat m) <= sat_nvars (pSat m')
    /\ length (vCopies (pNew m')) = length (vCopies (pNew m))
    /\ (forall y, 0 <= Cec2_ObjSatId (pNew m) y ->
          Cec2_ObjSatId (pNew m') y = Cec2_ObjSatId (pNew m) y).
Proof.
  induction fuel as [|fuel IH]; intros m m' i H Hinv Hn; simpl in H.
  - destruct (i <? _); [discriminate|]. inv_Ok H. split; [assumption|]. split; [lia|]. auto.
  - destruct (i <? _); [|inv_Ok H; split; [assumption|]; split; [lia|]; auto].
    inv_bind H as m1 H1.
    apply frontier_step_vars in H1 as (Hi1 & Hn1 & Hl1 & Hk1); [|assumption..].
    apply IH in H as (Hi2 & Hn2 & Hl2 & Hk2); [|exact Hi1 | lia].
    split; [assumption|]. split; [lia|]. split; [congruence|].
    intros y Hy. rewrite Hk2 by (rewrite Hk1; assumption). now apply Hk1.
Qed.

(** X16. [Cec2_ObjGetCnfVar] hands out fresh variables only: after the
    call no two nodes share a variable, every variable is below the
    number of variables of the solver, and a node that had a variable
    has kept it.  The number returned is the variable of the node. *)
Theorem X16_cnf_variables_are_fresh (m m' : Cec2_Man_t) (iObj v : Z) :
  Cec2_ObjGetCnfVar m iObj = Ok (m', v) ->
  vars_inv (pNew m) (pSat m) -> 0 <= sat_nvars (pSat m) ->
  0 <= iObj < Vec_Size (vCopies (pNew m)) ->
  vars_inv (pNew m') (pSat m')
  /\ sat_nvars (pSat m) <= sat_nvars (pSat m')
  /\ (forall y, 0 <= Cec2_ObjSatId (pNew m) y ->
        Cec2_ObjSatId (pNew m') y = Cec2_ObjSatId (pNew m) y)
  /\ Cec2_ObjSatId (pNew m') iObj = v
  /\ 0 <= v < sat_nvars (pSat m').
Proof.
  unfold Cec2_ObjGetCnfVar. intros H Hinv Hn Hr.
  destruct (Z.leb_spec 0 (Cec2_ObjSatId (pNew m) iObj)) as [Hle|Hlt].
  - inv_Ok H. split; [assumption|]. split; [lia|]. split; [auto|]. split; [reflexivity|].
    destruct (Hinv iObj Hr Hle). lia.
  - inv_bind H as u Hu. destruct (Gia_ObjIsCi _).
    + simpl in H. inv_bind H as pr Hpr. destruct pr as [pN Num].
      apply Cec2_ObjSetSatId_Ok in Hpr as [-> ->]. inv_Ok H. simpl.
      split; [now apply vars_inv_set|]. split; [lia|]. split; [|split].
      * intros y Hy. unfold Cec2_ObjSatId, Gia_ObjCopyArray, Gia_ObjSetCopyArray. simpl.
        apply Vec_Entry_write_other. intros ->. lia.
      * unfold Cec2_ObjSatId, Gia_ObjCopyArray, Gia_ObjSetCopyArray. simpl.
        now apply Vec_Entry_write_same.
      * lia.
    + inv_bind H as u' Hu'. inv_bind H as t Ht. destruct t as [[pN vF] s].
      inv_bind H as m1 H1. inv_Ok H. simpl in Ht.
      pose proof Ht as Ht'.
      apply Cec2_ObjAddToFrontier_vars in Ht as (Hi1 & Hn1 & Hl1 & Hk1); [|assumption..].
      apply frontier_loop_vars in H1 as (Hi2 & Hn2 & Hl2 & Hk2); [|exact Hi1 | simpl; lia].
      simpl in Hn2, Hl2, Hk2.
      assert (Hnew : Cec2_ObjSatId pN iObj = sat_nvars (pSat m)).
      { apply Cec2_ObjAddToFrontier_Ok in Ht' as [(_ & _ & _ & Hge)|(_ & -> & _ & _)]; [lia|].
        unfold Cec2_ObjSatId, Gia_ObjCopyArray, Gia_ObjSetCopyArray. simpl.
        now apply Vec_Entry_write_same. }
      assert (Hfinal : Cec2_ObjSatId (pNew m') iObj = sat_nvars (pSat m))
        by (rewrite Hk2; [exact Hnew | rewrite Hnew; lia]).
      split; [assumption|]. split; [lia|]. split; [|split].
      * intros y Hy. rewrite Hk2 by (rewrite Hk1; assumption). now apply Hk1.
      * reflexivity.
      * rewrite Hfinal. split; [lia|].
        assert (Hr1 : 0 <= iObj < Vec_Size (vCopies (pNew m')))
          by (unfold Vec_Size in *; rewrite Hl2, Hl1; exact Hr).
        destruct (Hi2 iObj Hr1 ltac:(lia)) as (Hlt' & _). lia.
Qed.

(** ** The manager built by [Cec2_ManCreate] *)

Lemma Gia_ManAppendCi_fold (l : list Z) :
  forall (pA pN : Gia_Man_t),
    NoDup l ->
    let r := fold_left (fun '(pA, pN) Id =>
                          let '(pN, lit) := Gia_ManAppendCi pN in
                          (Gia_ManSetObj pA Id (obj_set_Value (Gia_ManObj pA Id) lit), pN))
                       l (pA, pN) in
    pObjs (snd r)
    = pObjs pN ++ map (fun j => mkObj GiaCi 0 0 (Gia_ManCiNum pN + Z.of_nat j)
                                  false false false 0) (seq 0 (length l))
    /\ length (vCis (snd r)) = (length (vCis pN) + length l)%nat
    /\ fst r = set_pObjs pA (pObjs (fst r))
    /\ length (pObjs (fst r)) = length (pObjs pA)
    /\ (forall (k : nat) (Id : Z), l !! k = Some Id -> 0 <= Id < Gia_ManObjNum pA ->
          Gia_ManObj (fst r) Id
          = obj_set_Value (Gia_ManObj pA Id)
              (Abc_Var2Lit (Gia_ManObjNum pN + Z.of_nat k) false))
    /\ (forall x, x ∉ l -> Gia_ManObj (fst r) x = Gia_ManObj pA x).
Proof.
  induction l as [|Id rest IH]; intros pA pN Hnd r.
  - subst r. simpl. rewrite app_nil_r. split; [reflexivity|]. split; [lia|].
    split; [destruct pA; reflexivity|]. split; [reflexivity|].
    split; [intros k Id Hk; discriminate Hk | auto].
  - apply NoDup_cons in Hnd as (Hnin & Hnd).
    set (pN1 := fst (Gia_ManAppendCi pN)).
    set (pA1 := Gia_ManSetObj pA Id
                  (obj_set_Value (Gia_ManObj pA Id) (Abc_Var2Lit (Gia_ManObjNum pN) false))).
    destruct (IH pA1 pN1 Hnd) as (I1 & I2 & I3 & I4 & I5 & I6).
    change (fold_left _ (Id :: rest) (pA, pN)) with (fold_left
      (fun '(pA, pN) Id =>
         let '(pN, lit) := Gia_ManAppendCi pN in
         (Gia_ManSetObj pA Id (obj_set_Value (Gia_ManObj pA Id) lit), pN)) rest (pA1, pN1)) in r.
    fold r in I1, I2, I3, I4, I5, I6.
    assert (HnumA : Gia_ManObjNum pA1 = Gia_ManObjNum pA).
    { unfold pA1, Gia_ManObjNum, Gia_ManSetObj, Vec_Size. simpl.
      now rewrite length_Vec_WriteEntry. }
    assert (HnumN : Gia_ManObjNum pN1 = Gia_ManObjNum pN + 1).
    { unfold pN1, Gia_ManObjNum, Gia_ManAppendCi, Vec_Size. simpl.
      rewrite length_app. simpl. lia. }
    assert (HciN : Gia_ManCiNum pN1 = Gia_ManCiNum pN + 1).
    { unfold pN1, Gia_ManCiNum, Gia_ManAppendCi, Vec_Size. simpl.
      rewrite length_app. simpl. lia. }
    split; [|split; [|split; [|split; [|split]]]].
    + rewrite I1. unfold pN1 at 1. unfold Gia_ManAppendCi. simpl.
      rewrite <- app_assoc. f_equal. simpl. f_equal.
      * now rewrite Z.add_0_r.
      * rewrite <- seq_shift, map_map. apply map_ext. intros j.
        rewrite HciN. f_equal. lia.
    + rewrite I2. unfold pN1, Gia_ManAppendCi. simpl. rewrite length_app. simpl. lia.
    + rewrite I3 at 1. reflexivity.
    + rewrite I4. unfold pA1, Gia_ManSetObj. simpl. apply length_Vec_WriteEntry.
    + intros [|k] Id' Hk Hr; simpl in Hk.
      * injection Hk as <-. rewrite I6 by (intros Hin; apply Hnin; exact Hin).
        unfold pA1. rewrite Gia_ManObj_SetObj, Z.eqb_refl. simpl.
        destruct (Z.leb_spec 0 Id), (Z.ltb_spec Id (Gia_ManObjNum pA)); try lia.
        simpl. now rewrite Z.add_0_r.
      * rewrite (I5 k Id' Hk) by (rewrite HnumA; exact Hr).
        assert (Id' <> Id).
        { intros ->. apply Hnin. eapply list_elem_of_lookup_2. exact Hk. }
        unfold pA1 at 1. rewrite Gia_ManObj_SetObj.
        destruct (Z.eqb_spec Id Id'); [congruence|]. simpl.
        rewrite HnumN. f_equal. f_equal. lia.
    + intros x Hx. apply not_elem_of_cons in Hx as (Hne & Hx).
      rewrite I6 by assumption. unfold pA1. rewrite Gia_ManObj_SetObj.
      destruct (Z.eqb_spec Id x); [congruence | reflexivity].
Qed.

(** X17. [Cec2_ManCreate] starts the rebuilt AIG with the constant and
    one CI for every CI of the user's AIG, in order, and records in the
    CIs of the user's AIG the literals of their copies; the [satVar]
    map has one entry per node of the rebuilt AIG, all of them -1, and
    the solver has no variable.  The rebuilt AIG is well formed. *)
Theorem X17_manager_creation (pAig0 : Gia_Man_t) (pPars0 : Cec2_Par_t) :
  NoDup (vCis pAig0) ->
  Forall (fun Id => 0 < Id < Gia_ManObjNum pAig0) (vCis pAig0) ->
  let m := Cec2_ManCreate pAig0 pPars0 in
  wf_new (pNew m)
  /\ Gia_ManObjNum (pNew m) = 1 + Gia_ManCiNum pAig0
  /\ (forall x, 0 <= x < Gia_ManObjNum (pNew m) -> Cec2_ObjSatId (pNew m) x = -1)
  /\ sat_nvars (pSat m) = 0
  /\ vars_inv (pNew m) (pSat m)
  /\ Value (Gia_ManObj (pAig m) 0) = 0
  /\ (forall (k : nat) (Id : Z), vCis pAig0 !! k = Some Id ->
        Value (Gia_ManObj (pAig m) Id) = Abc_Var2Lit (1 + Z.of_nat k) false
        /\ Gia_ObjIsCi (Gia_ManObj (pNew m) (1 + Z.of_nat k)) = true)
  /\ (forall x, 0 < x < Gia_ManObjNum pAig0 -> x ∉ vCis pAig0 ->
        Value (Gia_ManObj (pAig m) x) = VALUE_NONE).
Proof.
  intros Hnd Hall m.
  set (pA0 := Gia_ManSetObj (Gia_ManFillValue pAig0) 0
                (obj_set_Value (Gia_ManObj (Gia_ManFillValue pAig0) 0) 0)).
  destruct (Gia_ManAppendCi_fold (vCis pAig0) pA0 Gia_ManStart Hnd)
    as (F1 & F2 & F3 & F4 & F5 & F6).
  set (r := fold_left _ (vCis pAig0) (pA0, Gia_ManStart)) in *.
  assert (Hm : m = mkMan pPars0 (fst r)
                     (set_vCopies (snd r) (replicate (length (pObjs (snd r))) (-1)))
                     satoko_create [] [] [] [] []).
  { subst m. unfold Cec2_ManCreate. fold pA0.
    change (vCis pA0) with (vCis pAig0). fold r. destruct r as [pA pN]. reflexivity. }
  assert (HN : Gia_ManObjNum pA0 = Gia_ManObjNum pAig0).
  { unfold pA0, Gia_ManObjNum, Gia_ManSetObj, Gia_ManFillValue, Vec_Size. simpl.
    now rewrite length_Vec_WriteEntry, length_map. }
  assert (Hfill : forall x, 0 <= x < Gia_ManObjNum pAig0 ->
            Value (Gia_ManObj (Gia_ManFillValue pAig0) x) = VALUE_NONE).
  { intros x Hx. unfold Gia_ManObj, Gia_ManFillValue, Vec_Entry. simpl.
    destruct (Z.ltb_spec x 0); [lia|]. rewrite list_lookup_fmap.
    unfold Gia_ManObjNum, Vec_Size in Hx.
    destruct (pObjs pAig0 !! Z.to_nat x) eqn:E; [reflexivity|].
    apply lookup_ge_None in E. lia. }
  assert (HobjN : forall i, 0 <= i < 1 + Gia_ManCiNum pAig0 ->
            Gia_ManObj (snd r) i
            = if i =? 0 then Gia_ObjDefault
              else mkObj GiaCi 0 0 (i - 1) false false false 0).
  { intros i Hi. unfold Gia_ManObj, Vec_Entry. rewrite F1.
    destruct (Z.ltb_spec i 0); [lia|]. simpl.
    destruct (Z.eqb_spec i 0) as [->|Hne]; [reflexivity|].
    replace (Z.to_nat i) with (S (Z.to_nat (i - 1))) by lia. simpl.
    rewrite list_lookup_fmap, lookup_seq_lt.
    - simpl. f_equal. unfold Gia_ManCiNum, Vec_Size. simpl. lia.
    - unfold Gia_ManCiNum, Vec_Size in Hi. lia. }
  assert (HnumN : Gia_ManObjNum (snd r) = 1 + Gia_ManCiNum pAig0).
  { unfold Gia_ManObjNum, Vec_Size. rewrite F1, length_app, length_map, length_seq.
    unfold Gia_ManCiNum, Vec_Size. simpl. lia. }
  rewrite Hm. cbn [pNew pAig pSat].
  assert (Hsat : forall x, 0 <= x < 1 + Gia_ManCiNum pAig0 ->
            Cec2_ObjSatId (set_vCopies (snd r) (replicate (length (pObjs (snd r))) (-1))) x
            = -1).
  { intros x Hx. unfold Cec2_ObjSatId, Gia_ObjCopyArray, Vec_Entry. simpl.
    destruct (Z.ltb_spec x 0); [lia|]. rewrite lookup_replicate_2; [reflexivity|].
    unfold Gia_ManObjNum, Vec_Size in HnumN. lia. }
  split; [|split; [|split; [|split; [|split; [|split; [|split]]]]]].
  - split; [simpl; now rewrite length_replicate|].
    intros i Hi. change (Gia_ManObjNum (set_vCopies (snd r) _)) with (Gia_ManObjNum (snd r)) in Hi.
    change (Gia_ManObj (set_vCopies (snd r) ?c) i) with (Gia_ManObj (snd r) i).
    rewrite HnumN in Hi. cbv zeta. rewrite (HobjN i Hi).
    destruct (Z.eqb_spec i 0) as [->|Hne].
    + split; [lia|]. split; intros H; discriminate H.
    + split; [intros _; now left|]. split; intros H; discriminate H.
  - exact HnumN.
  - intros x Hx. apply Hsat.
    change (Gia_ManObjNum (set_vCopies (snd r) _)) with (Gia_ManObjNum (snd r)) in Hx. lia.
  - reflexivity.
  - intros x Hx Hv. exfalso.
    assert (Hx' : 0 <= x < 1 + Gia_ManCiNum pAig0).
    { unfold Vec_Size in Hx. simpl in Hx. rewrite length_replicate in Hx.
      unfold Gia_ManObjNum, Vec_Size in HnumN. lia. }
    rewrite (Hsat x Hx') in Hv. lia.
  - rewrite F6.
    + unfold pA0. rewrite Gia_ManObj_SetObj. simpl.
      destruct (0 <? Gia_ManObjNum (Gia_ManFillValue pAig0)) eqn:E; [reflexivity|].
      unfold Gia_ManObj. rewrite Vec_Entry_default_out; [reflexivity|].
      apply Z.ltb_ge in E. unfold Gia_ManObjNum in E. lia.
    + intros Hin. rewrite Forall_forall in Hall. specialize (Hall 0 Hin). lia.
  - intros k Id Hk.
    assert (HId : 0 < Id < Gia_ManObjNum pAig0).
    { rewrite Forall_forall in Hall. apply Hall. eapply list_elem_of_lookup_2. exact Hk. }
    split.
    + rewrite (F5 k Id Hk) by (rewrite HN; lia). reflexivity.
    + change (Gia_ManObj (set_vCopies (snd r) ?c) ?i) with (Gia_ManObj (snd r) i).
      apply lookup_lt_Some in Hk.
      rewrite HobjN by (unfold Gia_ManCiNum, Vec_Size; lia).
      destruct (Z.eqb_spec (1 + Z.of_nat k) 0); [lia | reflexivity].
  - intros x Hx Hnin. rewrite F6 by assumption. unfold pA0. rewrite Gia_ManObj_SetObj.
    destruct (Z.eqb_spec 0 x); [lia|]. cbn [andb]. apply Hfill. lia.
Qed.
(** ** The refinement pass over all classes *)

Lemma Cec2_ManSimClassRefineOne_split (p : Gia_Man_t) (r : Z) (ms : list Z) :
  class_members p r ms ->
  increasing (r :: ms) ->
  Forall (fun x => 0 <= x < Vec_Size (pNexts p) /\ 0 <= x < Vec_Size (Gia_ReprArray p))
         (r :: ms) ->
  Gia_ObjRepr p r = GIA_VOID ->
  ms <> [] ->
  let keep := List.filter (Cec2_ObjSimEqual p r) ms in
  let move := List.filter (fun x => negb (Cec2_ObjSimEqual p r x)) ms in
  exists p',
    Cec2_ManSimClassRefineOne p r = Ok p'
    /\ class_members p' r keep
    /\ (forall x, In x (r :: keep) -> Gia_ObjRepr p' x = Gia_ObjRepr p x)
    /\ match move with
       | [] => p' = p
       | h2 :: rest =>
           class_members p' h2 rest
           /\ Gia_ObjRepr p' h2 = GIA_VOID
           /\ (forall x, In x rest -> Gia_ObjRepr p' x = h2)
       end
    /\ (forall j, ~ In j (r :: ms) ->
          Gia_ObjNext p' j = Gia_ObjNext p j /\ Gia_ObjRepr p' j = Gia_ObjRepr p j)
    /\ links_only p p'.
Proof.
  intros Hcls Hinc Hrange Hvoid Hne keep move.
  unfold Cec2_ManSimClassRefineOne.
  assert (Hhead : Gia_ObjIsHead p r = true).
  { unfold Gia_ObjIsHead. rewrite Hvoid, Z.eqb_refl. simpl.
    destruct ms as [|x t]; [congruence|]. destruct Hcls as (-> & Hpos & _).
    now apply Z.ltb_lt. }
  rewrite Hhead, assert_true. simpl.
  destruct (refine_scan_spec p r ms r (length (pNexts p)) Hcls) as
    (pre & post & iRepr2 & Hms & Hpre & Hscan & Hpost).
  { inversion Hrange as [|? ? _ Hrms]; subst. destruct Hinc as (Hrlt & Hinc).
    replace (length (pNexts p)) with (Z.to_nat (Vec_Size (pNexts p)))
      by (unfold Vec_Size; lia).
    apply (increasing_length_bound ms (Vec_Size (pNexts p))); [|assumption].
    rewrite Forall_forall in Hrms |- *. intros y Hy. specialize (Hrms y Hy). lia. }
  rewrite Hscan. simpl.
  destruct post as [|h2 todo].
  - (* every member agrees with the head *)
    assert ((iRepr2 <=? 0) = true) as -> by (apply Z.leb_le; assumption).
    rewrite app_nil_r in Hms. subst pre.
    destruct (filter_all_true _ _ Hpre) as (Hk & Hm).
    subst keep move. rewrite Hk, Hm. exists p.
    split; [reflexivity|]. split; [assumption|]. split; [reflexivity|].
    split; [reflexivity|]. split; [auto | apply links_only_refl].
  - destruct Hpost as (-> & Hpos2 & Hneq).
    assert ((h2 <=? 0) = false) as -> by (apply Z.leb_gt; assumption).
    (* the shape of the class *)
    destruct (filter_all_true _ _ Hpre) as (Hk & Hm).
    assert (Hkeep : keep = pre ++ List.filter (Cec2_ObjSimEqual p r) todo).
    { subst keep. rewrite Hms, List.filter_app, Hk. simpl. now rewrite Hneq. }
    assert (Hmove : move = h2 :: List.filter (fun x => negb (Cec2_ObjSimEqual p r x)) todo).
    { subst move. rewrite Hms, List.filter_app, Hm. simpl. now rewrite Hneq. }
    set (K := List.filter (Cec2_ObjSimEqual p r) todo) in *.
    set (M := List.filter (fun x => negb (Cec2_ObjSimEqual p r x)) todo) in *.
    set (iPrev := List.last (r :: pre) 0) in *.
    (* order and range of the nodes *)
    change (r :: ms) with ([r] ++ ms) in Hinc. rewrite Hms in Hinc.
    replace ([r] ++ pre ++ h2 :: todo) with ((r :: pre) ++ h2 :: todo) in Hinc by reflexivity.
    apply increasing_app in Hinc as (Hinc1 & Hinc2 & Hcross).
    destruct Hinc2 as (Hh2 & Hinc3).
    rewrite Hms in Hrange.
    replace (r :: pre ++ h2 :: todo) with ((r :: pre) ++ h2 :: todo) in Hrange by reflexivity.
    apply Forall_app in Hrange as (Hrange1 & Hrange2).
    inversion Hrange2 as [|? ? Hrh2 Hrtodo]; subst.
    assert (HiPrev : In iPrev (r :: pre)) by apply last_In.
    assert (HriPrev : 0 <= iPrev < Vec_Size (pNexts p) /\ 0 <= iPrev < Vec_Size (Gia_ReprArray p)).
    { rewrite Forall_forall in Hrange1. apply Hrange1, list_elem_of_In, HiPrev. }
    assert (HiPrev_lt : iPrev < h2) by (apply Hcross; [exact HiPrev | now left]).
    (* the new head *)
    destruct (Gia_ObjSetRepr_Ok p h2 GIA_VOID ltac:(now left))
      as (pa & HSet & HLa & Hnxa & Hra & Hrb).
    rewrite HSet. simpl.
    assert (Hnext_a : forall j, Gia_ObjNext pa j = Gia_ObjNext p j)
      by (intros j; unfold Gia_ObjNext; now rewrite Hnxa).
    assert (Hlen_a : length (pNexts pa) = length (pNexts p)) by (now rewrite Hnxa).
    rewrite Hlen_a, Hnext_a.
    unfold class_members in Hcls.
    pose proof (chain_at_app_inv _ _ _ _ _ Hcls) as (_ & Hch_todo).
    destruct (refine_relink_spec p r h2 todo pa iPrev h2 (Gia_ObjNext p h2) (length (pNexts p)))
      as (p2 & iPrevF & iPrev2F & Hrun & HL2 & HF1 & HF2 & Hs1 & Hs2 & Hfr & Hrp & Hrq);
      try assumption.
    + eapply chain_at_ext; [|exact Hch_todo]. intros y _. apply Hnext_a.
    + replace (length (pNexts p)) with (Z.to_nat (Vec_Size (pNexts p)))
        by (unfold Vec_Size; lia).
      apply (increasing_length_bound todo (Vec_Size (pNexts p))); [|assumption].
      rewrite Forall_forall in Hrtodo |- *. intros y Hy. specialize (Hrtodo y Hy). lia.
    + rewrite Forall_forall in Hh2 |- *. intros y Hy. specialize (Hh2 y Hy).
      assert (iPrev < y) by (apply Hcross; [exact HiPrev | right; now apply list_elem_of_In]).
      lia.
    + lia.
    + change (match pre with [] => r | _ :: _ => List.last pre 0 end) with iPrev.
      rewrite Hrun. simpl. eexists. split; [reflexivity|].
      fold K in HF1, Hs1. fold M in HF2, Hs2, Hrp, Hrq.
      set (p3 := Gia_ObjSetNext p2 iPrevF (-1)).
      set (p4 := Gia_ObjSetNext p3 iPrev2F (-1)).
      (* where the kept and the moved members sit *)
      assert (HK : forall x, In x K -> In x todo /\ Cec2_ObjSimEqual p r x = true)
        by (intros x Hx; now apply filter_In in Hx).
      assert (HM : forall x, In x M -> In x todo /\ Cec2_ObjSimEqual p r x = false).
      { intros x Hx. apply filter_In in Hx as (? & Hx). split; [assumption|].
        now apply negb_true_iff in Hx. }
      assert (Hh2' : forall b, In b todo -> h2 < b).
      { intros b Hb. rewrite Forall_forall in Hh2. now apply Hh2, list_elem_of_In. }
      assert (Hlow : forall a, In a (r :: pre) -> a < h2 /\ ~ In a todo).
      { intros a Ha. split; [apply Hcross; [assumption | now left]|].
        intros Hin. specialize (Hcross a a Ha ltac:(now right)). lia. }
      assert (HincK : increasing (iPrev :: K)).
      { split; [|now apply increasing_filter].
        rewrite Forall_forall. intros y Hy. apply list_elem_of_In in Hy.
        apply Hcross; [exact HiPrev | right; now apply HK]. }
      assert (HincM : increasing (h2 :: M)).
      { split; [|now apply increasing_filter].
        rewrite Forall_forall. intros y Hy. apply list_elem_of_In in Hy.
        now apply Hh2', HM. }
      assert (HinF1 : In iPrevF (iPrev :: K)) by (rewrite HF1; apply last_In).
      assert (HinF2 : In iPrev2F (h2 :: M)) by (rewrite HF2; apply last_In).
      assert (Hdisj : forall a b, In a (iPrev :: K) -> In b (h2 :: M) -> a <> b).
      { intros a b [<-|Ha] [<-|Hb]; try lia.
        - apply HM in Hb as (Hb & _). apply Hh2' in Hb. lia.
        - apply HK in Ha as (Ha & _). apply Hh2' in Ha. lia.
        - apply HK in Ha as (_ & Ha). apply HM in Hb as (_ & Hb). congruence. }
      assert (HneF : iPrevF <> iPrev2F) by (now apply Hdisj).
      assert (Hlen2 : Vec_Size (pNexts p2) = Vec_Size (pNexts p)).
      { destruct HL2 as (_ & _ & _ & H1 & _). unfold Vec_Size. now rewrite H1. }
      assert (Hin_range : forall x, In x (iPrev :: K) \/ In x (h2 :: M) ->
                 0 <= x < Vec_Size (pNexts p)).
      { rewrite Forall_forall in Hrtodo.
        intros x [[<-|Hx]|[<-|Hx]]; try lia.
        - apply HK in Hx as (Hx & _). apply list_elem_of_In, Hrtodo in Hx. lia.
        - apply HM in Hx as (Hx & _). apply list_elem_of_In, Hrtodo in Hx. lia. }
      (* the links after the two final writes *)
      assert (Hnx4 : forall j, j <> iPrevF -> j <> iPrev2F -> Gia_ObjNext p4 j = Gia_ObjNext p2 j).
      { intros j H1 H2. unfold p4, p3.
        now rewrite !Gia_ObjNext_SetNext_other by congruence. }
      assert (Hend1 : Gia_ObjNext p4 iPrevF = -1).
      { unfold p4. rewrite Gia_ObjNext_SetNext_other by congruence.
        unfold p3. apply Gia_ObjNext_SetNext_same. rewrite Hlen2. apply Hin_range. now left. }
      assert (Hend2 : Gia_ObjNext p4 iPrev2F = -1).
      { unfold p4. apply Gia_ObjNext_SetNext_same.
        unfold p3, Gia_ObjSetNext, Vec_Size. simpl. rewrite length_Vec_WriteEntry.
        fold (Vec_Size (pNexts p2)). rewrite Hlen2. apply Hin_range. now right. }
      assert (Hrp4 : forall j, Gia_ObjRepr p4 j = Gia_ObjRepr p2 j) by reflexivity.
      (* the original chain *)
      apply chain_seg in Hcls as (Hseg & Hposall & _).
      apply seg_app_inv in Hseg as (Hseg_pre & _).
      apply Forall_app in Hposall as (Hpos_pre & Hpos_rest).
      apply Forall_cons in Hpos_rest as (_ & Hpos_todo).
      assert (HposK : Forall (fun x => 0 < x) K).
      { rewrite Forall_forall in Hpos_todo |- *. intros y Hy.
        apply Hpos_todo. apply list_elem_of_In. apply list_elem_of_In in Hy. now apply HK. }
      assert (HposM : Forall (fun x => 0 < x) M).
      { rewrite Forall_forall in Hpos_todo |- *. intros y Hy.
        apply Hpos_todo. apply list_elem_of_In. apply list_elem_of_In in Hy. now apply HM. }
      split; [|split; [|split; [|split]]].
      * (* the class of r *)
        rewrite Hkeep. unfold class_members. apply seg_chain.
        -- apply seg_app.
           ++ eapply seg_ext; [|exact Hseg_pre]. intros j Hj.
              pose proof (increasing_last_not_before _ _ _ Hinc1 Hj) as Hjl. fold iPrev in Hjl.
              apply In_removelast in Hj. destruct (Hlow j Hj) as (Hj1 & Hj2).
              rewrite Hnx4.
              ** rewrite Hfr by (try lia; assumption). apply Hnext_a.
              ** intros ->. destruct HinF1 as [E|E]; [lia|]. apply HK in E as (E & _).
                 contradiction.
              ** intros ->. destruct HinF2 as [E|E]; [lia|]. apply HM in E as (E & _).
                 contradiction.
           ++ fold iPrev. eapply seg_ext; [|exact Hs1]. intros j Hj.
              pose proof (increasing_last_not_before _ _ _ HincK Hj) as Hjl.
              rewrite <- HF1 in Hjl. apply In_removelast in Hj.
              apply Hnx4; [lia|]. now apply Hdisj.
        -- apply Forall_app. split; assumption.
        -- change (r :: pre ++ K) with ((r :: pre) ++ K).
           rewrite last_app_cons. fold iPrev. rewrite <- HF1, Hend1. lia.
      * (* representatives of the kept members *)
        intros x Hx. rewrite Hrp4.
        assert (HxM : ~ In x M /\ x <> h2).
        { assert (Hx' : In x (r :: pre) \/ In x K).
          { rewrite Hkeep in Hx. destruct Hx as [<-|Hx]; [left; now left|].
            apply in_app_iff in Hx as [Hx|Hx]; [left; now right | now right]. }
          clear Hx. destruct Hx' as [Hx|Hx].
          - destruct (Hlow x Hx) as (H1 & H2). split; [|lia].
            intros Hin. apply HM in Hin as (Hin & _). contradiction.
          - split; [|apply HK in Hx as (Hx & _); apply Hh2' in Hx; lia].
            intros Hin. apply HK in Hx as (_ & Hx). apply HM in Hin as (_ & Hin). congruence. }
        destruct HxM as (H1 & H2). rewrite Hrq by assumption. now apply Hrb.
      * (* the new class *)
        rewrite Hmove. split; [|split].
        -- unfold class_members. apply seg_chain; [|assumption|].
           ++ eapply seg_ext; [|exact Hs2]. intros j Hj.
              pose proof (increasing_last_not_before _ _ _ HincM Hj) as Hjl.
              rewrite <- HF2 in Hjl. apply In_removelast in Hj.
              apply Hnx4; [|lia]. intros ->. now apply (Hdisj iPrevF iPrevF).
           ++ rewrite <- HF2, Hend2. lia.
        -- rewrite Hrp4, Hrq.
           ++ apply Hra. lia.
           ++ intros Hin. apply HM in Hin as (Hin & _). apply Hh2' in Hin. lia.
        -- intros x Hx. rewrite Hrp4. now apply Hrp.
      * (* every other node *)
        intros j Hj.
        assert (Hall : In j (r :: pre) \/ j = h2 \/ In j todo ->
                       r = j \/ In j (pre ++ h2 :: todo)).
        { intros [[E|E]|[E|E]]; [now left | right; apply in_app_iff ..].
          - now left.
          - right. left. congruence.
          - right. now right. }
        assert (Hj1 : ~ In j (r :: pre)) by (intros Hin; apply Hj, Hall; now left).
        assert (Hj2 : j <> h2 /\ ~ In j todo)
          by (split; intros Hin; apply Hj, Hall; right; [now left | now right]).
        destruct Hj2 as (Hj2 & Hj3).
        assert (Hj4 : j <> iPrev) by (intros ->; contradiction).
        split.
        -- rewrite Hnx4.
           ++ rewrite Hfr by assumption. apply Hnext_a.
           ++ intros ->. destruct HinF1 as [E|E]; [congruence|].
              apply HK in E as (E & _). contradiction.
           ++ intros ->. destruct HinF2 as [E|E]; [congruence|].
              apply HM in E as (E & _). contradiction.
        -- rewrite Hrp4, Hrq.
           ++ now apply Hrb.
           ++ intros Hin. apply HM in Hin as (Hin & _). contradiction.
      * eapply links_only_trans; [exact HL2|].
        eapply links_only_trans; apply Gia_ObjSetNext_links.
Qed.

Lemma for_range_m_inv {St : Type} (I : Z -> St -> Prop) (body : St -> Z -> res St)
    (n : nat) (i0 : Z) (s : St) :
  I i0 s ->
  (forall i s, i0 <= i < i0 + Z.of_nat n -> I i s ->
     exists s', body s i = Ok s' /\ I (i + 1) s') ->
  exists s', for_range_m n i0 body s = Ok s' /\ I (i0 + Z.of_nat n) s'.
Proof.
  revert i0 s. induction n as [|n IH]; intros i0 s H0 Hstep.
  - exists s. split; [reflexivity|]. now rewrite Z.add_0_r.
  - destruct (Hstep i0 s ltac:(lia) H0) as (s1 & E1 & H1).
    destruct (IH (i0 + 1) s1 H1) as (s' & E' & H').
    { intros i s2 Hi. apply Hstep. lia. }
    exists s'. split.
    + cbn [for_range_m]. rewrite E1, bind_Ok. exact E'.
    + replace (i0 + Z.of_nat (S n)) with (i0 + 1 + Z.of_nat n) by lia. exact H'.
Qed.

Lemma class_of_cases (p : Gia_Man_t) (x : Z) :
  (Gia_ObjRepr p x = GIA_VOID /\ class_of p x = x)
  \/ (Gia_ObjRepr p x <> GIA_VOID /\ class_of p x = Gia_ObjRepr p x).
Proof. unfold class_of. destruct (Z.eqb_spec (Gia_ObjRepr p x) GIA_VOID); auto. Qed.

Lemma class_of_range (p : Gia_Man_t) (x : Z) :
  classes_wf p -> 0 <= x < Gia_ManObjNum p -> 0 <= class_of p x < Gia_ManObjNum p.
Proof.
  intros (_ & _ & _ & Hrep & _) Hx.
  destruct (class_of_cases p x) as [(E & ->)|(E & ->)]; [assumption|].
  now apply Hrep.
Qed.

Lemma refine_one_classes (p : Gia_Man_t) (r : Z) :
  classes_wf p -> 0 <= r < Gia_ManObjNum p -> Gia_ObjIsHead p r = true ->
  exists p' h2,
    Cec2_ManSimClassRefineOne p r = Ok p'
    /\ classes_wf p' /\ links_only p p'
    /\ r < h2
    /\ (forall x, 0 <= x < Gia_ManObjNum p -> class_of p x <> h2)
    /\ (forall x, 0 <= x < Gia_ManObjNum p ->
          class_of p' x =
          if class_of p x =? r then (if Cec2_ObjSimEqual p r x then r else h2)
          else class_of p x).
Proof.
  intros Hwf Hr Hhead. pose proof Hwf as (Hn1 & Hn2 & Hvoid & Hrep & Hcls).
  apply andb_true_iff in Hhead as (Hrv & Hnx). apply Z.eqb_eq in Hrv. apply Z.ltb_lt in Hnx.
  destruct (Hcls r Hr Hrv) as (ms & Hcm & Hinc & Hmem).
  assert (Hne : ms <> []).
  { intros ->. unfold class_members in Hcm. simpl in Hcm. lia. }
  assert (Hrange : Forall (fun x => 0 <= x < Vec_Size (pNexts p)
                                    /\ 0 <= x < Vec_Size (Gia_ReprArray p)) (r :: ms)).
  { rewrite Hn1, Hn2. constructor; [lia|]. apply List.Forall_forall.
    intros x Hx. apply Hmem in Hx. lia. }
  destruct (Cec2_ManSimClassRefineOne_split p r ms Hcm Hinc Hrange Hrv Hne)
    as (p' & HR & Hkeep & HreprK & Hmove & Hother & HL).
  set (keep := List.filter (Cec2_ObjSimEqual p r) ms) in *.
  set (move := List.filter (fun x => negb (Cec2_ObjSimEqual p r x)) ms) in *.
  assert (Hrlt : forall x, In x ms -> r < x).
  { destruct Hinc as (Hlt & _). rewrite List.Forall_forall in Hlt. exact Hlt. }
  assert (Hkin : forall x, In x keep <-> In x ms /\ Cec2_ObjSimEqual p r x = true)
    by (intros x; apply filter_In).
  assert (Hmin : forall x, In x move <-> In x ms /\ Cec2_ObjSimEqual p r x = false).
  { intros x. unfold move. rewrite filter_In, negb_true_iff. reflexivity. }
  assert (Hcr : forall x, 0 <= x < Gia_ManObjNum p ->
                  (class_of p x = r <-> x = r \/ In x ms)).
  { intros x Hx. destruct (class_of_cases p x) as [(E & ->)|(E & ->)].
    - split; [auto|]. intros [->|Hin]; [reflexivity|]. apply Hmem in Hin. lia.
    - split.
      + intros E'. right. apply Hmem. auto.
      + intros [->|Hin]; [contradiction | now apply Hmem]. }
  destruct move as [|h2 rest] eqn:Emove.
  - (* nothing leaves the class *)
    subst p'. exists p, (Gia_ManObjNum p).
    split; [exact HR|]. split; [exact Hwf|]. split; [apply links_only_refl|].
    split; [lia|]. split.
    + intros x Hx. pose proof (class_of_range p x Hwf Hx). lia.
    + intros x Hx. destruct (Z.eqb_spec (class_of p x) r) as [E|E]; [|reflexivity].
      assert (Cec2_ObjSimEqual p r x = true) as ->; [|exact E].
      apply Hcr in E as [->|Hin]; [apply Cec2_ObjSimEqual_refl | | assumption].
      destruct (Cec2_ObjSimEqual p r x) eqn:Eq; [reflexivity|].
      destruct (proj2 (Hmin x) (conj Hin Eq)).
  - destruct Hmove as (Hcm2 & Hv2 & Hrest).
    assert (Hh2 : In h2 ms /\ Cec2_ObjSimEqual p r h2 = false)
      by (apply Hmin; now left).
    destruct Hh2 as (Hh2in & Hh2ne).
    assert (Hrestin : forall x, In x rest -> In x ms /\ Cec2_ObjSimEqual p r x = false)
      by (intros x Hx; apply Hmin; now right).
    assert (Hn' : Gia_ManObjNum p' = Gia_ManObjNum p).
    { destruct HL as (_ & _ & Ho & _). unfold Gia_ManObjNum. now rewrite Ho. }
    assert (Hinc2 : increasing (h2 :: rest)).
    { rewrite <- Emove. apply increasing_filter. now destruct Hinc. }
    (* the representative of every node afterwards *)
    assert (Hr' : Gia_ObjRepr p' r = GIA_VOID).
    { rewrite (HreprK r); [assumption | now left]. }
    assert (Hk' : forall x, In x keep -> Gia_ObjRepr p' x = r).
    { intros x Hx. rewrite (HreprK x); [|now right]. apply Hmem, Hkin, Hx. }
    assert (Hsplit : forall x, 0 <= x < Gia_ManObjNum p ->
               (x = r \/ In x keep \/ x = h2 \/ In x rest) \/ ~ In x (r :: ms)).
    { intros x Hx. destruct (Z.eq_dec x r) as [->|Hxr]; [auto|].
      destruct (In_dec Z.eq_dec x ms) as [Hin|Hnin].
      - left. right. destruct (Cec2_ObjSimEqual p r x) eqn:Eq.
        + left. now apply Hkin.
        + right. assert (Hm : In x (h2 :: rest)) by now apply Hmin.
          destruct Hm as [<-|Hm]; auto.
      - right. intros [E|Hin]; [congruence | contradiction]. }
    assert (Hout_cls : forall x, 0 <= x < Gia_ManObjNum p -> ~ In x (r :: ms) ->
               class_of p x <> r /\ class_of p' x = class_of p x).
    { intros x Hx Hnin. split.
      - intros E. apply Hcr in E; [|assumption]. apply Hnin. destruct E as [->|E]; [now left | now right].
      - unfold class_of. now rewrite (proj2 (Hother x Hnin)). }
    exists p', h2.
    split; [exact HR|]. split; [|split; [exact HL|]].
    + (* the classes stay well formed *)
      destruct HL as (_ & _ & Ho & Hln & Hlr).
      split; [unfold Vec_Size, Gia_ManObjNum in *; rewrite Hln, Ho; exact Hn1|].
      split; [unfold Vec_Size, Gia_ManObjNum in *; rewrite Hlr, Ho; exact Hn2|].
      rewrite Hn'. split; [exact Hvoid|]. split.
      * intros x Hx Hnv.
        destruct (Hsplit x Hx) as [[->|[Hin|[->|Hin]]]|Hnin].
        -- contradiction.
        -- rewrite (Hk' x Hin). auto.
        -- contradiction.
        -- rewrite (Hrest x Hin). split; [apply Hmem, Hh2in | exact Hv2].
        -- destruct (Hother x Hnin) as (_ & Ex). rewrite Ex in Hnv |- *.
           destruct (Hrep x Hx Hnv) as (Hq & Hqv). split; [assumption|].
           destruct (Hsplit _ Hq) as [[E|[Hin|[E|Hin]]]|Hnin'].
           ++ now rewrite E.
           ++ apply Hkin in Hin as (Hin & _). apply Hmem in Hin. lia.
           ++ now rewrite E.
           ++ apply Hrestin in Hin as (Hin & _). apply Hmem in Hin. lia.
           ++ now rewrite (proj2 (Hother _ Hnin')).
      * intros h Hh Hhv.
        destruct (Hsplit h Hh) as [[->|[Hin|[->|Hin]]]|Hnin].
        -- (* the class of [r] *)
           exists keep. split; [exact Hkeep|]. split.
           { split; [|apply increasing_filter; now destruct Hinc].
             apply List.Forall_forall. intros x Hx. apply Hrlt, Hkin, Hx. }
           intros x. split.
           ++ intros Hx. split; [apply Hmem, Hkin, Hx | now apply Hk'].
           ++ intros (Hx & Ex).
              destruct (Hsplit x Hx) as [[->|[Hin|[->|Hin]]]|Hnin].
              ** lia.
              ** assumption.
              ** specialize (Hrlt _ Hh2in). lia.
              ** rewrite (Hrest x Hin) in Ex. specialize (Hrlt _ Hh2in). lia.
              ** rewrite (proj2 (Hother x Hnin)) in Ex. exfalso. apply Hnin. right.
                 apply Hmem. auto.
        -- rewrite (Hk' h Hin) in Hhv. lia.
        -- (* the new class *)
           exists rest. split; [exact Hcm2|]. split; [exact Hinc2|].
           intros x. split.
           ++ intros Hx. split; [apply Hmem, Hrestin, Hx | now apply Hrest].
           ++ intros (Hx & Ex).
              destruct (Hsplit x Hx) as [[->|[Hin|[->|Hin]]]|Hnin].
              ** lia.
              ** rewrite (Hk' x Hin) in Ex. specialize (Hrlt _ Hh2in). lia.
              ** lia.
              ** assumption.
              ** rewrite (proj2 (Hother x Hnin)) in Ex.
                 assert (Hnv : Gia_ObjRepr p x <> GIA_VOID) by lia.
                 destruct (Hrep x Hx Hnv) as (_ & Hqv). rewrite Ex in Hqv.
                 apply Hmem in Hh2in. lia.
        -- rewrite (Hrest h Hin) in Hhv. apply Hmem in Hh2in. lia.
        -- (* a class that is not touched *)
           rewrite (proj2 (Hother h Hnin)) in Hhv.
           destruct (Hcls h Hh Hhv) as (msh & Hcmh & Hinch & Hmemh).
           assert (Hdisj : forall x, In x msh -> ~ In x (r :: ms)).
           { intros x Hx [<-|Hin].
             - apply Hmemh in Hx. lia.
             - apply Hmemh in Hx. apply Hmem in Hin.
               apply Hnin. left. lia. }
           exists msh. split; [|split; [exact Hinch|]].
           ++ unfold class_members in *. rewrite (proj1 (Hother h Hnin)).
              eapply chain_at_ext; [|exact Hcmh].
              intros x Hx. apply (proj1 (Hother x (Hdisj x Hx))).
           ++ intros x. split.
              ** intros Hx. split; [apply Hmemh, Hx|].
                 rewrite (proj2 (Hother x (Hdisj x Hx))). apply Hmemh, Hx.
              ** intros (Hx & Ex).
                 destruct (Hsplit x Hx) as [[->|[Hin|[->|Hin]]]|Hnin'].
                 --- lia.
                 --- rewrite (Hk' x Hin) in Ex. exfalso. apply Hnin. now left.
                 --- lia.
                 --- rewrite (Hrest x Hin) in Ex. exfalso. apply Hnin. right. now subst.
                 --- rewrite (proj2 (Hother x Hnin')) in Ex. apply Hmemh. auto.
    + split; [now apply Hrlt|]. split.
      * intros x Hx E. destruct (class_of_cases p x) as [(Ev & Ec)|(Ev & Ec)];
          rewrite Ec in E.
        -- subst x. apply Hmem in Hh2in. lia.
        -- destruct (Hrep x Hx Ev) as (_ & Hqv). rewrite E in Hqv.
           apply Hmem in Hh2in. lia.
      * intros x Hx.
        destruct (Hsplit x Hx) as [[->|[Hin|[->|Hin]]]|Hnin].
        -- rewrite (proj2 (Hcr r Hr) (or_introl eq_refl)), Z.eqb_refl, Cec2_ObjSimEqual_refl.
           unfold class_of. now rewrite Hr', Z.eqb_refl.
        -- pose proof (proj1 (Hkin x) Hin) as (Hin' & Eq).
           rewrite (proj2 (Hcr x Hx) (or_intror Hin')), Z.eqb_refl, Eq.
           unfold class_of. rewrite (Hk' x Hin).
           destruct (Z.eqb_spec r GIA_VOID); [lia | reflexivity].
        -- rewrite (proj2 (Hcr h2 Hx) (or_intror Hh2in)), Z.eqb_refl, Hh2ne.
           unfold class_of. now rewrite Hv2, Z.eqb_refl.
        -- pose proof (Hrestin x Hin) as (Hin' & Eq).
           rewrite (proj2 (Hcr x Hx) (or_intror Hin')), Z.eqb_refl, Eq.
           unfold class_of. rewrite (Hrest x Hin).
           apply Hmem in Hh2in.
           destruct (Z.eqb_spec h2 GIA_VOID); [lia | reflexivity].
        -- destruct (Hout_cls x Hx Hnin) as (Hne' & ->).
           destruct (Z.eqb_spec (class_of p x) r); [contradiction | reflexivity].
Qed.

Lemma refine_all_classes_inv (p0 : Gia_Man_t) :
  classes_wf p0 -> words_64 p0 ->
  exists p,
    refine_all_classes p0 = Ok p
    /\ classes_wf p /\ links_only p0 p
    /\ (forall x y, 0 <= x < Gia_ManObjNum p0 -> 0 <= y < Gia_ManObjNum p0 ->
          class_of p x = class_of p y -> class_of p0 x = class_of p0 y)
    /\ (forall x y, 0 <= x < Gia_ManObjNum p0 -> 0 <= y < Gia_ManObjNum p0 ->
          class_of p0 x = class_of p0 y -> Cec2_ObjSimEqual p0 x y = true ->
          class_of p x = class_of p y)
    /\ (forall x, 0 <= x < Gia_ManObjNum p0 ->
          Cec2_ObjSimEqual p0 (class_of p x) x = true).
Proof.
  intros Hwf0 H64.
  set (n := Gia_ManObjNum p0).
  pose (I := fun (i : Z) (p : Gia_Man_t) =>
    classes_wf p /\ links_only p0 p
    /\ (forall x y, 0 <= x < n -> 0 <= y < n ->
          class_of p x = class_of p y -> class_of p0 x = class_of p0 y)
    /\ (forall x y, 0 <= x < n -> 0 <= y < n ->
          class_of p0 x = class_of p0 y -> Cec2_ObjSimEqual p0 x y = true ->
          class_of p x = class_of p y)
    /\ (forall x, 0 <= x < n -> class_of p x < i ->
          Cec2_ObjSimEqual p0 (class_of p x) x = true)).
  destruct (for_range_m_inv I
              (fun p i => if Gia_ObjIsHead p i then Cec2_ManSimClassRefineOne p i else mret p)
              (length (pObjs p0)) 0 p0) as (p & E & Hwf & HL & I3 & I4 & I5).
  - (* before the loop *)
    split; [exact Hwf0|]. split; [apply links_only_refl|].
    split; [auto|]. split; [auto|].
    intros x Hx Hlt. pose proof (class_of_range p0 x Hwf0 Hx). lia.
  - (* one node *)
    intros i p Hi (Hwf & HL & I3 & I4 & I5).
    assert (Hn : Gia_ManObjNum p = n).
    { destruct HL as (_ & _ & Ho & _). unfold n, Gia_ManObjNum. now rewrite Ho. }
    assert (Hin : 0 <= i < Gia_ManObjNum p)
      by (rewrite Hn; unfold n, Gia_ManObjNum, Vec_Size; lia).
    assert (Heq : forall a b, Cec2_ObjSimEqual p a b = Cec2_ObjSimEqual p0 a b)
      by (intros a b; now apply links_only_Equal).
    destruct (Gia_ObjIsHead p i) eqn:Hhead.
    + destruct (refine_one_classes p i Hwf Hin Hhead)
        as (p' & h2 & HR & Hwf' & HL' & Hlt & Hfresh & Hcls).
      rewrite Hn in Hfresh, Hcls.
      exists p'. split; [exact HR|]. split; [exact Hwf'|].
      split; [eapply links_only_trans; eassumption|]. split; [|split].
      * intros x y Hx Hy. rewrite (Hcls x Hx), (Hcls y Hy). intros E.
        apply I3; [assumption | assumption|].
        pose proof (Hfresh x Hx). pose proof (Hfresh y Hy).
        destruct (Z.eqb_spec (class_of p x) i), (Z.eqb_spec (class_of p y) i);
          [congruence | | | assumption].
        -- destruct (Cec2_ObjSimEqual p i x); congruence.
        -- destruct (Cec2_ObjSimEqual p i y); congruence.
      * intros x y Hx Hy E0 Eq. pose proof (I4 x y Hx Hy E0 Eq) as E.
        rewrite (Hcls x Hx), (Hcls y Hy), <- E.
        destruct (Z.eqb_spec (class_of p x) i); [|reflexivity].
        rewrite !Heq.
        destruct (Cec2_ObjSimEqual p0 i x) eqn:Ex, (Cec2_ObjSimEqual p0 i y) eqn:Ey;
          try reflexivity.
        -- rewrite (Cec2_ObjSimEqual_trans p0 i x y H64 Ex Eq) in Ey. discriminate.
        -- apply (Cec2_ObjSimEqual_sym p0 x y H64) in Eq.
           rewrite (Cec2_ObjSimEqual_trans p0 i y x H64 Ey Eq) in Ex. discriminate.
      * intros x Hx. rewrite (Hcls x Hx).
        destruct (Z.eqb_spec (class_of p x) i) as [Ec|Ec].
        -- rewrite Heq. destruct (Cec2_ObjSimEqual p0 i x) eqn:Ex; [auto | lia].
        -- intros Hc. apply I5; [assumption | lia].
    + exists p. split; [reflexivity|]. split; [exact Hwf|]. split; [exact HL|].
      split; [exact I3|]. split; [exact I4|].
      intros x Hx Hc. destruct (Z.eq_dec (class_of p x) i) as [Ec|Ec];
        [|apply I5; [assumption | lia]].
      rewrite Ec. destruct (class_of_cases p x) as [(Ev & Ex)|(Ev & Ex)]; rewrite Ex in Ec.
      * subst x. apply Cec2_ObjSimEqual_refl.
      * (* a node with members is a head *)
        exfalso. pose proof Hwf as (_ & _ & _ & Hrep & Hcl).
        rewrite <- Hn in Hx. destruct (Hrep x Hx Ev) as (_ & Hiv). rewrite Ec in Hiv.
        destruct (Hcl i Hin Hiv) as (ms & Hcm & _ & Hmem).
        assert (Hxin : In x ms) by (apply Hmem; auto).
        unfold Gia_ObjIsHead in Hhead. rewrite Hiv, Z.eqb_refl in Hhead.
        destruct ms as [|m0 ms']; [destruct Hxin|].
        destruct Hcm as (Em & Hpos & _). simpl in Hhead.
        apply Z.ltb_ge in Hhead. lia.
  - exists p. split; [exact E|]. split; [exact Hwf|]. split; [exact HL|].
    split; [exact I3|]. split; [exact I4|].
    intros x Hx. apply I5; [assumption|].
    assert (Hn : Gia_ManObjNum p = n).
    { destruct HL as (_ & _ & Ho & _). unfold n, Gia_ManObjNum. now rewrite Ho. }
    pose proof (class_of_range p x Hwf ltac:(rewrite Hn; exact Hx)).
    unfold n, Gia_ManObjNum, Vec_Size in *. lia.
Qed.

(** X19. The refinement pass ([Gia_ManForEachClass0] with
    [Cec2_ManSimClassRefineOne]) over well-formed classes returns
    well-formed classes that are the old classes split by
    [Cec2_ObjSimEqual]: two nodes are in the same class afterwards
    exactly when they were in the same class before and their
    simulation words are equal up to complement.  Nothing but the
    links and representatives changes. *)
Theorem X19_refinement_pass_splits_by_simulation (p : Gia_Man_t) :
  classes_wf p -> words_64 p ->
  exists p',
    refine_all_classes p = Ok p'
    /\ classes_wf p' /\ links_only p p'
    /\ forall x y, 0 <= x < Gia_ManObjNum p -> 0 <= y < Gia_ManObjNum p ->
         (class_of p' x = class_of p' y <->
          class_of p x = class_of p y /\ Cec2_ObjSimEqual p x y = true).
Proof.
  intros Hwf H64.
  destruct (refine_all_classes_inv p Hwf H64) as (p' & E & Hwf' & HL & I3 & I4 & I5).
  exists p'. split; [exact E|]. split; [exact Hwf'|]. split; [exact HL|].
  intros x y Hx Hy. split.
  - intros Ec. split; [now apply I3|].
    pose proof (I5 x Hx) as Sx. pose proof (I5 y Hy) as Sy. rewrite Ec in Sx.
    apply (Cec2_ObjSimEqual_sym p _ _ H64) in Sx.
    exact (Cec2_ObjSimEqual_trans p x _ y H64 Sx Sy).
  - intros (Ec & Eq). now apply I4.
Qed.

(** ** Creation of the classes *)

Lemma hash_loop_ext (f : Z -> Z) (mem : list Z) (a b nSims : Z) (n : nat) (i uHash : Z) :
  (forall w, 0 <= w < nSims -> Vec_WrdEntry mem (a + w) = Vec_WrdEntry mem (b + w)) ->
  0 <= i -> i + Z.of_nat n <= 2 * nSims ->
  hash_loop f mem a n i uHash = hash_loop f mem b n i uHash.
Proof.
  intros H. revert i uHash. induction n as [|n IH]; intros i uHash Hi Hn; simpl; [reflexivity|].
  assert (Info_Entry mem a i = Info_Entry mem b i) as ->.
  { unfold Info_Entry.
    rewrite H by (split; [apply Z.div_pos; lia | apply Z.div_lt_upper_bound; lia]).
    reflexivity. }
  apply IH; lia.
Qed.

Lemma hash_key_of_equal (mem : list Z) (a b nSims nTableSize : Z) :
  (forall w, 0 <= w < nSims -> Vec_WrdEntry mem (a + w) = Vec_WrdEntry mem (b + w)) ->
  Cec2_ManSimHashKey mem a nSims nTableSize = Cec2_ManSimHashKey mem b nSims nTableSize.
Proof.
  intros H. unfold Cec2_ManSimHashKey. f_equal.
  destruct (Z.le_gt_cases nSims 0) as [Hle|Hgt].
  - replace (Z.to_nat (2 * nSims)) with O by lia. simpl.
    repeat match goal with |- context [if ?c then _ else _] => destruct c end; reflexivity.
  - assert (Info_Entry mem a 0 = Info_Entry mem b 0) as ->.
    { unfold Info_Entry. change (0 / 2) with 0. rewrite H by lia. reflexivity. }
    destruct (Z.testbit (Info_Entry mem b 0) 0); apply hash_loop_ext with nSims;
      first [assumption | lia].
Qed.

Lemma Cec2_ObjSimEqual_key (p : Gia_Man_t) (x y nTableSize : Z) :
  Cec2_ObjSimEqual p x y = true ->
  Cec2_ManSimHashKey (vSims p) (Cec2_ObjSim p x) (nSimWords p) nTableSize
  = Cec2_ManSimHashKey (vSims p) (Cec2_ObjSim p y) (nSimWords p) nTableSize.
Proof.
  intros H. apply Cec2_ObjSimEqual_cases in H as [(_ & H)|(_ & H)].
  - apply hash_key_of_equal. exact H.
  - apply hash_key_of_complement. exact H.
Qed.

Lemma Gia_RprUpdate_spec (p : Gia_Man_t) (Id : Z) (f : Gia_Rpr_t -> Gia_Rpr_t) :
  let p' := Gia_RprUpdate p Id f in
  vSims p' = vSims p /\ nSimWords p' = nSimWords p /\ pObjs p' = pObjs p
  /\ pNexts p' = pNexts p
  /\ length (Gia_ReprArray p') = length (Gia_ReprArray p)
  /\ (0 <= Id < Vec_Size (Gia_ReprArray p) ->
        Gia_ObjRepr p' Id = iRepr (f (Vec_Entry Gia_RprDefault (Gia_ReprArray p) Id)))
  /\ (forall j, j <> Id -> Gia_ObjRepr p' j = Gia_ObjRepr p j).
Proof.
  unfold Gia_ObjRepr, Gia_RprUpdate, Gia_ReprArray. simpl.
  repeat split; try apply length_Vec_WriteEntry.
  - intros Hr. now rewrite Vec_Entry_write_same.
  - intros j Hj. rewrite Vec_Entry_write_other by congruence. reflexivity.
Qed.

Lemma create_classes_hash_loop (p0 : Gia_Man_t) (tsize : Z) :
  0 < tsize ->
  length (Gia_ReprArray p0) = length (pObjs p0) ->
  exists p T,
    for_range_m (length (pObjs p0)) 0 (create_classes_hash (nSimWords p0) tsize)
      (p0, replicate (Z.to_nat tsize) (-1)) = Ok (p, T)
    /\ vSims p = vSims p0 /\ nSimWords p = nSimWords p0 /\ pObjs p = pObjs p0
    /\ pNexts p = pNexts p0
    /\ length (Gia_ReprArray p) = length (pObjs p0)
    /\ (forall k, 0 <= k < tsize ->
          Vec_Entry 0 T k = -1
          \/ (0 <= Vec_Entry 0 T k < Gia_ManObjNum p0
              /\ Gia_ObjIsCo (Gia_ManObj p0 (Vec_Entry 0 T k)) = false
              /\ Cec2_ManSimHashKey (vSims p0) (Cec2_ObjSim p0 (Vec_Entry 0 T k))
                   (nSimWords p0) tsize = k
              /\ Gia_ObjRepr p (Vec_Entry 0 T k) = GIA_VOID))
    /\ (forall j, 0 <= j < Gia_ManObjNum p0 ->
          if Gia_ObjIsCo (Gia_ManObj p0 j) then Gia_ObjRepr p j = GIA_VOID
          else
            let h := Vec_Entry 0 T
                       (Cec2_ManSimHashKey (vSims p0) (Cec2_ObjSim p0 j) (nSimWords p0) tsize) in
            h <> -1 /\ (h = j \/ (h < j /\ Gia_ObjRepr p j = h))).
Proof.
  intros Hts Hlen.
  set (key := fun j => Cec2_ManSimHashKey (vSims p0) (Cec2_ObjSim p0 j) (nSimWords p0) tsize).
  set (isco := fun j => Gia_ObjIsCo (Gia_ManObj p0 j)).
  assert (Hkey : forall j, 0 <= key j < tsize).
  { intros j. unfold key, Cec2_ManSimHashKey. apply Z.mod_pos_bound. exact Hts. }
  pose (I := fun (i : Z) (st : Gia_Man_t * list Z) =>
    let p := fst st in let T := snd st in
    vSims p = vSims p0 /\ nSimWords p = nSimWords p0 /\ pObjs p = pObjs p0
    /\ pNexts p = pNexts p0
    /\ length (Gia_ReprArray p) = length (pObjs p0)
    /\ Vec_Size T = tsize
    /\ (forall k, 0 <= k < tsize ->
          Vec_Entry 0 T k = -1
          \/ (0 <= Vec_Entry 0 T k < i
              /\ isco (Vec_Entry 0 T k) = false
              /\ key (Vec_Entry 0 T k) = k
              /\ Gia_ObjRepr p (Vec_Entry 0 T k) = GIA_VOID))
    /\ (forall j, 0 <= j < i ->
          if isco j then Gia_ObjRepr p j = GIA_VOID
          else Vec_Entry 0 T (key j) <> -1
               /\ (Vec_Entry 0 T (key j) = j
                   \/ (Vec_Entry 0 T (key j) < j /\ Gia_ObjRepr p j = Vec_Entry 0 T (key j))))).
  destruct (for_range_m_inv I (create_classes_hash (nSimWords p0) tsize)
              (length (pObjs p0)) 0 (p0, replicate (Z.to_nat tsize) (-1)))
    as ([p T] & E & H1 & H2 & H3 & H4 & H5 & H6 & H7 & H8).
  - (* before the loop *)
    unfold I. cbn [fst snd]. repeat split; try reflexivity; try assumption.
    + unfold Vec_Size. rewrite length_replicate. lia.
    + intros k Hk. left. unfold Vec_Entry.
      destruct (Z.ltb_spec k 0); [lia|].
      rewrite lookup_replicate_2 by lia. reflexivity.
    + intros j Hj. lia.
  - (* one node *)
    intros i [p T] Hi (H1 & H2 & H3 & H4 & H5 & H6 & H7 & H8). cbn [fst snd] in *.
    assert (Hir : 0 <= i < Vec_Size (Gia_ReprArray p)) by (unfold Vec_Size; lia).
    pose proof (Gia_RprUpdate_spec p i (fun r => mkRpr GIA_VOID (fProved r) (fFailed r)))
      as (U1 & U2 & U3 & U4 & U5 & U6 & U7).
    specialize (U6 Hir). cbn [iRepr] in U6.
    set (p1 := Gia_RprUpdate p i (fun r => mkRpr GIA_VOID (fProved r) (fFailed r))) in *.
    assert (Hstep : create_classes_hash (nSimWords p0) tsize (p, T) i =
              if isco i then mret (p1, T)
              else
                _ ← assert_ ((0 <=? key i) && (key i <? tsize));
                if Vec_Entry 0 T (key i) =? -1
                then mret (p1, Vec_WriteEntry T (key i) i)
                else p2 ← Gia_ObjSetRepr p1 i (Vec_Entry 0 T (key i)); mret (p2, T)).
    { unfold create_classes_hash, isco, key, Gia_ManObj, Cec2_ObjSim. fold p1.
      rewrite U1, U2, U3, H1, H2, H3. reflexivity. }
    rewrite Hstep. clear Hstep.
    assert (Htab : forall k, 0 <= k < tsize -> Vec_Entry 0 T k <> -1 ->
              0 <= Vec_Entry 0 T k < i + 1
              /\ isco (Vec_Entry 0 T k) = false
              /\ key (Vec_Entry 0 T k) = k
              /\ Gia_ObjRepr p1 (Vec_Entry 0 T k) = GIA_VOID).
    { intros k Hk Hne. destruct (H7 k Hk) as [E|(B & C & K & R)]; [contradiction|].
      repeat split; try assumption; try lia. rewrite U7 by lia. exact R. }
    assert (Hold : forall j, 0 <= j < i ->
              if isco j then Gia_ObjRepr p1 j = GIA_VOID
              else Vec_Entry 0 T (key j) <> -1
                   /\ (Vec_Entry 0 T (key j) = j
                       \/ (Vec_Entry 0 T (key j) < j
                           /\ Gia_ObjRepr p1 j = Vec_Entry 0 T (key j)))).
    { intros j Hj. specialize (H8 j Hj). rewrite U7 by lia. exact H8. }
    destruct (isco i) eqn:Eco.
    + (* a combinational output is skipped *)
      exists (p1, T). split; [reflexivity|]. unfold I. cbn [fst snd].
      repeat split; try congruence.
      * intros k Hk. destruct (Z.eq_dec (Vec_Entry 0 T k) (-1)) as [E|E]; [now left|].
        right. now apply Htab.
      * intros j Hj. destruct (Z.eq_dec j i) as [->|Hji]; [now rewrite Eco|].
        apply Hold. lia.
    + assert ((0 <=? key i) && (key i <? tsize) = true) as ->.
      { specialize (Hkey i). apply andb_true_iff. split; [apply Z.leb_le | apply Z.ltb_lt]; lia. }
      rewrite assert_true, bind_Ok.
      destruct (Z.eqb_spec (Vec_Entry 0 T (key i)) (-1)) as [Efree|Eused].
      * (* the first node with this key *)
        exists (p1, Vec_WriteEntry T (key i) i). split; [reflexivity|].
        unfold I. cbn [fst snd].
        assert (Hw : forall k, Vec_Entry 0 (Vec_WriteEntry T (key i) i) k
                               = if k =? key i then i else Vec_Entry 0 T k).
        { intros k. destruct (Z.eqb_spec k (key i)) as [->|Hk].
          - apply Vec_Entry_write_same. rewrite H6. apply Hkey.
          - apply Vec_Entry_write_other. congruence. }
        repeat split; try congruence.
        -- unfold Vec_Size. rewrite length_Vec_WriteEntry. exact H6.
        -- intros k Hk. rewrite Hw. destruct (Z.eqb_spec k (key i)) as [->|Hki].
           ++ right. repeat split; try assumption; lia.
           ++ destruct (Z.eq_dec (Vec_Entry 0 T k) (-1)) as [E|E]; [now left|].
              right. now apply Htab.
        -- intros j Hj. destruct (Z.eq_dec j i) as [->|Hji].
           ++ rewrite Eco, Hw, Z.eqb_refl. split; [lia | now left].
           ++ specialize (Hold j ltac:(lia)). destruct (isco j); [exact Hold|].
              rewrite Hw. destruct (Z.eqb_spec (key j) (key i)) as [Ek|Ek]; [|exact Hold].
              rewrite Ek in Hold. destruct Hold as (Hne & _). contradiction.
      * (* the key is taken: the node joins the class of the first one *)
        destruct (Htab (key i) (Hkey i) Eused) as (Hb & Hc & Hk & Hv).
        destruct (Gia_ObjSetRepr_Ok p1 i (Vec_Entry 0 T (key i)))
          as (p2 & E2 & (L1 & L2 & L3 & L4 & L5) & S2 & S3 & S4).
        { right. destruct (H7 (key i) (Hkey i)) as [E|(B & _)]; [contradiction | lia]. }
        assert (Hlt : Vec_Entry 0 T (key i) < i).
        { destruct (H7 (key i) (Hkey i)) as [E|(B & _)]; [contradiction | lia]. }
        rewrite E2, bind_Ok. exists (p2, T). split; [reflexivity|].
        unfold I. cbn [fst snd].
        assert (Hir1 : 0 <= i < Vec_Size (Gia_ReprArray p1)) by (unfold Vec_Size; lia).
        specialize (S3 Hir1).
        repeat split; try congruence.
        -- intros k Hk'. destruct (Z.eq_dec (Vec_Entry 0 T k) (-1)) as [E|E]; [now left|].
           right. destruct (Htab k Hk' E) as (B & C & K & R).
           repeat split; try assumption; try lia.
           destruct (H7 k Hk') as [E'|(B' & _)]; [contradiction|].
           rewrite S4 by lia. exact R.
        -- intros j Hj. destruct (Z.eq_dec j i) as [->|Hji].
           ++ rewrite Eco. split; [assumption|]. right. split; assumption.
           ++ specialize (Hold j ltac:(lia)). rewrite S4 by assumption. exact Hold.
  - unfold I in H1. cbn [fst snd] in *.
    exists p, T. split; [exact E|]. repeat split; assumption.
Qed.

Lemma for_range_down_inv {St : Type} (I : Z -> St -> Prop) (body : St -> Z -> St)
    (n : nat) (i0 : Z) (s : St) :
  I i0 s ->
  (forall i s, i0 - Z.of_nat n < i <= i0 -> I i s -> I (i - 1) (body s i)) ->
  I (i0 - Z.of_nat n) (for_range_down n i0 body s).
Proof.
  revert i0 s. induction n as [|n IH]; intros i0 s H0 Hstep.
  - simpl. now rewrite Z.sub_0_r.
  - cbn [for_range_down].
    replace (i0 - Z.of_nat (S n)) with (i0 - 1 - Z.of_nat n) by lia.
    apply IH.
    + apply Hstep; [lia | exact H0].
    + intros i s1 Hi. apply Hstep. lia.
Qed.

Lemma create_classes_link_loop (p1 : Gia_Man_t) :
  Vec_Size (pNexts p1) = Gia_ManObjNum p1 ->
  Vec_Size (Gia_ReprArray p1) = Gia_ManObjNum p1 ->
  Gia_ManObjNum p1 <= GIA_VOID ->
  (forall j, 0 <= j < Gia_ManObjNum p1 -> Gia_ObjNext p1 j <= 0) ->
  (forall j, 0 <= j < Gia_ManObjNum p1 -> Gia_ObjRepr p1 j <> GIA_VOID ->
     0 <= Gia_ObjRepr p1 j < j /\ Gia_ObjRepr p1 (Gia_ObjRepr p1 j) = GIA_VOID) ->
  let p2 := for_range_down (length (pObjs p1)) (Gia_ManObjNum p1 - 1) create_classes_link p1 in
  classes_wf p2 /\ links_only p1 p2 /\ pReprs p2 = pReprs p1.
Proof.
  intros Hn1 Hn2 Hvoid Hnx Hrep p2.
  set (n := Gia_ManObjNum p1) in *.
  pose (K := fun (i : Z) (p : Gia_Man_t) =>
    links_only p1 p /\ pReprs p = pReprs p1
    /\ forall h, 0 <= h < n -> Gia_ObjRepr p1 h = GIA_VOID ->
         exists ms, chain_at (Gia_ObjNext p) (Gia_ObjNext p h) ms /\ increasing ms
           /\ forall x, In x ms <-> i < x < n /\ Gia_ObjRepr p1 x = h).
  assert (HK : K (n - 1 - Z.of_nat (length (pObjs p1))) p2).
  { apply for_range_down_inv.
    - split; [apply links_only_refl|]. split; [reflexivity|].
      intros h Hh Hv. exists []. split; [simpl; now apply Hnx|]. split; [exact I|].
      intros x. split; [intros []|]. intros (Hx & _). lia.
    - intros i p Hi (HL & HR & Hch).
      assert (Hin : 0 <= i < n) by (unfold n, Gia_ManObjNum, Vec_Size in *; lia).
      assert (Hrp : forall j, Gia_ObjRepr p j = Gia_ObjRepr p1 j)
        by (intros j; unfold Gia_ObjRepr, Gia_ReprArray; now rewrite HR).
      unfold create_classes_link. rewrite Hrp.
      destruct (Z.eqb_spec (Gia_ObjRepr p1 i) GIA_VOID) as [Ev|Ev].
      + split; [exact HL|]. split; [exact HR|].
        intros h Hh Hv. destruct (Hch h Hh Hv) as (ms & C1 & C2 & C3).
        exists ms. split; [exact C1|]. split; [exact C2|].
        intros x. rewrite C3. split; intros (Hx & Ex); (split; [|exact Ex]); [lia|].
        destruct (Z.eq_dec x i) as [->|]; [|lia]. lia.
      + destruct (Hrep i Hin Ev) as (Hh0 & Hv0).
        set (h0 := Gia_ObjRepr p1 i) in *.
        set (pa := Gia_ObjSetNext p i (Gia_ObjNext p h0)).
        assert (Hlen : Vec_Size (pNexts p) = n).
        { destruct HL as (_ & _ & _ & Hl & _). unfold Vec_Size in *. lia. }
        assert (Hlena : Vec_Size (pNexts pa) = n).
        { unfold pa, Gia_ObjSetNext, Vec_Size. simpl. rewrite length_Vec_WriteEntry.
          exact Hlen. }
        assert (N1 : Gia_ObjNext (Gia_ObjSetNext pa h0 i) h0 = i)
          by (apply Gia_ObjNext_SetNext_same; lia).
        assert (N2 : Gia_ObjNext (Gia_ObjSetNext pa h0 i) i = Gia_ObjNext p h0).
        { rewrite Gia_ObjNext_SetNext_other by lia.
          apply Gia_ObjNext_SetNext_same. lia. }
        assert (N3 : forall j, j <> i -> j <> h0 ->
                  Gia_ObjNext (Gia_ObjSetNext pa h0 i) j = Gia_ObjNext p j).
        { intros j Hj1 Hj2. rewrite Gia_ObjNext_SetNext_other by congruence.
          apply Gia_ObjNext_SetNext_other. congruence. }
        split.
        { eapply links_only_trans; [exact HL|].
          eapply links_only_trans; apply Gia_ObjSetNext_links. }
        split; [exact HR|].
        intros h Hh Hv. destruct (Hch h Hh Hv) as (ms & C1 & C2 & C3).
        assert (Hext : forall x, In x ms ->
                  Gia_ObjNext (Gia_ObjSetNext pa h0 i) x = Gia_ObjNext p x).
        { intros x Hx. apply C3 in Hx. apply N3; lia. }
        destruct (Z.eq_dec h h0) as [->|Hne].
        * exists (i :: ms). split; [|split].
          -- rewrite N1. split; [reflexivity|]. split; [lia|]. rewrite N2.
             eapply chain_at_ext; [|exact C1]. exact Hext.
          -- split; [|exact C2]. apply List.Forall_forall. intros x Hx.
             apply C3 in Hx. lia.
          -- intros x. simpl. rewrite C3. split.
             ++ intros [<-|(Hx & Ex)]; [split; [lia | reflexivity] | split; [lia | exact Ex]].
             ++ intros (Hx & Ex). destruct (Z.eq_dec i x) as [|Hix]; [now left|].
                right. split; [lia | exact Ex].
        * assert (Hhi : h <> i) by (intros ->; apply Ev; exact Hv).
          exists ms. split; [|split; [exact C2|]].
          -- rewrite N3 by assumption. eapply chain_at_ext; [|exact C1]. exact Hext.
          -- intros x. rewrite C3. split; intros (Hx & Ex); (split; [|exact Ex]); [lia|].
             destruct (Z.eq_dec x i) as [->|]; [|lia]. unfold h0 in Hne. congruence. }
  replace (n - 1 - Z.of_nat (length (pObjs p1))) with (-1) in HK
    by (unfold n, Gia_ManObjNum, Vec_Size; lia).
  destruct HK as (HL & HR & Hch).
  assert (Hrp : forall j, Gia_ObjRepr p2 j = Gia_ObjRepr p1 j)
    by (intros j; unfold Gia_ObjRepr, Gia_ReprArray; now rewrite HR).
  assert (Hn' : Gia_ManObjNum p2 = n).
  { destruct HL as (_ & _ & Ho & _). unfold n, Gia_ManObjNum. now rewrite Ho. }
  split; [|split; [exact HL | exact HR]].
  pose proof HL as (_ & _ & Ho & Hln & Hlr).
  split; [unfold Vec_Size in *; rewrite Hn', Hln; exact Hn1|].
  split; [unfold Vec_Size in *; rewrite Hn', Hlr; exact Hn2|].
  rewrite Hn'. split; [exact Hvoid|]. split.
  - intros x Hx Hv. rewrite !Hrp in *. destruct (Hrep x Hx Hv) as (B & V).
    split; [lia | exact V].
  - intros h Hh Hv. rewrite Hrp in Hv. destruct (Hch h Hh Hv) as (ms & C1 & C2 & C3).
    exists ms. split; [exact C1|]. split.
    + split; [|exact C2]. apply List.Forall_forall. intros x Hx. apply C3 in Hx as (Hx & Ex).
      assert (Hnv : Gia_ObjRepr p1 x <> GIA_VOID) by lia.
      destruct (Hrep x ltac:(lia) Hnv). lia.
    + intros x. rewrite C3, Hrp. split; intros (Hx & Ex); (split; [lia | exact Ex]).
Qed.

Lemma Cec2_ObjSimEqual_same_sims (p p' : Gia_Man_t) (i j : Z) :
  vSims p' = vSims p -> nSimWords p' = nSimWords p ->
  Cec2_ObjSimEqual p' i j = Cec2_ObjSimEqual p i j.
Proof.
  intros HS HW. unfold Cec2_ObjSimEqual, sim_read, Cec2_ObjSim. now rewrite HS, HW.
Qed.

(** X20. [Cec2_ManCreateClasses] returns well-formed classes in which
    two nodes share a class exactly when they are the same node, or
    neither is a combinational output and their simulation words are
    equal up to complement; the simulation store and the objects are
    left as they were. *)
Theorem X20_create_classes_by_simulation (p : Gia_Man_t) :
  words_64 p -> 0 < Abc_PrimeCudd (Gia_ManObjNum p) -> Gia_ManObjNum p <= GIA_VOID ->
  exists p',
    Cec2_ManCreateClasses p = Ok p'
    /\ classes_wf p'
    /\ vSims p' = vSims p /\ nSimWords p' = nSimWords p /\ pObjs p' = pObjs p
    /\ forall x y, 0 <= x < Gia_ManObjNum p -> 0 <= y < Gia_ManObjNum p ->
         (class_of p' x = class_of p' y <->
          x = y
          \/ (Gia_ObjIsCo (Gia_ManObj p x) = false /\ Gia_ObjIsCo (Gia_ManObj p y) = false
              /\ Cec2_ObjSimEqual p x y = true)).
Proof.
  intros H64 Hts Hvoid.
  set (tsize := Abc_PrimeCudd (Gia_ManObjNum p)) in *.
  set (pb := set_pNexts (set_pReprs p (Some (replicate (length (pObjs p)) Gia_RprDefault)))
               (replicate (length (pObjs p)) (-1))).
  assert (Hrun : Cec2_ManCreateClasses p =
            '(p1, _) ← for_range_m (length (pObjs pb)) 0
                         (create_classes_hash (nSimWords pb) tsize)
                         (pb, replicate (Z.to_nat tsize) (-1));
            refine_all_classes
              (for_range_down (length (pObjs p1)) (Gia_ManObjNum p1 - 1)
                 create_classes_link p1)) by reflexivity.
  destruct (create_classes_hash_loop pb tsize Hts)
    as (p1 & T & E1 & F1 & F2 & F3 & F4 & F5 & Htab & Hnode).
  { unfold pb, Gia_ReprArray. simpl. apply length_replicate. }
  rewrite Hrun, E1, bind_Ok. cbv beta iota. clear Hrun.
  change (vSims pb) with (vSims p) in F1. change (nSimWords pb) with (nSimWords p) in F2.
  change (pObjs pb) with (pObjs p) in F3.
  set (key := fun j => Cec2_ManSimHashKey (vSims p) (Cec2_ObjSim p j) (nSimWords p) tsize).
  set (isco := fun j => Gia_ObjIsCo (Gia_ManObj p j)).
  change (forall k, 0 <= k < tsize ->
            Vec_Entry 0 T k = -1
            \/ (0 <= Vec_Entry 0 T k < Gia_ManObjNum p
                /\ isco (Vec_Entry 0 T k) = false
                /\ key (Vec_Entry 0 T k) = k
                /\ Gia_ObjRepr p1 (Vec_Entry 0 T k) = GIA_VOID)) in Htab.
  change (forall j, 0 <= j < Gia_ManObjNum p ->
            if isco j then Gia_ObjRepr p1 j = GIA_VOID
            else Vec_Entry 0 T (key j) <> -1
                 /\ (Vec_Entry 0 T (key j) = j
                     \/ (Vec_Entry 0 T (key j) < j
                         /\ Gia_ObjRepr p1 j = Vec_Entry 0 T (key j)))) in Hnode.
  assert (Hkey : forall j, 0 <= key j < tsize).
  { intros j. unfold key, Cec2_ManSimHashKey. apply Z.mod_pos_bound. exact Hts. }
  assert (Hn1 : Gia_ManObjNum p1 = Gia_ManObjNum p)
    by (unfold Gia_ManObjNum; rewrite F3; reflexivity).
  (* the representatives after the hashing *)
  assert (Hrep : forall j, 0 <= j < Gia_ManObjNum p ->
            (Gia_ObjRepr p1 j = GIA_VOID
             /\ (isco j = true \/ (isco j = false /\ Vec_Entry 0 T (key j) = j)))
            \/ (isco j = false /\ Gia_ObjRepr p1 j = Vec_Entry 0 T (key j)
                /\ 0 <= Vec_Entry 0 T (key j) < j
                /\ Gia_ObjRepr p1 (Vec_Entry 0 T (key j)) = GIA_VOID)).
  { intros j Hj. specialize (Hnode j Hj). destruct (isco j) eqn:Eco; [left; auto|].
    destruct Hnode as (Hne & Hcase).
    destruct (Htab (key j) (Hkey j)) as [E|(B & C & K & R)]; [contradiction|].
    destruct Hcase as [E|(Hlt & E)].
    - left. split; [now rewrite <- E at 1 | right; auto].
    - right. repeat split; try assumption; lia. }
  assert (Hcls1 : forall j, 0 <= j < Gia_ManObjNum p ->
            class_of p1 j = if isco j then j else Vec_Entry 0 T (key j)).
  { intros j Hj. unfold class_of.
    destruct (Hrep j Hj) as [(Ev & [Eco|(Eco & Et)])|(Eco & Er & B & Ev)]; rewrite Eco.
    - now rewrite Ev, Z.eqb_refl.
    - now rewrite Ev, Z.eqb_refl.
    - rewrite Er. destruct (Z.eqb_spec (Vec_Entry 0 T (key j)) GIA_VOID); [lia | reflexivity]. }
  (* the links *)
  destruct (create_classes_link_loop p1) as (Hwf2 & HL2 & HR2).
  { unfold Vec_Size, Gia_ManObjNum. rewrite F4, F3. unfold pb. simpl.
    now rewrite length_replicate. }
  { unfold Vec_Size, Gia_ManObjNum. rewrite F5, F3. reflexivity. }
  { now rewrite Hn1. }
  { intros j Hj. rewrite Hn1 in Hj. unfold Gia_ObjNext. rewrite F4. unfold pb. simpl.
    unfold Vec_Entry. destruct (Z.ltb_spec j 0); [lia|].
    rewrite lookup_replicate_2; [simpl; lia|].
    unfold Gia_ManObjNum, Vec_Size in Hj. lia. }
  { intros j Hj Hnv. rewrite Hn1 in Hj.
    destruct (Hrep j Hj) as [(Ev & _)|(_ & Er & B & Ev)]; [contradiction|].
    rewrite Er. auto. }
  set (p2 := for_range_down (length (pObjs p1)) (Gia_ManObjNum p1 - 1)
               create_classes_link p1) in *.
  assert (Hcls2 : forall j, class_of p2 j = class_of p1 j)
    by (intros j; unfold class_of, Gia_ObjRepr, Gia_ReprArray; now rewrite HR2).
  pose proof HL2 as (G1 & G2 & G3 & _).
  assert (Heq2 : forall a b, Cec2_ObjSimEqual p2 a b = Cec2_ObjSimEqual p a b).
  { intros a b. apply Cec2_ObjSimEqual_same_sims; congruence. }
  assert (Hn2 : Gia_ManObjNum p2 = Gia_ManObjNum p)
    by (unfold Gia_ManObjNum; rewrite G3, F3; reflexivity).
  (* the refinement *)
  destruct (refine_all_classes_inv p2 Hwf2) as (p' & E3 & Hwf' & HL' & I3 & I4 & I5).
  { unfold words_64. rewrite G1, F1. exact H64. }
  rewrite Hn2 in I3, I4, I5.
  pose proof HL' as (L1 & L2 & L3 & _).
  exists p'. split; [exact E3|]. split; [exact Hwf'|].
  split; [congruence|]. split; [congruence|]. split; [congruence|].
  intros x y Hx Hy. split.
  - intros Ec.
    assert (Eq : Cec2_ObjSimEqual p x y = true).
    { pose proof (I5 x Hx) as Sx. pose proof (I5 y Hy) as Sy.
      rewrite Ec, Heq2 in Sx. rewrite Heq2 in Sy.
      apply (Cec2_ObjSimEqual_sym p _ _ H64) in Sx.
      exact (Cec2_ObjSimEqual_trans p x _ y H64 Sx Sy). }
    apply I3 in Ec; [|assumption|assumption].
    rewrite !Hcls2, (Hcls1 x Hx), (Hcls1 y Hy) in Ec.
    destruct (isco x) eqn:Ex, (isco y) eqn:Ey.
    + now left.
    + exfalso. destruct (Htab (key y) (Hkey y)) as [E|(_ & C & _)].
      * specialize (Hnode y Hy). rewrite Ey in Hnode. now destruct Hnode.
      * rewrite <- Ec in C. congruence.
    + exfalso. destruct (Htab (key x) (Hkey x)) as [E|(_ & C & _)].
      * specialize (Hnode x Hx). rewrite Ex in Hnode. now destruct Hnode.
      * rewrite Ec in C. congruence.
    + right. auto.
  - intros [->|(Ex & Ey & Eq)]; [reflexivity|].
    apply I4; [assumption | assumption | | now rewrite Heq2].
    rewrite !Hcls2, (Hcls1 x Hx), (Hcls1 y Hy).
    fold (isco x) in Ex. fold (isco y) in Ey. rewrite Ex, Ey.
    f_equal. apply Cec2_ObjSimEqual_key. exact Eq.
Qed.

(** ** One round of simulation and refinement *)

Lemma word_64_mod (x : Z) : 0 <= Z.land x (Z.ones 64) < 2 ^ 64.
Proof. rewrite Z.land_ones by lia. apply Z.mod_pos_bound. lia. Qed.

Lemma word_not_range (x : Z) : 0 <= word_not x < 2 ^ 64.
Proof. apply word_64_mod. Qed.

Lemma word_and_range (x y : Z) : 0 <= x < 2 ^ 64 -> 0 <= word_and x y < 2 ^ 64.
Proof.
  intros Hx. unfold word_and.
  replace x with (Z.land x (Z.ones 64))
    by (rewrite Z.land_ones by lia; apply Z.mod_small; exact Hx).
  rewrite <- Z.land_assoc, (Z.land_comm (Z.ones 64) y), Z.land_assoc.
  apply word_64_mod.
Qed.

Lemma words_64_sim_write (p : Gia_Man_t) (a w x : Z) :
  words_64 p -> 0 <= x < 2 ^ 64 -> words_64 (sim_write p a w x).
Proof.
  unfold words_64, sim_write, Vec_WriteEntry. simpl. intros H Hx.
  destruct (a + w <? 0); [exact H|]. now apply Forall_insert.
Qed.

Lemma Cec2_ObjSimAnd_words_64 (p : Gia_Man_t) (iObj : Z) :
  words_64 p -> words_64 (Cec2_ObjSimAnd p iObj).
Proof.
  intros H. unfold Cec2_ObjSimAnd.
  repeat match goal with |- context [if ?c then _ else _] => destruct c end;
    (replace (Z.to_nat (nSimWords p)) with (Z.to_nat (nSimWords p) + 0)%nat by lia;
     apply (for_range_inv (fun _ q => words_64 q)); [|exact H];
     intros q w _ Hq; apply words_64_sim_write; [exact Hq|];
     apply word_and_range;
     first [apply word_not_range | now apply words_64_read]).
Qed.

Lemma simulate_ands_words_64 (p : Gia_Man_t) :
  words_64 p -> words_64 (simulate_ands p).
Proof.
  intros H. unfold simulate_ands.
  apply (for_range_inv (fun _ q => words_64 q) _ (length (pObjs p)) 0 p); [|exact H].
  intros q i _ Hq. destruct (Gia_ObjIsAnd (Gia_ManObj q i)); [|exact Hq].
  now apply Cec2_ObjSimAnd_words_64.
Qed.

(** X21. One call of [Cec2_ManSimulate] on a manager with well-formed
    classes returns; afterwards every pattern of the store gives each
    AND node the conjunction of its fanins, and the classes are the old
    classes split by the new simulation words: two nodes share a class
    exactly when they did before and their new words are equal up to
    complement. *)
Theorem X21_simulate_then_refine (p : Gia_Man_t) :
  sims_allocated p -> fanins_below p -> words_64 p -> classes_wf p ->
  exists p',
    Cec2_ManSimulate p = Ok p'
    /\ classes_wf p'
    /\ (forall b, 0 <= b < 64 * nSimWords p -> and_consistent p (pattern p' b))
    /\ forall x y, 0 <= x < Gia_ManObjNum p -> 0 <= y < Gia_ManObjNum p ->
         (class_of p' x = class_of p' y <->
          class_of p x = class_of p y /\ Cec2_ObjSimEqual p' x y = true).
Proof.
  intros Hal Hfan H64 Hwf.
  destruct (simulate_ands_words p Hal Hfan) as (R1 & _ & R3).
  pose proof (simulate_ands_words_64 p H64) as H64'.
  unfold Cec2_ManSimulate.
  set (p1 := simulate_ands p) in *.
  assert (Hwf1 : classes_wf p1) by (rewrite R3; exact Hwf).
  assert (Hc1 : forall x, class_of p1 x = class_of p x) by (intros x; rewrite R3; reflexivity).
  assert (Hn1 : Gia_ManObjNum p1 = Gia_ManObjNum p) by (rewrite R3; reflexivity).
  assert (Hand : forall q, vSims q = vSims p1 -> nSimWords q = nSimWords p ->
            forall b, 0 <= b < 64 * nSimWords p -> and_consistent p (pattern q b)).
  { intros q Q1 Q2 b Hb i Eai. destruct (pattern_word _ _ Hb) as (Hw & Hk).
    unfold pattern, ptr_value, Gia_ObjChild0, Gia_ObjChild1, Abc_InfoHasBit, Cec2_ObjSim.
    simpl. rewrite Q1, Q2.
    change (Vec_WrdEntry (vSims p1) (nSimWords p * i + b / 64))
      with (sim_read p1 (Cec2_ObjSim p i) (b / 64)).
    rewrite (R1 i Eai _ Hw). cbv zeta. rewrite sim_and_bit by assumption. reflexivity. }
  destruct (pReprs p1) eqn:Er.
  - destruct (refine_all_classes_inv p1 Hwf1 H64') as (p' & E & Hwf' & HL & I3 & I4 & I5).
    rewrite Hn1 in I3, I4, I5. pose proof HL as (L1 & L2 & _).
    assert (Heq : forall a b, Cec2_ObjSimEqual p' a b = Cec2_ObjSimEqual p1 a b)
      by (intros a b; now apply links_only_Equal).
    exists p'. split; [exact E|]. split; [exact Hwf'|]. split.
    + apply Hand; [exact L1|]. rewrite L2, R3. reflexivity.
    + intros x y Hx Hy. rewrite Heq, <- !Hc1. split.
      * intros Ec. split; [now apply I3|].
        pose proof (I5 x Hx) as Sx. pose proof (I5 y Hy) as Sy. rewrite Ec in Sx.
        apply (Cec2_ObjSimEqual_sym p1 _ _ H64') in Sx.
        exact (Cec2_ObjSimEqual_trans p1 x _ y H64' Sx Sy).
      * intros (Ec & Eq). now apply I4.
  - (* no classes: there is no node either *)
    exists p1. split; [reflexivity|]. split; [exact Hwf1|]. split.
    + apply Hand; [reflexivity|]. rewrite R3. reflexivity.
    + intros x y Hx Hy. exfalso.
      destruct Hwf1 as (_ & Hsz & _). unfold Gia_ReprArray in Hsz. rewrite Er in Hsz.
      rewrite Hn1 in Hsz. simpl in Hsz. unfold Vec_Size in Hsz. simpl in Hsz. lia.
Qed.

(** ** The clauses admit every behaviour of the circuit *)

Lemma Cec2_AddClausesSuper_sem
    (p : Gia_Man_t) (pNode : Z) (vSuper : list Gia_Ptr) (s s' : satoko_t) :
  Cec2_AddClausesSuper p pNode vSuper s = Ok s' ->
  exists cs,
    sat_clauses s' = sat_clauses s ++ cs
    /\ forall sigma : Z -> bool,
         cnf_true sigma cs
         = Bool.eqb (node_value p sigma pNode)
                    (forallb (ptr_value (node_value p sigma)) vSuper).
Proof.
  intros H. unfold Cec2_AddClausesSuper in H.
  inv_bind H as u Hu. inv_bind H as s1 Hs1.
  apply super_binary_clauses_content in Hs1.
  apply add_clause_checked_Ok in H as (Hc & _).
  eexists. split.
  - rewrite Hc, Hs1, <- app_assoc. reflexivity.
  - intros sigma. rewrite cnf_true_app, binary_clauses_true.
    change (cnf_true sigma [?c]) with (clause_true sigma c && true).
    unfold polar_flip. rewrite big_clause_true.
    destruct (node_value p sigma pNode), (forallb _ vSuper); reflexivity.
Qed.

Lemma Cec2_AddClausesMux_sem (p : Gia_Man_t) (pNode : Z) (s s' : satoko_t) :
  Cec2_AddClausesMux p pNode s = Ok s' ->
  let '(pNodeI, pNodeT, pNodeE) := Gia_ObjRecognizeMux p pNode in
  exists cs,
    sat_clauses s' = sat_clauses s ++ cs
    /\ forall sigma : Z -> bool,
         cnf_true sigma cs
         = Bool.eqb (node_value p sigma pNode)
                    (if node_value p sigma pNodeI
                     then ptr_value (node_value p sigma) pNodeT
                     else ptr_value (node_value p sigma) pNodeE).
Proof.
  intros H. unfold Cec2_AddClausesMux in H.
  inv_bind H as u Hu. destruct (Gia_ObjRecognizeMux p pNode) as [[pNodeI pNodeT] pNodeE].
  inv_bind H as s1 Hc. apply add_clause_checked_Ok in Hc as (Hc & _).
  inv_bind H as s2 Hc0. apply add_clause_checked_Ok in Hc0 as (Hc0 & _).
  inv_bind H as s3 Hc1. apply add_clause_checked_Ok in Hc1 as (Hc1 & _).
  inv_bind H as s4 Hc2. apply add_clause_checked_Ok in Hc2 as (Hc2 & _).
  destruct (Z.eqb_spec (Cec2_ObjSatId p (Gia_Regular pNodeT))
                       (Cec2_ObjSatId p (Gia_Regular pNodeE))) as [E|E].
  - inv_Ok H. eexists [_; _; _; _].
    rewrite Hc2, Hc1, Hc0, Hc, <- !app_assoc. split; [reflexivity|].
    intros sigma. unfold cnf_true, clause_true, polar_flip, ptr_value, node_value.
    cbn [forallb existsb]. rewrite !lit_true_Var2Lit. rewrite E.
    destruct (sigma (Cec2_ObjSatId p pNode)), (sigma (Cec2_ObjSatId p pNodeI)),
      (sigma (Cec2_ObjSatId p (Gia_Regular pNodeE))),
      (Gia_IsComplement pNodeT), (Gia_IsComplement pNodeE); reflexivity.
  - inv_bind H as s5 Hc3. apply add_clause_checked_Ok in Hc3 as (Hc3 & _).
    apply add_clause_checked_Ok in H as (Hc4 & _).
    eexists [_; _; _; _; _; _].
    rewrite Hc4, Hc3, Hc2, Hc1, Hc0, Hc, <- !app_assoc. split; [reflexivity|].
    intros sigma. unfold cnf_true, clause_true, polar_flip, ptr_value, node_value.
    cbn [forallb existsb]. rewrite !lit_true_Var2Lit.
    destruct (sigma (Cec2_ObjSatId p pNode)), (sigma (Cec2_ObjSatId p pNodeI)),
      (sigma (Cec2_ObjSatId p (Gia_Regular pNodeT))),
      (sigma (Cec2_ObjSatId p (Gia_Regular pNodeE))),
      (Gia_IsComplement pNodeT), (Gia_IsComplement pNodeE); reflexivity.
Qed.

Lemma forallb_ext_In {A : Type} (f g : A -> bool) (l : list A) :
  (forall x, In x l -> f x = g x) -> forallb f l = forallb g l.
Proof.
  induction l as [|x t IH]; intros H; simpl; [reflexivity|].
  rewrite (H x) by now left. rewrite IH; [reflexivity|]. intros y Hy. apply H. now right.
Qed.

Lemma mux_fanins_same (p p' : Gia_Man_t) (x : Z) :
  pObjs p' = pObjs p -> mux_fanins p' x = mux_fanins p x.
Proof. intros H. unfold mux_fanins, Gia_ManObj. now rewrite H. Qed.

Lemma add_fanins_to_frontier_clauses (vFan : list Gia_Ptr) :
  forall m m', add_fanins_to_frontier vFan m = Ok m' ->
    sat_clauses (pSat m') = sat_clauses (pSat m).
Proof.
  induction vFan as [|q rest IH]; intros m m' H; simpl in H.
  - now inv_Ok H.
  - inv_bind H as t Ht. destruct t as [[pN vF] s].
    apply IH in H. simpl in H. rewrite H.
    apply Cec2_ObjAddToFrontier_Ok in Ht as [(_ & _ & -> & _)|(_ & _ & _ & ->)]; reflexivity.
Qed.

Lemma add_fanins_to_frontier_assigned (vFan : list Gia_Ptr) :
  forall m m', add_fanins_to_frontier vFan m = Ok m' ->
    vars_inv (pNew m) (pSat m) -> 0 <= sat_nvars (pSat m) ->
    (forall q, In q vFan -> 0 <= Gia_Regular q < Vec_Size (vCopies (pNew m))) ->
    forall q, In q vFan -> 0 <= Cec2_ObjSatId (pNew m') (Gia_Regular q).
Proof.
  induction vFan as [|q0 rest IH]; intros m m' H Hinv Hn Hr q Hq; [destruct Hq|].
  simpl in H. inv_bind H as t Ht. destruct t as [[pN vF] s].
  pose proof Ht as Ht'.
  apply Cec2_ObjAddToFrontier_vars in Ht' as (Hi1 & Hn1 & Hl1 & Hk1); [|assumption..].
  pose proof H as H'.
  apply add_fanins_to_frontier_vars in H' as (_ & _ & _ & Hk2); [|exact Hi1 | simpl; lia].
  simpl in Hk2.
  destruct Hq as [<-|Hq].
  - assert (H0 : 0 <= Cec2_ObjSatId pN (Gia_Regular q0)).
    { apply Cec2_ObjAddToFrontier_Ok in Ht as [(-> & _ & _ & Hge)|(_ & -> & _ & _)];
        [exact Hge|].
      rewrite Cec2_ObjSatId_set.
      assert ((Gia_Regular q0 =? Gia_Regular q0) && (0 <=? Gia_Regular q0)
              && (Gia_Regular q0 <? Vec_Size (vCopies (pNew m))) = true) as ->; [|exact Hn].
      specialize (Hr q0 (or_introl eq_refl)).
      rewrite Z.eqb_refl. apply andb_true_iff.
      split; [apply Z.leb_le | apply Z.ltb_lt]; lia. }
    rewrite Hk2; assumption.
  - apply (IH _ _ H); simpl; [exact Hi1 | lia | | exact Hq].
    intros q' Hq'. unfold Vec_Size in *. rewrite Hl1. apply Hr. now right.
Qed.

Section CnfSound.

Variables (p0 : Gia_Man_t) (R : Z -> Prop) (val : Z -> bool).
Hypothesis wf0 : wf_new p0.
Hypothesis R_closed :
  forall x, R x -> Gia_ObjIsAnd (Gia_ManObj p0 x) = true ->
    R (Gia_ObjFaninId0 (Gia_ManObj p0 x)) /\ R (Gia_ObjFaninId1 (Gia_ManObj p0 x)).
Hypothesis R_range : forall x, R x -> 0 < x < Gia_ManObjNum p0.
Hypothesis val_ok : and_consistent p0 val.
Hypothesis mux_ok : recognizes_muxes p0.

Lemma and_consistent_same (p : Gia_Man_t) :
  pObjs p = pObjs p0 -> and_consistent p val.
Proof.
  intros Ho i. rewrite (Gia_ManObj_same_objs p0 p i Ho). apply val_ok.
Qed.

Lemma wf_new_same (p : Gia_Man_t) :
  pObjs p = pObjs p0 -> length (vCopies p) = length (vCopies p0) -> wf_new p.
Proof.
  intros Ho Hl. pose proof wf0 as Hwf.
  unfold wf_new, Gia_ManObj, Gia_ManObjNum in *. rewrite Ho, Hl. exact Hwf.
Qed.

Lemma agrees_stable (p p' : Gia_Man_t) (sigma : Z -> bool) :
  pObjs p = pObjs p' ->
  (forall y, 0 <= Cec2_ObjSatId p y -> Cec2_ObjSatId p' y = Cec2_ObjSatId p y) ->
  agrees p' sigma val -> agrees p sigma val.
Proof.
  intros Ho Hk Ha x Hx Hid. rewrite <- (Hk x Hid). apply Ha.
  - unfold Gia_ManObjNum in *. now rewrite <- Ho.
  - now rewrite Hk.
Qed.

Lemma frontier_step_sound (fUseMuxes : bool) (m m' : Cec2_Man_t) (pNode : Z) :
  frontier_step fUseMuxes m pNode = Ok m' ->
  cnf_inv p0 R m -> vars_inv (pNew m) (pSat m) ->
  R pNode -> Gia_ObjIsAnd (Gia_ManObj p0 pNode) = true ->
  0 <= Cec2_ObjSatId (pNew m) pNode ->
  exists cs,
    sat_clauses (pSat m') = sat_clauses (pSat m) ++ cs
    /\ forall sigma, agrees (pNew m') sigma val -> cnf_true sigma cs = true.
Proof.
  unfold frontier_step. intros H Hinv Hv HR Hand Hid.
  inv_bind H as u Hu. inv_bind H as m1 H1. inv_bind H as u' Hu'. inv_Ok H.
  pose proof Hinv as ((Ho & Hl & _) & _ & Hn).
  pose proof (copies_inv_size p0 R wf0 _ (proj1 Hinv)) as Hsz.
  destruct (wf0_and p0 wf0 _ Hand) as (Hf0 & Hf1 & Hrange).
  destruct (R_closed _ HR Hand) as (HR0 & HR1).
  rewrite (Gia_ManObj_same_objs p0 _ _ Ho) in H1.
  destruct (fUseMuxes && fMark0 (Gia_ManObj p0 pNode)) eqn:Emux.
  - (* a MUX *)
    apply andb_true_iff in Emux as (_ & Emark).
    destruct wf0 as (_ & Hwf). destruct (Hwf pNode Hrange) as (_ & _ & Hm).
    destruct (Hm Emark) as (_ & Ha0 & Ha1).
    destruct (R_closed _ HR0 Ha0) as (HR00 & HR01).
    destruct (R_closed _ HR1 Ha1) as (HR10 & HR11).
    inv_bind H1 as m2 H2. inv_bind H1 as s Hs. inv_Ok H1. simpl in H2.
    assert (HF : Forall (fun q => R (Gia_Regular q)) (mux_fanins (pNew m) pNode)).
    { unfold mux_fanins. rewrite !(Gia_ManObj_same_objs p0 _ _ Ho).
      repeat apply Vec_PushUnique_Forall; try constructor; assumption. }
    pose proof (add_fanins_to_frontier_stable _ _ _ H2) as ([] & _). simpl in *.
    pose proof (add_fanins_to_frontier_clauses _ _ _ H2) as Hcl. simpl in Hcl.
    pose proof (add_fanins_to_frontier_vars _ _ _ H2 Hv Hn) as (_ & _ & _ & Hk).
    simpl in Hk.
    assert (Hasg : forall q, In q (mux_fanins (pNew m) pNode) ->
              0 <= Cec2_ObjSatId (pNew m2) (Gia_Regular q)).
    { apply (add_fanins_to_frontier_assigned _ _ _ H2); simpl; [exact Hv | exact Hn|].
      intros q Hq. rewrite Hsz. rewrite List.Forall_forall in HF.
      specialize (R_range _ (HF q Hq)). lia. }
    assert (Ho2 : pObjs (pNew m2) = pObjs p0) by congruence.
    pose proof (mux_ok (pNew m2) pNode Ho2) as Hmx.
    rewrite (Gia_ManObj_same_objs p0 _ _ Ho2), (mux_fanins_same (pNew m) (pNew m2)) in Hmx
      by congruence.
    specialize (Hmx Emark).
    apply Cec2_AddClausesMux_sem in Hs.
    destruct (Gia_ObjRecognizeMux (pNew m2) pNode) as [[pI pT] pE].
    destruct Hs as (cs & Hcs & Hsem). destruct Hmx as (HI & HT & HE & Hite).
    exists cs. split; [simpl; congruence|].
    intros sigma Hag. simpl in Hag. rewrite Hsem.
    assert (Hin : forall q, In q (mux_fanins (pNew m) pNode) ->
              sigma (Cec2_ObjSatId (pNew m2) (Gia_Regular q)) = val (Gia_Regular q)).
    { intros q Hq. apply Hag; [|now apply Hasg].
      rewrite List.Forall_forall in HF. specialize (R_range _ (HF q Hq)).
      unfold Gia_ManObjNum in *. rewrite Ho2. lia. }
    assert (EF : node_value (pNew m2) sigma pNode = val pNode).
    { apply Hag; [unfold Gia_ManObjNum in *; rewrite Ho2; lia|].
      rewrite Hk; assumption. }
    assert (EI : node_value (pNew m2) sigma pI = val pI) by (apply (Hin _ HI)).
    assert (ET : ptr_value (node_value (pNew m2) sigma) pT = ptr_value val pT).
    { unfold ptr_value, node_value. f_equal. apply (Hin _ HT). }
    assert (EE : ptr_value (node_value (pNew m2) sigma) pE = ptr_value val pE).
    { unfold ptr_value, node_value. f_equal. apply (Hin _ HE). }
    rewrite EF, EI, ET, EE, (Hite val (and_consistent_same _ Ho2)).
    apply Bool.eqb_reflx.
  - (* a super-gate *)
    inv_bind H1 as vSuper Hsup. inv_bind H1 as m2 H2. inv_bind H1 as s Hs. inv_Ok H1.
    simpl in H2.
    unfold Cec2_CollectSuper in Hsup. inv_bind Hsup as u2 Hu2.
    assert (HF : Forall (fun q => R (Gia_Regular q)) vSuper).
    { eapply (Cec2_CollectSuper_rec_leaves p0 R wf0 R_closed);
        [exact Ho | exact Hsup | exact HR | simpl; lia | constructor]. }
    pose proof (Cec2_CollectSuper_rec_sound (pNew m) fUseMuxes val
                  (wf_new_same _ Ho Hl) (and_consistent_same _ Ho) _ _ _ _ _ Hsup) as Hleaves.
    simpl in Hleaves. unfold ptr_value at 2 in Hleaves. simpl in Hleaves.
    rewrite xorb_false_r in Hleaves.
    specialize (Hleaves ltac:(unfold Gia_ManObjNum in *; rewrite Ho; lia)).
    pose proof (add_fanins_to_frontier_stable _ _ _ H2) as ([] & Hfan). simpl in *.
    pose proof (add_fanins_to_frontier_clauses _ _ _ H2) as Hcl. simpl in Hcl.
    pose proof (add_fanins_to_frontier_vars _ _ _ H2 Hv Hn) as (_ & _ & _ & Hk).
    simpl in Hk.
    assert (Hasg : forall q, In q vSuper -> 0 <= Cec2_ObjSatId (pNew m2) (Gia_Regular q)).
    { apply (add_fanins_to_frontier_assigned _ _ _ H2); simpl; [exact Hv | exact Hn|].
      intros q Hq. rewrite Hsz. rewrite List.Forall_forall in HF.
      specialize (R_range _ (HF q Hq)). lia. }
    assert (Ho2 : pObjs (pNew m2) = pObjs p0) by congruence.
    rewrite Hfan in Hs.
    apply Cec2_AddClausesSuper_sem in Hs as (cs & Hcs & Hsem).
    exists cs. split; [simpl; congruence|].
    intros sigma Hag. simpl in Hag. rewrite Hsem.
    assert (EF : node_value (pNew m2) sigma pNode = val pNode).
    { apply Hag; [unfold Gia_ManObjNum in *; rewrite Ho2; lia|].
      rewrite Hk; assumption. }
    rewrite EF, (forallb_ext_In _ (ptr_value val)), Hleaves; [apply Bool.eqb_reflx|].
    intros q Hq. unfold ptr_value, node_value. f_equal.
    apply Hag; [|now apply Hasg].
    rewrite List.Forall_forall in HF. specialize (R_range _ (HF q Hq)).
    unfold Gia_ManObjNum in *. rewrite Ho2. lia.
Qed.

Lemma frontier_loop_sound (fuel : nat) (fUseMuxes : bool) :
  forall (m m' : Cec2_Man_t) (i : Z),
    frontier_loop fuel fUseMuxes m i = Ok m' -> 0 <= i ->
    cnf_inv p0 R m -> vars_inv (pNew m) (pSat m) ->
    exists cs,
      sat_clauses (pSat m') = sat_clauses (pSat m) ++ cs
      /\ forall sigma, agrees (pNew m') sigma val -> cnf_true sigma cs = true.
Proof.
  induction fuel as [|fuel IH]; intros m m' i H Hi Hinv Hv; simpl in H.
  - destruct (i <? _); [discriminate|]. inv_Ok H. exists []. now rewrite app_nil_r.
  - destruct (Z.ltb_spec i (Vec_Size (vFrontier m)));
      [|inv_Ok H; exists []; now rewrite app_nil_r].
    inv_bind H as m1 H1.
    pose proof Hinv as (Hc & Hf & Hn).
    pose proof (Vec_Entry_Forall _ 0 _ i (proj1 Hf) ltac:(lia)) as (HR & Hand & Hid).
    destruct (frontier_step_sound _ _ _ _ H1 Hinv Hv HR Hand Hid) as (cs1 & Hcs1 & Hsem1).
    pose proof (frontier_step_inv p0 R wf0 R_closed _ _ _ _ H1 Hinv HR Hand) as Hinv1.
    pose proof (frontier_step_vars _ _ _ _ H1 Hv Hn) as (Hv1 & _).
    destruct (IH _ _ _ H ltac:(lia) Hinv1 Hv1) as (cs2 & Hcs2 & Hsem2).
    pose proof (frontier_loop_vars _ _ _ _ _ H Hv1 (proj2 (proj2 Hinv1))) as (_ & _ & _ & Hk).
    pose proof (frontier_loop_inv p0 R wf0 R_closed _ _ _ _ _ H ltac:(lia) Hinv1)
      as ((Ho' & _) & _).
    destruct Hinv1 as ((Ho1 & _) & _).
    exists (cs1 ++ cs2). split; [rewrite Hcs2, Hcs1, app_assoc; reflexivity|].
    intros sigma Hag. rewrite cnf_true_app, Hsem2 by assumption.
    rewrite Hsem1; [reflexivity|].
    apply (agrees_stable _ (pNew m')); [congruence | exact Hk | exact Hag].
Qed.

Lemma Cec2_ObjGetCnfVar_sound (m m' : Cec2_Man_t) (iObj v : Z) :
  Cec2_ObjGetCnfVar m iObj = Ok (m', v) ->
  copies_inv p0 R (pNew m) -> 0 <= sat_nvars (pSat m) -> vars_inv (pNew m) (pSat m) ->
  R iObj ->
  exists cs,
    sat_clauses (pSat m') = sat_clauses (pSat m) ++ cs
    /\ forall sigma, agrees (pNew m') sigma val -> cnf_true sigma cs = true.
Proof.
  unfold Cec2_ObjGetCnfVar. intros H Hc Hn Hv HR.
  destruct (0 <=? _).
  - inv_Ok H. exists []. now rewrite app_nil_r.
  - inv_bind H as u Hu. destruct (Gia_ObjIsCi _).
    + simpl in H. inv_bind H as pr Hpr. destruct pr as [pN Num].
      apply Cec2_ObjSetSatId_Ok in Hpr as [-> ->]. inv_Ok H. simpl.
      exists []. now rewrite app_nil_r.
    + inv_bind H as u' Hu'. inv_bind H as t Ht. destruct t as [[pN vF] s].
      inv_bind H as m1 H1. inv_Ok H. simpl in Ht.
      pose proof Ht as Ht'. pose proof Ht as Ht''.
      apply (Cec2_ObjAddToFrontier_inv p0 R wf0) in Ht as (Hc' & Hf' & Hn');
        [|exact Hc|split; constructor|exact Hn|exact HR].
      apply Cec2_ObjAddToFrontier_vars in Ht' as (Hv' & _); [|assumption..].
      destruct (frontier_loop_sound _ _ _ _ _ H1) as (cs & Hcs & Hsem);
        [lia | split; [exact Hc' | split; [exact Hf' | exact Hn']] | exact Hv'|].
      exists cs. split; [|exact Hsem].
      rewrite Hcs. simpl. f_equal.
      apply Cec2_ObjAddToFrontier_Ok in Ht'' as [(_ & _ & -> & _)|(_ & _ & _ & ->)];
        reflexivity.
Qed.

End CnfSound.

Lemma Cec2_ObjGetCnfVar_vars (m m' : Cec2_Man_t) (iObj v : Z) :
  Cec2_ObjGetCnfVar m iObj = Ok (m', v) ->
  vars_inv (pNew m) (pSat m) -> 0 <= sat_nvars (pSat m) ->
  0 <= iObj < Vec_Size (vCopies (pNew m)) ->
  vars_inv (pNew m') (pSat m')
  /\ sat_nvars (pSat m) <= sat_nvars (pSat m')
  /\ (forall y, 0 <= Cec2_ObjSatId (pNew m) y ->
        Cec2_ObjSatId (pNew m') y = Cec2_ObjSatId (pNew m) y)
  /\ Cec2_ObjSatId (pNew m') iObj = v
  /\ 0 <= v < sat_nvars (pSat m').
Proof.
  unfold Cec2_ObjGetCnfVar. intros H Hinv Hn Hr.
  destruct (Z.leb_spec 0 (Cec2_ObjSatId (pNew m) iObj)) as [Hle|Hlt].
  - inv_Ok H. split; [assumption|]. split; [lia|]. split; [auto|]. split; [reflexivity|].
    destruct (Hinv iObj Hr Hle). lia.
  - inv_bind H as u Hu. destruct (Gia_ObjIsCi _).
    + simpl in H. inv_bind H as pr Hpr. destruct pr as [pN Num].
      apply Cec2_ObjSetSatId_Ok in Hpr as [-> ->]. inv_Ok H. simpl.
      split; [now apply vars_inv_set|]. split; [lia|]. split; [|split].
      * intros y Hy. unfold Cec2_ObjSatId, Gia_ObjCopyArray, Gia_ObjSetCopyArray. simpl.
        apply Vec_Entry_write_other. intros ->. lia.
      * unfold Cec2_ObjSatId, Gia_ObjCopyArray, Gia_ObjSetCopyArray. simpl.
        now apply Vec_Entry_write_same.
      * lia.
    + inv_bind H as u' Hu'. inv_bind H as t Ht. destruct t as [[pN vF] s].
      inv_bind H as m1 H1. inv_Ok H. simpl in Ht.
      pose proof Ht as Ht'.
      apply Cec2_ObjAddToFrontier_vars in Ht as (Hi1 & Hn1 & Hl1 & Hk1); [|assumption..].
      apply frontier_loop_vars in H1 as (Hi2 & Hn2 & Hl2 & Hk2); [|exact Hi1 | simpl; lia].
      simpl in Hn2, Hl2, Hk2.
      assert (Hnew : Cec2_ObjSatId pN iObj = sat_nvars (pSat m)).
      { apply Cec2_ObjAddToFrontier_Ok in Ht' as [(_ & _ & _ & Hge)|(_ & -> & _ & _)]; [lia|].
        unfold Cec2_ObjSatId, Gia_ObjCopyArray, Gia_ObjSetCopyArray. simpl.
        now apply Vec_Entry_write_same. }
      assert (Hfinal : Cec2_ObjSatId (pNew m') iObj = sat_nvars (pSat m))
        by (rewrite Hk2; [exact Hnew | rewrite Hnew; lia]).
      split; [assumption|]. split; [lia|]. split; [|split].
      * intros y Hy. rewrite Hk2 by (rewrite Hk1; assumption). now apply Hk1.
      * reflexivity.
      * rewrite Hfinal. split; [lia|].
        assert (Hr1 : 0 <= iObj < Vec_Size (vCopies (pNew m')))
          by (unfold Vec_Size in *; rewrite Hl2, Hl1; exact Hr).
        destruct (Hi2 iObj Hr1 ltac:(lia)) as (Hlt' & _). lia.
Qed.

Lemma agrees_exists (p : Gia_Man_t) (s : satoko_t) (val : Z -> bool) :
  vars_inv p s -> Vec_Size (vCopies p) = Gia_ManObjNum p ->
  exists sigma, agrees p sigma val.
Proof.
  intros Hinv Hsz.
  exists (fun v =>
            match List.find (fun x => Cec2_ObjSatId p x =? v)
                    (map Z.of_nat (seq 0 (length (pObjs p)))) with
            | Some x => val x
            | None => false
            end).
  intros x Hx Hid.
  assert (Hin : In x (map Z.of_nat (seq 0 (length (pObjs p))))).
  { apply List.in_map_iff. exists (Z.to_nat x). split; [lia|].
    apply List.in_seq. unfold Gia_ManObjNum, Vec_Size in Hx. lia. }
  destruct (List.find _ _) as [y|] eqn:E.
  - apply List.find_some in E as (Hy & Ey). apply Z.eqb_eq in Ey.
    apply List.in_map_iff in Hy as (k & <- & Hk). apply List.in_seq in Hk.
    rewrite <- Hsz in Hx.
    destruct (Hinv x Hx Hid) as (_ & Hinj).
    rewrite (Hinj (Z.of_nat k)); [reflexivity | | exact Ey].
    rewrite Hsz. unfold Gia_ManObjNum, Vec_Size. lia.
  - apply (List.find_none _ _ E) in Hin. rewrite Z.eqb_refl in Hin. discriminate.
Qed.

Lemma recognizes_muxes_same (p0 p : Gia_Man_t) :
  pObjs p = pObjs p0 -> recognizes_muxes p0 -> recognizes_muxes p.
Proof. intros Ho H q x Hq. apply H. congruence. Qed.

Lemma range_closed (p0 : Gia_Man_t) :
  wf_new p0 ->
  forall x, 0 < x < Gia_ManObjNum p0 -> Gia_ObjIsAnd (Gia_ManObj p0 x) = true ->
    0 < Gia_ObjFaninId0 (Gia_ManObj p0 x) < Gia_ManObjNum p0
    /\ 0 < Gia_ObjFaninId1 (Gia_ManObj p0 x) < Gia_ManObjNum p0.
Proof.
  intros Hwf x Hx Hand. destruct (wf0_and p0 Hwf x Hand) as (H0 & H1 & _). lia.
Qed.

Lemma Cec2_ObjGetCnfVar_admits (p0 : Gia_Man_t) (val : Z -> bool)
    (m m' : Cec2_Man_t) (iObj v : Z) :
  wf_new p0 -> and_consistent p0 val -> recognizes_muxes p0 ->
  Cec2_ObjGetCnfVar m iObj = Ok (m', v) ->
  copies_inv p0 (fun x => 0 < x < Gia_ManObjNum p0) (pNew m) ->
  0 <= sat_nvars (pSat m) -> vars_inv (pNew m) (pSat m) ->
  0 <= iObj < Gia_ManObjNum p0 -> (iObj = 0 -> 0 <= Cec2_ObjSatId (pNew m) 0) ->
  (exists cs,
     sat_clauses (pSat m') = sat_clauses (pSat m) ++ cs
     /\ forall sigma, agrees (pNew m') sigma val -> cnf_true sigma cs = true)
  /\ copies_inv p0 (fun x => 0 < x < Gia_ManObjNum p0) (pNew m')
  /\ 0 <= sat_nvars (pSat m') /\ vars_inv (pNew m') (pSat m')
  /\ (forall y, 0 <= Cec2_ObjSatId (pNew m) y ->
        Cec2_ObjSatId (pNew m') y = Cec2_ObjSatId (pNew m) y)
  /\ Cec2_ObjSatId (pNew m') iObj = v /\ 0 <= v.
Proof.
  intros Hwf Hval Hmux H Hc Hn Hv Hr H0.
  pose proof (copies_inv_size p0 _ Hwf _ Hc) as Hsz.
  destruct (Cec2_ObjGetCnfVar_vars _ _ _ _ H Hv Hn ltac:(lia)) as (Hv' & Hn' & Hk & Hid & Hv0).
  destruct (Z.eq_dec iObj 0) as [->|Hne].
  - unfold Cec2_ObjGetCnfVar in H.
    assert ((0 <=? Cec2_ObjSatId (pNew m) 0) = true) as E by (apply Z.leb_le; auto).
    rewrite E in H. inv_Ok H.
    split; [exists []; now rewrite app_nil_r|]. split; [exact Hc|]. split; [lia|].
    split; [exact Hv'|]. split; [exact Hk|]. split; [exact Hid | lia].
  - assert (HR : 0 < iObj < Gia_ManObjNum p0) by lia.
    split.
    + apply (Cec2_ObjGetCnfVar_sound p0 (fun x => 0 < x < Gia_ManObjNum p0) val Hwf
               (range_closed p0 Hwf) (fun x Hx => Hx) Hval Hmux m m' iObj v); assumption.
    + destruct (Cec2_ObjGetCnfVar_inv p0 _ Hwf (range_closed p0 Hwf) _ _ _ _ H Hc Hn HR)
        as (Hc' & _).
      split; [exact Hc'|]. split; [lia|].
      split; [exact Hv'|]. split; [exact Hk|]. split; [exact Hid | lia].
Qed.

(** X22. The clauses that [Cec2_ObjGetCnfVar] adds exclude no
    behaviour of the circuit: under every valuation that gives each AND
    node the conjunction of its fanins, the assignment that gives each
    variable the value of its node satisfies all of them; and there is
    such an assignment, because no two nodes share a variable. *)
Theorem X22_clauses_admit_the_circuit
    (m m' : Cec2_Man_t) (iObj v : Z) (val : Z -> bool) :
  wf_new (pNew m) -> recognizes_muxes (pNew m) -> and_consistent (pNew m) val ->
  0 <= sat_nvars (pSat m) -> vars_inv (pNew m) (pSat m) ->
  0 < iObj < Gia_ManObjNum (pNew m) ->
  Cec2_ObjGetCnfVar m iObj = Ok (m', v) ->
  exists cs,
    sat_clauses (pSat m') = sat_clauses (pSat m) ++ cs
    /\ (forall sigma, agrees (pNew m') sigma val -> cnf_true sigma cs = true)
    /\ exists sigma, agrees (pNew m') sigma val.
Proof.
  intros Hwf Hmux Hval Hn Hv Hr H.
  assert (Hc : copies_inv (pNew m) (fun x => 0 < x < Gia_ManObjNum (pNew m)) (pNew m)).
  { split; [reflexivity|]. split; [reflexivity|]. intros x _. now left. }
  destruct (Cec2_ObjGetCnfVar_admits (pNew m) val m m' iObj v Hwf Hval Hmux H Hc Hn Hv)
    as ((cs & Hcs & Hsem) & Hc' & _ & Hv' & _); [lia | lia|].
  exists cs. split; [exact Hcs|]. split; [exact Hsem|].
  apply (agrees_exists _ (pSat m')); [exact Hv'|].
  rewrite (copies_inv_size _ _ Hwf _ Hc'). destruct Hc' as (Ho & _).
  unfold Gia_ManObjNum. now rewrite Ho.
Qed.

Lemma two_lits_true (sigma : Z -> bool) (v0 v1 : Z) (c0 c1 : bool) :
  forallb (lit_true sigma) ([] ++ [Abc_Var2Lit v0 c0; Abc_Var2Lit v1 c1])
  = xorb (sigma v0) c0 && xorb (sigma v1) c1.
Proof. simpl. rewrite !lit_true_Var2Lit, andb_true_r. reflexivity. Qed.

(** X23. An UNSAT answer of [Cec2_ManSolveTwo] proves the two nodes
    equal up to the phase: when the solver is sound and starts without
    clauses and assumptions, and the call returns UNSAT, then under
    every valuation of the rebuilt AIG (the constant false, each AND
    node the conjunction of its fanins) the values of the two nodes
    differ exactly when [fPhase] is set. *)
Theorem X23_unsat_proves_equivalence
    (m m' : Cec2_Man_t) (a b : Z) (ph : bool) (val : Z -> bool) :
  solver_sound -> recognizes_muxes (pNew m) -> wf_new (pNew m) ->
  0 <= sat_nvars (pSat m) -> vars_inv (pNew m) (pSat m) ->
  sat_clauses (pSat m) = [] -> sat_assumps (pSat m) = [] ->
  0 <= a < Gia_ManObjNum (pNew m) -> 0 <= b < Gia_ManObjNum (pNew m) ->
  Cec2_ManSolveTwo m a b ph = Ok (m', SATOKO_UNSAT) ->
  val 0 = false -> and_consistent (pNew m) val ->
  xorb (val a) (val b) = ph.
Proof.
  intros Hsound Hmux Hwf Hn Hv Hcl Has Ha Hb H Hval0 Hval.
  pose proof (Cec2_ManSolveTwo_inv _ _ _ _ _ _ H) as Hinv. cbv zeta in Hinv.
  destruct Hinv as (m1 & m2 & m3 & m4 & iVar0 & iVar1 & pN & H1 & H2 & H3 & H4 & _ & _ & Est).
  set (lo := Z.min a b) in *. set (hi := Z.max a b) in *.
  assert (Hlo : 0 <= lo < Gia_ManObjNum (pNew m)) by (unfold lo; lia).
  assert (Hhi : 0 <= hi < Gia_ManObjNum (pNew m)) by (unfold hi; lia).
  assert (Hlh : lo <= hi) by (unfold lo, hi; lia).
  set (m0 := with_const_var m lo) in *.
  set (p0 := pNew m0).
  (* the manager once the constant has its variable *)
  assert (Ho0 : pObjs p0 = pObjs (pNew m))
    by (unfold p0, m0, with_const_var; destruct (lo =? 0); reflexivity).
  assert (Hl0 : length (vCopies p0) = length (vCopies (pNew m))).
  { unfold p0, m0, with_const_var. destruct (lo =? 0); [|reflexivity].
    simpl. apply length_Vec_WriteEntry. }
  assert (Hwf0 : wf_new p0) by (apply (wf_new_same (pNew m) Hwf); assumption).
  assert (Hnum : Gia_ManObjNum p0 = Gia_ManObjNum (pNew m))
    by (unfold Gia_ManObjNum; now rewrite Ho0).
  assert (Hval0' : and_consistent p0 val)
    by (apply (and_consistent_same (pNew m) val Hval); assumption).
  assert (Hmux0 : recognizes_muxes p0)
    by (apply (recognizes_muxes_same (pNew m)); assumption).
  assert (Hsat0 : 0 <= sat_nvars (pSat m0) /\ vars_inv p0 (pSat m0)
                  /\ sat_clauses (pSat m0) = [] /\ sat_assumps (pSat m0) = []
                  /\ (lo = 0 -> 0 <= Cec2_ObjSatId p0 0)).
  { unfold p0, m0, with_const_var. destruct (Z.eqb_spec lo 0) as [E|E].
    - simpl. split; [lia|]. split; [apply vars_inv_set; assumption|].
      split; [assumption|]. split; [assumption|].
      intros _. rewrite Cec2_ObjSatId_set.
      assert (0 < Vec_Size (vCopies (pNew m))).
      { destruct Hwf as (Hlen & _). unfold Gia_ManObjNum, Vec_Size in *. rewrite Hlen. lia. }
      change ((0 =? 0) && (0 <=? 0)) with true. cbn [andb].
      destruct (Z.ltb_spec 0 (Vec_Size (vCopies (pNew m)))); lia.
    - split; [assumption|]. split; [assumption|]. split; [assumption|].
      split; [assumption|]. intros; contradiction. }
  destruct Hsat0 as (Hn0 & Hv0 & Hcl0 & Has0 & Hc00).
  assert (Hc0 : copies_inv p0 (fun x => 0 < x < Gia_ManObjNum p0) (pNew m0)).
  { split; [reflexivity|]. split; [reflexivity|]. intros x _. now left. }
  (* the two cones *)
  destruct (Cec2_ObjGetCnfVar_admits p0 val m0 m1 lo iVar0 Hwf0 Hval0' Hmux0 H1 Hc0 Hn0 Hv0)
    as ((cs1 & Hcs1 & Hsem1) & Hc1 & Hn1 & Hv1 & Hk1 & Hid1 & Hpos1); [lia | exact Hc00 |].
  destruct (Cec2_ObjGetCnfVar_admits p0 val m1 m2 hi iVar1 Hwf0 Hval0' Hmux0 H2 Hc1 Hn1 Hv1)
    as ((cs2 & Hcs2 & Hsem2) & Hc2 & Hn2 & Hv2 & Hk2 & Hid2 & Hpos2); [lia | |].
  { intros E. rewrite Hk1 by (apply Hc00; lia). apply Hc00. lia. }
  (* the solver at the time of the queries *)
  apply Cec2_ManCollect_rec_stable in H3 as (_ & P3 & _), H4 as (_ & P4 & _).
  assert (Ps : pSat m4 = pSat m2) by (rewrite P4, P3; reflexivity).
  pose proof (Cec2_ObjGetCnfVar_stable _ _ _ _ H1) as [_ _ _ _ A1 _].
  pose proof (Cec2_ObjGetCnfVar_stable _ _ _ _ H2) as [_ _ _ _ A2 _].
  assert (Hasm : sat_assumps (pSat m2) = []) by congruence.
  assert (Hcls : sat_clauses (pSat m2) = cs1 ++ cs2)
    by (rewrite Hcs2, Hcs1, Hcl0; reflexivity).
  assert (Ho2 : pObjs (pNew m2) = pObjs p0) by (destruct Hc2; assumption).
  assert (Ho1 : pObjs (pNew m1) = pObjs p0) by (destruct Hc1; assumption).
  (* the assignment induced by the valuation *)
  destruct (agrees_exists (pNew m2) (pSat m2) val Hv2) as (sigma & Hag).
  { rewrite (copies_inv_size _ _ Hwf0 _ Hc2). unfold Gia_ManObjNum. now rewrite Ho2. }
  assert (Hag1 : agrees (pNew m1) sigma val).
  { apply (agrees_stable val _ (pNew m2)); [congruence | exact Hk2 | exact Hag]. }
  assert (Hsat : cnf_true sigma (sat_clauses (pSat m2)) = true).
  { rewrite Hcls, cnf_true_app, Hsem1, Hsem2 by assumption. reflexivity. }
  assert (Eid : Cec2_ObjSatId (pNew m2) lo = iVar0).
  { rewrite Hk2 by (rewrite Hid1; exact Hpos1). exact Hid1. }
  assert (E0 : sigma iVar0 = val lo).
  { rewrite <- Eid. apply Hag; [|rewrite Eid; exact Hpos1].
    unfold Gia_ManObjNum in *. rewrite Ho2, Ho0. lia. }
  assert (E1 : sigma iVar1 = val hi).
  { rewrite <- Hid2. apply Hag; [|rewrite Hid2; exact Hpos2].
    unfold Gia_ManObjNum in *. rewrite Ho2, Ho0. lia. }
  (* the answers *)
  pose proof (two_queries_spec (pSat m4) lo iVar0 iVar1 ph) as Hq. cbv zeta in Hq.
  destruct Hq as (_ & Hst & _).
  rewrite <- Est, Ps, Hasm in Hst.
  assert (Hfin : val hi = xorb (val lo) ph).
  { destruct (satoko_status_eqb _ SATOKO_UNSAT && (0 <? lo)) eqn:Esec.
    - apply andb_true_iff in Esec as (EA1 & Epos). apply satoko_status_eqb_eq in EA1.
      pose proof (Hsound _ _ sigma EA1 Hsat) as F1.
      pose proof (Hsound _ _ sigma (eq_sym Hst) Hsat) as F2.
      rewrite two_lits_true, E0, E1 in F1, F2.
      destruct (val lo), (val hi), ph; simpl in *; congruence.
    - pose proof (Hsound _ _ sigma (eq_sym Hst) Hsat) as F1.
      rewrite <- Hst in Esec. simpl in Esec. apply Z.ltb_ge in Esec.
      assert (lo = 0) as E by lia.
      rewrite two_lits_true, E0, E1, E, Hval0 in F1. rewrite E, Hval0.
      destruct (val hi), ph; simpl in *; congruence. }
  unfold lo, hi in Hfin. destruct (Z.le_gt_cases a b).
  - rewrite Z.min_l, Z.max_r in Hfin by lia. rewrite Hfin.
    destruct (val a), ph; reflexivity.
  - rewrite Z.min_r, Z.max_l in Hfin by lia. rewrite Hfin.
    destruct (val b), ph; reflexivity.
Qed.

(** ** The clauses force the value of every node that has a variable *)

Lemma cnf_true_app_inv (sigma : Z -> bool) (cs1 cs2 : list (list Z)) :
  cnf_true sigma (cs1 ++ cs2) = true ->
  cnf_true sigma cs1 = true /\ cnf_true sigma cs2 = true.
Proof. rewrite cnf_true_app. apply andb_true_iff. Qed.

Lemma forced_mono (p0 p p' : Gia_Man_t) (cs cs2 : list (list Z)) (x : Z) :
  forced p0 p cs x -> 0 <= Cec2_ObjSatId p x ->
  (forall y, 0 <= Cec2_ObjSatId p y -> Cec2_ObjSatId p' y = Cec2_ObjSatId p y) ->
  forced p0 p' (cs ++ cs2) x.
Proof.
  intros Hf Hx Hk sigma val Hc Hval Hag.
  apply cnf_true_app_inv in Hc as (Hc & _).
  rewrite (Hk x Hx). apply (Hf sigma val Hc Hval).
  intros r Hr Hid. rewrite <- (Hk r Hid). apply Hag; [exact Hr|]. now rewrite Hk.
Qed.

Lemma Cec2_ObjAddToFrontier_pending (p0 p p' : Gia_Man_t) (x : Z) (vF vF' : list Z)
    (s s' : satoko_t) :
  Cec2_ObjAddToFrontier p x vF s = Ok (p', vF', s') -> pObjs p = pObjs p0 ->
  exists l, vF' = vF ++ l
    /\ forall y, Gia_ObjIsAnd (Gia_ManObj p0 y) = true -> 0 <= Cec2_ObjSatId p' y ->
         0 <= Cec2_ObjSatId p y \/ In y l.
Proof.
  intros H Ho.
  apply Cec2_ObjAddToFrontier_Ok in H as [(-> & -> & _ & _)|(Hneg & -> & -> & _)].
  - exists []. rewrite app_nil_r. auto.
  - rewrite (Gia_ManObj_same_objs p0 p x Ho).
    exists (if Gia_ObjIsAnd (Gia_ManObj p0 x) then [x] else []).
    split; [destruct (Gia_ObjIsAnd _); [reflexivity | now rewrite app_nil_r]|].
    intros y Hand. rewrite Cec2_ObjSatId_set.
    destruct (Z.eqb_spec x y) as [->|Hne]; [|simpl; auto].
    rewrite Hand. intros _. right. now left.
Qed.

Lemma add_fanins_to_frontier_pending (p0 : Gia_Man_t) (vFan : list Gia_Ptr) :
  forall m m', add_fanins_to_frontier vFan m = Ok m' -> pObjs (pNew m) = pObjs p0 ->
    exists l, vFrontier m' = vFrontier m ++ l
      /\ forall y, Gia_ObjIsAnd (Gia_ManObj p0 y) = true -> 0 <= Cec2_ObjSatId (pNew m') y ->
           0 <= Cec2_ObjSatId (pNew m) y \/ In y l.
Proof.
  induction vFan as [|q rest IH]; intros m m' H Ho; simpl in H.
  - inv_Ok H. exists []. rewrite app_nil_r. auto.
  - inv_bind H as t Ht. destruct t as [[pN vF] s].
    pose proof Ht as Ht'.
    apply (Cec2_ObjAddToFrontier_pending p0) in Ht as (l1 & E1 & P1); [|exact Ho].
    assert (HoN : pObjs pN = pObjs p0).
    { apply Cec2_ObjAddToFrontier_Ok in Ht' as [(-> & _)|(_ & -> & _)]; assumption. }
    apply IH in H as (l2 & E2 & P2); [|exact HoN]. simpl in E2, P2.
    exists (l1 ++ l2). split; [rewrite E2, E1, app_assoc; reflexivity|].
    intros y Hand Hy. destruct (P2 y Hand Hy) as [Hy1|Hin]; [|right; apply in_or_app; now right].
    destruct (P1 y Hand Hy1) as [Hy0|Hin]; [now left | right; apply in_or_app; now left].
Qed.

Lemma drop_Vec_Entry (vF : list Z) (i : Z) :
  0 <= i < Vec_Size vF ->
  drop (Z.to_nat i) vF = Vec_Entry 0 vF i :: drop (Z.to_nat (i + 1)) vF.
Proof.
  intros Hi. unfold Vec_Entry, Vec_Size in *. destruct (Z.ltb_spec i 0); [lia|].
  destruct (vF !! Z.to_nat i) as [x|] eqn:E; [|apply lookup_ge_None in E; lia].
  simpl. replace (Z.to_nat (i + 1)) with (S (Z.to_nat i)) by lia.
  now apply drop_S.
Qed.

Section CnfComplete.

Variables (p0 : Gia_Man_t) (R : Z -> Prop).
Hypothesis wf0 : wf_new p0.
Hypothesis R_closed :
  forall x, R x -> Gia_ObjIsAnd (Gia_ManObj p0 x) = true ->
    R (Gia_ObjFaninId0 (Gia_ManObj p0 x)) /\ R (Gia_ObjFaninId1 (Gia_ManObj p0 x)).
Hypothesis R_range : forall x, R x -> 0 < x < Gia_ManObjNum p0.
Hypothesis mux_ok : recognizes_muxes p0.

Lemma below_closed (x0 : Z) :
  forall x, 0 < x < x0 -> Gia_ObjIsAnd (Gia_ManObj p0 x) = true ->
    0 < Gia_ObjFaninId0 (Gia_ManObj p0 x) < x0 /\ 0 < Gia_ObjFaninId1 (Gia_ManObj p0 x) < x0.
Proof.
  intros x Hx Hand. destruct (wf0_and p0 wf0 x Hand) as (H0 & H1 & _). lia.
Qed.

Lemma Cec2_CollectSuper_below (p : Gia_Man_t) (x0 : Z) (fUseMuxes : bool)
    (vSuper : list Gia_Ptr) :
  pObjs p = pObjs p0 -> Gia_ObjIsAnd (Gia_ManObj p0 x0) = true ->
  fUseMuxes && fMark0 (Gia_ManObj p0 x0) = false ->
  Cec2_CollectSuper p x0 fUseMuxes = Ok vSuper ->
  Forall (fun q => 0 < Gia_Regular q < x0) vSuper.
Proof.
  intros Ho Hand Emux H. unfold Cec2_CollectSuper in H. inv_bind H as u Hu.
  destruct (wf0_and p0 wf0 x0 Hand) as (Hf0 & Hf1 & Hrange).
  cbn [Cec2_CollectSuper_rec] in H.
  change (Gia_Regular (x0, false)) with x0 in H.
  change (Gia_IsComplement (x0, false)) with false in H.
  rewrite (Gia_ManObj_same_objs p0 p x0 Ho) in H.
  assert (Hci : Gia_ObjIsCi (Gia_ManObj p0 x0) = false).
  { unfold Gia_ObjIsAnd, Gia_ObjIsCi in *. destruct (oKind _); congruence. }
  rewrite Hci, Emux in H. cbn [negb orb andb] in H.
  inv_bind H as v1 H1.
  assert (F1 : Forall (fun q => 0 < Gia_Regular q < x0) v1).
  { eapply (Cec2_CollectSuper_rec_leaves p0 (fun y => 0 < y < x0) wf0 (below_closed x0));
      [exact Ho | exact H1 | simpl; lia | simpl; lia | constructor]. }
  eapply (Cec2_CollectSuper_rec_leaves p0 (fun y => 0 < y < x0) wf0 (below_closed x0));
    [exact Ho | exact H | simpl; lia | simpl; lia | exact F1].
Qed.

Lemma frontier_step_complete (fUseMuxes : bool) (m m' : Cec2_Man_t) (x0 : Z) :
  frontier_step fUseMuxes m x0 = Ok m' ->
  cnf_inv p0 R m -> vars_inv (pNew m) (pSat m) ->
  R x0 -> Gia_ObjIsAnd (Gia_ManObj p0 x0) = true ->
  0 <= Cec2_ObjSatId (pNew m) x0 ->
  (exists l, vFrontier m' = vFrontier m ++ l
     /\ forall y, Gia_ObjIsAnd (Gia_ManObj p0 y) = true -> 0 <= Cec2_ObjSatId (pNew m') y ->
          0 <= Cec2_ObjSatId (pNew m) y \/ In y l)
  /\ (exists cs, sat_clauses (pSat m') = sat_clauses (pSat m) ++ cs)
  /\ forced p0 (pNew m') (sat_clauses (pSat m')) x0.
Proof.
  unfold frontier_step. intros H Hinv Hv HR Hand Hid.
  inv_bind H as u Hu. inv_bind H as m1 H1. inv_bind H as u' Hu'. inv_Ok H.
  pose proof Hinv as ((Ho & Hl & _) & _ & Hn).
  pose proof (copies_inv_size p0 R wf0 _ (proj1 Hinv)) as Hsz.
  destruct (wf0_and p0 wf0 _ Hand) as (Hf0 & Hf1 & Hrange).
  rewrite (Gia_ManObj_same_objs p0 _ _ Ho) in H1.
  destruct (fUseMuxes && fMark0 (Gia_ManObj p0 x0)) eqn:Emux.
  - (* a MUX *)
    apply andb_true_iff in Emux as (_ & Emark).
    pose proof wf0 as (_ & Hwf). destruct (Hwf x0 Hrange) as (_ & _ & Hm).
    destruct (Hm Emark) as (_ & Ha0 & Ha1).
    destruct (wf0_and p0 wf0 _ Ha0) as (Hf00 & Hf01 & _).
    destruct (wf0_and p0 wf0 _ Ha1) as (Hf10 & Hf11 & _).
    inv_bind H1 as m2 H2. inv_bind H1 as s Hs. inv_Ok H1. simpl in H2.
    assert (HF : Forall (fun q => 0 < Gia_Regular q < x0) (mux_fanins (pNew m) x0)).
    { unfold mux_fanins. rewrite !(Gia_ManObj_same_objs p0 _ _ Ho).
      repeat apply Vec_PushUnique_Forall; try constructor; simpl; lia. }
    pose proof (add_fanins_to_frontier_stable _ _ _ H2) as ([] & _). simpl in *.
    pose proof (add_fanins_to_frontier_clauses _ _ _ H2) as Hcl. simpl in Hcl.
    pose proof (add_fanins_to_frontier_vars _ _ _ H2 Hv Hn) as (_ & _ & _ & Hk).
    simpl in Hk.
    assert (Hasg : forall q, In q (mux_fanins (pNew m) x0) ->
              0 <= Cec2_ObjSatId (pNew m2) (Gia_Regular q)).
    { apply (add_fanins_to_frontier_assigned _ _ _ H2); simpl; [exact Hv | exact Hn|].
      intros q Hq. rewrite Hsz. rewrite List.Forall_forall in HF.
      specialize (HF q Hq). lia. }
    assert (Ho2 : pObjs (pNew m2) = pObjs p0) by congruence.
    pose proof (mux_ok (pNew m2) x0 Ho2) as Hmx.
    rewrite (Gia_ManObj_same_objs p0 _ _ Ho2), (mux_fanins_same (pNew m) (pNew m2)) in Hmx
      by congruence.
    specialize (Hmx Emark).
    apply Cec2_AddClausesMux_sem in Hs.
    destruct (Gia_ObjRecognizeMux (pNew m2) x0) as [[pI pT] pE].
    destruct Hs as (cs & Hcs & Hsem). destruct Hmx as (HI & HT & HE & Hite).
    split; [apply (add_fanins_to_frontier_pending p0 _ _ _ H2); exact Ho|].
    split; [exists cs; simpl; congruence|].
    intros sigma val Hc Hval Hag. simpl in Hc, Hag |- *. rewrite Hcs in Hc.
    apply cnf_true_app_inv in Hc as (_ & Hc). rewrite Hsem in Hc.
    apply Bool.eqb_prop in Hc.
    assert (Hin : forall q, In q (mux_fanins (pNew m) x0) ->
              sigma (Cec2_ObjSatId (pNew m2) (Gia_Regular q)) = val (Gia_Regular q)).
    { intros q Hq. apply Hag; [|now apply Hasg].
      rewrite List.Forall_forall in HF. specialize (HF q Hq). lia. }
    assert (EI : node_value (pNew m2) sigma pI = val pI) by (apply (Hin _ HI)).
    assert (ET : ptr_value (node_value (pNew m2) sigma) pT = ptr_value val pT).
    { unfold ptr_value, node_value. f_equal. apply (Hin _ HT). }
    assert (EE : ptr_value (node_value (pNew m2) sigma) pE = ptr_value val pE).
    { unfold ptr_value, node_value. f_equal. apply (Hin _ HE). }
    rewrite EI, ET, EE in Hc. unfold node_value in Hc. rewrite Hc.
    symmetry. apply Hite. intros i. rewrite (Gia_ManObj_same_objs p0 _ _ Ho2). apply Hval.
  - (* a super-gate *)
    inv_bind H1 as vSuper Hsup. inv_bind H1 as m2 H2. inv_bind H1 as s Hs. inv_Ok H1.
    simpl in H2.
    pose proof (Cec2_CollectSuper_below _ _ _ _ Ho Hand Emux Hsup) as HF.
    pose proof (add_fanins_to_frontier_stable _ _ _ H2) as ([] & Hfan). simpl in *.
    pose proof (add_fanins_to_frontier_clauses _ _ _ H2) as Hcl. simpl in Hcl.
    pose proof (add_fanins_to_frontier_vars _ _ _ H2 Hv Hn) as (_ & _ & _ & Hk).
    simpl in Hk.
    assert (Hasg : forall q, In q vSuper -> 0 <= Cec2_ObjSatId (pNew m2) (Gia_Regular q)).
    { apply (add_fanins_to_frontier_assigned _ _ _ H2); simpl; [exact Hv | exact Hn|].
      intros q Hq. rewrite Hsz. rewrite List.Forall_forall in HF.
      specialize (HF q Hq). lia. }
    assert (Ho2 : pObjs (pNew m2) = pObjs p0) by congruence.
    rewrite Hfan in Hs.
    apply Cec2_AddClausesSuper_sem in Hs as (cs & Hcs & Hsem).
    split; [apply (add_fanins_to_frontier_pending p0 _ _ _ H2); exact Ho|].
    split; [exists cs; simpl; congruence|].
    intros sigma val Hc Hval Hag. simpl in Hc, Hag |- *. rewrite Hcs in Hc.
    apply cnf_true_app_inv in Hc as (_ & Hc). rewrite Hsem in Hc.
    apply Bool.eqb_prop in Hc. unfold node_value at 1 in Hc. rewrite Hc.
    rewrite (forallb_ext_In _ (ptr_value val)).
    + unfold Cec2_CollectSuper in Hsup. inv_bind Hsup as u2 Hu2.
      assert (Hvalm : and_consistent (pNew m) val).
      { intros i. rewrite (Gia_ManObj_same_objs p0 _ _ Ho). apply Hval. }
      rewrite (Cec2_CollectSuper_rec_sound (pNew m) fUseMuxes val
                 (wf_new_same p0 wf0 _ Ho Hl) Hvalm _ _ _ _ _ Hsup)
        by (simpl; unfold Gia_ManObjNum in *; rewrite Ho; lia).
      simpl. unfold ptr_value. simpl. now rewrite xorb_false_r.
    + intros q Hq. unfold ptr_value, node_value. f_equal.
      apply Hag; [|now apply Hasg].
      rewrite List.Forall_forall in HF. specialize (HF q Hq). lia.
Qed.

Lemma frontier_loop_complete (fuel : nat) (fUseMuxes : bool) :
  forall (m m' : Cec2_Man_t) (i : Z),
    frontier_loop fuel fUseMuxes m i = Ok m' -> 0 <= i ->
    cnf_inv p0 R m -> vars_inv (pNew m) (pSat m) ->
    (forall x, Gia_ObjIsAnd (Gia_ManObj p0 x) = true -> 0 <= Cec2_ObjSatId (pNew m) x ->
       forced p0 (pNew m) (sat_clauses (pSat m)) x
       \/ In x (drop (Z.to_nat i) (vFrontier m))) ->
    forall x, Gia_ObjIsAnd (Gia_ManObj p0 x) = true -> 0 <= Cec2_ObjSatId (pNew m') x ->
      forced p0 (pNew m') (sat_clauses (pSat m')) x.
Proof.
  induction fuel as [|fuel IH]; intros m m' i H Hi Hinv Hv HC; simpl in H.
  - destruct (Z.ltb_spec i (Vec_Size (vFrontier m))); [discriminate|]. inv_Ok H.
    intros x Hand Hx. destruct (HC x Hand Hx) as [Hf|Hin]; [exact Hf|].
    rewrite drop_ge in Hin by (unfold Vec_Size in *; lia). destruct Hin.
  - destruct (Z.ltb_spec i (Vec_Size (vFrontier m))).
    2:{ inv_Ok H. intros x Hand Hx. destruct (HC x Hand Hx) as [Hf|Hin]; [exact Hf|].
        rewrite drop_ge in Hin by (unfold Vec_Size in *; lia). destruct Hin. }
    inv_bind H as m1 H1.
    pose proof Hinv as (Hc & Hf & Hn).
    pose proof (Vec_Entry_Forall _ 0 _ i (proj1 Hf) ltac:(lia)) as (HR & Hand0 & Hid0).
    set (x0 := Vec_Entry 0 (vFrontier m) i) in *.
    destruct (frontier_step_complete _ _ _ _ H1 Hinv Hv HR Hand0 Hid0)
      as ((l & Hfr & Hnew) & (cs & Hcs) & Hforced).
    pose proof (frontier_step_inv p0 R wf0 R_closed _ _ _ _ H1 Hinv HR Hand0) as Hinv1.
    pose proof (frontier_step_vars _ _ _ _ H1 Hv Hn) as (Hv1 & _ & _ & Hk1).
    apply (IH _ _ _ H ltac:(lia) Hinv1 Hv1).
    intros y Handy Hy.
    destruct (Z.eq_dec y x0) as [->|Hne]; [now left|].
    rewrite Hfr. replace (Z.to_nat (i + 1)) with (S (Z.to_nat i)) by lia.
    rewrite drop_app_le by (unfold Vec_Size in *; lia).
    destruct (Hnew y Handy Hy) as [Hy0|Hin]; [|right; apply in_or_app; now right].
    destruct (HC y Handy Hy0) as [Hfy|Hin].
    + left. rewrite Hcs. now apply (forced_mono p0 (pNew m)).
    + right. apply in_or_app. left.
      rewrite (drop_Vec_Entry _ i) in Hin by lia. fold x0 in Hin.
      replace (Z.to_nat (i + 1)) with (S (Z.to_nat i)) in Hin by lia.
      destruct Hin as [E|Hin]; [congruence | exact Hin].
Qed.

Lemma Cec2_ObjGetCnfVar_complete (m m' : Cec2_Man_t) (iObj v : Z) :
  Cec2_ObjGetCnfVar m iObj = Ok (m', v) ->
  copies_inv p0 R (pNew m) -> 0 <= sat_nvars (pSat m) -> vars_inv (pNew m) (pSat m) ->
  R iObj ->
  (forall x, Gia_ObjIsAnd (Gia_ManObj p0 x) = true -> 0 <= Cec2_ObjSatId (pNew m) x ->
     forced p0 (pNew m) (sat_clauses (pSat m)) x) ->
  forall x, Gia_ObjIsAnd (Gia_ManObj p0 x) = true -> 0 <= Cec2_ObjSatId (pNew m') x ->
    forced p0 (pNew m') (sat_clauses (pSat m')) x.
Proof.
  unfold Cec2_ObjGetCnfVar. intros H Hc Hn Hv HR HC.
  pose proof Hc as (Ho & _).
  destruct (Z.leb_spec 0 (Cec2_ObjSatId (pNew m) iObj)) as [Hle|Hlt].
  - now inv_Ok H.
  - inv_bind H as u Hu. destruct (Gia_ObjIsCi (Gia_ManObj (pNew m) iObj)) eqn:Eci.
    + simpl in H. inv_bind H as pr Hpr. destruct pr as [pN Num].
      apply Cec2_ObjSetSatId_Ok in Hpr as [-> ->]. inv_Ok H. simpl.
      intros x Hand. rewrite Cec2_ObjSatId_set.
      destruct (Z.eqb_spec iObj x) as [->|Hne].
      * rewrite (Gia_ManObj_same_objs p0 _ _ Ho) in Eci.
        unfold Gia_ObjIsAnd, Gia_ObjIsCi in *. destruct (oKind _); congruence.
      * simpl. intros Hx. rewrite <- (app_nil_r (sat_clauses (pSat m))).
        apply (forced_mono p0 (pNew m)); [now apply HC | exact Hx|].
        intros y Hy. rewrite Cec2_ObjSatId_set.
        destruct (Z.eqb_spec iObj y) as [->|]; [lia | reflexivity].
    + inv_bind H as u' Hu'. inv_bind H as t Ht. destruct t as [[pN vF] s].
      inv_bind H as m1 H1. inv_Ok H. simpl in Ht.
      pose proof Ht as Ht1. pose proof Ht as Ht2. pose proof Ht as Ht3.
      apply (Cec2_ObjAddToFrontier_inv p0 R wf0) in Ht as (Hc' & Hf' & Hn');
        [|exact Hc|split; constructor|exact Hn|exact HR].
      apply Cec2_ObjAddToFrontier_vars in Ht1 as (Hv' & _ & _ & Hk'); [|assumption..].
      apply (Cec2_ObjAddToFrontier_pending p0) in Ht2 as (l & El & Pl); [|exact Ho].
      apply (frontier_loop_complete _ _ _ _ _ H1); simpl;
        [lia | split; [exact Hc' | split; [exact Hf' | exact Hn']] | exact Hv'|].
      intros y Hand Hy. destruct (Pl y Hand Hy) as [Hy0|Hin].
      * left. rewrite <- (app_nil_r (sat_clauses s)).
        assert (Es : sat_clauses s = sat_clauses (pSat m)).
        { apply Cec2_ObjAddToFrontier_Ok in Ht3 as [(_ & _ & -> & _)|(_ & _ & _ & ->)];
            reflexivity. }
        rewrite Es. apply (forced_mono p0 (pNew m)); [now apply HC | exact Hy0 | exact Hk'].
      * right. rewrite El. exact Hin.
Qed.

End CnfComplete.

Lemma aig_eval_S (fuel : nat) (p : Gia_Man_t) (ci : Z -> bool) (x : Z) :
  aig_eval (S fuel) p ci x
  = if Gia_ObjIsAnd (Gia_ManObj p x)
    then ptr_value (aig_eval fuel p ci) (Gia_ObjChild0 (Gia_ManObj p x))
         && ptr_value (aig_eval fuel p ci) (Gia_ObjChild1 (Gia_ManObj p x))
    else if Gia_ObjIsCi (Gia_ManObj p x) then ci x else false.
Proof. reflexivity. Qed.

Lemma aig_eval_fuel (p : Gia_Man_t) (ci : Z -> bool) :
  wf_new p ->
  forall (f1 f2 : nat) (x : Z), 0 <= x -> (Z.to_nat x < f1)%nat -> (Z.to_nat x < f2)%nat ->
    aig_eval f1 p ci x = aig_eval f2 p ci x.
Proof.
  intros Hwf. induction f1 as [|f1 IH]; intros f2 x Hx H1 H2; [lia|].
  destruct f2 as [|f2]; [lia|]. rewrite !aig_eval_S.
  destruct (Gia_ObjIsAnd (Gia_ManObj p x)) eqn:Hand; [|reflexivity].
  destruct (wf0_and p Hwf x Hand) as (Hf0 & Hf1 & _).
  unfold ptr_value, Gia_ObjChild0, Gia_ObjChild1, Gia_Regular, Gia_IsComplement.
  cbn [fst snd].
  rewrite (IH f2 (Gia_ObjFaninId0 (Gia_ManObj p x))),
          (IH f2 (Gia_ObjFaninId1 (Gia_ManObj p x))) by lia.
  reflexivity.
Qed.

Lemma aig_eval_consistent (p : Gia_Man_t) (ci : Z -> bool) :
  wf_new p -> and_consistent p (aig_eval (S (length (pObjs p))) p ci).
Proof.
  intros Hwf i Hand. destruct (wf0_and p Hwf i Hand) as (Hf0 & Hf1 & Hr).
  unfold Gia_ManObjNum, Vec_Size in Hr.
  rewrite aig_eval_S at 1. rewrite Hand.
  unfold ptr_value, Gia_ObjChild0, Gia_ObjChild1, Gia_Regular, Gia_IsComplement.
  cbn [fst snd].
  rewrite (aig_eval_fuel p ci Hwf (length (pObjs p)) (S (length (pObjs p)))
             (Gia_ObjFaninId0 (Gia_ManObj p i))),
          (aig_eval_fuel p ci Hwf (length (pObjs p)) (S (length (pObjs p)))
             (Gia_ObjFaninId1 (Gia_ManObj p i))) by lia.
  reflexivity.
Qed.

Lemma Cec2_ObjGetCnfVar_forces (p0 : Gia_Man_t) (m m' : Cec2_Man_t) (iObj v : Z) :
  wf_new p0 -> recognizes_muxes p0 ->
  Cec2_ObjGetCnfVar m iObj = Ok (m', v) ->
  copies_inv p0 (fun x => 0 < x < Gia_ManObjNum p0) (pNew m) ->
  0 <= sat_nvars (pSat m) -> vars_inv (pNew m) (pSat m) ->
  0 <= iObj < Gia_ManObjNum p0 -> (iObj = 0 -> 0 <= Cec2_ObjSatId (pNew m) 0) ->
  (forall x, Gia_ObjIsAnd (Gia_ManObj p0 x) = true -> 0 <= Cec2_ObjSatId (pNew m) x ->
     forced p0 (pNew m) (sat_clauses (pSat m)) x) ->
  (forall x, Gia_ObjIsAnd (Gia_ManObj p0 x) = true -> 0 <= Cec2_ObjSatId (pNew m') x ->
     forced p0 (pNew m') (sat_clauses (pSat m')) x)
  /\ copies_inv p0 (fun x => 0 < x < Gia_ManObjNum p0) (pNew m')
  /\ 0 <= sat_nvars (pSat m') /\ vars_inv (pNew m') (pSat m')
  /\ (forall y, 0 <= Cec2_ObjSatId (pNew m) y ->
        Cec2_ObjSatId (pNew m') y = Cec2_ObjSatId (pNew m) y)
  /\ Cec2_ObjSatId (pNew m') iObj = v /\ 0 <= v.
Proof.
  intros Hwf Hmux H Hc Hn Hv Hr H0 HC.
  pose proof (copies_inv_size p0 _ Hwf _ Hc) as Hsz.
  destruct (Cec2_ObjGetCnfVar_vars _ _ _ _ H Hv Hn ltac:(lia)) as (Hv' & Hn' & Hk & Hid & Hv0).
  destruct (Z.eq_dec iObj 0) as [->|Hne].
  - unfold Cec2_ObjGetCnfVar in H.
    assert ((0 <=? Cec2_ObjSatId (pNew m) 0) = true) as E by (apply Z.leb_le; auto).
    rewrite E in H. inv_Ok H.
    split; [exact HC|]. split; [exact Hc|]. split; [lia|].
    split; [exact Hv'|]. split; [exact Hk|]. split; [exact Hid | lia].
  - assert (HR : 0 < iObj < Gia_ManObjNum p0) by lia.
    split.
    + apply (Cec2_ObjGetCnfVar_complete p0 (fun x => 0 < x < Gia_ManObjNum p0) Hwf
               (range_closed p0 Hwf) Hmux m m' iObj v); assumption.
    + destruct (Cec2_ObjGetCnfVar_inv p0 _ Hwf (range_closed p0 Hwf) _ _ _ _ H Hc Hn HR)
        as (Hc' & _).
      split; [exact Hc'|]. split; [lia|].
      split; [exact Hv'|]. split; [exact Hk|]. split; [exact Hid | lia].
Qed.

Lemma two_lits_model (sigma : Z -> bool) (asm : list Z) (v0 v1 : Z) (c0 c1 : bool) :
  forallb (lit_true sigma) (asm ++ [Abc_Var2Lit v0 c0; Abc_Var2Lit v1 c1]) = true ->
  sigma v0 = negb c0 /\ sigma v1 = negb c1.
Proof.
  rewrite forallb_app. cbn [forallb]. rewrite !lit_true_Var2Lit, andb_true_r.
  intros H. apply andb_true_iff in H as (_ & H). apply andb_true_iff in H as (A & B).
  split; [destruct (sigma v0), c0 | destruct (sigma v1), c1]; simpl in *; congruence.
Qed.

(** X24. A SAT answer of [Cec2_ManSolveTwo] shows a real difference:
    when the solver gives a model with each SAT answer and no node has
    a variable on entry, and the call returns SAT, there is a
    valuation of the rebuilt AIG (the constant false, each AND node the
    conjunction of its fanins) under which the values of the two nodes
    differ exactly when [fPhase] is not set. *)
Theorem X24_sat_shows_a_difference
    (m m' : Cec2_Man_t) (a b : Z) (ph : bool) :
  solver_models -> recognizes_muxes (pNew m) -> wf_new (pNew m) ->
  0 <= sat_nvars (pSat m) ->
  (forall x, 0 <= x < Gia_ManObjNum (pNew m) -> Cec2_ObjSatId (pNew m) x < 0) ->
  0 <= a < Gia_ManObjNum (pNew m) -> 0 <= b < Gia_ManObjNum (pNew m) ->
  Cec2_ManSolveTwo m a b ph = Ok (m', SATOKO_SAT) ->
  exists val : Z -> bool,
    val 0 = false /\ and_consistent (pNew m) val /\ xorb (val a) (val b) = negb ph.
Proof.
  intros Hmodels Hmux Hwf Hn Hneg Ha Hb H.
  assert (Hv : vars_inv (pNew m) (pSat m)).
  { intros x Hr Hx. destruct Hwf as (Hlen & _).
    unfold Gia_ManObjNum, Vec_Size in *. rewrite Hlen in Hr. specialize (Hneg x Hr). lia. }
  pose proof (Cec2_ManSolveTwo_inv _ _ _ _ _ _ H) as Hinv. cbv zeta in Hinv.
  destruct Hinv as (m1 & m2 & m3 & m4 & iVar0 & iVar1 & pN & H1 & H2 & H3 & H4 & _ & _ & Est).
  set (lo := Z.min a b) in *. set (hi := Z.max a b) in *.
  assert (Hlo : 0 <= lo < Gia_ManObjNum (pNew m)) by (unfold lo; lia).
  assert (Hhi : 0 <= hi < Gia_ManObjNum (pNew m)) by (unfold hi; lia).
  assert (Hlh : lo <= hi) by (unfold lo, hi; lia).
  set (m0 := with_const_var m lo) in *.
  set (p0 := pNew m0).
  assert (Ho0 : pObjs p0 = pObjs (pNew m))
    by (unfold p0, m0, with_const_var; destruct (lo =? 0); reflexivity).
  assert (Hl0 : length (vCopies p0) = length (vCopies (pNew m))).
  { unfold p0, m0, with_const_var. destruct (lo =? 0); [|reflexivity].
    simpl. apply length_Vec_WriteEntry. }
  assert (Hwf0 : wf_new p0) by (apply (wf_new_same (pNew m) Hwf); assumption).
  assert (Hnum : Gia_ManObjNum p0 = Gia_ManObjNum (pNew m))
    by (unfold Gia_ManObjNum; now rewrite Ho0).
  assert (Hmux0 : recognizes_muxes p0)
    by (apply (recognizes_muxes_same (pNew m)); assumption).
  assert (Hnot0 : Gia_ObjIsAnd (Gia_ManObj p0 0) = false).
  { destruct (Gia_ObjIsAnd (Gia_ManObj p0 0)) eqn:E; [|reflexivity].
    destruct (wf0_and p0 Hwf0 0 E). lia. }
  assert (Hsat0 : 0 <= sat_nvars (pSat m0) /\ vars_inv p0 (pSat m0)
                  /\ (lo = 0 -> 0 <= Cec2_ObjSatId p0 0)
                  /\ (lo <> 0 -> Cec2_ObjSatId p0 0 < 0)
                  /\ forall x, 0 < x < Gia_ManObjNum (pNew m) -> Cec2_ObjSatId p0 x < 0).
  { unfold p0, m0, with_const_var. destruct (Z.eqb_spec lo 0) as [E|E].
    - simpl. split; [lia|]. split; [apply vars_inv_set; assumption|].
      split; [|split; [intros; contradiction|]].
      + intros _. rewrite Cec2_ObjSatId_set.
        assert (0 < Vec_Size (vCopies (pNew m))).
        { destruct Hwf as (Hlen & _). unfold Gia_ManObjNum, Vec_Size in *.
          rewrite Hlen. lia. }
        change ((0 =? 0) && (0 <=? 0)) with true. cbn [andb].
        destruct (Z.ltb_spec 0 (Vec_Size (vCopies (pNew m)))); lia.
      + intros x Hx. rewrite Cec2_ObjSatId_set.
        destruct (Z.eqb_spec 0 x); [lia | apply Hneg; lia].
    - split; [assumption|]. split; [assumption|].
      split; [intros; contradiction|]. split; [intros _; apply Hneg; lia|].
      intros x Hx. apply Hneg. lia. }
  destruct Hsat0 as (Hn0 & Hv0 & Hc00 & Hc01 & Hc0x).
  assert (Hc0 : copies_inv p0 (fun x => 0 < x < Gia_ManObjNum p0) (pNew m0)).
  { split; [reflexivity|]. split; [reflexivity|]. intros x _. now left. }
  assert (HC0 : forall x, Gia_ObjIsAnd (Gia_ManObj p0 x) = true ->
              0 <= Cec2_ObjSatId (pNew m0) x ->
              forced p0 (pNew m0) (sat_clauses (pSat m0)) x).
  { intros x Hand Hx. exfalso. destruct (Z.eq_dec x 0) as [->|Hx0]; [congruence|].
    pose proof (Gia_ObjIsAnd_in_range _ _ Hand) as Hr. rewrite Hnum in Hr.
    specialize (Hc0x x ltac:(lia)). fold p0 in Hx. lia. }
  (* the two cones *)
  destruct (Cec2_ObjGetCnfVar_forces p0 m0 m1 lo iVar0 Hwf0 Hmux0 H1 Hc0 Hn0 Hv0)
    as (HC1 & Hc1 & Hn1 & Hv1 & Hk1 & Hid1 & Hpos1); [lia | exact Hc00 | exact HC0 |].
  destruct (Cec2_ObjGetCnfVar_forces p0 m1 m2 hi iVar1 Hwf0 Hmux0 H2 Hc1 Hn1 Hv1)
    as (HC2 & Hc2 & Hn2 & Hv2 & Hk2 & Hid2 & Hpos2); [lia | | exact HC1 |].
  { intros E. rewrite Hk1 by (apply Hc00; lia). apply Hc00. lia. }
  apply Cec2_ManCollect_rec_stable in H3 as (_ & P3 & _), H4 as (_ & P4 & _).
  assert (Ps : pSat m4 = pSat m2) by (rewrite P4, P3; reflexivity).
  assert (Ho2 : pObjs (pNew m2) = pObjs p0) by (destruct Hc2; assumption).
  assert (Eid : Cec2_ObjSatId (pNew m2) lo = iVar0).
  { rewrite Hk2 by (rewrite Hid1; exact Hpos1). exact Hid1. }
  (* the model of the answer *)
  pose proof (two_queries_spec (pSat m4) lo iVar0 iVar1 ph) as Hq. cbv zeta in Hq.
  destruct Hq as (_ & Hst & _).
  rewrite <- Est, Ps in Hst.
  set (cs := sat_clauses (pSat m2)) in *.
  set (q1 := sat_assumps (pSat m2) ++ [Abc_Var2Lit iVar0 true; Abc_Var2Lit iVar1 ph]) in *.
  set (q2 := sat_assumps (pSat m2)
             ++ [Abc_Var2Lit iVar0 false; Abc_Var2Lit iVar1 (negb ph)]) in *.
  assert (Hq : exists (sigma : Z -> bool) (c0 : bool),
             cnf_true sigma cs = true
             /\ sigma iVar0 = negb c0 /\ sigma iVar1 = xorb c0 ph
             /\ (c0 = false -> 0 < lo)).
  { destruct (satoko_status_eqb (satoko_answer cs q1) SATOKO_UNSAT && (0 <? lo)) eqn:Esec.
    - apply andb_true_iff in Esec as (_ & Epos). apply Z.ltb_lt in Epos.
      destruct (Hmodels cs q2 (eq_sym Hst)) as (M1 & M2).
      destruct (two_lits_model _ _ _ _ _ _ M2) as (A & B).
      exists (satoko_polarity cs q2), false. split; [exact M1|].
      split; [exact A|]. split; [|auto]. rewrite B. now destruct ph.
    - destruct (Hmodels cs q1 (eq_sym Hst)) as (M1 & M2).
      destruct (two_lits_model _ _ _ _ _ _ M2) as (A & B).
      exists (satoko_polarity cs q1), true. split; [exact M1|].
      split; [exact A|]. split; [|discriminate]. rewrite B. now destruct ph. }
  destruct Hq as (sigma & c0 & Hcnf & S0 & S1 & Hc0lo).
  (* the valuation read off the model *)
  set (ci := fun c : Z => if c =? 0 then false else sigma (Cec2_ObjSatId (pNew m2) c)).
  set (val := aig_eval (S (length (pObjs p0))) p0 ci).
  assert (Hval : and_consistent p0 val) by (apply aig_eval_consistent; exact Hwf0).
  assert (Hval0 : val 0 = false).
  { unfold val. rewrite aig_eval_S, Hnot0. destruct (Gia_ObjIsCi _); reflexivity. }
  assert (Hagree : forall (k : nat) x, 0 <= x < Z.of_nat k -> x < Gia_ManObjNum p0 ->
            0 <= Cec2_ObjSatId (pNew m2) x -> sigma (Cec2_ObjSatId (pNew m2) x) = val x).
  { induction k as [|k IH]; intros x Hx Hxn Hid; [lia|].
    destruct (Z.eq_dec x 0) as [->|Hx0].
    - rewrite Hval0. destruct (Z.eq_dec lo 0) as [Elo|Elo].
      + rewrite Elo in Eid. rewrite Eid, S0.
        destruct c0; [reflexivity|]. specialize (Hc0lo eq_refl). lia.
      + exfalso. destruct Hc2 as (_ & _ & Hcp).
        destruct (Hcp 0 ltac:(lia)) as [E|(_ & Hbad)]; [|lia].
        rewrite E in Hid. specialize (Hc01 Elo). lia.
    - destruct Hwf0 as (_ & Hwf0').
      destruct (Hwf0' x ltac:(lia)) as (Hkind & _).
      destruct (Hkind ltac:(lia)) as [Hci|Hand].
      + assert (Hna : Gia_ObjIsAnd (Gia_ManObj p0 x) = false).
        { unfold Gia_ObjIsCi in Hci. unfold Gia_ObjIsAnd.
          destruct (oKind (Gia_ManObj p0 x)); congruence. }
        unfold val. rewrite aig_eval_S, Hci, Hna.
        unfold ci. destruct (Z.eqb_spec x 0); [contradiction | reflexivity].
      + apply (HC2 x Hand Hid sigma val); [exact Hcnf | exact Hval|].
        intros r Hr Hrid. apply IH; [lia | lia | exact Hrid]. }
  assert (E0 : val lo = negb c0).
  { rewrite <- S0, <- Eid. symmetry. apply (Hagree (S (Z.to_nat lo))); [lia | lia|].
    rewrite Eid. exact Hpos1. }
  assert (E1 : val hi = xorb c0 ph).
  { rewrite <- S1, <- Hid2. symmetry. apply (Hagree (S (Z.to_nat hi))); [lia | lia|].
    rewrite Hid2. exact Hpos2. }
  exists val. split; [exact Hval0|]. split.
  - intros i. rewrite <- (Gia_ManObj_same_objs (pNew m) p0 i Ho0). apply Hval.
  - unfold lo, hi in E0, E1. destruct (Z.le_gt_cases a b).
    + rewrite Z.min_l in E0 by lia. rewrite Z.max_r in E1 by lia. rewrite E0, E1.
      destruct c0, ph; reflexivity.
    + rewrite Z.min_r in E0 by lia. rewrite Z.max_l in E1 by lia. rewrite E0, E1.
      destruct c0, ph; reflexivity.
Qed.

(** ** The pattern counter across the sweep *)

Lemma same_counter_refl (p : Gia_Man_t) : same_counter p p.
Proof. now split. Qed.

Lemma same_counter_trans (p1 p2 p3 : Gia_Man_t) :
  same_counter p1 p2 -> same_counter p2 p3 -> same_counter p1 p3.
Proof. unfold same_counter. intros (? & ?) (? & ?). split; congruence. Qed.

Lemma for_range_m_preserves {St : Type} (P : St -> Prop) (body : St -> Z -> res St) :
  (forall s i s', P s -> body s i = Ok s' -> P s') ->
  forall (n : nat) (i : Z) (s s' : St), P s -> for_range_m n i body s = Ok s' -> P s'.
Proof.
  intros Hb n. induction n as [|n IH]; intros i s s' Hs H; simpl in H.
  - inv_Ok H. exact Hs.
  - inv_bind H as s1 H1. eapply IH; [|exact H]. eapply Hb; eassumption.
Qed.

Lemma for_range_down_preserves {St : Type} (P : St -> Prop) (body : St -> Z -> St) :
  (forall s i, P s -> P (body s i)) ->
  forall (n : nat) (i : Z) (s : St), P s -> P (for_range_down n i body s).
Proof.
  intros Hb n. induction n as [|n IH]; intros i s Hs; simpl; [assumption|].
  apply IH, Hb, Hs.
Qed.

Lemma fold_left_preserves {St A : Type} (P : St -> Prop) (f : St -> A -> St) :
  (forall s a, P s -> P (f s a)) ->
  forall (l : list A) (s : St), P s -> P (fold_left f l s).
Proof.
  intros Hf l. induction l as [|a l IH]; intros s Hs; simpl; [assumption|].
  apply IH, Hf, Hs.
Qed.

Lemma sim_loop_counter (p : Gia_Man_t) (pSim : Z) (f : Gia_Man_t -> Z -> Z) (n : nat) (i : Z) :
  same_counter p (for_range n i (fun q w => sim_write q pSim w (f q w)) p).
Proof.
  apply (for_range_preserves (same_counter p)); [|apply same_counter_refl].
  intros s w H. exact H.
Qed.

Lemma Cec2_ObjSimAnd_counter (p : Gia_Man_t) (iObj : Z) :
  same_counter p (Cec2_ObjSimAnd p iObj).
Proof.
  unfold Cec2_ObjSimAnd. cbv zeta.
  destruct (Gia_ObjFaninC0 _), (Gia_ObjFaninC1 _); cbn [andb negb];
    apply (sim_loop_counter p _ (fun q w => _)).
Qed.

Lemma simulate_ands_counter (p : Gia_Man_t) : same_counter p (simulate_ands p).
Proof.
  unfold simulate_ands.
  apply (for_range_preserves (same_counter p)); [|apply same_counter_refl].
  intros s i H. destruct (Gia_ObjIsAnd _); [|exact H].
  eapply same_counter_trans; [exact H | apply Cec2_ObjSimAnd_counter].
Qed.

Lemma Cec2_ObjSimCo_counter (p : Gia_Man_t) (iObj : Z) :
  same_counter p (Cec2_ObjSimCo p iObj).
Proof.
  unfold Cec2_ObjSimCo. cbv zeta.
  destruct (Gia_ObjFaninC0 _); apply (sim_loop_counter p _ (fun q w => _)).
Qed.

Lemma simulate_cos_loop_counter (vCo : list Z) :
  forall (i : Z) (p : Gia_Man_t), same_counter p (fst (simulate_cos_loop vCo i p)).
Proof.
  induction vCo as [|Id rest IH]; intros i p; simpl; [apply same_counter_refl|].
  pose proof (Cec2_ObjSimCo_counter p Id) as H.
  destruct (Cec2_ObjSimEqual _ Id 0).
  - eapply same_counter_trans; [exact H | apply IH].
  - exact H.
Qed.

Lemma Cec2_ObjSimCi_counter (p : Gia_Man_t) (iObj : Z) :
  same_counter p (Cec2_ObjSimCi p iObj).
Proof.
  unfold Cec2_ObjSimCi. cbv zeta.
  match goal with
  | |- same_counter p (sim_write ?q _ _ _) => assert (H : same_counter p q)
  end; [|exact H].
  apply (for_range_preserves (same_counter p)); [|apply same_counter_refl].
  intros s w H. exact H.
Qed.

Lemma Cec2_ManSimulateCis_counter (p : Gia_Man_t) :
  nSimWords (Cec2_ManSimulateCis p) = nSimWords p /\ iPatsPi (Cec2_ManSimulateCis p) = 1.
Proof.
  unfold Cec2_ManSimulateCis. cbv zeta.
  assert (H : same_counter p (fold_left Cec2_ObjSimCi (vCis p) p)).
  { apply (fold_left_preserves (same_counter p)); [|apply same_counter_refl].
    intros s a H. eapply same_counter_trans; [exact H | apply Cec2_ObjSimCi_counter]. }
  destruct H as (H & _). split; [exact H | reflexivity].
Qed.

Lemma Gia_ObjSetRepr_counter (p p' : Gia_Man_t) (Id Num : Z) :
  Gia_ObjSetRepr p Id Num = Ok p' -> same_counter p p'.
Proof.
  unfold Gia_ObjSetRepr. intros H. inv_bind H as u Hu. inv_Ok H. now split.
Qed.

Lemma refine_relink_counter (fuel : nat) :
  forall (p : Gia_Man_t) (iRepr iRepr2 iPrev iPrev2 iObj : Z) (p' : Gia_Man_t) (a b : Z),
    refine_relink fuel p iRepr iRepr2 iPrev iPrev2 iObj = Ok (p', a, b) ->
    same_counter p p'.
Proof.
  induction fuel as [|fuel IH]; intros p iRepr iRepr2 iPrev iPrev2 iObj p' a b H;
    simpl in H.
  - destruct (0 <? iObj); [discriminate H|]. inv_Ok H. apply same_counter_refl.
  - destruct (0 <? iObj); [|inv_Ok H; apply same_counter_refl].
    destruct (Cec2_ObjSimEqual p iRepr iObj).
    + apply IH in H. exact H.
    + inv_bind H as p1 H1. apply Gia_ObjSetRepr_counter in H1. apply IH in H.
      eapply same_counter_trans; [exact H1 | exact H].
Qed.

Lemma Cec2_ManSimClassRefineOne_counter (p p' : Gia_Man_t) (iRepr : Z) :
  Cec2_ManSimClassRefineOne p iRepr = Ok p' -> same_counter p p'.
Proof.
  unfold Cec2_ManSimClassRefineOne. intros H.
  inv_bind H as u Hu. inv_bind H as t Ht. destruct t as [iPrev iRepr2].
  destruct (iRepr2 <=? 0); [inv_Ok H; apply same_counter_refl|].
  inv_bind H as p1 H1. inv_bind H as t2 H2. destruct t2 as [[p2 a] b]. inv_Ok H.
  apply Gia_ObjSetRepr_counter in H1. apply refine_relink_counter in H2.
  eapply same_counter_trans; [exact H1 | exact H2].
Qed.

Lemma refine_all_classes_counter (p p' : Gia_Man_t) :
  refine_all_classes p = Ok p' -> same_counter p p'.
Proof.
  unfold refine_all_classes.
  apply (for_range_m_preserves (same_counter p)); [|apply same_counter_refl].
  intros s i s' Hs H. destruct (Gia_ObjIsHead s i).
  - apply Cec2_ManSimClassRefineOne_counter in H. eapply same_counter_trans; eassumption.
  - inv_Ok H. exact Hs.
Qed.

Lemma Cec2_ManSimulate_counter (p p' : Gia_Man_t) :
  Cec2_ManSimulate p = Ok p' -> same_counter p p'.
Proof.
  unfold Cec2_ManSimulate. cbv zeta. intros H.
  pose proof (simulate_ands_counter p) as Ha.
  destruct (pReprs (simulate_ands p)).
  - apply refine_all_classes_counter in H. eapply same_counter_trans; eassumption.
  - inv_Ok H. exact Ha.
Qed.

Lemma Cec2_ManCreateClasses_counter (p p' : Gia_Man_t) :
  Cec2_ManCreateClasses p = Ok p' -> same_counter p p'.
Proof.
  unfold Cec2_ManCreateClasses. cbv zeta. intros H.
  inv_bind H as t Ht. destruct t as [p1 pTable].
  apply refine_all_classes_counter in H.
  eapply same_counter_trans; [|exact H].
  apply (for_range_down_preserves (same_counter p)).
  { intros s i Hs. unfold create_classes_link. destruct (_ =? _); exact Hs. }
  change (same_counter p (fst (p1, pTable))).
  revert Ht. apply (for_range_m_preserves (fun st => same_counter p (fst st))).
  - intros [s tb] i [s' tb'] Hs Hb. simpl in Hs |- *.
    unfold create_classes_hash in Hb. cbv zeta in Hb.
    destruct (Gia_ObjIsCo _); [inv_Ok Hb; exact Hs|].
    inv_bind Hb as u Hu. destruct (_ =? -1); [inv_Ok Hb; exact Hs|].
    inv_bind Hb as s1 H1. inv_Ok Hb. apply Gia_ObjSetRepr_counter in H1.
    eapply same_counter_trans; [exact Hs | exact H1].
  - now split.
Qed.

Lemma simulation_round_counter (pPars0 : Cec2_Par_t) (p p' : Gia_Man_t) (cex : bool) :
  simulation_round pPars0 p = Ok (p', cex) ->
  nSimWords p' = nSimWords p /\ iPatsPi p' = 1.
Proof.
  unfold simulation_round. cbv zeta. intros H. inv_bind H as p1 H1.
  apply Cec2_ManSimulate_counter in H1 as (W1 & C1).
  destruct (Cec2_ManSimulateCis_counter p) as (W0 & C0).
  assert (Hq : forall q, same_counter p1 q -> nSimWords q = nSimWords p /\ iPatsPi q = 1).
  { intros q (? & ?). split; congruence. }
  destruct (par_fIsMiter pPars0).
  - pose proof (simulate_cos_loop_counter (vCos p1) 0 p1) as Hc.
    unfold Cec2_ManSimulateCos in H.
    destruct (simulate_cos_loop (vCos p1) 0 p1) as [q ok]. inv_Ok H. apply Hq, Hc.
  - inv_Ok H. apply Hq, same_counter_refl.
Qed.

Lemma additional_rounds_counter (n : nat) (pPars0 : Cec2_Par_t) :
  forall (p p' : Gia_Man_t) (cex : bool),
    additional_rounds n pPars0 p = Ok (p', cex) ->
    nSimWords p' = nSimWords p /\ (iPatsPi p = 1 -> iPatsPi p' = 1).
Proof.
  induction n as [|n IH]; intros p p' cex H; simpl in H; [inv_Ok H; auto|].
  inv_bind H as t Ht. destruct t as [p1 c1].
  apply simulation_round_counter in Ht as (W1 & C1). destruct c1.
  - inv_Ok H. auto.
  - apply IH in H as (W2 & C2). split; [congruence | auto].
Qed.

Lemma Cec2_ManCreate_counter (p : Gia_Man_t) (pPars0 : Cec2_Par_t) :
  same_counter p (pAig (Cec2_ManCreate p pPars0)).
Proof.
  unfold Cec2_ManCreate. cbv zeta.
  match goal with
  | |- context [fold_left ?f ?l ?s] =>
      assert (H : same_counter p (fst (fold_left f l s)))
  end.
  { apply (fold_left_preserves (fun st => same_counter p (fst st))); [|now split].
    intros [pA pN] Id Hs. destruct (Gia_ManAppendCi pN) as [pN' lit]. exact Hs. }
  destruct (fold_left _ _ _) as [pA pN]. exact H.
Qed.
Lemma next_pattern_range (p : Gia_Man_t) :
  1 <= iPatsPi p < 64 * nSimWords p ->
  1 <= next_pattern p < 64 * nSimWords p
  /\ (iPatsPi p = 64 * nSimWords p - 1 -> next_pattern p = 1)
  /\ (iPatsPi p < 64 * nSimWords p - 1 -> next_pattern p = iPatsPi p + 1).
Proof.
  intros H. unfold next_pattern.
  destruct (Z.eqb_spec (iPatsPi p) (64 * nSimWords p - 1)); lia.
Qed.

Lemma disproved_aig_counter (m m1 : Cec2_Man_t) :
  nSimWords (disproved_aig m m1) = nSimWords (pAig m)
  /\ iPatsPi (disproved_aig m m1) = next_pattern (pAig m).
Proof.
  unfold disproved_aig.
  pose proof (set_input_bits_frame (pSat m1) (vObjSatPairs m1)
                (set_iPatsPi (pAig m) (next_pattern (pAig m)))) as (Hi & Hw & _).
  split; [exact Hw | exact Hi].
Qed.

Lemma Cec2_ManSweepNode_counter (m m' : Cec2_Man_t) (iObj r : Z) :
  Cec2_ManSweepNode m iObj = Ok (m', r) ->
  nSimWords (pAig m') = nSimWords (pAig m)
  /\ (1 <= iPatsPi (pAig m) < 64 * nSimWords (pAig m) ->
      1 <= iPatsPi (pAig m') < 64 * nSimWords (pAig m')
      /\ forall n : Z,
           Abc_InfoHasBit (vSims (pAig m')) (Cec2_ObjSim (pAig m') n) 0
           = Abc_InfoHasBit (vSims (pAig m)) (Cec2_ObjSim (pAig m) n) 0).
Proof.
  intros H. apply Cec2_ManSweepNode_inv in H as (m1 & st & _ & _ & Hst).
  destruct st.
  - destruct Hst as (_ & -> & _). split; [reflexivity|]. auto.
  - destruct Hst as (_ & -> & _).
    destruct (disproved_aig_counter m m1) as (Hw & Hi).
    split; [exact Hw|]. intros Hpat.
    destruct (next_pattern_range _ Hpat) as (Hn & _).
    rewrite Hw, Hi. split; [exact Hn|].
    intros n. unfold disproved_aig. rewrite set_input_bits_column0; [reflexivity| |exact Hn].
    simpl. lia.
  - destruct Hst as (_ & ->). split; [reflexivity|]. auto.
Qed.

Lemma sweep_step_counter (Iter : Z) (m m' : Cec2_Man_t) (f f' : bool) (i : Z) :
  sweep_step Iter (m, f) i = Ok (m', f') ->
  nSimWords (pAig m') = nSimWords (pAig m)
  /\ (1 <= iPatsPi (pAig m) < 64 * nSimWords (pAig m) ->
      1 <= iPatsPi (pAig m') < 64 * nSimWords (pAig m')).
Proof.
  intros H. unfold sweep_step in H. cbv zeta in H.
  assert (Hid : nSimWords (pAig m) = nSimWords (pAig m)
                /\ (1 <= iPatsPi (pAig m) < 64 * nSimWords (pAig m) ->
                    1 <= iPatsPi (pAig m) < 64 * nSimWords (pAig m))) by auto.
  destruct (negb (Gia_ObjIsAnd (Gia_ManObj (pAig m) i))); [inv_Ok H; exact Hid|].
  match type of H with (if ?b then _ else _) = _ => destruct b end; [inv_Ok H; exact Hid|].
  match type of H with (if ?b then _ else _) = _ => destruct b end; [inv_Ok H; exact Hid|].
  match type of H with (if ?b then _ else _) = _ => destruct b end; [inv_Ok H; exact Hid|].
  inv_bind H as u1 Hu1. clear Hu1.
  destruct (Gia_ManHashAnd _ _ _) as [pN lit].
  inv_bind H as u2 Hu2. clear Hu2.
  match type of H with (match ?o with Some _ => _ | None => _ end) = _ => destruct o as [iReprId|] end;
    [|inv_Ok H; exact Hid].
  match type of H with (if ?b then _ else _) = _ => destruct b end; [inv_Ok H; exact Hid|].
  match type of H with (if ?b then _ else _) = _ => destruct b end.
  { inv_bind H as u3 Hu3. inv_Ok H. exact Hid. }
  inv_bind H as t Ht. destruct t as [m2 r2].
  apply Cec2_ManSweepNode_counter in Ht as (Hw & Hc).
  assert (Hres : nSimWords (pAig m2) = nSimWords (pAig m)
                 /\ (1 <= iPatsPi (pAig m) < 64 * nSimWords (pAig m) ->
                     1 <= iPatsPi (pAig m2) < 64 * nSimWords (pAig m2))).
  { split; [exact Hw|]. intros Hp. exact (proj1 (Hc Hp)). }
  clear Hw Hc.
  match type of H with (if ?b then _ else _) = _ => destruct b end; [inv_Ok H; exact Hres|].
  match type of H with (if ?b then _ else _) = _ => destruct b end; [inv_Ok H; exact Hres|].
  match type of H with context [if ?b then _ else _] => destruct b end; inv_Ok H; exact Hres.
Qed.

Lemma sweep_loop_counter (pPars0 : Cec2_Par_t) (fuel : nat) :
  forall (Iter : Z) (m m' : Cec2_Man_t),
    sweep_loop fuel pPars0 Iter m = Ok m' ->
    nSimWords (pAig m') = nSimWords (pAig m)
    /\ (0 < nSimWords (pAig m) -> 1 <= iPatsPi (pAig m') < 64 * nSimWords (pAig m')).
Proof.
  induction fuel as [|fuel IH]; intros Iter m m' H; [discriminate H|].
  change (sweep_loop (S fuel) pPars0 Iter m) with
    (let m0 := set_vCexTriples (set_pAig m (Cec2_ManSimulateCis (pAig m))) [] in
     '(m1, fDisproved) ← for_range_m (length (pObjs (pAig m0))) 0 (sweep_step Iter) (m0, false);
     if (fDisproved : bool) then
       p ← Cec2_ManSimulate (pAig m1);
       let m2 := set_pAig m1 p in
       if par_fIsMiter pPars0 then
         let '(p, ok) := Cec2_ManSimulateCos (pAig m2) in
         let m3 := set_pAig m2 p in
         if ok =? 0 then mret m3 else sweep_loop fuel pPars0 (Iter + 1) m3
       else sweep_loop fuel pPars0 (Iter + 1) m2
     else mret m1) in H.
  cbv zeta in H. inv_bind H as t Ht. destruct t as [m1 fD].
  destruct (Cec2_ManSimulateCis_counter (pAig m)) as (W0 & C0).
  set (P := fun st : Cec2_Man_t * bool =>
              nSimWords (pAig (fst st)) = nSimWords (pAig m)
              /\ (0 < nSimWords (pAig m) ->
                  1 <= iPatsPi (pAig (fst st)) < 64 * nSimWords (pAig (fst st)))).
  assert (H1 : P (m1, fD)).
  { revert Ht. apply (for_range_m_preserves P).
    - intros [s b] j [s' b'] (Hw & Hc) Hb. unfold P in *. simpl in *.
      apply sweep_step_counter in Hb as (Hw' & Hc').
      split; [congruence|]. intros HW. apply Hc', Hc, HW.
    - unfold P. split; [exact W0|]. intros HW.
      change (1 <= iPatsPi (Cec2_ManSimulateCis (pAig m))
              < 64 * nSimWords (Cec2_ManSimulateCis (pAig m))).
      rewrite W0, C0. lia. }
  unfold P in H1. simpl in H1. destruct H1 as (W1 & C1).
  assert (Hk : forall q : Gia_Man_t, same_counter (pAig m1) q ->
                 nSimWords q = nSimWords (pAig m)
                 /\ (0 < nSimWords (pAig m) -> 1 <= iPatsPi q < 64 * nSimWords q)).
  { intros q (Hq1 & Hq2). split; [congruence|]. rewrite Hq1, Hq2. exact C1. }
  destruct fD; [|inv_Ok H; auto].
  inv_bind H as p2 H2. apply Cec2_ManSimulate_counter in H2.
  assert (Hrec : forall m3 : Cec2_Man_t, same_counter (pAig m1) (pAig m3) ->
                   sweep_loop fuel pPars0 (Iter + 1) m3 = Ok m' ->
                   nSimWords (pAig m') = nSimWords (pAig m)
                   /\ (0 < nSimWords (pAig m) ->
                       1 <= iPatsPi (pAig m') < 64 * nSimWords (pAig m'))).
  { intros m3 (Hq1 & _) Hr. apply IH in Hr as (Hr1 & Hr2).
    split; [congruence|]. intros HW. apply Hr2. rewrite Hq1, W1. exact HW. }
  destruct (par_fIsMiter pPars0).
  - pose proof (simulate_cos_loop_counter (vCos p2) 0 p2) as Hc.
    unfold Cec2_ManSimulateCos in H. simpl in H.
    destruct (simulate_cos_loop (vCos p2) 0 p2) as [q ok]. simpl in Hc.
    assert (Hq : same_counter (pAig m1) q) by (eapply same_counter_trans; eassumption).
    destruct (ok =? 0).
    + inv_Ok H. apply Hk. exact Hq.
    + eapply Hrec; [|exact H]. exact Hq.
  - eapply Hrec; [|exact H]. exact H2.
Qed.

Lemma Cec2_ManPerformSweeping_counter
    (fuel : nat) (p p' : Gia_Man_t) (pPars0 : Cec2_Par_t) (r : Z) :
  Cec2_ManPerformSweeping fuel p pPars0 = Ok (p', r) ->
  match (if par_fIsMiter pPars0
         then first_co_with_phase (Gia_ManSetPhase p) (vCos (Gia_ManSetPhase p)) 0
         else None) with
  | Some _ => nSimWords p' = nSimWords p /\ iPatsPi p' = iPatsPi p
  | None =>
      nSimWords p' = par_nSimWords pPars0
      /\ (0 < par_nSimWords pPars0 -> 1 <= iPatsPi p' < 64 * nSimWords p')
  end.
Proof.
  unfold Cec2_ManPerformSweeping. cbv zeta. intros H.
  pose proof (Gia_ManSetPhase_frame p) as (_ & _ & _ & HW & HI & _).
  destruct (if par_fIsMiter pPars0 then _ else None) as [i|].
  { inv_Ok H. split; [exact HW | exact HI]. }
  inv_bind H as t Ht. destruct t as [p1 c1].
  apply simulation_round_counter in Ht as (W1 & C1).
  change (nSimWords (Cec2_ManSimAlloc (Gia_ManSetPhase p) (par_nSimWords pPars0)))
    with (par_nSimWords pPars0) in W1.
  destruct c1; [inv_Ok H; split; [exact W1 | lia]|].
  inv_bind H as p2 H2. apply Cec2_ManCreateClasses_counter in H2 as (W2 & C2).
  inv_bind H as t3 H3. destruct t3 as [p3 c3].
  apply additional_rounds_counter in H3 as (W3 & C3).
  assert (C3' : iPatsPi p3 = 1) by (apply C3; congruence).
  destruct c3; [inv_Ok H; split; [congruence | lia]|].
  inv_bind H as m Hm. apply sweep_loop_counter in Hm as (W4 & C4).
  destruct (Cec2_ManCreate_counter p3 pPars0) as (W5 & _).
  injection H as <- _.
  change (nSimWords (Cec2_ManDestroy m)) with (nSimWords (pAig m)).
  change (iPatsPi (Cec2_ManDestroy m)) with (iPatsPi (pAig m)).
  split; [congruence|]. intros HP. apply C4. rewrite W5. lia.
Qed.

(** C8. The pattern counter from one end of the sweep to the other.
    [Cec2_ManSimulateCis] sets it to 1 and keeps the number of words,
    so that it lies in [[1, 64 * nSimWords)] exactly when there is at
    least one word.  A call of [Cec2_ManSweepNode] whose query is
    answered SAT returns 0 with the counter advanced by one, from
    [64 * nSimWords - 1] back to 1, and with the model written at the
    advanced counter; a call answered UNSAT returns 1 and leaves the
    counter and the store.  Every call that returns keeps the counter
    in the interval and column 0 of every node.
    [Cec2_ManPerformSweeping] returns with the counter and the number
    of words it was given when it stops on the phase of an output of a
    miter; on its other returns, when the parameter [nSimWords] is
    positive, the number of words is that parameter and the counter
    lies in the interval. *)
Theorem C8_pattern_counter_across_sweep :
  (forall p : Gia_Man_t,
      iPatsPi (Cec2_ManSimulateCis p) = 1
      /\ nSimWords (Cec2_ManSimulateCis p) = nSimWords p
      /\ (1 <= iPatsPi (Cec2_ManSimulateCis p) < 64 * nSimWords (Cec2_ManSimulateCis p)
          <-> 0 < nSimWords p))
  /\
  (forall (m m1 : Cec2_Man_t) (iObj : Z),
      sweep_query m iObj = Ok (m1, SATOKO_SAT) ->
      1 <= iPatsPi (pAig m) < 64 * nSimWords (pAig m) ->
      exists m' : Cec2_Man_t,
        Cec2_ManSweepNode m iObj = Ok (m', 0)
        /\ nSimWords (pAig m') = nSimWords (pAig m)
        /\ (iPatsPi (pAig m) = 64 * nSimWords (pAig m) - 1 -> iPatsPi (pAig m') = 1)
        /\ (iPatsPi (pAig m) < 64 * nSimWords (pAig m) - 1 ->
            iPatsPi (pAig m') = iPatsPi (pAig m) + 1)
        /\ pAig m' = set_input_bits (pSat m1) (vObjSatPairs m1)
                       (set_iPatsPi (pAig m) (iPatsPi (pAig m'))))
  /\
  (forall (m m1 : Cec2_Man_t) (iObj : Z),
      sweep_query m iObj = Ok (m1, SATOKO_UNSAT) ->
      exists m' : Cec2_Man_t,
        Cec2_ManSweepNode m iObj = Ok (m', 1)
        /\ nSimWords (pAig m') = nSimWords (pAig m)
        /\ iPatsPi (pAig m') = iPatsPi (pAig m)
        /\ vSims (pAig m') = vSims (pAig m))
  /\
  (forall (m m' : Cec2_Man_t) (iObj r : Z),
      Cec2_ManSweepNode m iObj = Ok (m', r) ->
      1 <= iPatsPi (pAig m) < 64 * nSimWords (pAig m) ->
      nSimWords (pAig m') = nSimWords (pAig m)
      /\ 1 <= iPatsPi (pAig m') < 64 * nSimWords (pAig m')
      /\ forall n : Z,
           Abc_InfoHasBit (vSims (pAig m')) (Cec2_ObjSim (pAig m') n) 0
           = Abc_InfoHasBit (vSims (pAig m)) (Cec2_ObjSim (pAig m) n) 0)
  /\
  (forall (fuel : nat) (p p' : Gia_Man_t) (pPars0 : Cec2_Par_t) (r : Z),
      Cec2_ManPerformSweeping fuel p pPars0 = Ok (p', r) ->
      (par_fIsMiter pPars0 = true ->
       (exists k : Z,
           0 <= k < Vec_Size (vCos p)
           /\ fPhase (Gia_ManObj (Gia_ManSetPhase p) (Vec_Entry 0 (vCos p) k)) = true) ->
       nSimWords p' = nSimWords p /\ iPatsPi p' = iPatsPi p)
      /\
      (par_fIsMiter pPars0 = false
       \/ (forall k : Z,
             0 <= k < Vec_Size (vCos p) ->
             fPhase (Gia_ManObj (Gia_ManSetPhase p) (Vec_Entry 0 (vCos p) k)) = false) ->
       0 < par_nSimWords pPars0 ->
       nSimWords p' = par_nSimWords pPars0
       /\ 1 <= iPatsPi p' < 64 * nSimWords p')).
Proof.
  split; [|split; [|split; [|split]]].
  - intros p. destruct (Cec2_ManSimulateCis_counter p) as (HW & HC).
    split; [exact HC|]. split; [exact HW|]. rewrite HW, HC. lia.
  - intros m m1 iObj Hq Hpat.
    destruct (next_pattern_range _ Hpat) as (Hn & Hwrap & Hstep).
    destruct (disproved_aig_counter m m1) as (Hw & Hi).
    rewrite (Cec2_ManSweepNode_sat _ _ _ Hq).
    assert ((0 <? next_pattern (pAig m))
            && (next_pattern (pAig m) <? 64 * nSimWords (pAig m)) = true) as ->.
    { apply andb_true_iff. split; apply Z.ltb_lt; lia. }
    rewrite assert_true. eexists. split; [reflexivity|].
    change (pAig (set_pSat (set_pAig m1 (disproved_aig m m1)) (satoko_rollback (pSat m1))))
      with (disproved_aig m m1).
    split; [exact Hw|]. rewrite Hi.
    split; [exact Hwrap|]. split; [exact Hstep | reflexivity].
  - intros m m1 iObj Hq. rewrite (Cec2_ManSweepNode_unsat _ _ _ Hq).
    eexists. split; [reflexivity|]. repeat split.
  - intros m m' iObj r H Hpat.
    apply Cec2_ManSweepNode_counter in H as (Hw & Hc).
    split; [exact Hw | exact (Hc Hpat)].
  - intros fuel p p' pPars0 r H.
    apply Cec2_ManPerformSweeping_counter in H.
    pose proof (Gia_ManSetPhase_frame p) as (_ & HCo & _).
    pose proof (first_co_with_phase_spec (Gia_ManSetPhase p) (vCos p) 0) as F.
    rewrite HCo in H. split.
    + intros Hm (k & Hk & Hph). rewrite Hm in H.
      destruct (first_co_with_phase (Gia_ManSetPhase p) (vCos p) 0) as [i|]; [exact H|].
      specialize (F k ltac:(lia)). rewrite Z.sub_0_r in F. congruence.
    + intros Hcase HP.
      assert (Hin : nSimWords p' = par_nSimWords pPars0
                    /\ (0 < par_nSimWords pPars0 ->
                        1 <= iPatsPi p' < 64 * nSimWords p')).
      { destruct Hcase as [Hm|Hall]; [rewrite Hm in H; exact H|].
        destruct (par_fIsMiter pPars0); [|exact H].
        destruct (first_co_with_phase (Gia_ManSetPhase p) (vCos p) 0) as [i|]; [|exact H].
        destruct F as (Hr & Hp & _). specialize (Hall i ltac:(lia)).
        rewrite Z.sub_0_r in Hp. congruence. }
      destruct Hin as (HW & HC). split; [exact HW | exact (HC HP)].
Qed.

End Engine.

(** * The definitions at work on the small graphs *)

(** The model run on [ex_man]: the CNF of the two ANDs, the two
    queries, and the clean map. *)
Lemma ex_solve_unsat_runs :
  exists m', Cec2_ManSolveTwo false answer_unsat polarity_odd accept_all recognize_node6
               ex_man 3 4 false = Ok (m', SATOKO_UNSAT)
    /\ sat_queries (pSat m') = [[1; 6]; [0; 7]]
    /\ sat_clauses (pSat m')
       = [[2; 1]; [4; 1]; [3; 5; 0]; [2; 7]; [5; 7]; [3; 4; 6]]
    /\ vNodesNew m' = [3; 1; 2; 4]
    /\ vCopies (pNew m') = [-1; -1; -1; -1; -1].
Proof. eexists. split; [vm_compute; reflexivity|]. vm_compute. auto. Qed.

(** ** C1 *)

(** On [ex_man] node 1 gets variable 0 and node 2 gets variable 1.
    Called on the representative 1 and the node 2 with phase 0, the
    first query asks variable 0 (the representative) to be false and
    variable 1 to be true, not the reverse.  Called on the
    representative 2 and the node 1, the first query still carries the
    literal [Abc_Var2Lit(0,1)] of node 1, the node, and
    [Abc_Var2Lit(1,0)] of node 2, the representative. *)
Lemma C1_counterexample :
  (exists m' st,
      Cec2_ManSolveTwo false answer_unsat polarity_odd accept_all recognize_node6
        ex_man 1 2 false = Ok (m', st)
      /\ hd [] (sat_queries (pSat m')) = [Abc_Var2Lit 0 true; Abc_Var2Lit 1 false]
      /\ map lit_value (hd [] (sat_queries (pSat m'))) = [(0, false); (1, true)]
      /\ map lit_value (hd [] (sat_queries (pSat m'))) <> [(0, true); (1, false)])
  /\
  (exists m' st,
      Cec2_ManSolveTwo false answer_unsat polarity_odd accept_all recognize_node6
        ex_man 2 1 false = Ok (m', st)
      /\ hd [] (sat_queries (pSat m')) = [Abc_Var2Lit 0 true; Abc_Var2Lit 1 false]
      /\ hd [] (sat_queries (pSat m')) <> [Abc_Var2Lit 1 true; Abc_Var2Lit 0 false]).
Proof.
  split.
  - eexists. eexists. split; [vm_compute; reflexivity|]. vm_compute.
    repeat split; intros H; discriminate H.
  - eexists. eexists. split; [vm_compute; reflexivity|]. vm_compute.
    repeat split; intros H; discriminate H.
Qed.

Lemma C1_two_polarities_witness :
  exists m' st iVar0 iVar1,
    Cec2_ManSolveTwo false answer_unsat polarity_odd accept_all recognize_node6
      ex_man 3 4 false = Ok (m', st)
    /\ sat_queries (pSat m')
       = [[Abc_Var2Lit iVar0 true; Abc_Var2Lit iVar1 false];
          [Abc_Var2Lit iVar0 false; Abc_Var2Lit iVar1 true]].
Proof.
  destruct (Cec2_ManSolveTwo false answer_unsat polarity_odd accept_all recognize_node6
              ex_man 3 4 false) as [[m' st]| |] eqn:E;
    [|vm_compute in E; discriminate E..].
  destruct (proj1 (proj2 (C1_two_polarities false answer_unsat polarity_odd accept_all
                            recognize_node6)) _ _ _ _ _ _ E)
    as (m1 & m2 & iVar0 & iVar1 & cl & _ & _ & _ & _ & _ & Hq & _).
  exists m', st, iVar0, iVar1. split; [reflexivity | exact Hq].
Defined.

(** ** C2 *)

(** With assertions compiled in and a solver that gives up, the sweep
    of node 4 of [ex_man] stops on the assertion. *)
Lemma C2_counterexample :
  Cec2_ManSweepNode false answer_undec polarity_odd accept_all recognize_node6 ex_man 4
  = AssertFail.
Proof. vm_compute. reflexivity. Qed.

Lemma C2_undec_witness :
  exists m',
    Cec2_ManSweepNode true answer_undec polarity_odd accept_all recognize_node6 ex_man 4
    = Ok (m', 1)
    /\ Gia_ObjFailed (pAig m') 4 = true
    /\ Gia_ObjProved (pAig m') 4 = false.
Proof.
  destruct (sweep_query true answer_undec polarity_odd accept_all recognize_node6 ex_man 4)
    as [[m1 st]| |] eqn:E; [|vm_compute in E; discriminate E..].
  assert (st = SATOKO_UNDEC) as ->.
  { pose proof E as E'. vm_compute in E'. injection E' as _ <-. reflexivity. }
  destruct (proj2 (C2_undec_marks_failed_then_asserts true answer_undec polarity_odd
                     accept_all recognize_node6 ex_man m1 4 E) eq_refl)
    as (m' & Hrun & _ & Hf & Hp & _).
  exists m'. split; [exact Hrun|]. split.
  - apply Hf. vm_compute. split; [discriminate | reflexivity].
  - rewrite Hp. reflexivity.
Defined.

(** ** C3 *)

Lemma C3_sim_equal_witness :
  Cec2_ObjSimEqual ex_class 1 4 = true <->
  (forall w, 0 <= w < 1 ->
     sim_read ex_class (Cec2_ObjSim ex_class 1) w
     = word_not (sim_read ex_class (Cec2_ObjSim ex_class 4) w)).
Proof.
  apply (proj2 (proj2 (proj2 (C3_sim_equal_iff_equal_or_complement ex_class 1 4)))).
  vm_compute. intros H. discriminate H.
Defined.

(** ** C4 *)

Lemma C4_refine_one_witness :
  exists p',
    Cec2_ManSimClassRefineOne false ex_class 1 = Ok p'
    /\ class_members p' 1 [2; 4]
    /\ class_members p' 3 []
    /\ Gia_ObjRepr p' 3 = GIA_VOID.
Proof.
  destruct (C4_refine_one_splits_class false ex_class 1 [2; 3; 4])
    as (p' & Hrun & Hkeep & _ & Hmove & _).
  - vm_compute. repeat split; first [reflexivity | intros H; discriminate H].
  - simpl. repeat constructor.
  - repeat constructor; vm_compute; intros H; discriminate H.
  - reflexivity.
  - discriminate.
  - exists p'. split; [exact Hrun|].
    change (List.filter (Cec2_ObjSimEqual ex_class 1) [2; 3; 4]) with [2; 4] in Hkeep.
    change (List.filter (fun x => negb (Cec2_ObjSimEqual ex_class 1 x)) [2; 3; 4])
      with [3] in Hmove.
    destruct Hmove as (Hm & Hv & _). auto.
Defined.

(** ** C5 *)

(** A super-gate of two leaves gets three clauses, not five. *)
Lemma C5_counterexample :
  exists s',
    Cec2_AddClausesSuper false accept_all ex_new_vars 3 [(1, false); (2, false)] satoko_create
    = Ok s'
    /\ sat_clauses s' = [[0; 5]; [2; 5]; [1; 3; 4]]
    /\ length (sat_clauses s') <> (2 * 2 + 1)%nat.
Proof.
  eexists. split; [vm_compute; reflexivity|]. vm_compute.
  split; [reflexivity | intros H; discriminate H].
Qed.

Lemma C5_clause_counts_witness :
  (exists s' cs,
      Cec2_AddClausesMux false accept_all recognize_node6 ex_mux 6 satoko_create = Ok s'
      /\ sat_clauses s' = sat_clauses satoko_create ++ cs /\ length cs = 6%nat)
  /\
  (exists s' cs c,
      Cec2_AddClausesSuper false accept_all ex_new_vars 3 [(1, false); (2, false)]
        satoko_create = Ok s'
      /\ sat_clauses s' = sat_clauses satoko_create ++ cs ++ [c]
      /\ length (cs ++ [c]) = 3%nat).
Proof.
  split.
  - destruct (Cec2_AddClausesMux false accept_all recognize_node6 ex_mux 6 satoko_create)
      as [s'| |] eqn:E; [|vm_compute in E; discriminate E..].
    pose proof (proj1 (C5_clause_counts false accept_all recognize_node6) _ _ _ _ E) as H.
    simpl in H. destruct H as (cs & Hcs & _ & Hlen).
    exists s', cs. split; [reflexivity|]. split; [exact Hcs | exact Hlen].
  - destruct (Cec2_AddClausesSuper false accept_all ex_new_vars 3 [(1, false); (2, false)]
                satoko_create) as [s'| |] eqn:E; [|vm_compute in E; discriminate E..].
    destruct (proj2 (C5_clause_counts false accept_all recognize_node6) _ _ _ _ _ E)
      as (cs & c & Hcs & _ & _ & _ & Hlen).
    exists s', cs, c. split; [reflexivity|]. split; [exact Hcs | exact Hlen].
Defined.

(** ** C6 *)

Lemma C6_miter_witness :
  exists p',
    Cec2_ManPerformSweeping false answer_unsat polarity_odd accept_all recognize_node6
      (fun _ _ => false) (fun p _ _ => (p, 0)) (fun n => n) (fun _ => 0)
      0%nat ex_miter (mkPar 8 4 1000 true false true) = Ok (p', 0)
    /\ pCexSeq p' = Some (mkCex 0 [false])
    /\ vSims p' = [].
Proof.
  destruct (C6_miter_nonzero_phase_returns_cex false answer_unsat polarity_odd accept_all
              recognize_node6 (fun _ _ => false) (fun p _ _ => (p, 0)) (fun n => n)
              (fun _ => 0) 0%nat ex_miter (mkPar 8 4 1000 true false true) 0)
    as (i & p' & Hrun & Hi & _ & _ & Hcex & _ & Hsims & _).
  - reflexivity.
  - vm_compute. split; [intros H; discriminate H | reflexivity].
  - vm_compute. reflexivity.
  - exists p'. split; [exact Hrun|]. assert (i = 0) as -> by lia.
    split; [exact Hcex | exact Hsims].
Defined.

(** ** C7 *)

Lemma ex_new_wf : wf_new ex_new.
Proof.
  split; [reflexivity|]. intros i Hi.
  assert (Hcases : i = 0 \/ i = 1 \/ i = 2 \/ i = 3 \/ i = 4)
    by (unfold Gia_ManObjNum, Vec_Size in Hi; simpl in Hi; lia).
  destruct Hcases as [->|[->|[->|[->| ->]]]]; vm_compute;
    repeat split; intros; try discriminate; auto.
Qed.

Lemma C7_sat_ids_witness :
  exists m' st,
    Cec2_ManSolveTwo false answer_sat polarity_odd accept_all recognize_node6
      ex_man 3 4 false = Ok (m', st)
    /\ forall x, 0 <= x < Gia_ManObjNum (pNew m') -> Cec2_ObjSatId (pNew m') x = -1.
Proof.
  destruct (Cec2_ManSolveTwo false answer_sat polarity_odd accept_all recognize_node6
              ex_man 3 4 false) as [[m' st]| |] eqn:E;
    [|vm_compute in E; discriminate E..].
  exists m', st. split; [reflexivity|].
  assert (Hn : 0 <= sat_nvars (pSat ex_man)) by (vm_compute; intros H; discriminate H).
  apply (proj2 (C7_sat_ids_cleaned false answer_sat polarity_odd accept_all recognize_node6
                  ex_man 3 4 false ex_new_wf Hn) m' st E).
  - intros x Hx.
    assert (Hcases : x = 0 \/ x = 1 \/ x = 2 \/ x = 3 \/ x = 4)
      by (unfold Gia_ManObjNum, Vec_Size in Hx; simpl in Hx; lia).
    destruct Hcases as [->|[->|[->|[->| ->]]]]; reflexivity.
Defined.

(** ** C8 *)

(** On [ex_man] a disproof of node 4 moves the counter from 1 to 2 and
    a proof leaves it at 1; the sweep of [ex_miter] stops on the phase
    of its output with the counter it was given; the sweep of
    [ex_user] with one word per node returns with the counter in the
    interval. *)
Lemma C8_pattern_counter_witness :
  (exists m' : Cec2_Man_t,
      Cec2_ManSweepNode false answer_sat polarity_odd accept_all recognize_node6
        ex_man 4 = Ok (m', 0)
      /\ iPatsPi (pAig m') = 2
      /\ 1 <= iPatsPi (pAig m') < 64 * nSimWords (pAig m'))
  /\ (exists m' : Cec2_Man_t,
        Cec2_ManSweepNode false answer_unsat polarity_odd accept_all recognize_node6
          ex_man 4 = Ok (m', 1)
        /\ iPatsPi (pAig m') = 1)
  /\ (exists (p' : Gia_Man_t) (r : Z),
        Cec2_ManPerformSweeping false answer_small polarity_small accept_all recognize_node6
          (fun _ _ => false) ex_hash_and (fun _ => 7) (fun _ => 0)
          10%nat ex_miter (mkPar 1 1 1000 true false false) = Ok (p', r)
        /\ nSimWords p' = nSimWords ex_miter
        /\ iPatsPi p' = iPatsPi ex_miter)
  /\ (exists (p' : Gia_Man_t) (r : Z),
        Cec2_ManPerformSweeping false answer_small polarity_small accept_all recognize_node6
          (fun _ _ => false) ex_hash_and (fun _ => 7) (fun _ => 0)
          10%nat ex_user (mkPar 1 1 1000 false false false) = Ok (p', r)
        /\ nSimWords p' = 1
        /\ 1 <= iPatsPi p' < 64 * nSimWords p').
Proof.
  assert (Hpat : 1 <= iPatsPi (pAig ex_man) < 64 * nSimWords (pAig ex_man))
    by (simpl; lia).
  split; [|split; [|split]].
  - destruct (sweep_query false answer_sat polarity_odd accept_all recognize_node6 ex_man 4)
      as [[m1 st]| |] eqn:E; [|vm_compute in E; discriminate E..].
    assert (st = SATOKO_SAT) as ->
        by (vm_compute in E; injection E as _ <-; reflexivity).
    destruct (C8_pattern_counter_across_sweep false answer_sat polarity_odd
                accept_all recognize_node6 (fun _ _ => false) ex_hash_and
                (fun _ => 7) (fun _ => 0)) as (_ & Hsat & _ & Hany & _).
    destruct (Hsat ex_man m1 4 E Hpat) as (m' & Hrun & _ & _ & Hstep & _).
    exists m'. split; [exact Hrun|]. split; [apply Hstep; simpl; lia|].
    exact (proj1 (proj2 (Hany ex_man m' 4 0 Hrun Hpat))).
  - destruct (sweep_query false answer_unsat polarity_odd accept_all recognize_node6 ex_man 4)
      as [[m1 st]| |] eqn:E; [|vm_compute in E; discriminate E..].
    assert (st = SATOKO_UNSAT) as ->
        by (vm_compute in E; injection E as _ <-; reflexivity).
    destruct (C8_pattern_counter_across_sweep false answer_unsat polarity_odd
                accept_all recognize_node6 (fun _ _ => false) ex_hash_and
                (fun _ => 7) (fun _ => 0)) as (_ & _ & Hunsat & _).
    destruct (Hunsat ex_man m1 4 E) as (m' & Hrun & _ & Hc & _).
    exists m'. split; [exact Hrun | exact Hc].
  - destruct (Cec2_ManPerformSweeping false answer_small polarity_small accept_all
                recognize_node6 (fun _ _ => false) ex_hash_and (fun _ => 7) (fun _ => 0)
                10%nat ex_miter (mkPar 1 1 1000 true false false))
      as [[p' r]| |] eqn:E; [|vm_compute in E; discriminate E..].
    exists p', r. split; [reflexivity|].
    destruct (C8_pattern_counter_across_sweep false answer_small polarity_small
                accept_all recognize_node6 (fun _ _ => false) ex_hash_and
                (fun _ => 7) (fun _ => 0)) as (_ & _ & _ & _ & Hapi).
    apply (proj1 (Hapi 10%nat ex_miter p' (mkPar 1 1 1000 true false false) r E));
      [reflexivity|].
    exists 0. split; [unfold Vec_Size; simpl; lia | reflexivity].
  - destruct (Cec2_ManPerformSweeping false answer_small polarity_small accept_all
                recognize_node6 (fun _ _ => false) ex_hash_and (fun _ => 7) (fun _ => 0)
                10%nat ex_user (mkPar 1 1 1000 false false false))
      as [[p' r]| |] eqn:E; [|vm_compute in E; discriminate E..].
    exists p', r. split; [reflexivity|].
    destruct (C8_pattern_counter_across_sweep false answer_small polarity_small
                accept_all recognize_node6 (fun _ _ => false) ex_hash_and
                (fun _ => 7) (fun _ => 0)) as (_ & _ & _ & _ & Hapi).
    apply (proj2 (Hapi 10%nat ex_user p' (mkPar 1 1 1000 false false false) r E));
      [left; reflexivity | simpl; lia].
Defined.

(** A miter whose output has phase 1, swept with the default number of
    words: the sweep returns 0 with the counter at 0 and no word
    allocated. *)
Lemma C8_counterexample :
  exists p' : Gia_Man_t,
    Cec2_ManPerformSweeping false answer_unsat polarity_odd accept_all recognize_node6
      (fun _ _ => false) (fun p _ _ => (p, 0)) (fun n => n) (fun _ => 0)
      1%nat ex_miter (mkPar 8 4 1000 true false true) = Ok (p', 0)
    /\ iPatsPi p' = 0
    /\ nSimWords p' = 0
    /\ ~ (1 <= iPatsPi p' < 64 * nSimWords p').
Proof.
  eexists. split; [vm_compute; reflexivity|].
  split; [reflexivity|]. split; [reflexivity|]. simpl. lia.
Qed.

(** ** C9 *)



(** * The further properties at work on the small graphs *)

Lemma ex_new_vars_wf : wf_new ex_new_vars.
Proof.
  split; [reflexivity|]. intros i Hi.
  assert (Hcases : i = 0 \/ i = 1 \/ i = 2 \/ i = 3 \/ i = 4)
    by (unfold Gia_ManObjNum, Vec_Size in Hi; simpl in Hi; lia).
  destruct Hcases as [->|[->|[->|[->| ->]]]]; vm_compute;
    repeat split; intros; try discriminate; auto.
Qed.

Lemma ex_new_vars_model :
  model_valuation ex_new_vars (mkSat 0 [] [] Z.odd []) (fun i => i =? 2).
Proof.
  split; [reflexivity|]. split.
  - intros i Hi.
    assert (Hr : 0 <= i < 5).
    { destruct (Z.le_gt_cases 0 i), (Z.lt_ge_cases i 5); try lia;
        unfold Gia_ManObj in Hi; rewrite Vec_Entry_default_out in Hi
          by (unfold Vec_Size; simpl; lia); discriminate Hi. }
    assert (Hcases : i = 0 \/ i = 1 \/ i = 2 \/ i = 3 \/ i = 4) by lia.
    destruct Hcases as [->|[->|[->|[->| ->]]]]; vm_compute in Hi |- *;
      first [reflexivity | discriminate Hi].
  - intros i Hi. pose proof (Gia_ObjIsAnd_in_range _ _ Hi) as Hr.
    assert (Hcases : i = 0 \/ i = 1 \/ i = 2 \/ i = 3 \/ i = 4)
      by (unfold Gia_ManObjNum, Vec_Size in Hr; simpl in Hr; lia).
    destruct Hcases as [->|[->|[->|[->| ->]]]]; vm_compute in Hi |- *;
      first [reflexivity | discriminate Hi].
Qed.

Lemma ex_aig_fanins_below : fanins_below ex_aig.
Proof.
  intros i. split; intros Hi.
  - pose proof (Gia_ObjIsAnd_in_range _ _ Hi) as Hr.
    assert (Hcases : i = 0 \/ i = 1 \/ i = 2 \/ i = 3 \/ i = 4)
      by (unfold Gia_ManObjNum, Vec_Size in Hr; simpl in Hr; lia).
    destruct Hcases as [->|[->|[->|[->| ->]]]]; vm_compute in Hi |- *;
      first [discriminate Hi | repeat split; intros H; discriminate H].
  - pose proof (Gia_ObjIsCo_in_range _ _ Hi) as Hr.
    assert (Hcases : i = 0 \/ i = 1 \/ i = 2 \/ i = 3 \/ i = 4)
      by (unfold Gia_ManObjNum, Vec_Size in Hr; simpl in Hr; lia).
    destruct Hcases as [->|[->|[->|[->| ->]]]]; vm_compute in Hi; discriminate Hi.
Qed.

Lemma ex_miter_fanins_below : fanins_below (Cec2_ManSimAlloc ex_miter 1).
Proof.
  intros i. split; intros Hi.
  - pose proof (Gia_ObjIsAnd_in_range _ _ Hi) as Hr.
    assert (Hcases : i = 0 \/ i = 1 \/ i = 2)
      by (unfold Gia_ManObjNum, Vec_Size in Hr; simpl in Hr; lia).
    destruct Hcases as [->|[->| ->]]; vm_compute in Hi; discriminate Hi.
  - pose proof (Gia_ObjIsCo_in_range _ _ Hi) as Hr.
    assert (Hcases : i = 0 \/ i = 1 \/ i = 2)
      by (unfold Gia_ManObjNum, Vec_Size in Hr; simpl in Hr; lia).
    destruct Hcases as [->|[->| ->]]; vm_compute in Hi |- *;
      first [discriminate Hi | repeat split; intros H; discriminate H].
Qed.

Lemma ex_new_no_vars : vars_inv ex_new satoko_create.
Proof.
  intros x Hx Hv. exfalso.
  assert (Hcases : x = 0 \/ x = 1 \/ x = 2 \/ x = 3 \/ x = 4)
    by (unfold Vec_Size in Hx; simpl in Hx; lia).
  destruct Hcases as [->|[->|[->|[->| ->]]]]; vm_compute in Hv; apply Hv; reflexivity.
Qed.

(** ** X1 *)

Lemma X1_super_clauses_witness :
  exists s' cs,
    Cec2_AddClausesSuper false accept_all ex_new_vars 3 [(1, false); (2, false)] satoko_create
    = Ok s'
    /\ sat_clauses s' = sat_clauses satoko_create ++ cs
    /\ forall sigma : Z -> bool,
         cnf_true sigma cs = Bool.eqb (sigma 2) (sigma 0 && (sigma 1 && true)).
Proof.
  destruct (Cec2_AddClausesSuper false accept_all ex_new_vars 3 [(1, false); (2, false)]
              satoko_create) as [s'| |] eqn:E; [|vm_compute in E; discriminate E..].
  destruct (X1_super_clauses_encode_and false accept_all _ _ _ _ _ E) as (cs & Hcs & Hsem).
  exists s', cs. split; [reflexivity|]. split; [exact Hcs|].
  intros sigma. rewrite Hsem. unfold node_value, ptr_value. simpl.
  now rewrite !xorb_false_r.
Defined.

(** ** X2 *)

Lemma X2_mux_clauses_witness :
  exists s' cs,
    Cec2_AddClausesMux false accept_all recognize_node6 ex_mux 6 satoko_create = Ok s'
    /\ sat_clauses s' = sat_clauses satoko_create ++ cs
    /\ forall sigma : Z -> bool,
         cnf_true sigma cs
         = Bool.eqb (sigma 3) (if sigma 0 then negb (sigma 1) else negb (sigma 2)).
Proof.
  destruct (Cec2_AddClausesMux false accept_all recognize_node6 ex_mux 6 satoko_create)
    as [s'| |] eqn:E; [|vm_compute in E; discriminate E..].
  pose proof (X2_mux_clauses_encode_ite false accept_all recognize_node6 _ _ _ _ E) as H.
  simpl in H. destruct H as (cs & Hcs & Hsem).
  exists s', cs. split; [reflexivity|]. split; [exact Hcs|].
  intros sigma. rewrite Hsem. unfold node_value, ptr_value. simpl.
  now rewrite !xorb_true_r.
Defined.

(** ** X3 *)

Lemma X3_super_gate_witness :
  exists vSuper,
    Cec2_CollectSuper false ex_new 3 true = Ok vSuper
    /\ NoDup vSuper
    /\ forall val : Z -> bool,
         and_consistent ex_new val -> forallb (ptr_value val) vSuper = val 3.
Proof. apply (X3_super_gate_leaves false ex_new 3 true ex_new_wf). reflexivity. Defined.

(** ** X4 *)

Lemma X4_verify_witness :
  exists p',
    Cec2_ManVerify false ex_new_vars 3 4 false (mkSat 0 [] [] Z.odd []) = Ok (p', true)
    /\ same_graph ex_new_vars p'.
Proof.
  apply (X4_verify_evaluates_model false ex_new_vars 3 4 false (mkSat 0 [] [] Z.odd [])
           (fun i => i =? 2) ex_new_vars_wf ex_new_vars_model);
    unfold Gia_ManObjNum, Vec_Size; simpl; lia.
Defined.

(** ** X5 *)

Lemma X5_sim_and_witness :
  Abc_InfoHasBit (vSims (Cec2_ObjSimAnd ex_aig 3)) (Cec2_ObjSim (Cec2_ObjSimAnd ex_aig 3) 3) 1
  = Abc_InfoHasBit (vSims ex_aig) (Cec2_ObjSim ex_aig 1) 1
    && Abc_InfoHasBit (vSims ex_aig) (Cec2_ObjSim ex_aig 2) 1.
Proof.
  assert (H : 0 < nSimWords ex_aig /\ 0 <= 3
              /\ nSimWords ex_aig * (3 + 1) <= Vec_Size (vSims ex_aig)
              /\ 0 <= Gia_ObjFaninId0 (Gia_ManObj ex_aig 3) < 3
              /\ 0 <= Gia_ObjFaninId1 (Gia_ManObj ex_aig 3) < 3)
    by (vm_compute; repeat split; first [reflexivity | intros H; discriminate H]).
  destruct H as (H1 & H2 & H3 & H4 & H5).
  rewrite (proj1 (X5_sim_and_is_conjunction ex_aig 3 H1 H2 H3 H4 H5) 1)
    by (simpl; lia).
  reflexivity.
Defined.

(** ** X6 *)

Lemma X6_simulated_patterns_witness :
  and_consistent ex_aig (pattern (simulate_ands ex_aig) 1).
Proof.
  apply (X6_simulated_patterns_are_consistent ex_aig).
  - split; [simpl; lia | vm_compute; repeat split; first [reflexivity | intros H; discriminate H]].
  - exact ex_aig_fanins_below.
  - simpl. lia.
Defined.

(** ** X7 *)

Lemma X7_sim_co_witness :
  pattern (Cec2_ObjSimCo (Cec2_ManSimAlloc ex_miter 1) 2) 5 2
  = negb (pattern (Cec2_ManSimAlloc ex_miter 1) 5 1).
Proof.
  assert (H : 0 < nSimWords (Cec2_ManSimAlloc ex_miter 1) /\ 0 <= 2
              /\ nSimWords (Cec2_ManSimAlloc ex_miter 1) * (2 + 1)
                 <= Vec_Size (vSims (Cec2_ManSimAlloc ex_miter 1))
              /\ 0 <= Gia_ObjFaninId0 (Gia_ManObj (Cec2_ManSimAlloc ex_miter 1) 2) < 2)
    by (vm_compute; repeat split; first [reflexivity | intros H; discriminate H]).
  destruct H as (H1 & H2 & H3 & H4).
  rewrite (proj1 (X7_sim_co_copies_driver (Cec2_ManSimAlloc ex_miter 1) 2 H1 H2 H3 H4) 5)
    by (simpl; lia).
  reflexivity.
Defined.

(** ** X8 *)

Lemma X8_simulate_cis_witness :
  pattern (Cec2_ManSimulateCis Z.of_nat ex_aig) 0 1 = false
  /\ pattern (Cec2_ManSimulateCis Z.of_nat ex_aig) 0 2 = false
  /\ nRandom (Cec2_ManSimulateCis Z.of_nat ex_aig) = 2%nat.
Proof.
  assert (H1 : 0 < nSimWords ex_aig) by (simpl; lia).
  assert (H2 : Forall (fun Id => 0 <= Id
                                 /\ nSimWords ex_aig * (Id + 1) <= Vec_Size (vSims ex_aig))
                      (vCis ex_aig))
    by (repeat constructor; vm_compute; repeat split; first [reflexivity | intros H; discriminate H]).
  assert (H3 : NoDup (vCis ex_aig)) by (apply (bool_decide_unpack _); vm_compute; exact I).
  destruct (X8_simulate_cis_fresh_patterns Z.of_nat ex_aig H1 H2 H3) as (Hci & _ & Hn & _).
  split; [exact (proj1 (Hci 0%nat 1 eq_refl))|].
  split; [exact (proj1 (Hci 1%nat 2 eq_refl)) | exact Hn].
Defined.

(** ** X9 *)

Lemma X9_set_input_bit_witness :
  pattern (Cec2_ObjSimSetInputBit ex_aig 1 false) 1 1 = false
  /\ pattern (Cec2_ObjSimSetInputBit ex_aig 1 false) 3 1 = pattern ex_aig 3 1.
Proof.
  assert (H : 0 < nSimWords ex_aig /\ 0 <= 1
              /\ nSimWords ex_aig * (1 + 1) <= Vec_Size (vSims ex_aig)
              /\ 0 <= iPatsPi ex_aig < 64 * nSimWords ex_aig)
    by (vm_compute; repeat split; first [reflexivity | intros H; discriminate H]).
  destruct H as (H1 & H2 & H3 & H4).
  destruct (X9_set_input_bit ex_aig 1 false H1 H2 H3 H4) as (Hset & Hother & _).
  split; [exact Hset|]. apply Hother; [lia | simpl; lia | right; simpl; lia].
Defined.

(** ** X10 *)

Lemma X10_sim_equal_witness :
  Cec2_ObjSimEqual ex_class 2 4 = Cec2_ObjSimEqual ex_class 4 2.
Proof.
  apply (X10_sim_equal_is_equivalence ex_class).
  repeat constructor; vm_compute; repeat split; first [reflexivity | intros H; discriminate H].
Defined.

(** ** X11 *)

Lemma X11_simulate_cos_witness :
  (exists p' r,
      Cec2_ManSimulateCos (Cec2_ManSimAlloc ex_miter 1) = (p', r)
      /\ p' = set_pCexSeq (set_vSims (Cec2_ManSimAlloc ex_miter 1) (vSims p')) (pCexSeq p')
      /\ (r = 1 \/ r = 0))
  /\ (exists p' cex,
        Cec2_ManSimulateCos (set_vSims (Cec2_ManSimAlloc ex_miter 1) [0; 5; 0]) = (p', 0)
        /\ pCexSeq p' = Some cex
        /\ iPo cex = 0
        /\ length (ciBits cex) = 1%nat
        /\ Cec2_ObjSimEqual p' 2 0 = false).
Proof.
  split.
  - destruct (X11_simulate_cos_first_failure (Cec2_ManSimAlloc ex_miter 1))
      as (p' & r & Hrun & Hp' & Hres).
    + split; [simpl; lia | vm_compute; repeat split; first [reflexivity | intros H; discriminate H]].
    + exact ex_miter_fanins_below.
    + repeat constructor.
    + apply (bool_decide_unpack _). vm_compute. exact I.
    + exists p', r. split; [exact Hrun|]. split; [exact Hp'|].
      destruct Hres as [(-> & _)|(-> & _)]; auto.
  - destruct (X11_simulate_cos_first_failure
                (set_vSims (Cec2_ManSimAlloc ex_miter 1) [0; 5; 0]))
      as (p' & r & Hrun & Hp' & Hres).
    + split; [simpl; lia | vm_compute; repeat split; first [reflexivity | intros H; discriminate H]].
    + exact ex_miter_fanins_below.
    + repeat constructor.
    + apply (bool_decide_unpack _). vm_compute. exact I.
    + assert (r = 0) as -> by (vm_compute in Hrun; injection Hrun as _ <-; reflexivity).
      destruct Hres as [(Hr & _)|(_ & k & Id & cex & Hk & Hc & Hi & Hl & Hne & _)];
        [discriminate Hr|].
      destruct k as [|k]; [|destruct k; discriminate Hk].
      injection Hk as <-.
      exists p', cex. split; [exact Hrun|]. split; [exact Hc|].
      split; [exact Hi|]. split; [exact Hl | exact Hne].
Defined.

(** ** X12 *)

Lemma X12_sweeping_result_witness :
  exists p',
    Cec2_ManPerformSweeping false answer_unsat polarity_odd accept_all recognize_node6
      (fun _ _ => false) (fun p _ _ => (p, 0)) (fun n => n) (fun _ => 0)
      1%nat ex_miter (mkPar 1 4 1000 true false true) = Ok (p', 0)
    /\ pCexSeq p' <> None.
Proof.
  destruct (Cec2_ManPerformSweeping false answer_unsat polarity_odd accept_all recognize_node6
              (fun _ _ => false) (fun p _ _ => (p, 0)) (fun n => n) (fun _ => 0)
              1%nat ex_miter (mkPar 1 4 1000 true false true)) as [[p' r]| |] eqn:E;
    [|vm_compute in E; discriminate E..].
  assert (r = 0) as -> by (vm_compute in E; injection E as _ <-; reflexivity).
  exists p'. split; [reflexivity|].
  destruct (X12_sweeping_result_and_cex _ _ _ _ _ _ _ _ _ _ _ _ _ _ E) as [(_ & H)|(H & _)];
    [exact H | discriminate H].
Defined.

(** ** X13 *)

Lemma X13_solve_two_witness :
  Cec2_ManSolveTwo false answer_unsat polarity_odd accept_all recognize_node6 ex_man 3 3 false
  = AssertFail.
Proof.
  apply (proj1 (proj2 (X13_solve_two_argument_order false answer_unsat polarity_odd
                         accept_all recognize_node6)) eq_refl).
Defined.

(** ** X14 *)

Lemma X14_set_clean_witness :
  exists p1,
    Cec2_ObjSetSatId false ex_new 1 7 = Ok (p1, 7)
    /\ Cec2_ObjSatId p1 1 = 7
    /\ Cec2_ObjCleanSatId false p1 1 = Ok ex_new.
Proof.
  apply (proj1 (X14_set_clean_sat_id false) ex_new 1 7).
  - vm_compute; repeat split; first [reflexivity | intros H; discriminate H].
  - reflexivity.
  - lia.
Defined.

(** ** X15 *)

Lemma X15_collected_nodes_witness :
  exists m3 m4,
    Cec2_ManCollect_rec false 4 (before_collect (set_pNew ex_man ex_new_vars)) 3 = Ok m3
    /\ Cec2_ManCollect_rec false 5 m3 4 = Ok m4
    /\ NoDup (vNodesNew m4)
    /\ exists pN, clean_sat_ids false (vNodesNew m4) (pNew m4) = Ok pN.
Proof.
  destruct (Cec2_ManCollect_rec false 4 (before_collect (set_pNew ex_man ex_new_vars)) 3)
    as [m3| |] eqn:E3; [|vm_compute in E3; discriminate E3..].
  destruct (Cec2_ManCollect_rec false 5 m3 4) as [m4| |] eqn:E4.
  - exists m3, m4. split; [reflexivity|]. split; [exact E4|].
    destruct (X15_collected_nodes_are_distinct false _ _ _ _ _ _ _ E3 E4) as (H1 & _ & H2).
    split; [exact H1 | exact H2].
  - exfalso. vm_compute in E3. injection E3 as <-. vm_compute in E4. discriminate E4.
  - exfalso. vm_compute in E3. injection E3 as <-. vm_compute in E4. discriminate E4.
Defined.

(** ** X16 *)

Lemma X16_cnf_variables_witness :
  exists m' v,
    Cec2_ObjGetCnfVar false accept_all recognize_node6 ex_man 3 = Ok (m', v)
    /\ vars_inv (pNew m') (pSat m')
    /\ Cec2_ObjSatId (pNew m') 3 = v
    /\ 0 <= v < sat_nvars (pSat m').
Proof.
  destruct (Cec2_ObjGetCnfVar false accept_all recognize_node6 ex_man 3)
    as [[m' v]| |] eqn:E; [|vm_compute in E; discriminate E..].
  exists m', v. split; [reflexivity|].
  destruct (X16_cnf_variables_are_fresh false accept_all recognize_node6 ex_man m' 3 v E
              ex_new_no_vars) as (H1 & _ & _ & H2 & H3).
  - simpl. lia.
  - vm_compute; repeat split; first [reflexivity | intros H; discriminate H].
  - auto.
Defined.

(** ** X17 *)

Lemma X17_manager_creation_witness :
  wf_new (pNew (Cec2_ManCreate ex_aig Cec2_SetDefaultParams))
  /\ Gia_ManObjNum (pNew (Cec2_ManCreate ex_aig Cec2_SetDefaultParams)) = 3.
Proof.
  destruct (X17_manager_creation ex_aig Cec2_SetDefaultParams) as (H1 & H2 & _).
  - apply (bool_decide_unpack _). vm_compute. exact I.
  - repeat constructor; vm_compute; reflexivity.
  - split; [exact H1 | exact H2].
Defined.

(** ** X18 *)

Lemma X18_model_becomes_pattern_witness :
  pattern (set_input_bits (mkSat 0 [] [] Z.odd []) (pairs_flat [(1, 1); (2, 0)]) ex_aig)
    (iPatsPi ex_aig) 1 = true
  /\ pattern (set_input_bits (mkSat 0 [] [] Z.odd []) (pairs_flat [(1, 1); (2, 0)]) ex_aig)
       (iPatsPi ex_aig) 2 = false.
Proof.
  assert (H : 0 < nSimWords ex_aig /\ 0 <= iPatsPi ex_aig < 64 * nSimWords ex_aig)
    by (vm_compute; repeat split; first [reflexivity | intros H; discriminate H]).
  destruct H as (H1 & H2).
  assert (H3 : Forall (fun ab : Z * Z => 0 <= fst ab
                 /\ nSimWords ex_aig * (fst ab + 1) <= Vec_Size (vSims ex_aig))
                 [(1, 1); (2, 0)])
    by (repeat constructor; vm_compute; intros H; discriminate H).
  assert (H4 : NoDup (map fst [(1, 1); (2, 0)]))
    by (apply (bool_decide_unpack _); vm_compute; exact I).
  destruct (X18_model_becomes_pattern (mkSat 0 [] [] Z.odd []) [(1, 1); (2, 0)] ex_aig
              H1 H2 H3 H4) as (Hset & _).
  split.
  - apply (Hset 1 1). apply (bool_decide_unpack _). vm_compute. exact I.
  - apply (Hset 2 0). apply (bool_decide_unpack _). vm_compute. exact I.
Defined.

(** ** X19 *)

Lemma ex_class_nodes (x : Z) :
  0 <= x < Gia_ManObjNum ex_class -> x = 0 \/ x = 1 \/ x = 2 \/ x = 3 \/ x = 4.
Proof. unfold Gia_ManObjNum, Vec_Size. simpl. lia. Qed.

Lemma ex_class_wf : classes_wf ex_class.
Proof.
  split; [reflexivity|]. split; [reflexivity|].
  split; [vm_compute; intros H; discriminate H|]. split.
  - intros x Hx Hv.
    destruct (ex_class_nodes x Hx) as [->|[->|[->|[->| ->]]]];
      first [ exfalso; apply Hv; reflexivity
            | split; [vm_compute; split; [intros H; discriminate H | reflexivity]
                     | reflexivity] ].
  - intros h Hh Hv.
    destruct (ex_class_nodes h Hh) as [->|[->|[->|[->| ->]]]];
      try (vm_compute in Hv; discriminate Hv).
    + exists []. split; [vm_compute; intros H; discriminate H|].
      split; [simpl; auto|]. intros x. split; [intros []|].
      intros (Hx & Ex).
      destruct (ex_class_nodes x Hx) as [->|[->|[->|[->| ->]]]];
        vm_compute in Ex; discriminate Ex.
    + exists [2; 3; 4]. split; [vm_compute; repeat split; intros H; discriminate H|].
      split; [simpl; repeat constructor|]. intros x. split.
      * intros [<-|[<-|[<-|[]]]]; (split; [vm_compute; split; [intros H; discriminate H | reflexivity] | reflexivity]).
      * intros (Hx & Ex).
        destruct (ex_class_nodes x Hx) as [->|[->|[->|[->| ->]]]];
          first [vm_compute in Ex; discriminate Ex | simpl; auto].
Qed.

Lemma ex_class_words_64 : words_64 ex_class.
Proof. repeat constructor; vm_compute; first [reflexivity | intros H; discriminate H]. Qed.

Lemma X19_refinement_pass_witness :
  exists p',
    refine_all_classes false ex_class = Ok p'
    /\ class_of p' 2 = class_of p' 4
    /\ class_of p' 2 <> class_of p' 3.
Proof.
  destruct (X19_refinement_pass_splits_by_simulation false ex_class
              ex_class_wf ex_class_words_64) as (p' & E & _ & _ & H).
  assert (R : forall x, In x [2; 3; 4] -> 0 <= x < Gia_ManObjNum ex_class).
  { intros x [<-|[<-|[<-|[]]]]; vm_compute; split;
      first [reflexivity | intros H'; discriminate H']. }
  exists p'. split; [exact E|]. split.
  - apply (H 2 4); [apply R; simpl; auto | apply R; simpl; auto|].
    split; reflexivity.
  - intros Ec. apply (H 2 3) in Ec; [|apply R; simpl; auto | apply R; simpl; auto].
    destruct Ec as (_ & Eq). vm_compute in Eq. discriminate Eq.
Defined.

(** ** X20 *)

Lemma X20_create_classes_witness :
  exists p',
    Cec2_ManCreateClasses false (fun _ => 7) ex_class = Ok p'
    /\ class_of p' 2 = class_of p' 4
    /\ class_of p' 1 <> class_of p' 3.
Proof.
  destruct (X20_create_classes_by_simulation false (fun _ => 7) ex_class ex_class_words_64)
    as (p' & E & _ & _ & _ & _ & H).
  - reflexivity.
  - vm_compute. intros H. discriminate H.
  - assert (R : forall x, In x [1; 2; 3; 4] -> 0 <= x < Gia_ManObjNum ex_class).
    { intros x [<-|[<-|[<-|[<-|[]]]]]; vm_compute; split;
        first [reflexivity | intros H'; discriminate H']. }
    exists p'. split; [exact E|]. split.
    + apply (H 2 4); [apply R; simpl; auto | apply R; simpl; auto|].
      right. repeat split; reflexivity.
    + intros Ec. apply (H 1 3) in Ec; [|apply R; simpl; auto | apply R; simpl; auto].
      destruct Ec as [Ec|(_ & _ & Eq)]; [discriminate Ec|].
      vm_compute in Eq. discriminate Eq.
Defined.

(** ** X21 *)

Lemma ex_aig_nodes (x : Z) :
  0 <= x < Gia_ManObjNum ex_aig -> x = 0 \/ x = 1 \/ x = 2 \/ x = 3 \/ x = 4.
Proof. unfold Gia_ManObjNum, Vec_Size. simpl. lia. Qed.

Lemma ex_aig_classes_wf : classes_wf ex_aig.
Proof.
  split; [reflexivity|]. split; [reflexivity|].
  split; [vm_compute; intros H; discriminate H|]. split.
  - intros x Hx Hv.
    destruct (ex_aig_nodes x Hx) as [->|[->|[->|[->| ->]]]];
      first [ exfalso; apply Hv; reflexivity
            | split; [vm_compute; split; [intros H; discriminate H | reflexivity]
                     | reflexivity] ].
  - intros h Hh Hv.
    destruct (ex_aig_nodes h Hh) as [->|[->|[->|[->| ->]]]];
      try (vm_compute in Hv; discriminate Hv).
    1-3: (exists []; split; [vm_compute; intros H; discriminate H|];
          split; [simpl; auto|]; intros x; split; [intros []|];
          intros (Hx & Ex);
          destruct (ex_aig_nodes x Hx) as [->|[->|[->|[->| ->]]]];
          vm_compute in Ex; discriminate Ex).
    exists [4]. split; [vm_compute; repeat split; intros H; discriminate H|].
    split; [simpl; repeat constructor|]. intros x. split.
    + intros [<-|[]].
      split; [vm_compute; split; [intros H; discriminate H | reflexivity] | reflexivity].
    + intros (Hx & Ex).
      destruct (ex_aig_nodes x Hx) as [->|[->|[->|[->| ->]]]];
        first [vm_compute in Ex; discriminate Ex | simpl; auto].
Qed.

Lemma ex_aig_words_64 : words_64 ex_aig.
Proof. repeat constructor; vm_compute; first [reflexivity | intros H; discriminate H]. Qed.

Lemma X21_simulate_then_refine_witness :
  exists p',
    Cec2_ManSimulate false ex_aig = Ok p'
    /\ and_consistent ex_aig (pattern p' 1)
    /\ class_of p' 3 <> class_of p' 4.
Proof.
  destruct (X21_simulate_then_refine false ex_aig) as (p' & E & _ & Hc & H).
  - split; [simpl; lia | vm_compute; repeat split; first [reflexivity | intros H; discriminate H]].
  - exact ex_aig_fanins_below.
  - exact ex_aig_words_64.
  - exact ex_aig_classes_wf.
  - exists p'. split; [exact E|]. split; [apply Hc; simpl; lia|].
    intros Ec. apply (H 3 4) in Ec.
    + destruct Ec as (_ & Eq). vm_compute in E. injection E as <-.
      vm_compute in Eq. discriminate Eq.
    + vm_compute. split; first [reflexivity | intros H'; discriminate H'].
    + vm_compute. split; first [reflexivity | intros H'; discriminate H'].
Defined.

(** ** X22 *)

Lemma no_marks (p0 p : Gia_Man_t) (x : Z) :
  Forall (fun o => fMark0 o = false) (pObjs p0) -> pObjs p = pObjs p0 ->
  fMark0 (Gia_ManObj p x) = false.
Proof.
  intros H Ho. unfold Gia_ManObj, Vec_Entry. rewrite Ho.
  destruct (x <? 0); [reflexivity|].
  destruct (pObjs p0 !! Z.to_nat x) as [o|] eqn:E; [|reflexivity].
  simpl. rewrite Forall_forall in H. apply H. eapply list_elem_of_lookup_2. exact E.
Qed.

Lemma ex_new_recognizes : recognizes_muxes recognize_node6 ex_new.
Proof.
  intros p x Ho Hm. rewrite (no_marks ex_new p x) in Hm; [discriminate Hm | | exact Ho].
  repeat constructor.
Qed.

Lemma ex_mux_nodes (x : Z) :
  0 <= x < Gia_ManObjNum ex_mux_fresh ->
  x = 0 \/ x = 1 \/ x = 2 \/ x = 3 \/ x = 4 \/ x = 5 \/ x = 6.
Proof. unfold Gia_ManObjNum, Vec_Size. simpl. lia. Qed.

Lemma ex_mux_wf : wf_new ex_mux_fresh.
Proof.
  split; [reflexivity|]. intros i Hi.
  destruct (ex_mux_nodes i Hi) as [->|[->|[->|[->|[->|[->| ->]]]]]]; vm_compute;
    repeat split; intros; try discriminate; auto.
Qed.

Lemma ex_mux_no_vars : vars_inv ex_mux_fresh satoko_create.
Proof.
  intros x Hx Hv. exfalso.
  assert (Hcases : x = 0 \/ x = 1 \/ x = 2 \/ x = 3 \/ x = 4 \/ x = 5 \/ x = 6)
    by (unfold Vec_Size in Hx; simpl in Hx; lia).
  destruct Hcases as [->|[->|[->|[->|[->|[->| ->]]]]]];
    vm_compute in Hv; apply Hv; reflexivity.
Qed.

Lemma ex_mux_recognizes : recognizes_muxes recognize_node6 ex_mux_fresh.
Proof.
  intros p x Ho Hm.
  assert (Hobj : forall y, Gia_ManObj p y = Gia_ManObj ex_mux_fresh y)
    by (intros y; unfold Gia_ManObj; now rewrite Ho).
  rewrite Hobj in Hm.
  assert (Hx : x = 6).
  { destruct (Z.lt_ge_cases x 0) as [Hneg|Hpos];
      [unfold Gia_ManObj in Hm; rewrite Vec_Entry_default_out in Hm
         by (unfold Vec_Size; simpl; lia); discriminate Hm|].
    destruct (Z.lt_ge_cases x 7) as [Hlt|Hge];
      [|unfold Gia_ManObj in Hm; rewrite Vec_Entry_default_out in Hm
          by (unfold Vec_Size; simpl; lia); discriminate Hm].
    assert (Hcases : x = 0 \/ x = 1 \/ x = 2 \/ x = 3 \/ x = 4 \/ x = 5 \/ x = 6) by lia.
    destruct Hcases as [->|[->|[->|[->|[->|[->| ->]]]]]];
      first [reflexivity | vm_compute in Hm; discriminate Hm]. }
  subst x. unfold recognize_node6.
  rewrite (mux_fanins_same ex_mux_fresh p 6 Ho).
  split; [vm_compute; auto|]. split; [vm_compute; auto|]. split; [vm_compute; auto|].
  intros val Hval.
  assert (H6 : Gia_ObjIsAnd (Gia_ManObj p 6) = true) by (rewrite Hobj; reflexivity).
  assert (H4 : Gia_ObjIsAnd (Gia_ManObj p 4) = true) by (rewrite Hobj; reflexivity).
  assert (H5 : Gia_ObjIsAnd (Gia_ManObj p 5) = true) by (rewrite Hobj; reflexivity).
  apply Hval in H6, H4, H5. rewrite Hobj in H6, H4, H5.
  unfold ptr_value in *. vm_compute in H6, H4, H5. cbn [fst snd].
  change (Gia_Regular (?a, ?c)) with a. change (Gia_IsComplement (?a, ?c)) with c.
  rewrite H6, H4, H5.
  destruct (val 1), (val 2), (val 3); reflexivity.
Qed.

Lemma ex_mux_valuation :
  and_consistent ex_mux_fresh (fun i => (i =? 1) || (i =? 6)).
Proof.
  intros i Hi. pose proof (Gia_ObjIsAnd_in_range _ _ Hi) as Hr.
  destruct (ex_mux_nodes i Hr) as [->|[->|[->|[->|[->|[->| ->]]]]]];
    vm_compute in Hi |- *; first [reflexivity | discriminate Hi].
Qed.

Lemma X22_clauses_admit_witness :
  exists m' v sigma,
    Cec2_ObjGetCnfVar false accept_all recognize_node6 ex_mux_man 6 = Ok (m', v)
    /\ length (sat_clauses (pSat m')) = 6%nat
    /\ cnf_true sigma (sat_clauses (pSat m')) = true.
Proof.
  destruct (Cec2_ObjGetCnfVar false accept_all recognize_node6 ex_mux_man 6)
    as [[m' v]| |] eqn:E; [|vm_compute in E; discriminate E..].
  destruct (X22_clauses_admit_the_circuit false accept_all recognize_node6 ex_mux_man m' 6 v
              (fun i => (i =? 1) || (i =? 6)) ex_mux_wf ex_mux_recognizes ex_mux_valuation)
    as (cs & Hcs & Hsem & sigma & Hag).
  - simpl. lia.
  - exact ex_mux_no_vars.
  - vm_compute; repeat split; first [reflexivity | intros H; discriminate H].
  - exact E.
  - exists m', v, sigma. split; [reflexivity|]. split.
    + vm_compute in E. injection E as <- _. reflexivity.
    + rewrite Hcs. simpl. now apply Hsem.
Defined.

(** ** X23 *)

Lemma ex_equal_wf : wf_new ex_equal.
Proof.
  split; [reflexivity|]. intros i Hi.
  assert (Hcases : i = 0 \/ i = 1 \/ i = 2 \/ i = 3 \/ i = 4)
    by (unfold Gia_ManObjNum, Vec_Size in Hi; simpl in Hi; lia).
  destruct Hcases as [->|[->|[->|[->| ->]]]]; vm_compute;
    repeat split; intros; try discriminate; auto.
Qed.

Lemma ex_equal_recognizes : recognizes_muxes recognize_node6 ex_equal.
Proof.
  intros p x Ho Hm. rewrite (no_marks ex_equal p x) in Hm; [discriminate Hm | | exact Ho].
  repeat constructor.
Qed.

Lemma ex_equal_no_vars : vars_inv ex_equal satoko_create.
Proof.
  intros x Hx Hv. exfalso.
  assert (Hcases : x = 0 \/ x = 1 \/ x = 2 \/ x = 3 \/ x = 4)
    by (unfold Vec_Size in Hx; simpl in Hx; lia).
  destruct Hcases as [->|[->|[->|[->| ->]]]]; vm_compute in Hv; apply Hv; reflexivity.
Qed.

Lemma assign4_lit (sigma : Z -> bool) (l : Z) :
  (0 <=? fst (lit_value l)) && (fst (lit_value l) <? 4) = true ->
  lit_true (assign4 [sigma 0; sigma 1; sigma 2; sigma 3]) l = lit_true sigma l.
Proof.
  intros Hr. unfold lit_true. f_equal.
  apply andb_true_iff in Hr as (H0 & H4). apply Z.leb_le in H0. apply Z.ltb_lt in H4.
  set (v := fst (lit_value l)) in *.
  assert (v = 0 \/ v = 1 \/ v = 2 \/ v = 3) as [->|[->|[->| ->]]] by lia; reflexivity.
Qed.

Lemma assign4_lits (sigma : Z -> bool) (c : list Z) :
  lits_small c = true ->
  forallb (lit_true (assign4 [sigma 0; sigma 1; sigma 2; sigma 3])) c
  = forallb (lit_true sigma) c
  /\ clause_true (assign4 [sigma 0; sigma 1; sigma 2; sigma 3]) c = clause_true sigma c.
Proof.
  unfold clause_true. induction c as [|l c IH]; intros H; [split; reflexivity|].
  apply andb_true_iff in H as (Hl & Hc). destruct (IH Hc) as (IH1 & IH2).
  cbn [forallb existsb]. rewrite (assign4_lit sigma l Hl), IH1, IH2. split; reflexivity.
Qed.

Lemma answer_small_sound : solver_sound answer_small.
Proof.
  intros cs asm sigma H Hcs. unfold answer_small in H.
  destruct (forallb lits_small cs && lits_small asm) eqn:Er; [|discriminate H].
  destruct (existsb _ all_assign4) eqn:Eex; [discriminate H|].
  apply andb_true_iff in Er as (Rc & Ra).
  destruct (forallb (lit_true sigma) asm) eqn:Ea; [|reflexivity]. exfalso.
  set (bits := [sigma 0; sigma 1; sigma 2; sigma 3]).
  assert (Hin : In bits all_assign4).
  { unfold bits. destruct (sigma 0), (sigma 1), (sigma 2), (sigma 3); simpl;
      repeat first [left; reflexivity | right]. }
  assert (Hasm : forallb (lit_true (assign4 bits)) asm = true).
  { rewrite <- Ea. apply (assign4_lits sigma asm Ra). }
  assert (Hcnf : cnf_true (assign4 bits) cs = true).
  { rewrite <- Hcs. unfold cnf_true. apply forallb_ext_In. intros c Hc.
    rewrite forallb_forall in Rc. apply (assign4_lits sigma c (Rc c Hc)). }
  apply not_true_iff_false in Eex. apply Eex. apply existsb_exists.
  exists bits. split; [exact Hin|]. now rewrite Hcnf, Hasm.
Qed.

Lemma X23_unsat_witness :
  exists m',
    Cec2_ManSolveTwo false answer_small polarity_odd accept_all recognize_node6
      ex_equal_man 3 4 false = Ok (m', SATOKO_UNSAT)
    /\ forall val : Z -> bool,
         val 0 = false -> and_consistent ex_equal val -> xorb (val 3) (val 4) = false.
Proof.
  destruct (Cec2_ManSolveTwo false answer_small polarity_odd accept_all recognize_node6
              ex_equal_man 3 4 false) as [[m' st]| |] eqn:E;
    [|vm_compute in E; discriminate E..].
  assert (Est : st = SATOKO_UNSAT).
  { vm_compute in E. injection E as _ <-. reflexivity. }
  subst st. exists m'. split; [reflexivity|].
  intros val Hv0 Hval.
  apply (X23_unsat_proves_equivalence false answer_small polarity_odd accept_all
           recognize_node6 ex_equal_man m' 3 4 false val answer_small_sound
           ex_equal_recognizes ex_equal_wf).
  - simpl. lia.
  - exact ex_equal_no_vars.
  - reflexivity.
  - reflexivity.
  - vm_compute; repeat split; first [reflexivity | intros H; discriminate H].
  - vm_compute; repeat split; first [reflexivity | intros H; discriminate H].
  - exact E.
  - exact Hv0.
  - exact Hval.
Defined.

(** ** X24 *)

Lemma answer_small_models : solver_models answer_small polarity_small.
Proof.
  intros cs asm H. unfold answer_small in H.
  destruct (forallb lits_small cs && lits_small asm); [|discriminate H].
  destruct (existsb _ all_assign4) eqn:Eex; [|discriminate H].
  unfold polarity_small. destruct (List.find _ all_assign4) as [bits|] eqn:Ef.
  - apply List.find_some in Ef as (_ & Ef). now apply andb_true_iff in Ef.
  - apply existsb_exists in Eex as (bits & Hin & Hb).
    apply (List.find_none _ _ Ef) in Hin. congruence.
Qed.

Lemma X24_sat_witness :
  exists m' val,
    Cec2_ManSolveTwo false answer_small polarity_small accept_all recognize_node6
      ex_man 3 4 false = Ok (m', SATOKO_SAT)
    /\ and_consistent ex_new val /\ xorb (val 3) (val 4) = true.
Proof.
  destruct (Cec2_ManSolveTwo false answer_small polarity_small accept_all recognize_node6
              ex_man 3 4 false) as [[m' st]| |] eqn:E;
    [|vm_compute in E; discriminate E..].
  assert (Est : st = SATOKO_SAT).
  { vm_compute in E. injection E as _ <-. reflexivity. }
  subst st.
  destruct (X24_sat_shows_a_difference false answer_small polarity_small accept_all
              recognize_node6 ex_man m' 3 4 false answer_small_models
              ex_new_recognizes ex_new_wf) as (val & _ & Hval & Hx).
  - simpl. lia.
  - intros x Hx.
    assert (Hcases : x = 0 \/ x = 1 \/ x = 2 \/ x = 3 \/ x = 4)
      by (unfold Gia_ManObjNum, Vec_Size in Hx; simpl in Hx; lia).
    destruct Hcases as [->|[->|[->|[->| ->]]]]; reflexivity.
  - vm_compute; repeat split; first [reflexivity | intros H; discriminate H].
  - vm_compute; repeat split; first [reflexivity | intros H; discriminate H].
  - exact E.
  - exists m', val. split; [reflexivity|]. split; [exact Hval | exact Hx].
Defined.
